(** * Multi-shard native code emission (aotcompile.cpp): a shallow embedding

    The development follows the source file top to bottom: weight
    computation, the union-find partitioner with the greedy assignment and
    its verification pass, shard materialization, the thread-count
    heuristic and the naming of archive members; the mangling of names
    and the summary of a module that feeds the heuristic close the
    embedding.  The definitions that embed the program come first, then
    the notions used to state its properties, then the proofs.

    Fixed build: LP64 host (size_t and unsigned long are 64 bits wide,
    unsigned and int are 32 bits wide), hence [_P32] is not defined.
    Assertions are kept: a run that trips one, reads a vector out of range
    or dereferences a failed lookup has no result ([None]). *)

From Stdlib Require Import ZArith NArith Lia Ascii.
From stdpp Require Import gmap strings list fin_maps pretty sorting.

Local Open Scope N_scope.

(** ** Machine integers *)

Definition wrap32 (x : N) : N := x mod 2 ^ 32.
Definition wrap64 (x : N) : N := x mod 2 ^ 64.
Definition ULONG_MAX : N := 2 ^ 64 - 1.

(** ** Global values of a module *)

Inductive ValueKind := KFunction | KGlobalVariable | KGlobalAlias | KGlobalIFunc.
Inductive Linkage := ExternalLinkage | InternalLinkage | PrivateLinkage | OtherLinkage.
Inductive Visibility := DefaultVisibility | HiddenVisibility | ProtectedVisibility.

Global Instance ValueKind_eq_dec : EqDecision ValueKind.
Proof. solve_decision. Defined.
Global Instance Linkage_eq_dec : EqDecision Linkage.
Proof. solve_decision. Defined.
Global Instance Visibility_eq_dec : EqDecision Visibility.
Proof. solve_decision. Defined.

(** A global value is referred to by its position in [M.global_values()],
    which stands for the [GlobalValue *] of the source. *)
Record GlobalValue := {
  gv_name : string;
  gv_kind : ValueKind;
  gv_is_declaration : bool;
  gv_linkage : Linkage;
  gv_visibility : Visibility;
  (** [hasFnAttribute(Attribute::AlwaysInline)] *)
  gv_always_inline : bool;
  (** [BB.size()] of each basic block of a function, in order *)
  gv_blocks : list N;
  (** the string value of the function attribute "julia.mv.clones" *)
  gv_mv_clones : option string;
  (** what [ConstantUses<GlobalValue>] enumerates for this value: the
      global values that use it, directly or through constant
      expressions and aggregates *)
  gv_constant_users : list nat;
  (** the functions with an instruction that uses this value (a call, a
      load, a store), directly or through a constant expression;
      [ConstantUses<GlobalValue>] passes over these users, an instruction
      being neither a global value nor a constant *)
  gv_instruction_users : list nat
}.

(** The four index-table variables are kept apart from the other global
    values: [jl_fvars] and [jl_gvars] by the operands of their
    initializers (pointer casts stripped), [jl_fvar_idxs] and
    [jl_gvar_idxs] by their presence.  [global_values] and
    [gv_constant_users] describe the module once the tables are erased. *)
Record Module := {
  global_values : list GlobalValue;
  jl_fvars : option (list nat);
  jl_gvars : option (list nat);
  jl_fvar_idxs : bool;
  jl_gvar_idxs : bool
}.

(** ** Weight computation *)

Module Weight.

(** [getDigit(c, 16)] and [APInt(numBits, str, 16)] of LLVM: an optional
    sign, then hexadecimal digits, accumulated by shift and add in
    [numBits] bits; a leading minus negates in two's complement.  [None]
    where LLVM asserts. *)
Definition getDigit (c : ascii) : option N :=
  let n := N_of_ascii c in
  if (48 <=? n) && (n <=? 57) then Some (n - 48)
  else if (65 <=? n) && (n <=? 70) then Some (n - 65 + 10)
  else if (97 <=? n) && (n <=? 102) then Some (n - 97 + 10)
  else None.

Fixpoint read_hex (numBits : N) (slen : nat) (acc : N) (s : string) : option N :=
  match s with
  | EmptyString => Some acc
  | String c r =>
      d ← getDigit c;
      let shifted := if bool_decide (1 < slen)%nat
                     then N.shiftl acc 4 mod 2 ^ numBits else acc in
      read_hex numBits slen ((shifted + d) mod 2 ^ numBits) r
  end.

Definition APInt_fromString (numBits : N) (str : string) : option N :=
  match str with
  | EmptyString => None
  | String c r =>
      let isNeg := bool_decide (c = "-"%char) in
      let digits := if isNeg || bool_decide (c = "+"%char) then r else str in
      let slen := String.length digits in
      if bool_decide (slen = 0%nat) then None
      else if negb ((N.of_nat slen - 1) * 4 <=? numBits) then None
      else
        v ← read_hex numBits slen 0 digits;
        Some (if isNeg then (2 ^ numBits - v) mod 2 ^ numBits else v)
  end.

Fixpoint Pos_popcount (p : positive) : N :=
  match p with
  | xH => 1
  | xO q => Pos_popcount q
  | xI q => 1 + Pos_popcount q
  end.

Definition countPopulation (v : N) : N :=
  match v with
  | N0 => 0
  | Npos p => Pos_popcount p
  end.

Record FunctionInfo := {
  weight : N;
  bbs : N;
  insts : N;
  clones : N
}.

Definition getFunctionWeight (F : GlobalValue) : option FunctionInfo :=
  let bbs := wrap64 (N.of_nat (length (gv_blocks F))) in
  let insts := foldl (fun acc bb => wrap64 (acc + bb)) 0 (gv_blocks F) in
  clones ←
    match gv_mv_clones F with
    | Some val =>
        v ← APInt_fromString (wrap32 (N.of_nat (String.length val) * 4)) val;
        Some (wrap32 (countPopulation v + 1))
    | None => Some 1
    end;
  let weight := wrap64 (1 + insts) in
  let weight := wrap64 (weight + bbs) in
  let weight := wrap64 (weight * clones) in
  Some {| weight := weight; bbs := bbs; insts := insts; clones := clones |}.

End Weight.

(** ** The partitioner *)

Record Partition := {
  globals : gmap string bool;
  fvars : gmap string N;
  gvars : gmap string N;
  weight : N
}.

Definition canPartition (G : GlobalValue) : bool :=
  match gv_kind G with
  | KFunction => negb (gv_always_inline G)
  | _ => true
  end.

(** The weight given to the node of a global value in [partitionModule]. *)
Definition node_weight (G : GlobalValue) : option N :=
  match gv_kind G with
  | KFunction => Weight.weight <$> Weight.getFunctionWeight G
  | _ => Some 1
  end.

(** [get_fvars_gvars]: position of every table entry, keyed by global
    value.  Fails where the source asserts. *)
Fixpoint index_table (i : N) (init : list nat) (names : nat -> option string)
    (acc : gmap nat N) : option (gmap nat N) :=
  match init with
  | [] => Some acc
  | gv :: rest =>
      name ← names gv;
      if bool_decide (name = EmptyString) then None
      else if bool_decide (is_Some (acc !! gv)) then None
      else index_table (wrap32 (i + 1)) rest names (<[gv := i]> acc)
  end.

Definition get_fvars_gvars (M : Module)
    : option (Module * gmap nat N * gmap nat N) :=
  fvars_init ← jl_fvars M;
  gvars_init ← jl_gvars M;
  if negb (jl_fvar_idxs M && jl_gvar_idxs M) then None else
  let names := fun gv => gv_name <$> global_values M !! gv in
  fvars ← index_table 0 fvars_init names ∅;
  gvars ← index_table 0 gvars_init names ∅;
  Some ({| global_values := global_values M; jl_fvars := None; jl_gvars := None;
           jl_fvar_idxs := false; jl_gvar_idxs := false |}, fvars, gvars).

Module Partitioner.

Record Node := {
  GV : nat;
  parent : nat;
  size : N;
  weight : N
}.

Definition set_parent (p : nat) (n : Node) : Node :=
  {| GV := GV n; parent := p; size := size n; weight := weight n |}.
Definition set_size (s : N) (n : Node) : Node :=
  {| GV := GV n; parent := parent n; size := s; weight := weight n |}.
Definition set_weight (w : N) (n : Node) : Node :=
  {| GV := GV n; parent := parent n; size := size n; weight := w |}.

(** The fields [nodes] and [node_map]; the counter [merged] is written
    but never read and is left out. *)
Record t := {
  nodes : list Node;
  node_map : gmap nat nat
}.

Definition make (P : t) (gv : nat) (w : N) : t * nat :=
  let idx := length (nodes P) in
  ({| nodes := nodes P ++ [{| GV := gv; parent := idx; size := 1; weight := w |}];
      node_map := <[gv := idx]> (node_map P) |}, idx).

(** [find] halves the path while it walks to the root.  The loop runs at
    most once per node. *)
Fixpoint find_loop (fuel : nat) (ns : list Node) (idx : nat)
    : option (list Node * nat) :=
  match fuel with
  | O => None
  | S fuel' =>
      n ← ns !! idx;
      if bool_decide (parent n = idx) then Some (ns, idx)
      else
        p ← ns !! parent n;
        find_loop fuel' (<[idx := set_parent (parent p) n]> ns) (parent p)
  end.

Definition find (ns : list Node) (idx : nat) : option (list Node * nat) :=
  find_loop (length ns) ns idx.

Definition merge (ns : list Node) (x y : nat) : option (list Node * nat) :=
  '(ns, x) ← find ns x;
  '(ns, y) ← find ns y;
  if bool_decide (x = y) then Some (ns, x)
  else
    nx ← ns !! x;
    ny ← ns !! y;
    let '(x, y, nx, ny) :=
      if size nx <? size ny then (y, x, ny, nx) else (x, y, nx, ny) in
    let ns := <[y := set_parent x ny]> ns in
    let ns := <[x := set_weight (wrap64 (weight nx + weight ny))
                       (set_size (wrap32 (size nx + size ny)) nx)]> ns in
    Some (ns, x).

End Partitioner.

Definition empty_partition : Partition :=
  {| globals := ∅; fvars := ∅; gvars := ∅; weight := 0 |}.

(** [uses(i)] of the debug check below *)
Definition bump (i : N) (slots : list N) (bad : bool) (id : N)
    : option (list N * bool) :=
  old ← slots !! N.to_nat id;
  Some (<[N.to_nat id := wrap32 (i + 1)]> slots, bad || negb (old =? 0)).

Fixpoint bump_all (i : N) (ids : list N) (st : list N * bool)
    : option (list N * bool) :=
  match ids with
  | [] => Some st
  | id :: rest => st' ← bump i st.1 st.2 id; bump_all i rest st'
  end.

Record verify_state := {
  vs_fvars : list N;
  vs_gvars : list N;
  vs_GVNames : gmap string N;
  vs_bad : bool
}.

Definition verify_names (i : N) (names : list string) (st : gmap string N * bool)
    : gmap string N * bool :=
  foldl (fun st name =>
           (<[name := i]> st.1, st.2 || bool_decide (is_Some (st.1 !! name))))
        st names.

Fixpoint verify_partitions (i : N) (partitions : list Partition)
    (st : verify_state) : option verify_state :=
  match partitions with
  | [] => Some st
  | P :: rest =>
      let '(names, bad) :=
        verify_names i (map_to_list (globals P)).*1 (vs_GVNames st, vs_bad st) in
      '(fv, bad) ← bump_all i (map_to_list (fvars P)).*2 (vs_fvars st, bad);
      '(gv, bad) ← bump_all i (map_to_list (gvars P)).*2 (vs_gvars st, bad);
      verify_partitions (wrap32 (i + 1)) rest
        {| vs_fvars := fv; vs_gvars := gv; vs_GVNames := names; vs_bad := bad |}
  end.

(** The body of the loop over [M.global_values()]: [true] when the
    global value is found misplaced. *)
Definition verify_global (gvs : list GlobalValue) (GVNames : gmap string N)
    (G : GlobalValue) : option bool :=
  let placed := bool_decide (is_Some (GVNames !! gv_name G)) in
  if gv_is_declaration G then Some placed
  else if negb (canPartition G) then Some placed
  else
    users ← mapM (fun val => gvs !! val) (gv_constant_users G);
    Some (negb placed ||
          existsb (fun val =>
                     match GVNames !! gv_name val with
                     | None => true
                     | Some q => negb (bool_decide (Some q = GVNames !! gv_name G))
                     end) users).

Definition verify_partitioning (partitions : list Partition) (M : Module)
    (fvars_size gvars_size : N) : option bool :=
  st ← verify_partitions 0 partitions
         {| vs_fvars := replicate (N.to_nat fvars_size) 0;
            vs_gvars := replicate (N.to_nat gvars_size) 0;
            vs_GVNames := ∅; vs_bad := false |};
  misplaced ← mapM (verify_global (global_values M) (vs_GVNames st))
                   (global_values M);
  let bad := vs_bad st || existsb id misplaced in
  let bad := bad || existsb (fun s => s =? 0) (vs_fvars st) in
  let bad := bad || existsb (fun s => s =? 0) (vs_gvars st) in
  Some (negb bad).

Definition set_hidden_external (G : GlobalValue) : GlobalValue :=
  {| gv_name := gv_name G; gv_kind := gv_kind G;
     gv_is_declaration := gv_is_declaration G;
     gv_linkage := ExternalLinkage; gv_visibility := HiddenVisibility;
     gv_always_inline := gv_always_inline G; gv_blocks := gv_blocks G;
     gv_mv_clones := gv_mv_clones G;
     gv_constant_users := gv_constant_users G;
     gv_instruction_users := gv_instruction_users G |}.

(** The first loop of [partitionModule]: one node per definition that
    can be partitioned, made external and hidden on the way. *)
Fixpoint make_nodes (i : nat) (gvs : list GlobalValue) (P : Partitioner.t)
    : option (list GlobalValue * Partitioner.t) :=
  match gvs with
  | [] => Some ([], P)
  | G :: rest =>
      if gv_is_declaration G then
        '(rest', P') ← make_nodes (S i) rest P; Some (G :: rest', P')
      else if negb (canPartition G) then
        '(rest', P') ← make_nodes (S i) rest P; Some (G :: rest', P')
      else
        w ← node_weight G;
        '(rest', P') ← make_nodes (S i) rest (Partitioner.make P i w).1;
        Some (set_hidden_external G :: rest', P')
  end.

(** The second loop: every node is merged with the users of its value. *)
Fixpoint merge_uses (node_map : gmap nat nat) (i : nat) (uses : list nat)
    (ns : list Partitioner.Node) : option (list Partitioner.Node) :=
  match uses with
  | [] => Some ns
  | val :: rest =>
      idx ← node_map !! val;
      '(ns', _) ← Partitioner.merge ns i idx;
      merge_uses node_map i rest ns'
  end.

Fixpoint merge_all (gvs : list GlobalValue) (node_map : gmap nat nat)
    (idxs : list nat) (ns : list Partitioner.Node)
    : option (list Partitioner.Node) :=
  match idxs with
  | [] => Some ns
  | i :: rest =>
      n ← ns !! i;
      G ← gvs !! Partitioner.GV n;
      ns' ← merge_uses node_map i (gv_constant_users G) ns;
      merge_all gvs node_map rest ns'
  end.

(** [P.globals.insert({name, true})] keeps an entry that is there. *)
Definition insert_new (name : string) (m : gmap string bool) : gmap string bool :=
  match m !! name with
  | Some _ => m
  | None => <[name := true]> m
  end.

Definition set_entry (name : string) (v : option N) (m : gmap string N)
    : gmap string N :=
  match v with
  | Some id => <[name := id]> m
  | None => m
  end.

(** The statements that enter a node's value into partition [p]. *)
Definition record_global (gvs : list GlobalValue) (fvar_ids gvar_ids : gmap nat N)
    (n : Partitioner.Node) (p : nat) (ps : list Partition)
    : option (list Partition) :=
  G ← gvs !! Partitioner.GV n;
  P ← ps !! p;
  let name := gv_name G in
  Some (<[p := {| globals := insert_new name (globals P);
                  fvars := set_entry name (fvar_ids !! Partitioner.GV n) (fvars P);
                  gvars := set_entry name (gvar_ids !! Partitioner.GV n) (gvars P);
                  weight := weight P |}]> ps).

Definition add_weight (w : N) (P : Partition) : Partition :=
  {| globals := globals P; fvars := fvars P; gvars := gvars P;
     weight := wrap64 (weight P + w) |}.

Definition weight_at (ns : list Partitioner.Node) (a : nat) : N :=
  default 0 (Partitioner.weight <$> ns !! a).

Section partition.
(** Two library components whose result the C++ standard leaves partly
    open: [std::sort] of the indices under "heavier first" (any
    ordering of equal weights), and the top of the [std::priority_queue]
    of partitions under "lighter first" (any of the lightest).  The
    queue holds every partition at each [top], as each one popped is
    pushed back in the same iteration; it is represented by the
    partitions themselves. *)
Variable sort_idxs : (nat -> N) -> list nat -> list nat.
Variable pq_top : list Partition -> nat.

Variable gvs : list GlobalValue.
Variable fvar_ids gvar_ids : gmap nat N.

(** One iteration of the assignment loop. *)
Definition assign_step (st : list Partitioner.Node * list Partition) (i : nat)
    : option (list Partitioner.Node * list Partition) :=
  '(ns, root) ← Partitioner.find st.1 i;
  let ps := st.2 in
  nroot ← ns !! root;
  if negb (bool_decide (root = i) || (Partitioner.weight nroot =? 0)) then None
  else
    '(ns, ps) ←
      (if negb (Partitioner.weight nroot =? 0) then
         let p := pq_top ps in
         ps ← record_global gvs fvar_ids gvar_ids nroot p ps;
         P ← ps !! p;
         Some (<[root := Partitioner.set_size (wrap32 (N.of_nat p))
                           (Partitioner.set_weight 0 nroot)]> ns,
               <[p := add_weight (Partitioner.weight nroot) P]> ps)
       else Some (ns, ps));
    if bool_decide (root = i) then Some (ns, ps)
    else
      n ← ns !! i;
      if Partitioner.weight n =? 0 then None
      else
        nroot ← ns !! root;
        ps ← record_global gvs fvar_ids gvar_ids n
               (N.to_nat (Partitioner.size nroot)) ps;
        Some (<[i := Partitioner.set_size (Partitioner.size nroot)
                       (Partitioner.set_weight 0 n)]> ns, ps).

Fixpoint assign_all (idxs : list nat)
    (st : list Partitioner.Node * list Partition)
    : option (list Partitioner.Node * list Partition) :=
  match idxs with
  | [] => Some st
  | i :: rest => st' ← assign_step st i; assign_all rest st'
  end.
End partition.

(** The part of [partitionModule] before the partitions are filled: the
    index tables are taken out, the nodes made and the classes merged. *)
Definition build_classes (M : Module)
    : option (Module * gmap nat N * gmap nat N * list Partitioner.Node) :=
  '(M, fvar_ids, gvar_ids) ← get_fvars_gvars M;
  '(gvs, P) ← make_nodes 0 (global_values M)
                {| Partitioner.nodes := []; Partitioner.node_map := ∅ |};
  let M := {| global_values := gvs; jl_fvars := jl_fvars M; jl_gvars := jl_gvars M;
              jl_fvar_idxs := jl_fvar_idxs M; jl_gvar_idxs := jl_gvar_idxs M |} in
  ns ← merge_all gvs (Partitioner.node_map P)
         (seq 0 (length (Partitioner.nodes P))) (Partitioner.nodes P);
  Some (M, fvar_ids, gvar_ids, ns).

Definition partitionModule (sort_idxs : (nat -> N) -> list nat -> list nat)
    (pq_top : list Partition -> nat) (M : Module) (threads : nat)
    : option (Module * list Partition) :=
  '(M, fvar_ids, gvar_ids, ns) ← build_classes M;
  let partitions := replicate threads empty_partition in
  let idxs := sort_idxs (weight_at ns) (seq 0 (length ns)) in
  '(_, partitions) ← assign_all pq_top (global_values M) fvar_ids gvar_ids idxs
                       (ns, partitions);
  match verify_partitioning partitions M
          (N.of_nat (size fvar_ids)) (N.of_nat (size gvar_ids)) with
  | Some true => Some (M, partitions)
  | _ => None
  end.

(** A deterministic instance of the two library components, to run the
    model: insertion sort (stable) and the first of the lightest
    partitions. *)
Fixpoint insert_desc (key : nat -> N) (a : nat) (l : list nat) : list nat :=
  match l with
  | [] => [a]
  | b :: r => if key b <? key a then a :: l else b :: insert_desc key a r
  end.

Definition insertion_sort (key : nat -> N) (l : list nat) : list nat :=
  foldr (insert_desc key) [] l.

Fixpoint first_min_from (i : nat) (best : nat) (bw : N) (ps : list Partition) : nat :=
  match ps with
  | [] => best
  | P :: r => if weight P <? bw then first_min_from (S i) i (weight P) r
              else first_min_from (S i) best bw r
  end.

Definition first_lightest (ps : list Partition) : nat :=
  match ps with
  | [] => 0%nat
  | P :: r => first_min_from 1 0 (weight P) r
  end.

(** ** Well-formed input of the partitioner

    What the source takes for granted of its input (and asserts in a
    debug build): distinct names, users of a partitioned definition are
    partitioned definitions themselves, index tables without repetition
    that list partitioned definitions, and counters that do not wrap. *)

Definition partitionable (G : GlobalValue) : bool :=
  negb (gv_is_declaration G) && canPartition G.

Definition total_weight (gvs : list GlobalValue) : N :=
  foldr (fun G acc => if partitionable G then default 0 (node_weight G) + acc else acc)
        0 gvs.

Definition wf_global (gvs : list GlobalValue) (G : GlobalValue) : bool :=
  negb (partitionable G)
  || (match node_weight G with Some w => 1 <=? w | None => false end
      && forallb (fun u => match gvs !! u with
                           | Some U => partitionable U
                           | None => false
                           end) (gv_constant_users G)).

Definition wf_table (gvs : list GlobalValue) (table : option (list nat)) : bool :=
  match table with
  | None => false
  | Some init =>
      bool_decide (NoDup init)
      && (N.of_nat (length init) <? 2 ^ 32)
      && forallb (fun g => match gvs !! g with
                           | Some G => partitionable G
                                       && negb (bool_decide (gv_name G = EmptyString))
                           | None => false
                           end) init
  end.

Definition wf_module (M : Module) : bool :=
  bool_decide (NoDup (gv_name <$> global_values M))
  && forallb (wf_global (global_values M)) (global_values M)
  && (total_weight (global_values M) <? 2 ^ 64)
  && wf_table (global_values M) (jl_fvars M)
  && wf_table (global_values M) (jl_gvars M)
  && jl_fvar_idxs M && jl_gvar_idxs M.

(** ** Notions used to state what the partitioner achieves *)

Definition Nsum (f : nat -> N) (l : list nat) : N :=
  foldr (fun i acc => f i + acc) 0 l.

(** the root that [find] reports for a node *)
Definition root_of (ns : list Partitioner.Node) (i : nat) : option nat :=
  snd <$> Partitioner.find ns i.

(** the weight [partitionModule] gave to node [i] when it made it *)
Definition initial_weight (gvs : list GlobalValue) (ns : list Partitioner.Node)
    (i : nat) : N :=
  default 0 (n ← ns !! i; G ← gvs !! Partitioner.GV n; node_weight G).

(** the summed weight of the nodes whose root is [r] *)
Definition component_weight (gvs : list GlobalValue) (ns : list Partitioner.Node)
    (r : nat) : N :=
  Nsum (fun i => if bool_decide (root_of ns i = Some r)
                 then initial_weight gvs ns i else 0) (seq 0 (length ns)).

Definition node_name (gvs : list GlobalValue) (ns : list Partitioner.Node)
    (i : nat) : option string :=
  n ← ns !! i; gv_name <$> gvs !! Partitioner.GV n.

(** the names of the definitions that take part in the partitioning *)
Definition partitionable_names (M : Module) : list string :=
  gv_name <$> filter (fun G => partitionable G = true) (global_values M).

(** the flat ids held by the sub-tables of all partitions, for one table *)
Definition flat_ids (proj : Partition -> gmap string N) (ps : list Partition)
    : list N :=
  mjoin ((fun Q => (map_to_list (proj Q)).*2) <$> ps).

(** ** Notions used to state the weight of a function *)

(** the number written by a string of hexadecimal digits *)
Fixpoint hex_value_from (acc : N) (s : string) : option N :=
  match s with
  | EmptyString => Some acc
  | String c r => d ← Weight.getDigit c; hex_value_from (16 * acc + d) r
  end.

Definition hex_value (s : string) : option N :=
  match s with
  | EmptyString => None
  | _ => hex_value_from 0 s
  end.

(** instruction count and basic-block count of a function *)
Definition instruction_count (F : GlobalValue) : N := foldr N.add 0 (gv_blocks F).
Definition block_count (F : GlobalValue) : N := N.of_nat (length (gv_blocks F)).

(** ** Materialization of a shard *)

Module Materialize.

(** A global value of the module a worker deserializes.  [g_definition]
    is [None] for a declaration; for a definition it lists the global
    values its body, initializer or aliasee refers to, one entry per use.
    Global values are referred to by their position in the module; an
    erased one leaves [None] behind, a new one is added at the end. *)
Record Global := {
  g_name : string;
  g_kind : ValueKind;
  (** [getValueType()->isFunctionTy()] *)
  g_function_type : bool;
  g_linkage : Linkage;
  g_visibility : Visibility;
  g_dso_local : bool;
  g_definition : option (list nat)
}.

Definition isDeclaration (G : Global) : bool :=
  bool_decide (g_definition G = None).

Definition hasLocalLinkage (G : Global) : bool :=
  bool_decide (g_linkage G = InternalLinkage \/ g_linkage G = PrivateLinkage).

(** [setLinkage]: a local linkage resets the visibility, and the value
    becomes [dso_local] when it is local or not of default visibility.
    (The external weak linkage, one of those [OtherLinkage] stands for, is
    excepted from the last rule; the source passes [InternalLinkage] and
    [ExternalLinkage] only.) *)
Definition setLinkage (l : Linkage) (G : Global) : Global :=
  let local := bool_decide (l = InternalLinkage \/ l = PrivateLinkage) in
  let visibility := if local then DefaultVisibility else g_visibility G in
  {| g_name := g_name G; g_kind := g_kind G; g_function_type := g_function_type G;
     g_linkage := l; g_visibility := visibility;
     g_dso_local := g_dso_local G || local
                    || negb (bool_decide (visibility = DefaultVisibility));
     g_definition := g_definition G |}.

Definition setName (s : string) (G : Global) : Global :=
  {| g_name := s; g_kind := g_kind G; g_function_type := g_function_type G;
     g_linkage := g_linkage G; g_visibility := g_visibility G;
     g_dso_local := g_dso_local G; g_definition := g_definition G |}.

Definition setDefinition (d : option (list nat)) (G : Global) : Global :=
  {| g_name := g_name G; g_kind := g_kind G; g_function_type := g_function_type G;
     g_linkage := g_linkage G; g_visibility := g_visibility G;
     g_dso_local := g_dso_local G; g_definition := d |}.

(** [deleteBody] or [setInitializer(nullptr)], then external linkage,
    hidden visibility and dso_local *)
Definition make_external_declaration (G : Global) : Global :=
  {| g_name := g_name G; g_kind := g_kind G; g_function_type := g_function_type G;
     g_linkage := ExternalLinkage; g_visibility := HiddenVisibility;
     g_dso_local := true; g_definition := None |}.

(** [M.getNamedValue(Name)]: a value without a name is not in the symbol
    table. *)
Definition getNamedValue (M : list (option Global)) (name : string) : option nat :=
  if bool_decide (name = EmptyString) then None
  else fst <$> list_find (fun og => g_name <$> og = Some name) M.

(** The loop over [partition.globals]: the set [Preserve]. *)
Fixpoint mark_preserved (entries : list (string * bool))
    (st : list (option Global) * gset nat)
    : option (list (option Global) * gset nat) :=
  match entries with
  | [] => Some st
  | (name, keep) :: rest =>
      id ← getNamedValue st.1 name;
      GV ← mjoin (st.1 !! id);
      if isDeclaration GV || hasLocalLinkage GV then None
      else if keep then mark_preserved rest (st.1, {[id]} ∪ st.2)
      else
        let GV := setLinkage InternalLinkage GV in
        if bool_decide (g_visibility GV = DefaultVisibility) then
          mark_preserved rest (<[id := Some GV]> st.1, st.2)
        else None
  end.

(** The loops over [M.functions()] and [M.globals()]. *)
Definition strip_kind (kind : ValueKind) (Preserve : gset nat)
    (M : list (option Global)) : list (option Global) :=
  imap (fun id og =>
          match og with
          | Some G =>
              if bool_decide (g_kind G = kind) then
                if isDeclaration G then Some G
                else if hasLocalLinkage G then Some G
                else if bool_decide (id ∈ Preserve) then Some G
                else Some (make_external_declaration G)
              else Some G
          | None => None
          end) M.

Definition placeholder (kind : ValueKind) (function_type : bool) : Global :=
  {| g_name := EmptyString; g_kind := kind; g_function_type := function_type;
     g_linkage := ExternalLinkage; g_visibility := DefaultVisibility;
     g_dso_local := false; g_definition := Some [] |}.

(** The loop over [M.aliases()]: every alias to delete gets a
    placeholder; the pairs are collected in [DeletedAliases]. *)
Definition redirect_alias (Preserve : gset nat)
    (st : list (option Global) * list (nat * nat)) (id : nat)
    : option (list (option Global) * list (nat * nat)) :=
  match st.1 !! id with
  | Some (Some GA) =>
      if negb (bool_decide (g_kind GA = KGlobalAlias)) then Some st
      else if isDeclaration GA then None
      else if bool_decide (id ∈ Preserve) then Some st
      else if hasLocalLinkage GA then Some st
      else if g_function_type GA then
        let F := length st.1 in
        Some (<[id := Some (setDefinition (Some [F]) GA)]>
                (st.1 ++ [Some (placeholder KFunction true)]),
              st.2 ++ [(id, F)])
      else
        let GV := length st.1 in
        Some (st.1 ++ [Some (placeholder KGlobalVariable false)], st.2 ++ [(id, GV)])
  | _ => Some st
  end.

Fixpoint redirect_aliases (Preserve : gset nat) (ids : list nat)
    (st : list (option Global) * list (nat * nat))
    : option (list (option Global) * list (nat * nat)) :=
  match ids with
  | [] => Some st
  | id :: rest => st' ← redirect_alias Preserve st id; redirect_aliases Preserve rest st'
  end.

Definition replace_in (a r : nat) (ops : list nat) : list nat :=
  (fun x => if bool_decide (x = a) then r else x) <$> ops.

Definition replace_use (a r : nat) (G : Global) : Global :=
  setDefinition (replace_in a r <$> g_definition G) G.

(** One round of the last loop: [takeName], [replaceAllUsesWith],
    [eraseFromParent], then the placeholder loses its body. *)
Definition commit_delete (M : list (option Global)) (d : nat * nat)
    : option (list (option Global)) :=
  let '(a, r) := d in
  A ← mjoin (M !! a);
  R ← mjoin (M !! r);
  let M := <[r := Some (setName (g_name A) R)]> (<[a := Some (setName EmptyString A)]> M) in
  let M := (fun og : option Global => replace_use a r <$> og) <$> M in
  let M := <[a := None]> M in
  R ← mjoin (M !! r);
  (* [deleteBody] ends with [setLinkage(ExternalLinkage)] *)
  Some (<[r := Some (if bool_decide (g_kind R = KFunction)
                     then setLinkage ExternalLinkage (setDefinition None R)
                     else setDefinition None R)]> M).

Fixpoint commit_deletes (ds : list (nat * nat)) (M : list (option Global))
    : option (list (option Global)) :=
  match ds with
  | [] => Some M
  | d :: rest => M' ← commit_delete M d; commit_deletes rest M'
  end.

Definition materializePreserved (M : list (option Global)) (partition : Partition)
    : option (list (option Global)) :=
  '(M, Preserve) ← mark_preserved (map_to_list (globals partition)) (M, ∅);
  let M := strip_kind KFunction Preserve M in
  let M := strip_kind KGlobalVariable Preserve M in
  '(M, DeletedAliases) ← redirect_aliases Preserve (seq 0 (length M)) (M, []);
  (* [M.materializeAll()] changes nothing that is represented here *)
  commit_deletes DeletedAliases M.

End Materialize.

(** ** The thread-count heuristic *)

Module Threads.

(** [strtoul(s, &endptr, 10)] of the C library: optional white space, an
    optional sign, then decimal digits.  The result pairs the converted
    value with the text [endptr] points at.  Without any digit no
    conversion is performed and [endptr] is the start of [s]; a value that
    does not fit is clamped to [ULONG_MAX]; a minus sign negates in
    unsigned long arithmetic. *)
Definition isspace (c : ascii) : bool :=
  let n := N_of_ascii c in (n =? 32) || ((9 <=? n) && (n <=? 13)).

Definition digit_val (c : ascii) : option N :=
  let n := N_of_ascii c in
  if (48 <=? n) && (n <=? 57) then Some (n - 48) else None.

Fixpoint skip_spaces (s : string) : string :=
  match s with
  | String c r => if isspace c then skip_spaces r else s
  | EmptyString => s
  end.

Fixpoint read_digits (acc : N) (s : string) : N * string :=
  match s with
  | String c r =>
      match digit_val c with
      | Some d => read_digits (10 * acc + d) r
      | None => (acc, s)
      end
  | EmptyString => (acc, s)
  end.

Definition starts_with_digit (s : string) : bool :=
  match s with
  | String c _ => bool_decide (is_Some (digit_val c))
  | EmptyString => false
  end.

Definition strtoul (s : string) : N * string :=
  let s1 := skip_spaces s in
  let '(neg, s2) :=
    match s1 with
    | String "-" r => (true, r)
    | String "+" r => (false, r)
    | _ => (false, s1)
    end in
  if starts_with_digit s2 then
    let '(v, rest) := read_digits 0 s2 in
    if ULONG_MAX <? v then (ULONG_MAX, rest)
    else if neg then (wrap64 (2 ^ 64 - v), rest)
    else (v, rest)
  else (0, s).

(** What the function does to the outside world, in order. *)
Inductive event :=
  | Getenv (name : string)
  | Warning (msg : string).

Definition newline : string := String (ascii_of_N 10) EmptyString.

Definition invalid_value (value var : string) : string :=
  ("WARNING: invalid value '" +:+ value +:+ "' for " +:+ var +:+ newline)%string.

(** The fields of [ModuleInfo] that the heuristic reads; [triple] is
    represented by the one query made on it. *)
Record ModuleInfo := {
  triple_isOSBinFormatCOFF : bool;
  globals : N;
  funcs : N;
  bbs : N;
  insts : N;
  clones : N;
  weight : N
}.

(** [*endptr || !requested] *)
Definition rejected (r : N * string) : bool :=
  negb (bool_decide (r.2 = EmptyString)) || (r.1 =? 0).

Section compute.
(** [jl_cpu_threads()] (an int) and the process environment. *)
Variable jl_cpu_threads : Z.
Variable getenv : string -> option string.

Definition forced_single (info : ModuleInfo) : bool :=
  (triple_isOSBinFormatCOFF info && (64000 <? globals info))
  || (weight info <? 1000).

(** The default before any override: half the hardware threads, at
    least one, capped by [globals / 100]. *)
Definition default_threads (info : ModuleInfo) : N :=
  let threads := wrap32 (Z.to_N (Z.max (jl_cpu_threads ÷ 2) 1)) in
  let max_threads := globals info / 100 in
  if max_threads <? threads then wrap32 max_threads else threads.

(** The block under "environment variable override": the new thread
    count, [env_threads_set] and the events. *)
Definition env_override (threads : N) : N * bool * list event :=
  match getenv "JULIA_IMAGE_THREADS" with
  | Some env_threads =>
      let r := strtoul env_threads in
      if rejected r then
        (threads, false,
         [Getenv "JULIA_IMAGE_THREADS";
          Warning (invalid_value env_threads "JULIA_IMAGE_THREADS")])
      else (wrap32 r.1, true, [Getenv "JULIA_IMAGE_THREADS"])
  | None => (threads, false, [Getenv "JULIA_IMAGE_THREADS"])
  end.

(** The block under "more defaults". *)
Definition fallback_override (env_threads_set : bool) (threads : N)
  : N * list event :=
  if negb env_threads_set && (1 <? threads) then
    match getenv "JULIA_CPU_THREADS" with
    | Some fallbackenv =>
        let r := strtoul fallbackenv in
        if rejected r then
          (threads,
           [Getenv "JULIA_CPU_THREADS";
            Warning (invalid_value fallbackenv "JULIA_CPU_THREADS")])
        else if r.1 <? threads then
          (wrap32 r.1, [Getenv "JULIA_CPU_THREADS"])
        else (threads, [Getenv "JULIA_CPU_THREADS"])
    | None => (threads, [Getenv "JULIA_CPU_THREADS"])
    end
  else (threads, []).

Definition compute_image_thread_count (info : ModuleInfo) : N * list event :=
  if triple_isOSBinFormatCOFF info && (64000 <? globals info) then (1, [])
  else if weight info <? 1000 then (1, [])
  else
    let threads := default_threads info in
    let '(threads, env_threads_set, ev1) := env_override threads in
    let '(threads, ev2) := fallback_override env_threads_set threads in
    (N.max threads 1, ev1 ++ ev2).
End compute.

End Threads.

(** ** The archives *)

Module Archive.

(** The four buffers a compiled unit yields. *)
Record AOTOutputs := {
  unopt : string;
  opt : string;
  obj : string;
  asm_ : string
}.

(** [NewArchiveMember(MemoryBufferRef(buffer, filename))] *)
Record member := {
  filename : string;
  buffer : string
}.

Section write.
Variable threads : nat.
Variable z : bool.
Variables data_outputs metadata_outputs sysimg_outputs : list AOTOutputs.

(** The loop [for (size_t i = 0; i < threads; i++)] of [WRITE_ARCHIVE];
    [Twine(i)] prints [i] in decimal. *)
Definition shard_member (field : AOTOutputs -> string) (prefix suffix : string)
    (i : nat) : option member :=
  out ← data_outputs !! i;
  Some {| filename := "text" +:+ prefix +:+ "#" +:+ pretty (N.of_nat i) +:+ suffix;
          buffer := field out |}.

(** One expansion of the macro: nothing without a file name, else the
    archive written to [fname]. *)
Definition WRITE_ARCHIVE (fname : option string) (field : AOTOutputs -> string)
    (prefix suffix : string) : option (list (string * list member)) :=
  match fname with
  | Some f =>
      shards ← mapM (shard_member field prefix suffix) (seq 0 threads);
      meta ← metadata_outputs !! 0%nat;
      sys ← (if z then
               out ← sysimg_outputs !! 0%nat;
               Some [ {| filename := "sysimg" +:+ prefix +:+ suffix;
                         buffer := field out |} ]
             else Some []);
      Some [(f, shards
                ++ [ {| filename := "metadata" +:+ prefix +:+ suffix;
                        buffer := field meta |} ]
                ++ sys)]
  | None => Some []
  end.

Definition write_archives (unopt_bc_fname bc_fname obj_fname asm_fname : option string)
    : option (list (string * list member)) :=
  a ← WRITE_ARCHIVE unopt_bc_fname unopt "_unopt" ".bc";
  b ← WRITE_ARCHIVE bc_fname opt "_opt" ".bc";
  c ← WRITE_ARCHIVE obj_fname obj EmptyString ".o";
  d ← WRITE_ARCHIVE asm_fname asm_ EmptyString ".s";
  Some (a ++ b ++ c ++ d).
End write.

End Archive.

(** ** Safe names *)

Module SafeName.

Definition is_safe_char (c : ascii) : bool :=
  let n := N_of_ascii c in
  ((48 <=? n) && (n <=? 57))
  || ((65 <=? n) && (n <=? 90))
  || ((97 <=? n) && (n <=? 122))
  || ((n =? 95) || (n =? 36))
  || ((128 <=? n) && (n <? 255)).

Definition hexchars : list ascii :=
  ["0"; "1"; "2"; "3"; "4"; "5"; "6"; "7";
   "8"; "9"; "A"; "B"; "C"; "D"; "E"; "F"]%char.

(** The table [common_names], row by row; [None] is the null pointer, and
    the entries the initializer leaves out are null as well. *)
Definition common_names : list (option string) :=
  let o : option string := None in
  let s (x : string) : option string := Some x in
  [ o; o; o; o; o; o; o; o; o; o; o; o; o; o; o; o;
    o; o; o; o; o; o; o; o; o; o; o; o; o; o; o; o;
    s "SP"; s "NOT"; s "DQT"; s "YY"; o; s "REM"; s "AND"; s "SQT";
    s "LPR"; s "RPR"; s "MUL"; s "SUM"; o; s "SUB"; s "DOT"; s "DIV";
    o; o; o; o; o; o; o; o; o; o; s "COL"; o; s "LT"; s "EQ"; s "GT"; s "QQ";
    s "AT"; o; o; o; o; o; o; o; o; o; o; o; o; o; o; o;
    o; o; o; o; o; o; o; o; o; o; o; s "LBR"; s "RDV"; s "RBR"; s "POW"; o;
    s "TIC"; o; o; o; o; o; o; o; o; o; o; o; o; o; o; o;
    o; o; o; o; o; o; o; o; o; o; o; s "LCR"; s "OR"; s "RCR"; s "TLD"; s "DEL";
    o ].

Definition common_name (c : ascii) : option string :=
  mjoin (common_names !! nat_of_ascii c).

(** [str[i]] of a C string: past the last character stands the
    terminating zero. *)
Definition c_str_at (str : string) (i : nat) : ascii :=
  default zero (String.get i str).

Definition hexchar (n : N) : ascii :=
  default zero (hexchars !! N.to_nat n).

(** What one byte of the name appends to [SafeName]. *)
Definition pushed (c : ascii) : list ascii :=
  if is_safe_char c then [c]
  else
    (match common_name c with
     | Some name =>
         [c_str_at name 0; c_str_at name 1]
         ++ (if bool_decide (c_str_at name 2 = zero) then [] else [c_str_at name 2])
     | None =>
         [hexchar (N.land (N.shiftr (N_of_ascii c) 4) 15);
          hexchar (N.land (N_of_ascii c) 15)]
     end) ++ ["."%char].

(** The name [G] is given by [makeSafeName(G)], from the name it had; a
    clash with another name of the module, which [setName] resolves by
    appending a suffix, is not represented. *)
Definition makeSafeName (Name : string) : string :=
  let SafeName :=
    foldl (fun acc c => acc ++ pushed c) [] (String.list_ascii_of_string Name) in
  if bool_decide (length SafeName <> String.length Name)
  then String.string_of_list_ascii SafeName
  else Name.

End SafeName.

(** ** The summary of a module *)

(** One round of the loop of [compute_module_info]. *)
Definition module_info_step (info : Threads.ModuleInfo) (G : GlobalValue)
    : option Threads.ModuleInfo :=
  if gv_is_declaration G then Some info
  else
    let globals := wrap64 (Threads.globals info + 1) in
    match gv_kind G with
    | KFunction =>
        func_info ← Weight.getFunctionWeight G;
        Some {| Threads.triple_isOSBinFormatCOFF := Threads.triple_isOSBinFormatCOFF info;
                Threads.globals := globals;
                Threads.funcs := wrap64 (Threads.funcs info + 1);
                Threads.bbs := wrap64 (Threads.bbs info + Weight.bbs func_info);
                Threads.insts := wrap64 (Threads.insts info + Weight.insts func_info);
                Threads.clones := wrap64 (Threads.clones info + Weight.clones func_info);
                Threads.weight := wrap64 (Threads.weight info + Weight.weight func_info) |}
    | _ =>
        Some {| Threads.triple_isOSBinFormatCOFF := Threads.triple_isOSBinFormatCOFF info;
                Threads.globals := globals;
                Threads.funcs := Threads.funcs info;
                Threads.bbs := Threads.bbs info;
                Threads.insts := Threads.insts info;
                Threads.clones := Threads.clones info;
                Threads.weight := wrap64 (Threads.weight info + 1) |}
    end.

(** [compute_module_info]: [coff] is what the target triple of the module
    answers to [isOSBinFormatCOFF]. *)
Definition compute_module_info (coff : bool) (gvs : list GlobalValue)
    : option Threads.ModuleInfo :=
  foldl (fun acc G => info ← acc; module_info_step info G)
        (Some {| Threads.triple_isOSBinFormatCOFF := coff;
                 Threads.globals := 0; Threads.funcs := 0; Threads.bbs := 0;
                 Threads.insts := 0; Threads.clones := 0; Threads.weight := 0 |})
        gvs.

(** * Notions used in the statements and in the proofs *)

(** ** The partitioner *)

(** The nodes of the union-find structure. *)
Abbreviation Node := Partitioner.Node.

(** What a node holds besides its parent link. *)
Definition node_data (n : Node) : nat * N * N :=
  (Partitioner.GV n, Partitioner.size n, Partitioner.weight n).

(** [rep] names the root of every node and [rk] grows along parent links. *)
Record forest (rk rep : nat -> nat) (ns : list Node) : Prop := {
  f_rep_lt : forall i, (i < length ns)%nat -> (rep i < length ns)%nat;
  f_rep_idem : forall i, (i < length ns)%nat -> rep (rep i) = rep i;
  f_parent : forall i n, ns !! i = Some n ->
      (Partitioner.parent n < length ns)%nat /\ rep (Partitioner.parent n) = rep i;
  f_root : forall i n, ns !! i = Some n -> (Partitioner.parent n = i <-> rep i = i);
  f_rank : forall i n, ns !! i = Some n -> Partitioner.parent n <> i ->
      (rk i < rk (Partitioner.parent n))%nat
}.

(** The number of nodes ranked above [idx]: the measure that bounds the
    walk of [find]. *)
Definition count_above (rk : nat -> nat) (n idx : nat) : nat :=
  length (filter (fun j => rk idx < rk j)%nat (seq 0 n)).

(** The weight of the class of [r]: the nodes whose root is [r]. *)
Definition class_weight (w0 : nat -> N) (rep : nat -> nat) (n r : nat) : N :=
  Nsum (fun i => if bool_decide (rep i = r) then w0 i else 0) (seq 0 n).

(** The roots after the class of [b] has been put under [a]. *)
Definition merged_rep (rep : nat -> nat) (a b : nat) : nat -> nat :=
  fun i => if bool_decide (rep i = b) then a else rep i.

(** The weights while classes are merged: a root carries the weight of
    its class, every other node a smaller, positive one. *)
Record weights_ok (w0 : nat -> N) (rep : nat -> nat) (ns : list Node) : Prop := {
  w_total : Nsum w0 (seq 0 (length ns)) < 2 ^ 64;
  w_pos : forall i, (i < length ns)%nat -> 1 <= w0 i;
  w_root : forall r n, ns !! r = Some n -> rep r = r ->
      Partitioner.weight n = class_weight w0 rep (length ns) r;
  w_child : forall i n nr, ns !! i = Some n -> rep i <> i -> ns !! rep i = Some nr ->
      1 <= Partitioner.weight n < Partitioner.weight nr
}.

(** The two writes of [merge]: [b] is put under [a], which takes over
    its size and weight. *)
Definition link (ns : list Node) (a b : nat) (na nb : Node) : list Node :=
  <[a := Partitioner.set_weight (wrap64 (Partitioner.weight na + Partitioner.weight nb))
           (Partitioner.set_size (wrap32 (Partitioner.size na + Partitioner.size nb)) na)]>
    (<[b := Partitioner.set_parent a nb]> ns).

(** What the first loop of [partitionModule] leaves of a global value. *)
Definition upd_global (G : GlobalValue) : GlobalValue :=
  if partitionable G then set_hidden_external G else G.

(** The nodes after the first [i] global values have been visited. *)
Record nodes_ok (all : list GlobalValue) (P : Partitioner.t) (i : nat) : Prop := {
  no_node : forall k n, Partitioner.nodes P !! k = Some n ->
      Partitioner.parent n = k /\ (Partitioner.GV n < i)%nat /\
      Partitioner.node_map P !! Partitioner.GV n = Some k /\
      exists G, all !! Partitioner.GV n = Some G /\ partitionable G = true /\
                node_weight G = Some (Partitioner.weight n);
  no_map : forall g k, Partitioner.node_map P !! g = Some k ->
      exists n, Partitioner.nodes P !! k = Some n /\ Partitioner.GV n = g;
  no_all : forall g G, (g < i)%nat -> all !! g = Some G -> partitionable G = true ->
      is_Some (Partitioner.node_map P !! g);
  no_total : Nsum (weight_at (Partitioner.nodes P))
               (seq 0 (length (Partitioner.nodes P))) = total_weight (take i all)
}.

(** [std::sort] with the comparison "heavier first": a permutation of its
    input in which no element is lighter than a later one. *)
Definition sort_spec (sort_idxs : (nat -> N) -> list nat -> list nat) : Prop :=
  forall key l, sort_idxs key l ≡ₚ l /\
    StronglySorted (fun a b => key b <= key a) (sort_idxs key l).

(** [top] of the priority queue under "lighter first": one of the
    partitions, none being lighter. *)
Definition top_spec (pq_top : list Partition -> nat) : Prop :=
  forall ps, ps <> [] ->
    (pq_top ps < length ps)%nat /\
    forall P Q, ps !! pq_top ps = Some P -> Q ∈ ps -> weight P <= weight Q.

(** The partition index that the assignment loop stores in [size]. *)
Definition size_of (ns : list Node) (i : nat) : nat :=
  default 0%nat ((fun n => N.to_nat (Partitioner.size n)) <$> ns !! i).

(** The name of the global value of node [i]. *)
Definition name_of (gvs : list GlobalValue) (G0 : list nat) (i : nat) : option string :=
  g ← G0 !! i; gv_name <$> gvs !! g.

(** [wf_table] and [wf_module] as propositions. *)
Record wf_table_spec (gvs : list GlobalValue) (init : list nat) : Prop := {
  wt_nodup : NoDup init;
  wt_len : N.of_nat (length init) < 2 ^ 32;
  wt_entry : forall g, g ∈ init ->
      exists G, gvs !! g = Some G /\ partitionable G = true /\ gv_name G <> EmptyString
}.

Record wf_spec (M : Module) : Prop := {
  wf_names : NoDup (gv_name <$> global_values M);
  wf_weight : forall G, G ∈ global_values M -> partitionable G = true ->
      exists w, node_weight G = Some w /\ 1 <= w;
  wf_users : forall G u, G ∈ global_values M -> partitionable G = true ->
      u ∈ gv_constant_users G ->
      exists U, global_values M !! u = Some U /\ partitionable U = true;
  wf_total : total_weight (global_values M) < 2 ^ 64;
  wf_fvars : exists init, jl_fvars M = Some init /\ wf_table_spec (global_values M) init;
  wf_gvars : exists init, jl_gvars M = Some init /\ wf_table_spec (global_values M) init;
  wf_idxs : jl_fvar_idxs M = true /\ jl_gvar_idxs M = true
}.

(** The module once its four table variables are erased. *)
Definition erased (M : Module) (gvs : list GlobalValue) : Module :=
  {| global_values := gvs; jl_fvars := None; jl_gvars := None;
     jl_fvar_idxs := false; jl_gvar_idxs := false |}.

(** The map [get_fvars_gvars] builds from the initializer of a table. *)
Definition table_ids (init : list nat) (ids : gmap nat N) : Prop :=
  size ids = length init /\
  forall g k, ids !! g = Some k <-> exists j, init !! j = Some g /\ k = N.of_nat j.

(** The sub-tables of the partitions hold every index below [nf] once. *)
Record table_ok (ps : list Partition) (proj : Partition -> gmap string N) (nf : nat)
    : Prop := {
  to_range : forall p Q name k, ps !! p = Some Q -> proj Q !! name = Some k ->
      (N.to_nat k < nf)%nat;
  to_unique : forall p q Q1 Q2 n1 n2 k, ps !! p = Some Q1 -> ps !! q = Some Q2 ->
      proj Q1 !! n1 = Some k -> proj Q2 !! n2 = Some k -> p = q /\ n1 = n2;
  to_cover : forall k, (k < nf)%nat ->
      exists p Q name, ps !! p = Some Q /\ proj Q !! name = Some (N.of_nat k)
}.

(** The counters of the debug check after [p] partitions: a slot is
    still zero when no earlier partition holds its index. *)
Definition slots_ok (ps : list Partition) (proj : Partition -> gmap string N)
    (nf p : nat) (slots : list N) : Prop :=
  length slots = nf /\
  forall k s, slots !! k = Some s ->
    (s = 0 <-> ~ exists p' Q name, (p' < p)%nat /\ ps !! p' = Some Q /\
                                   proj Q !! name = Some (N.of_nat k)).

(** A small module to run the partitioner on: [f0] and the alias [a5]
    refer to the variable [g1]; [f2] carries three clones; [d3] is a
    declaration and [f4] is always inlined. *)
Definition sample_global (name : string) (k : ValueKind) (decl ai : bool)
    (blocks : list N) (cl : option string) (users : list nat) : GlobalValue :=
  {| gv_name := name; gv_kind := k; gv_is_declaration := decl;
     gv_linkage := InternalLinkage; gv_visibility := DefaultVisibility;
     gv_always_inline := ai; gv_blocks := blocks; gv_mv_clones := cl;
     gv_constant_users := users; gv_instruction_users := [] |}.

Definition sample_module : Module :=
  {| global_values :=
       [ sample_global "f0" KFunction false false [3; 2] None [];
         sample_global "g1" KGlobalVariable false false [] None [0%nat; 5%nat];
         sample_global "f2" KFunction false false [10] (Some "7"%string) [];
         sample_global "d3" KFunction true false [] None [];
         sample_global "f4" KFunction false true [1] None [];
         sample_global "a5" KGlobalAlias false false [] None [] ];
     jl_fvars := Some [0%nat; 2%nat];
     jl_gvars := Some [1%nat];
     jl_fvar_idxs := true; jl_gvar_idxs := true |}.

(** A module in which merging decides: the initializer of the variable
    [t] holds the address of the function [f], and the function [h] is on
    its own.  By weight alone [t] would follow [h]. *)
Definition users_module : Module :=
  {| global_values :=
       [ sample_global "f" KFunction false false [9] None [1%nat];
         sample_global "t" KGlobalVariable false false [] None [];
         sample_global "h" KFunction false false [4] None [] ];
     jl_fvars := Some [0%nat; 2%nat];
     jl_gvars := Some [1%nat];
     jl_fvar_idxs := true; jl_gvar_idxs := true |}.

(** A module of two functions, the first of which calls the second. *)
Definition callers_module : Module :=
  {| global_values :=
       [ sample_global "caller" KFunction false false [5; 3] None [];
         {| gv_name := "callee"; gv_kind := KFunction; gv_is_declaration := false;
            gv_linkage := InternalLinkage; gv_visibility := DefaultVisibility;
            gv_always_inline := false; gv_blocks := [2]; gv_mv_clones := None;
            gv_constant_users := []; gv_instruction_users := [0%nat] |} ];
     jl_fvars := Some [0%nat; 1%nat];
     jl_gvars := Some [];
     jl_fvar_idxs := true; jl_gvar_idxs := true |}.

(** The definition of [a] refers to [b], in a constant or in an
    instruction. *)
Definition definition_references (gvs : list GlobalValue) (a b : nat) : Prop :=
  exists B, gvs !! b = Some B /\
            (a ∈ gv_constant_users B \/ a ∈ gv_instruction_users B).

(** ** Materialization *)

Import Materialize.

(** An entry of [partition.globals] that passes the assertion of the
    first loop and is marked. *)
Definition resolves (M : list (option Global)) (e : string * bool) : Prop :=
  e.2 = true /\
  exists id G, getNamedValue M e.1 = Some id /\ M !! id = Some (Some G) /\
               isDeclaration G = false /\ hasLocalLinkage G = false.

(** what stripping leaves of a global value *)
Definition stripped (Preserve : gset nat) (id : nat) (G G1 : Global) : Prop :=
  g_name G1 = g_name G /\ g_kind G1 = g_kind G /\
  g_function_type G1 = g_function_type G /\
  (g_kind G = KGlobalAlias -> G1 = G) /\
  (g_definition G1 = g_definition G \/ g_definition G1 = None).

(** Where an operand points once the pairs of [D] have been committed,
    in order. *)
Definition retarget (D : list (nat * nat)) (x : nat) : nat :=
  foldl (fun x d => if bool_decide (x = d.1) then d.2 else x) x D.

(** The global values that end up in [Preserve]. *)
Definition Preserve_ids (M : list (option Global)) (P : Partition) : list nat :=
  omap (fun e : string * bool => if e.2 then getNamedValue M e.1 else None)
       (map_to_list (globals P)).

Definition preserved (M : list (option Global)) (P : Partition) (id : nat) : bool :=
  bool_decide (id ∈ Preserve_ids M P).

(** A use: operand [k] of the definition of global [u] is global [x]. *)
Definition uses_at (M : list (option Global)) (u k x : nat) : Prop :=
  exists U ops, M !! u = Some (Some U) /\ g_definition U = Some ops /\
                ops !! k = Some x.

(** What [partitionModule] hands to a worker: every entry of the shard is
    marked, names a definition of the module that is not local, and no
    alias is a declaration or local. *)
Definition entry_ok (M : list (option Global)) (e : string * bool) : bool :=
  e.2 && match getNamedValue M e.1 with
         | Some id =>
             match mjoin (M !! id) with
             | Some G => negb (isDeclaration G) && negb (hasLocalLinkage G)
             | None => false
             end
         | None => false
         end.

Definition alias_ok (og : option Global) : bool :=
  match og with
  | Some G =>
      if bool_decide (g_kind G = KGlobalAlias)
      then negb (isDeclaration G) && negb (hasLocalLinkage G)
      else true
  | None => true
  end.

Definition wf_shard (M : list (option Global)) (P : Partition) : bool :=
  forallb (entry_ok M) (map_to_list (globals P)) && forallb alias_ok M.

(** A shard to run [materializePreserved] on: it keeps [f], whose body
    refers to the alias [a] twice and to the alias [b]; [h] and [v] refer
    to [a] as well. *)
Definition sample_shard_global (name : string) (k : ValueKind) (ft : bool)
    (def : option (list nat)) : option Global :=
  Some {| g_name := name; g_kind := k; g_function_type := ft;
          g_linkage := ExternalLinkage; g_visibility := HiddenVisibility;
          g_dso_local := false; g_definition := def |}.

Definition sample_shard_module : list (option Global) :=
  [ sample_shard_global "f" KFunction true (Some [2; 3; 2]%nat);
    sample_shard_global "h" KFunction true (Some [2]%nat);
    sample_shard_global "a" KGlobalAlias true (Some [1]%nat);
    sample_shard_global "b" KGlobalAlias false (Some [4]%nat);
    sample_shard_global "v" KGlobalVariable false (Some [2]%nat);
    sample_shard_global "d" KFunction true None ].

Definition sample_shard : Partition :=
  {| globals := {[ "f"%string := true ]}; fvars := ∅; gvars := ∅; weight := 0 |}.

(** ** The thread count *)

(** The environment without the variable [name]. *)
Definition unset (name : string) (getenv : string -> option string)
    : string -> option string :=
  fun n => if String.eqb n name then None else getenv n.

(** A module summary and an environment to run the heuristic on. *)
Definition sample_info (coff : bool) (g w : N) : Threads.ModuleInfo :=
  {| Threads.triple_isOSBinFormatCOFF := coff;
     Threads.globals := g;
     Threads.funcs := 0;
     Threads.bbs := 0;
     Threads.insts := 0;
     Threads.clones := 0;
     Threads.weight := w |}.

Definition sample_env (image cpu : option string) : string -> option string :=
  fun n => if String.eqb n "JULIA_IMAGE_THREADS" then image
           else if String.eqb n "JULIA_CPU_THREADS" then cpu else None.

(** ** The archives *)

Import Archive.

(** Buffers to run the macro on. *)
Definition sample_output (tag : string) : AOTOutputs :=
  {| unopt := "unopt-" +:+ tag; opt := "opt-" +:+ tag;
     obj := "obj-" +:+ tag; asm_ := "asm-" +:+ tag |}.

(** The name of the member that holds shard [i]. *)
Definition shard_name (prefix suffix : string) (i : nat) : string :=
  "text" +:+ prefix +:+ "#" +:+ pretty (N.of_nat i) +:+ suffix.

(** The member list the macro builds for one kind, written out. *)
Definition listing (field : AOTOutputs -> string) (prefix suffix : string)
    (data metadata sysimg : list AOTOutputs) : list member :=
  imap (fun i out => {| filename := shard_name prefix suffix i; buffer := field out |}) data
  ++ ((fun out => {| filename := "metadata" +:+ prefix +:+ suffix;
                     buffer := field out |}) <$> metadata)
  ++ ((fun out => {| filename := "sysimg" +:+ prefix +:+ suffix;
                     buffer := field out |}) <$> sysimg).

(** The member names as the specification words them, for one kind. *)
Definition claimed_names (kind_suffix : string) (threads : nat) (z : bool)
    : list string :=
  ((fun i : nat => "text" +:+ kind_suffix +:+ "#" +:+ pretty (N.of_nat i)) <$> seq 0 threads)
  ++ ["metadata"%string] ++ (if z then ["sysimg"%string] else []).

(** The member names the macro gives, for one kind. *)
Definition member_names (prefix suffix : string) (threads : nat) (z : bool)
    : list string :=
  (shard_name prefix suffix <$> seq 0 threads)
  ++ ["metadata" +:+ prefix +:+ suffix]
  ++ (if z then ["sysimg" +:+ prefix +:+ suffix] else []).

(** The archive of one kind: none without a file name. *)
Definition archive (fname : option string) (members : list member)
    : list (string * list member) :=
  match fname with
  | Some f => [(f, members)]
  | None => []
  end.

(** ** The partitions as a whole *)

(** The summed weight of the partitions. *)
Definition partitions_weight (ps : list Partition) : N :=
  foldr (fun Q acc => weight Q + acc) 0 ps.

(** No partition is heavier than another by more than [B]. *)
Definition balanced (B : N) (ps : list Partition) : Prop :=
  forall Q1 Q2, Q1 ∈ ps -> Q2 ∈ ps -> weight Q1 <= weight Q2 + B.

(** The definition of global value [a] refers to the partitionable
    global value [b]: an edge that the merge loop follows. *)
Definition references (M : Module) (a b : nat) : Prop :=
  exists B, global_values M !! b = Some B /\ partitionable B = true /\
            a ∈ gv_constant_users B.

(** Joined by a chain of such edges, in either direction. *)
Definition connected (M : Module) : relation nat := rtsc (references M).

(** A correct partitioning of the global values [gvs] with tables of
    [nf] and [ng] entries: no name in two partitions, every table index
    in exactly one sub-table, what cannot be partitioned in no partition,
    and every partitionable definition in one partition together with
    its users. *)
Record partitioning_ok (gvs : list GlobalValue) (ps : list Partition)
    (nf ng : nat) : Prop := {
  po_disjoint : forall p q Q1 Q2 name,
      ps !! p = Some Q1 -> ps !! q = Some Q2 ->
      is_Some (globals Q1 !! name) -> is_Some (globals Q2 !! name) -> p = q;
  po_fvars : table_ok ps fvars nf;
  po_gvars : table_ok ps gvars ng;
  po_non : forall G, G ∈ gvs -> partitionable G = false ->
      forall p Q, ps !! p = Some Q -> globals Q !! gv_name G = None;
  po_def : forall G, G ∈ gvs -> partitionable G = true ->
      exists p Q, ps !! p = Some Q /\ is_Some (globals Q !! gv_name G) /\
        forall u, u ∈ gv_constant_users G ->
          exists U, gvs !! u = Some U /\ is_Some (globals Q !! gv_name U)
}.

(** The counters of the debug check after [p] partitions, read both
    ways. *)
Definition slots_rec (ps : list Partition) (proj : Partition -> gmap string N)
    (nf p : nat) (slots : list N) : Prop :=
  length slots = nf /\
  forall k s, slots !! k = Some s ->
    (s = 0 -> ~ exists p' Q name, (p' < p)%nat /\ ps !! p' = Some Q /\
                                  proj Q !! name = Some (N.of_nat k)) /\
    (s <> 0 -> exists p' Q name, (p' < p)%nat /\ ps !! p' = Some Q /\
                                 proj Q !! name = Some (N.of_nat k)).

Definition prefix_unique (ps : list Partition) (proj : Partition -> gmap string N)
    (nf p : nat) : Prop :=
  (forall p1 Q1 n1 k, (p1 < p)%nat -> ps !! p1 = Some Q1 ->
     proj Q1 !! n1 = Some k -> (N.to_nat k < nf)%nat) /\
  (forall p1 p2 Q1 Q2 n1 n2 k, (p1 < p)%nat -> (p2 < p)%nat ->
     ps !! p1 = Some Q1 -> ps !! p2 = Some Q2 ->
     proj Q1 !! n1 = Some k -> proj Q2 !! n2 = Some k -> p1 = p2 /\ n1 = n2).

Definition prefix_disjoint (ps : list Partition) (p : nat) : Prop :=
  forall p1 p2 Q1 Q2 name, (p1 < p)%nat -> (p2 < p)%nat ->
    ps !! p1 = Some Q1 -> ps !! p2 = Some Q2 ->
    is_Some (globals Q1 !! name) -> is_Some (globals Q2 !! name) -> p1 = p2.


(** The summed weight of the definitions of a module, and the part of it
    that belongs to definitions that are not partitioned. *)
Definition defined_weight (gvs : list GlobalValue) : N :=
  foldr (fun G acc => if gv_is_declaration G then acc
                      else default 0 (node_weight G) + acc) 0 gvs.

Definition inline_weight (gvs : list GlobalValue) : N :=
  foldr (fun G acc => if negb (gv_is_declaration G) && negb (canPartition G)
                      then default 0 (node_weight G) + acc else acc) 0 gvs.

(** Two nodes, the first one linked under the second. *)
Definition sample_nodes : list Node :=
  [ {| Partitioner.GV := 0; Partitioner.parent := 1;
       Partitioner.size := 1; Partitioner.weight := 3 |};
    {| Partitioner.GV := 1; Partitioner.parent := 1;
       Partitioner.size := 2; Partitioner.weight := 5 |} ].

(** The two partitions of the sample module. *)
Definition sample_partitions : list Partition :=
  [ {| globals := {[ "f2"%string := true ]};
       fvars := {[ "f2"%string := 1 ]}; gvars := ∅; weight := 48 |};
    {| globals := {[ "f0"%string := true; "g1"%string := true; "a5"%string := true ]};
       fvars := {[ "f0"%string := 0 ]}; gvars := {[ "g1"%string := 0 ]};
       weight := 10 |} ].

(** ** Materialization, global by global *)

(** What the two stripping loops leave of the global value at [id]. *)
Definition strip_global (Preserve : gset nat) (id : nat) (G : Global) : Global :=
  if bool_decide (g_kind G = KFunction \/ g_kind G = KGlobalVariable)
     && negb (isDeclaration G) && negb (hasLocalLinkage G)
     && negb (bool_decide (id ∈ Preserve))
  then make_external_declaration G else G.

(** What committing the pairs of [D] leaves of a global value that is
    on neither side of a pair. *)
Definition retarget_global (D : list (nat * nat)) (G : Global) : Global :=
  setDefinition ((fun ops : list nat => retarget D <$> ops) <$> g_definition G) G.

(** The entry [name] cannot pass the assertion of the first loop: it names
    nothing, a declaration or a local global value. *)
Definition unresolved (M : list (option Global)) (name : string) : Prop :=
  forall id G, getNamedValue M name = Some id -> M !! id = Some (Some G) ->
    isDeclaration G = true \/ hasLocalLinkage G = true.

(** A shard with an entry for a declaration of the sample module. *)
Definition sample_bad_shard : Partition :=
  {| globals := {[ "f"%string := true; "d"%string := true ]};
     fvars := ∅; gvars := ∅; weight := 0 |}.

(** ** Safe names *)

Import SafeName.

(** The bytes of the name [makeSafeName] builds, whether or not it is
    installed. *)
Definition mangled (l : list ascii) : list ascii := mjoin (pushed <$> l).

(** A byte that may appear in a safe name. *)
Definition safe_or_dot (c : ascii) : bool :=
  is_safe_char c || bool_decide (c = "."%char).

Definition all_ascii : list ascii := ascii_of_nat <$> seq 0 256.

(** No byte is pushed as the tail of what another byte pushes. *)
Definition no_suffix_clash (c1 c2 : ascii) : bool :=
  bool_decide (c1 = c2)
  || negb (bool_decide (reverse (pushed c1) `prefix_of` reverse (pushed c2))).

(** * Verification *)

(** ** The union-find forest *)

Lemma count_above_lt rk n idx : (idx < n)%nat -> (count_above rk n idx < n)%nat.
Proof.
  intros Hlt. unfold count_above.
  pose proof (length_filter_lt (fun j => rk idx < rk j)%nat (seq 0 n) idx) as H.
  rewrite length_seq in H. apply H; [|lia].
  apply elem_of_seq. lia.
Qed.

Lemma count_above_mono rk n a b :
  (b < n)%nat -> (rk a < rk b)%nat -> (count_above rk n b < count_above rk n a)%nat.
Proof.
  intros Hb Hr. unfold count_above.
  rewrite <- (list_filter_filter_l (fun j => rk b < rk j)%nat (fun j => rk a < rk j)%nat)
    by (intros; lia).
  apply (length_filter_lt _ _ b); [|lia].
  apply list_elem_of_filter. split; [lia|]. apply elem_of_seq. lia.
Qed.

Lemma node_data_lookup (ns ns' : list Node) i n :
  node_data <$> ns' = node_data <$> ns -> ns !! i = Some n ->
  exists n', ns' !! i = Some n' /\ node_data n' = node_data n.
Proof.
  intros Hd Hn.
  assert (H : (node_data <$> ns') !! i = Some (node_data n)).
  { rewrite Hd, list_lookup_fmap, Hn. reflexivity. }
  rewrite list_lookup_fmap in H.
  destruct (ns' !! i) as [n'|]; [|discriminate].
  exists n'. split; [done|]. simpl in H. congruence.
Qed.

Lemma node_data_length (ns ns' : list Node) :
  node_data <$> ns' = node_data <$> ns -> length ns' = length ns.
Proof. intros H. apply (f_equal length) in H. now rewrite !length_fmap in H. Qed.

Lemma find_loop_spec rk rep fuel : forall ns idx,
  forest rk rep ns -> (idx < length ns)%nat ->
  (count_above rk (length ns) idx < fuel)%nat ->
  exists ns', Partitioner.find_loop fuel ns idx = Some (ns', rep idx) /\
              forest rk rep ns' /\ node_data <$> ns' = node_data <$> ns.
Proof.
  induction fuel as [|fuel IH]; intros ns idx Hf Hidx Hc; [lia|].
  simpl.
  destruct (lookup_lt_is_Some_2 ns idx Hidx) as [n Hn]. rewrite Hn. simpl.
  case_bool_decide as Hp.
  - exists ns. apply (f_root _ _ _ Hf) in Hn as Hr. apply Hr in Hp.
    rewrite Hp. done.
  - destruct (f_parent _ _ _ Hf _ _ Hn) as [Hpl Hpr].
    destruct (lookup_lt_is_Some_2 ns _ Hpl) as [p Hpn]. rewrite Hpn. simpl.
    destruct (f_parent _ _ _ Hf _ _ Hpn) as [Hgl Hgr].
    pose proof (f_rank _ _ _ Hf _ _ Hn Hp) as Hrk1.
    assert (Hrk2 : (rk idx < rk (Partitioner.parent p))%nat).
    { destruct (decide (Partitioner.parent p = Partitioner.parent n)) as [->|Hne]; [done|].
      pose proof (f_rank _ _ _ Hf _ _ Hpn Hne). lia. }
    set (ns1 := <[idx := Partitioner.set_parent (Partitioner.parent p) n]> ns).
    assert (Hlen : length ns1 = length ns) by apply length_insert.
    assert (Hf1 : forest rk rep ns1).
    { split; rewrite ?Hlen.
      - apply Hf.
      - apply Hf.
      - intros i m Hi. destruct (decide (i = idx)) as [->|Hne].
        + unfold ns1 in Hi. rewrite list_lookup_insert_eq in Hi by done.
          inversion Hi; subst m; simpl. split; [done|]. congruence.
        + unfold ns1 in Hi. rewrite list_lookup_insert_ne in Hi by done.
          now apply (f_parent _ _ _ Hf).
      - intros i m Hi. destruct (decide (i = idx)) as [->|Hne].
        + unfold ns1 in Hi. rewrite list_lookup_insert_eq in Hi by done.
          inversion Hi; subst m; simpl.
          pose proof (f_root _ _ _ Hf _ _ Hn) as Hr.
          split; [intros E; rewrite E in Hrk2; lia | intros E; tauto].
        + unfold ns1 in Hi. rewrite list_lookup_insert_ne in Hi by done.
          now apply (f_root _ _ _ Hf).
      - intros i m Hi. destruct (decide (i = idx)) as [->|Hne].
        + unfold ns1 in Hi. rewrite list_lookup_insert_eq in Hi by done.
          inversion Hi; subst m; simpl. done.
        + unfold ns1 in Hi. rewrite list_lookup_insert_ne in Hi by done.
          now apply (f_rank _ _ _ Hf). }
    destruct (IH ns1 (Partitioner.parent p) Hf1) as (ns' & Hfind & Hf' & Hd).
    + now rewrite Hlen.
    + rewrite Hlen.
      pose proof (count_above_mono rk (length ns) idx _ Hgl Hrk2). lia.
    + exists ns'. split; [|split; [done|]].
      * rewrite Hfind. f_equal. f_equal. congruence.
      * rewrite Hd. unfold ns1. rewrite list_fmap_insert.
        apply list_insert_id. rewrite list_lookup_fmap, Hn. reflexivity.
Qed.

Lemma find_spec rk rep ns idx :
  forest rk rep ns -> (idx < length ns)%nat ->
  exists ns', Partitioner.find ns idx = Some (ns', rep idx) /\
              forest rk rep ns' /\ node_data <$> ns' = node_data <$> ns.
Proof.
  intros Hf Hidx. apply find_loop_spec; [done..|].
  now apply count_above_lt.
Qed.

(** ** Sums of weights over classes of nodes *)

Lemma Nsum_ext f g l : (forall i, i ∈ l -> f i = g i) -> Nsum f l = Nsum g l.
Proof.
  induction l as [|a l IH]; intros H; simpl; [done|].
  rewrite H by set_solver. rewrite IH; [done|]. intros; apply H; set_solver.
Qed.

Lemma Nsum_add f g l : Nsum (fun i => f i + g i) l = Nsum f l + Nsum g l.
Proof. induction l as [|a l IH]; simpl; [done|]. rewrite IH. lia. Qed.

Lemma Nsum_le f g l : (forall i, i ∈ l -> f i <= g i) -> Nsum f l <= Nsum g l.
Proof.
  induction l as [|a l IH]; intros H; simpl; [lia|].
  assert (f a <= g a) by (apply H; set_solver).
  assert (Nsum f l <= Nsum g l) by (apply IH; intros; apply H; set_solver).
  lia.
Qed.

Lemma Nsum_elem f l i : i ∈ l -> f i <= Nsum f l.
Proof.
  induction l as [|a l IH]; intros H; simpl; [set_solver|].
  apply elem_of_cons in H as [->|H]; [lia|]. apply IH in H. lia.
Qed.

Lemma Nsum_app f l1 l2 : Nsum f (l1 ++ l2) = Nsum f l1 + Nsum f l2.
Proof. induction l1 as [|a l IH]; simpl; [done|]. rewrite IH. lia. Qed.

Lemma class_weight_two_le w0 rep n a b :
  a <> b -> class_weight w0 rep n a + class_weight w0 rep n b <= Nsum w0 (seq 0 n).
Proof.
  intros Hne. unfold class_weight. rewrite <- Nsum_add.
  apply Nsum_le. intros i _. repeat case_bool_decide; lia.
Qed.

Lemma class_weight_le w0 rep n a :
  class_weight w0 rep n a <= Nsum w0 (seq 0 n).
Proof. apply Nsum_le. intros i _. case_bool_decide; lia. Qed.

Lemma class_weight_self w0 rep n r :
  (r < n)%nat -> rep r = r -> w0 r <= class_weight w0 rep n r.
Proof.
  intros Hr Hrep. unfold class_weight.
  etransitivity; [|apply (Nsum_elem _ _ r); apply elem_of_seq; lia].
  simpl. rewrite bool_decide_eq_true_2 by done. lia.
Qed.

Lemma class_weight_merged_root w0 rep n a b :
  a <> b ->
  class_weight w0 (merged_rep rep a b) n a
  = class_weight w0 rep n a + class_weight w0 rep n b.
Proof.
  intros Hne. unfold class_weight. rewrite <- Nsum_add.
  apply Nsum_ext. intros i _. unfold merged_rep.
  repeat case_bool_decide; lia.
Qed.

Lemma class_weight_merged_other w0 rep n a b r :
  r <> a -> r <> b ->
  class_weight w0 (merged_rep rep a b) n r = class_weight w0 rep n r.
Proof.
  intros Ha Hb. unfold class_weight.
  apply Nsum_ext. intros i _. unfold merged_rep.
  repeat case_bool_decide; lia.
Qed.

Lemma weights_ok_data w0 rep ns ns' :
  node_data <$> ns' = node_data <$> ns -> weights_ok w0 rep ns -> weights_ok w0 rep ns'.
Proof.
  intros Hd [H1 H2 H3 H4].
  pose proof (node_data_length _ _ Hd) as Hl.
  assert (Hd' : node_data <$> ns = node_data <$> ns') by done.
  split; rewrite ?Hl; try done.
  - intros r n Hn Hr. destruct (node_data_lookup _ _ _ _ Hd' Hn) as (m & Hm & E).
    specialize (H3 _ _ Hm Hr). unfold node_data in E. congruence.
  - intros i n nr Hn Hr Hnr.
    destruct (node_data_lookup _ _ _ _ Hd' Hn) as (m & Hm & E).
    destruct (node_data_lookup _ _ _ _ Hd' Hnr) as (mr & Hmr & Er).
    specialize (H4 _ _ _ Hm Hr Hmr). unfold node_data in E, Er.
    assert (Partitioner.weight m = Partitioner.weight n) by congruence.
    assert (Partitioner.weight mr = Partitioner.weight nr) by congruence. lia.
Qed.

Lemma wrap64_small x : x < 2 ^ 64 -> wrap64 x = x.
Proof. intros. unfold wrap64. now apply N.mod_small. Qed.

(** ** The weight of a global value *)

Lemma getDigit_lt c d : Weight.getDigit c = Some d -> d < 16.
Proof.
  unfold Weight.getDigit. intros H.
  repeat match type of H with
         | (if ?b then _ else _) = _ =>
             let E := fresh "E" in
             destruct b eqn:E;
             [apply andb_true_iff in E as [?%N.leb_le ?%N.leb_le]|]
         end; inversion H; subst; lia.
Qed.

Lemma read_hex_value numBits slen : forall s acc,
  ((1 < slen)%nat \/ (acc = 0 /\ (String.length s <= 1)%nat)) ->
  (acc + 1) * 16 ^ N.of_nat (String.length s) <= 2 ^ numBits ->
  Weight.read_hex numBits slen acc s = hex_value_from acc s.
Proof.
  induction s as [|c r IH]; intros acc Hpre Hfit; simpl; [done|].
  destruct (Weight.getDigit c) as [d|] eqn:Hd; simpl; [|done].
  apply getDigit_lt in Hd.
  simpl String.length in Hfit. rewrite Nat2N.inj_succ, N.pow_succ_r' in Hfit.
  assert (Hp : 1 <= 16 ^ N.of_nat (String.length r)).
  { assert (16 ^ N.of_nat (String.length r) <> 0) by (apply N.pow_nonzero; lia). lia. }
  assert (Hsh : (if bool_decide (1 < slen)%nat
                 then N.shiftl acc 4 mod 2 ^ numBits else acc) = 16 * acc).
  { case_bool_decide as Hs.
    - rewrite N.shiftl_mul_pow2. change (2 ^ 4) with 16.
      rewrite N.mod_small; [lia|]. nia.
    - destruct Hpre as [?|[-> _]]; [lia|]. done. }
  rewrite Hsh.
  assert (Hfit' : (16 * acc + d + 1) * 16 ^ N.of_nat (String.length r) <= 2 ^ numBits) by nia.
  rewrite N.mod_small by nia.
  destruct r as [|c' r'].
  - simpl. done.
  - apply IH; [|done]. left. destruct Hpre as [?|[_ Hl]]; [done|]. simpl in Hl. lia.
Qed.

Lemma hex_value_not_sign c r v :
  hex_value (String c r) = Some v -> c <> "-"%char /\ c <> "+"%char.
Proof.
  simpl. intros H. split; intros ->; simpl in H; done.
Qed.

Lemma APInt_fromString_hex s v :
  hex_value s = Some v ->
  Weight.APInt_fromString (N.of_nat (String.length s) * 4) s = Some v.
Proof.
  intros Hv. destruct s as [|c r]; [done|].
  destruct (hex_value_not_sign c r v Hv) as [Hm Hp].
  unfold Weight.APInt_fromString.
  rewrite (bool_decide_eq_false_2 (c = "-"%char)) by done.
  rewrite (bool_decide_eq_false_2 (c = "+"%char)) by done. simpl orb. cbv iota.
  rewrite bool_decide_eq_false_2 by (simpl; lia).
  assert (Hle : ((N.of_nat (String.length (String c r)) - 1) * 4
                 <=? N.of_nat (String.length (String c r)) * 4) = true).
  { apply N.leb_le. lia. }
  rewrite Hle. simpl negb. cbv iota.
  rewrite read_hex_value.
  - unfold hex_value in Hv. rewrite Hv. done.
  - destruct r as [|c' r']; [right|left]; simpl; [split; [done|lia]|lia].
  - rewrite N.mul_1_l. replace 16 with (2 ^ 4) by done.
    rewrite <- N.pow_mul_r. rewrite (N.mul_comm 4). done.
Qed.

Lemma hex_value_from_bound : forall s acc v,
  hex_value_from acc s = Some v -> v < (acc + 1) * 16 ^ N.of_nat (String.length s).
Proof.
  induction s as [|c r IH]; intros acc v H; simpl in H.
  - inversion H; subst. simpl. lia.
  - destruct (Weight.getDigit c) as [d|] eqn:Hd; simpl in H; [|done].
    apply getDigit_lt in Hd. apply IH in H.
    simpl String.length. rewrite Nat2N.inj_succ, N.pow_succ_r'. nia.
Qed.

Lemma Pos_popcount_size p : Weight.Pos_popcount p <= N.pos (Pos.size p).
Proof. induction p; simpl; lia. Qed.

Lemma countPopulation_bound v k : v < 2 ^ k -> Weight.countPopulation v <= k.
Proof.
  intros Hv. destruct v as [|p]; simpl; [lia|].
  etransitivity; [apply Pos_popcount_size|].
  change (N.pos (Pos.size p)) with (N.size (N.pos p)).
  pose proof (N.size_le (N.pos p)) as Hs.
  assert (2 ^ N.size (N.pos p) < 2 ^ (k + 1)).
  { rewrite N.pow_add_r. change (2 ^ 1) with 2.
    rewrite N.succ_double_spec in Hs. lia. }
  apply N.pow_lt_mono_r_iff in H; lia.
Qed.

Lemma foldl_wrap64 : forall (l : list N) a,
  a + foldr N.add 0 l < 2 ^ 64 ->
  foldl (fun acc bb => wrap64 (acc + bb)) a l = a + foldr N.add 0 l.
Proof.
  induction l as [|b l IH]; intros a H; simpl in *; [lia|].
  unfold wrap64 at 2. rewrite N.mod_small by lia. rewrite IH; lia.
Qed.

(** C5: a function weighs (1 + instructions + basic blocks) times its
    clone multiplicity, which is one more than the number of set bits of
    the hexadecimal "julia.mv.clones" attribute and one without the
    attribute; any other global value weighs one. *)
Theorem weight_of_global (G : GlobalValue) :
  (gv_kind G <> KFunction -> node_weight G = Some 1) /\
  (gv_kind G = KFunction -> gv_mv_clones G = None ->
   1 + instruction_count G + block_count G < 2 ^ 64 ->
   node_weight G = Some (1 + instruction_count G + block_count G)) /\
  (forall val v,
     gv_kind G = KFunction -> gv_mv_clones G = Some val ->
     hex_value val = Some v -> N.of_nat (String.length val) < 2 ^ 30 ->
     (1 + instruction_count G + block_count G) * (Weight.countPopulation v + 1) < 2 ^ 64 ->
     node_weight G
     = Some ((1 + instruction_count G + block_count G) * (Weight.countPopulation v + 1))).
Proof.
  unfold node_weight, instruction_count, block_count.
  split; [|split].
  - intros Hk. destruct (gv_kind G); done.
  - intros -> Hc Hfit. unfold Weight.getFunctionWeight. rewrite Hc. simpl.
    rewrite foldl_wrap64 by lia. rewrite N.add_0_l, N.mul_1_r.
    rewrite (wrap64_small (1 + _)) by lia.
    rewrite (wrap64_small (N.of_nat _)) by lia.
    rewrite (wrap64_small (_ + _)) by lia.
    rewrite wrap64_small by lia. done.
  - intros val v -> Hc Hv Hlen Hfit. unfold Weight.getFunctionWeight. rewrite Hc.
    assert (Hbits : wrap32 (N.of_nat (String.length val) * 4)
                    = N.of_nat (String.length val) * 4).
    { unfold wrap32. apply N.mod_small. change (2 ^ 30) with 1073741824 in Hlen.
      change (2 ^ 32) with 4294967296. lia. }
    rewrite Hbits, (APInt_fromString_hex val v Hv). simpl.
    assert (Hpc : Weight.countPopulation v <= N.of_nat (String.length val) * 4).
    { apply countPopulation_bound.
      destruct val as [|c r]; [done|]. unfold hex_value in Hv.
      apply hex_value_from_bound in Hv. rewrite N.add_0_l, N.mul_1_l in Hv.
      rewrite (N.mul_comm _ 4), N.pow_mul_r. done. }
    assert (Hcl : wrap32 (Weight.countPopulation v + 1) = Weight.countPopulation v + 1).
    { unfold wrap32. apply N.mod_small. change (2 ^ 30) with 1073741824 in Hlen.
      change (2 ^ 32) with 4294967296. lia. }
    rewrite Hcl.
    assert (Hsum : 1 + foldr N.add 0 (gv_blocks G) + N.of_nat (length (gv_blocks G)) < 2 ^ 64)
      by nia.
    rewrite foldl_wrap64 by lia. rewrite N.add_0_l.
    rewrite (wrap64_small (1 + _)) by lia.
    rewrite (wrap64_small (N.of_nat _)) by lia.
    rewrite (wrap64_small (_ + _)) by lia.
    rewrite wrap64_small by lia. done.
Qed.

(** ** Linking one root under another *)

Lemma link_lookup ns a b na nb i :
  ns !! a = Some na -> ns !! b = Some nb -> a <> b ->
  link ns a b na nb !! i =
    if decide (i = a) then
      Some (Partitioner.set_weight (wrap64 (Partitioner.weight na + Partitioner.weight nb))
              (Partitioner.set_size (wrap32 (Partitioner.size na + Partitioner.size nb)) na))
    else if decide (i = b) then Some (Partitioner.set_parent a nb)
    else ns !! i.
Proof.
  intros Ha Hb Hne. unfold link.
  apply lookup_lt_Some in Ha as Hla. apply lookup_lt_Some in Hb as Hlb.
  destruct (decide (i = a)) as [->|Hia].
  - rewrite list_lookup_insert_eq; [done|]. now rewrite length_insert.
  - rewrite list_lookup_insert_ne by done.
    destruct (decide (i = b)) as [->|Hib].
    + now rewrite list_lookup_insert_eq.
    + now rewrite list_lookup_insert_ne.
Qed.

Lemma link_length ns a b na nb : length (link ns a b na nb) = length ns.
Proof. unfold link. now rewrite !length_insert. Qed.

Lemma link_GV ns a b na nb :
  ns !! a = Some na -> ns !! b = Some nb ->
  Partitioner.GV <$> link ns a b na nb = Partitioner.GV <$> ns.
Proof.
  intros Ha Hb. unfold link. rewrite !list_fmap_insert. simpl.
  rewrite (list_insert_id _ b) by (rewrite list_lookup_fmap, Hb; done).
  apply list_insert_id. rewrite list_lookup_fmap, Ha. done.
Qed.

Lemma link_spec rk rep w0 ns a b na nb :
  forest rk rep ns -> weights_ok w0 rep ns ->
  ns !! a = Some na -> ns !! b = Some nb -> rep a = a -> rep b = b -> a <> b ->
  exists rk', forest rk' (merged_rep rep a b) (link ns a b na nb) /\
              weights_ok w0 (merged_rep rep a b) (link ns a b na nb).
Proof.
  intros Hf Hw Ha Hb Hra Hrb Hne.
  pose proof (link_lookup ns a b na nb) as Hlk.
  specialize (fun i => Hlk i Ha Hb Hne).
  pose proof (link_length ns a b na nb) as Hlen.
  apply lookup_lt_Some in Ha as Hla. apply lookup_lt_Some in Hb as Hlb.
  pose proof (proj2 (f_root _ _ _ Hf _ _ Ha) Hra) as Hpa.
  assert (Hwa : Partitioner.weight na = class_weight w0 rep (length ns) a)
    by (apply (w_root _ _ _ Hw); done).
  assert (Hwb : Partitioner.weight nb = class_weight w0 rep (length ns) b)
    by (apply (w_root _ _ _ Hw); done).
  pose proof (class_weight_two_le w0 rep (length ns) a b Hne) as Hsum.
  pose proof (w_total _ _ _ Hw) as Htot.
  pose proof (class_weight_self w0 rep (length ns) a Hla Hra) as Hsa.
  pose proof (class_weight_self w0 rep (length ns) b Hlb Hrb) as Hsb.
  pose proof (w_pos _ _ _ Hw a Hla) as Hpa1.
  pose proof (w_pos _ _ _ Hw b Hlb) as Hpb1.
  assert (Hnow : wrap64 (Partitioner.weight na + Partitioner.weight nb)
                 = Partitioner.weight na + Partitioner.weight nb)
    by (apply wrap64_small; lia).
  exists (fun i => if decide (i = a) then (rk a + rk b + 1)%nat else rk i).
  split.
  - split; rewrite ?Hlen.
    + intros i Hi. unfold merged_rep. case_bool_decide; [done|].
      now apply (f_rep_lt _ _ _ Hf).
    + intros i Hi. unfold merged_rep.
      destruct (decide (rep i = b)) as [E|E].
      * rewrite (bool_decide_eq_true_2 _ E).
        rewrite bool_decide_eq_false_2 by congruence. done.
      * rewrite (bool_decide_eq_false_2 _ E).
        rewrite (f_rep_idem _ _ _ Hf) by done.
        rewrite (bool_decide_eq_false_2 _ E). done.
    + intros i n Hi. rewrite Hlk in Hi.
      destruct (decide (i = a)) as [->|Hia]; [|destruct (decide (i = b)) as [->|Hib]].
      * inversion Hi; subst n; simpl. rewrite Hpa. done.
      * inversion Hi; subst n; simpl. split; [done|]. unfold merged_rep.
        rewrite (bool_decide_eq_false_2 (rep a = b)) by congruence.
        rewrite (bool_decide_eq_true_2 (rep b = b)) by done. done.
      * destruct (f_parent _ _ _ Hf _ _ Hi) as [H1 H2]. split; [done|].
        unfold merged_rep. now rewrite H2.
    + intros i n Hi. rewrite Hlk in Hi. unfold merged_rep.
      destruct (decide (i = a)) as [->|Hia]; [|destruct (decide (i = b)) as [->|Hib]].
      * inversion Hi; subst n; simpl.
        rewrite (bool_decide_eq_false_2 (rep a = b)) by congruence. tauto.
      * inversion Hi; subst n; simpl.
        rewrite (bool_decide_eq_true_2 (rep b = b)) by done. tauto.
      * pose proof (f_root _ _ _ Hf _ _ Hi) as Hr.
        case_bool_decide as E; [|done].
        split; [intros E'; apply Hr in E'; congruence | congruence].
    + intros i n Hi Hp. rewrite Hlk in Hi.
      destruct (decide (i = a)) as [->|Hia]; [|destruct (decide (i = b)) as [->|Hib]].
      * inversion Hi; subst n; simpl in *. congruence.
      * inversion Hi; subst n; simpl in *. rewrite decide_True by done. lia.
      * pose proof (f_rank _ _ _ Hf _ _ Hi Hp) as Hr. repeat case_decide; try lia.
        match goal with E : Partitioner.parent n = a |- _ => rewrite E in Hr end. lia.
  - split; rewrite ?Hlen.
    + done.
    + apply Hw.
    + intros r n Hr Hrep. rewrite Hlk in Hr. unfold merged_rep in Hrep.
      destruct (decide (r = a)) as [->|Hia]; [|destruct (decide (r = b)) as [->|Hib]].
      * inversion Hr; subst n; simpl.
        rewrite class_weight_merged_root by done. lia.
      * rewrite (bool_decide_eq_true_2 (rep b = b)) in Hrep by done. congruence.
      * case_bool_decide as E; [congruence|].
        rewrite class_weight_merged_other by done.
        now apply (w_root _ _ _ Hw).
    + intros i n nr Hi Hrep Hnr. rewrite Hlk in Hi, Hnr. unfold merged_rep in *.
      destruct (decide (i = a)) as [->|Hia].
      { rewrite (bool_decide_eq_false_2 (rep a = b)) in Hrep by congruence. congruence. }
      destruct (decide (rep i = b)) as [E|E].
      * rewrite (bool_decide_eq_true_2 _ E) in Hnr. rewrite decide_True in Hnr by done.
        inversion Hnr; subst nr; simpl. rewrite Hnow.
        destruct (decide (i = b)) as [->|Hib].
        -- inversion Hi; subst n; simpl. lia.
        -- assert (Hc : 1 <= Partitioner.weight n < Partitioner.weight nb).
           { apply (w_child _ _ _ Hw i); [done|congruence|congruence]. }
           lia.
      * rewrite (bool_decide_eq_false_2 _ E) in Hnr, Hrep.
        destruct (decide (i = b)) as [->|Hib]; [congruence|].
        destruct (decide (rep i = a)) as [Ea|Ea].
        -- inversion Hnr; subst nr; simpl. rewrite Hnow.
           assert (Hc : 1 <= Partitioner.weight n < Partitioner.weight na).
           { apply (w_child _ _ _ Hw i); [done|congruence|congruence]. }
           lia.
        -- rewrite decide_False in Hnr by done.
           now apply (w_child _ _ _ Hw i).
Qed.

Lemma node_data_GV (ns ns' : list Node) :
  node_data <$> ns' = node_data <$> ns -> Partitioner.GV <$> ns' = Partitioner.GV <$> ns.
Proof.
  intros H. apply (f_equal (fmap (fun d : nat * N * N => d.1.1))) in H.
  rewrite <- !list_fmap_compose in H. exact H.
Qed.

Lemma merge_spec rk rep w0 ns x y :
  forest rk rep ns -> weights_ok w0 rep ns ->
  (x < length ns)%nat -> (y < length ns)%nat ->
  exists ns' r rk' rep',
    Partitioner.merge ns x y = Some (ns', r) /\
    forest rk' rep' ns' /\ weights_ok w0 rep' ns' /\ rep' x = rep' y /\
    (forall i j, rep i = rep j -> rep' i = rep' j) /\
    Partitioner.GV <$> ns' = Partitioner.GV <$> ns.
Proof.
  intros Hf Hw Hx Hy. unfold Partitioner.merge.
  destruct (find_spec rk rep ns x Hf Hx) as (ns1 & Hfx & Hf1 & Hd1).
  rewrite Hfx. simpl.
  pose proof (node_data_length _ _ Hd1) as Hl1.
  destruct (find_spec rk rep ns1 y Hf1 ltac:(lia)) as (ns2 & Hfy & Hf2 & Hd2).
  rewrite Hfy. simpl.
  pose proof (node_data_length _ _ Hd2) as Hl2.
  assert (Hd : node_data <$> ns2 = node_data <$> ns) by congruence.
  pose proof (weights_ok_data _ _ _ _ Hd Hw) as Hw2.
  pose proof (node_data_GV _ _ Hd) as HG.
  case_bool_decide as Hxy.
  - exists ns2, (rep x), rk, rep. done.
  - assert (Hrx : (rep x < length ns2)%nat) by (rewrite Hl2, Hl1; now apply (f_rep_lt _ _ _ Hf)).
    assert (Hry : (rep y < length ns2)%nat) by (rewrite Hl2, Hl1; now apply (f_rep_lt _ _ _ Hf)).
    destruct (lookup_lt_is_Some_2 _ _ Hrx) as [nx Hnx].
    destruct (lookup_lt_is_Some_2 _ _ Hry) as [ny Hny].
    rewrite Hnx, Hny. simpl.
    pose proof (f_rep_idem _ _ _ Hf x Hx) as Hix.
    pose proof (f_rep_idem _ _ _ Hf y Hy) as Hiy.
    destruct (Partitioner.size nx <? Partitioner.size ny).
    + destruct (link_spec rk rep w0 ns2 (rep y) (rep x) ny nx Hf2 Hw2 Hny Hnx Hiy Hix)
        as (rk' & Hf' & Hw'); [congruence|].
      exists (link ns2 (rep y) (rep x) ny nx), (rep y), rk', (merged_rep rep (rep y) (rep x)).
      split; [done|]. split; [done|]. split; [done|]. split; [|split].
      * unfold merged_rep. rewrite (bool_decide_eq_true_2 (rep x = rep x)) by done.
        rewrite (bool_decide_eq_false_2 (rep y = rep x)) by congruence. done.
      * intros i j E. unfold merged_rep. now rewrite E.
      * rewrite link_GV by done. done.
    + destruct (link_spec rk rep w0 ns2 (rep x) (rep y) nx ny Hf2 Hw2 Hnx Hny Hix Hiy)
        as (rk' & Hf' & Hw'); [congruence|].
      exists (link ns2 (rep x) (rep y) nx ny), (rep x), rk', (merged_rep rep (rep x) (rep y)).
      split; [done|]. split; [done|]. split; [done|]. split; [|split].
      * unfold merged_rep. rewrite (bool_decide_eq_true_2 (rep y = rep y)) by done.
        rewrite (bool_decide_eq_false_2 (rep x = rep y)) by congruence. done.
      * intros i j E. unfold merged_rep. now rewrite E.
      * rewrite link_GV by done. done.
Qed.

(** ** The nodes made by the first loop *)

Lemma total_weight_app l1 l2 :
  total_weight (l1 ++ l2) = total_weight l1 + total_weight l2.
Proof.
  induction l1 as [|G l1 IH]; simpl; [done|].
  rewrite IH. destruct (partitionable G); lia.
Qed.

Lemma make_nodes_spec all : forall gvs i P,
  (forall k, gvs !! k = all !! (i + k)%nat) ->
  nodes_ok all P i ->
  (forall G, G ∈ gvs -> partitionable G = true -> is_Some (node_weight G)) ->
  exists P', make_nodes i gvs P = Some (upd_global <$> gvs, P') /\
             nodes_ok all P' (i + length gvs).
Proof.
  induction gvs as [|G gvs IH]; intros i P Hall Hok Hw.
  - simpl. exists P. split; [done|]. now rewrite Nat.add_0_r.
  - assert (Hall' : forall k, gvs !! k = all !! (S i + k)%nat).
    { intros k. specialize (Hall (S k)). simpl in Hall.
      rewrite Hall. f_equal. lia. }
    assert (HG : all !! i = Some G).
    { specialize (Hall 0%nat). simpl in Hall. now rewrite Nat.add_0_r in Hall. }
    assert (Hw' : forall G', G' ∈ gvs -> partitionable G' = true -> is_Some (node_weight G')).
    { intros G' HG'. apply Hw. set_solver. }
    assert (Hskip : partitionable G = false -> nodes_ok all P (S i)).
    { intros Hp. destruct Hok as [H1 H2 H3 H4]. split; [|done| |].
      - intros k n Hn. destruct (H1 k n Hn) as (? & ? & ? & ?).
        repeat split; try done. lia.
      - intros g G' Hg HG' Hp'. destruct (decide (g = i)) as [->|Hne].
        + congruence.
        + apply (H3 g G'); [lia|done..].
      - rewrite (take_S_r _ _ _ HG), total_weight_app, H4. simpl.
        rewrite Hp. lia. }
    simpl. unfold upd_global at 1. unfold partitionable at 1.
    destruct (gv_is_declaration G) eqn:Hd; simpl.
    { destruct (IH (S i) P Hall' (Hskip ltac:(unfold partitionable; now rewrite Hd)) Hw')
        as (P' & -> & Hok').
      simpl. exists P'. split; [done|]. now rewrite Nat.add_succ_r. }
    destruct (canPartition G) eqn:Hc; simpl.
    2:{ destruct (IH (S i) P Hall' (Hskip ltac:(unfold partitionable; now rewrite Hd, Hc)) Hw')
          as (P' & -> & Hok').
        simpl. exists P'. split; [done|]. now rewrite Nat.add_succ_r. }
    assert (Hp : partitionable G = true) by (unfold partitionable; now rewrite Hd, Hc).
    destruct (Hw G ltac:(set_solver) Hp) as [w Hwt]. rewrite Hwt. simpl.
    set (P1 := {| Partitioner.nodes := _; Partitioner.node_map := _ |}).
    assert (Hok1 : nodes_ok all P1 (S i)).
    { destruct Hok as [H1 H2 H3 H4]. split.
      - intros k n Hn. unfold P1 in Hn |- *. simpl in *.
        apply lookup_app_Some in Hn as [Hn|[Hk Hn]].
        + destruct (H1 k n Hn) as (? & Hlt & ? & ?).
          repeat split; try done; [lia|].
          rewrite lookup_insert_ne by lia. done.
        + apply list_lookup_singleton_Some in Hn as [Hk0 <-]. simpl.
          repeat split; [lia|lia| |].
          * rewrite lookup_insert_eq. f_equal. lia.
          * exists G. done.
      - intros g k Hg. unfold P1 in Hg |- *. simpl in *.
        destruct (decide (g = i)) as [->|Hne].
        + rewrite lookup_insert_eq in Hg. inversion Hg; subst k.
          eexists. split.
          * rewrite lookup_app_r by done. rewrite Nat.sub_diag. reflexivity.
          * reflexivity.
        + rewrite lookup_insert_ne in Hg by done.
          destruct (H2 g k Hg) as (n & Hn & E).
          exists n. split; [|done]. now apply lookup_app_l_Some.
      - intros g G' Hg HG' Hp'. unfold P1. simpl.
        destruct (decide (g = i)) as [->|Hne].
        + rewrite lookup_insert_eq. done.
        + rewrite lookup_insert_ne by done. apply (H3 g G'); [lia|done..].
      - rewrite (take_S_r _ _ _ HG), total_weight_app, <- H4. simpl.
        rewrite Hp, Hwt. simpl. unfold P1. simpl.
        rewrite length_app. simpl. rewrite Nat.add_1_r, seq_S, Nsum_app. simpl.
        unfold weight_at at 2. rewrite lookup_app_r by done.
        rewrite Nat.sub_diag. simpl. rewrite !N.add_0_r. f_equal.
        apply Nsum_ext. intros j Hj. apply elem_of_seq in Hj.
        unfold weight_at. rewrite lookup_app_l by lia. done. }
    destruct (IH (S i) P1 Hall' Hok1 Hw') as (P' & -> & Hok').
    simpl. exists P'. split; [|now rewrite Nat.add_succ_r].
    unfold set_hidden_external. done.
Qed.

(** ** The merge loop *)

Section merging.
Variable w0 : nat -> N.
Variable node_map : gmap nat nat.

Lemma merge_uses_spec i : forall uses rk rep ns,
  forest rk rep ns -> weights_ok w0 rep ns -> (i < length ns)%nat ->
  (forall val, val ∈ uses -> exists j, node_map !! val = Some j /\ (j < length ns)%nat) ->
  exists ns' rk' rep',
    merge_uses node_map i uses ns = Some ns' /\
    forest rk' rep' ns' /\ weights_ok w0 rep' ns' /\
    Partitioner.GV <$> ns' = Partitioner.GV <$> ns /\
    (forall a b, rep a = rep b -> rep' a = rep' b) /\
    (forall val, val ∈ uses ->
       exists j, node_map !! val = Some j /\ rep' i = rep' j).
Proof.
  induction uses as [|val uses IH]; intros rk rep ns Hf Hw Hi Hu.
  - exists ns, rk, rep. simpl. split_and!; try done.
    intros ? Hv. now apply elem_of_nil in Hv.
  - simpl. destruct (Hu val ltac:(apply elem_of_cons; now left)) as (j & Hj & Hjl).
    rewrite Hj. simpl.
    destruct (merge_spec rk rep w0 ns i j Hf Hw Hi Hjl)
      as (ns1 & r & rk1 & rep1 & Hm & Hf1 & Hw1 & Hij & Hmono & HG).
    rewrite Hm. simpl.
    assert (Hl : length ns1 = length ns).
    { apply (f_equal length) in HG. now rewrite !length_fmap in HG. }
    destruct (IH rk1 rep1 ns1 Hf1 Hw1) as (ns' & rk' & rep' & Hmu & Hf' & Hw' & HG' & Hmono' & Hl').
    { lia. }
    { intros v Hv. rewrite Hl. apply Hu. apply elem_of_cons; now right. }
    exists ns', rk', rep'. split_and!; try done.
    + congruence.
    + intros a b E. auto.
    + intros v Hv. apply elem_of_cons in Hv as [->|Hv].
      * exists j. split; [done|]. auto.
      * now apply Hl'.
Qed.

Variable gvs : list GlobalValue.

Lemma merge_all_spec : forall idxs rk rep ns,
  forest rk rep ns -> weights_ok w0 rep ns ->
  (forall i, i ∈ idxs -> (i < length ns)%nat) ->
  (forall i g, (Partitioner.GV <$> ns) !! i = Some g ->
     exists G, gvs !! g = Some G /\
       forall val, val ∈ gv_constant_users G ->
         exists j, node_map !! val = Some j /\ (j < length ns)%nat) ->
  exists ns' rk' rep',
    merge_all gvs node_map idxs ns = Some ns' /\
    forest rk' rep' ns' /\ weights_ok w0 rep' ns' /\
    Partitioner.GV <$> ns' = Partitioner.GV <$> ns /\
    (forall a b, rep a = rep b -> rep' a = rep' b) /\
    (forall i g G val, i ∈ idxs -> (Partitioner.GV <$> ns) !! i = Some g ->
       gvs !! g = Some G -> val ∈ gv_constant_users G ->
       exists j, node_map !! val = Some j /\ rep' i = rep' j).
Proof.
  induction idxs as [|i idxs IH]; intros rk rep ns Hf Hw Hi Hu.
  - exists ns, rk, rep. simpl. split_and!; try done.
    intros ? ? ? ? Hv. now apply elem_of_nil in Hv.
  - simpl. assert (Hil : (i < length ns)%nat) by (apply Hi; apply elem_of_cons; now left).
    destruct (lookup_lt_is_Some_2 _ _ Hil) as [n Hn]. rewrite Hn. simpl.
    destruct (Hu i (Partitioner.GV n)) as (G & HG & HuG).
    { rewrite list_lookup_fmap, Hn. done. }
    rewrite HG. simpl.
    destruct (merge_uses_spec i (gv_constant_users G) rk rep ns Hf Hw Hil HuG)
      as (ns1 & rk1 & rep1 & Hm & Hf1 & Hw1 & HG1 & Hmono1 & Hl1).
    rewrite Hm. simpl.
    assert (Hl : length ns1 = length ns).
    { apply (f_equal length) in HG1. now rewrite !length_fmap in HG1. }
    destruct (IH rk1 rep1 ns1 Hf1 Hw1) as (ns' & rk' & rep' & Hmu & Hf' & Hw' & HG' & Hmono' & Hl').
    { intros k Hk. rewrite Hl. apply Hi. apply elem_of_cons; now right. }
    { intros k g. rewrite HG1, Hl. apply Hu. }
    exists ns', rk', rep'. split_and!; try done.
    + congruence.
    + intros a b E. auto.
    + intros k g G' val Hk Hg HG'' Hval. apply elem_of_cons in Hk as [->|Hk].
      * rewrite list_lookup_fmap, Hn in Hg. simpl in Hg.
        assert (G' = G) by congruence. subst G'.
        destruct (Hl1 val Hval) as (j & Hj & E). exists j. split; [done|]. auto.
      * apply (Hl' k g G' val); try done. now rewrite HG1.
Qed.
End merging.

(** ** What is asked of the two library components *)

Lemma sorted_split (key : nat -> N) l l1 a l2 b l3 :
  StronglySorted (fun a b => key b <= key a) l ->
  l = l1 ++ a :: l2 ++ b :: l3 -> key b <= key a.
Proof.
  intros Hs ->. induction l1 as [|c l1 IH]; simpl in Hs.
  - apply StronglySorted_inv in Hs as [_ Hall].
    rewrite Forall_forall in Hall. apply Hall.
    apply elem_of_app. right. apply elem_of_cons. now left.
  - apply StronglySorted_inv in Hs as [Hs _]. auto.
Qed.

(** ** The assignment loop *)

Lemma forest_parents rk rep (ns ns' : list Node) :
  Partitioner.parent <$> ns' = Partitioner.parent <$> ns ->
  forest rk rep ns -> forest rk rep ns'.
Proof.
  intros Hp [H1 H2 H3 H4 H5].
  assert (Hl : length ns' = length ns).
  { apply (f_equal length) in Hp. now rewrite !length_fmap in Hp. }
  assert (Hlk : forall i n', ns' !! i = Some n' ->
            exists n, ns !! i = Some n /\ Partitioner.parent n = Partitioner.parent n').
  { intros i n' Hn'.
    assert (H : (Partitioner.parent <$> ns) !! i = Some (Partitioner.parent n')).
    { rewrite <- Hp, list_lookup_fmap, Hn'. done. }
    rewrite list_lookup_fmap in H. destruct (ns !! i) as [n|]; [|done].
    exists n. split; [done|]. simpl in H. congruence. }
  split; rewrite ?Hl; try done.
  - intros i n' Hn'. destruct (Hlk i n' Hn') as (n & Hn & <-). eauto.
  - intros i n' Hn'. destruct (Hlk i n' Hn') as (n & Hn & <-). eauto.
  - intros i n' Hn'. destruct (Hlk i n' Hn') as (n & Hn & <-). eauto.
Qed.

Section assignment.
Variable pq_top : list Partition -> nat.
Variable gvs : list GlobalValue.
Variable fvar_ids gvar_ids : gmap nat N.
Variable T : nat.
Variables rk rep : nat -> nat.
Variable w0 : nat -> N.
Variable G0 : list nat.

Abbreviation nm := (name_of gvs G0).
Abbreviation n := (length G0).

Hypothesis Htop : top_spec pq_top.
Hypothesis HT : N.of_nat T < 2 ^ 32.
Hypothesis Hnm_def : forall i, (i < n)%nat -> is_Some (nm i).
Hypothesis Hnm_inj : forall i j name, nm i = Some name -> nm j = Some name -> i = j.
Hypothesis Htotal : Nsum w0 (seq 0 n) < 2 ^ 64.

(** the weight placed in partition [p] so far *)
Definition placed_weight (done : list nat) (ns : list Node) (p : nat) : N :=
  Nsum (fun j => if bool_decide (rep j ∈ done /\ size_of ns (rep j) = p)
                 then w0 j else 0) (seq 0 n).

Definition entries_ok (ids : gmap nat N) (done : list nat) (ns : list Node)
    (p : nat) (m : gmap string N) : Prop :=
  forall name k, m !! name = Some k <->
    exists i g, i ∈ done /\ size_of ns i = p /\ nm i = Some name /\
                G0 !! i = Some g /\ ids !! g = Some k.

Record partition_ok (done : list nat) (ns : list Node) (p : nat) (P : Partition)
    : Prop := {
  p_globals : forall name, is_Some (globals P !! name) <->
      exists i, i ∈ done /\ size_of ns i = p /\ nm i = Some name;
  p_fvars : entries_ok fvar_ids done ns p (fvars P);
  p_gvars : entries_ok gvar_ids done ns p (gvars P);
  p_weight : weight P = placed_weight done ns p
}.

Record ainv (done : list nat) (st : list Node * list Partition) : Prop := {
  a_forest : forest rk rep st.1;
  a_GV : Partitioner.GV <$> st.1 = G0;
  a_len : length st.2 = T;
  a_placed : forall i ni, st.1 !! i = Some ni ->
      (Partitioner.weight ni = 0 <-> i ∈ done);
  a_root : forall r nr, st.1 !! r = Some nr -> rep r = r -> r ∉ done ->
      Partitioner.weight nr = class_weight w0 rep n r;
  a_home : forall i, i ∈ done ->
      rep i ∈ done /\ size_of st.1 i = size_of st.1 (rep i) /\
      (size_of st.1 i < T)%nat;
  a_parts : forall p P, st.2 !! p = Some P -> partition_ok done st.1 p P
}.

Definition placed (name : string) (g : nat) (w : N) (P : Partition) : Partition :=
  {| globals := insert_new name (globals P);
     fvars := set_entry name (fvar_ids !! g) (fvars P);
     gvars := set_entry name (gvar_ids !! g) (gvars P);
     weight := w |}.

Lemma entries_ok_other ids done ns ns' i p q m :
  (forall j, j <> i -> size_of ns' j = size_of ns j) ->
  i ∉ done -> size_of ns' i = p -> q <> p ->
  entries_ok ids done ns q m -> entries_ok ids (done ++ [i]) ns' q m.
Proof.
  intros Hs Hnd Hi Hq H name k. etransitivity; [apply H|]. split.
  - intros (j & g & Hj & Hsz & Hrest). exists j, g.
    assert (j <> i) by (intros ->; done).
    rewrite Hs by done. split; [apply elem_of_app; now left|done].
  - intros (j & g & Hj & Hsz & Hrest).
    apply elem_of_app in Hj as [Hj|Hj].
    + exists j, g. assert (j <> i) by (intros ->; done).
      rewrite Hs in Hsz by done. done.
    + apply list_elem_of_singleton in Hj. subst j. congruence.
Qed.

Lemma entries_ok_placed ids done ns ns' i p m name g :
  (forall j, j <> i -> size_of ns' j = size_of ns j) ->
  i ∉ done -> size_of ns' i = p -> nm i = Some name -> G0 !! i = Some g ->
  entries_ok ids done ns p m ->
  entries_ok ids (done ++ [i]) ns' p (set_entry name (ids !! g) m).
Proof.
  intros Hs Hnd Hi Hname Hg H name' k. unfold set_entry. split.
  - intros Hl.
    assert (Hold : m !! name' = Some k ->
              exists j g', j ∈ done ++ [i] /\ size_of ns' j = p /\ nm j = Some name' /\
                           G0 !! j = Some g' /\ ids !! g' = Some k).
    { intros Hm. apply H in Hm as (j & g' & Hj & Hsz & Hrest). exists j, g'.
      assert (j <> i) by (intros ->; done).
      rewrite Hs by done. split; [apply elem_of_app; now left|done]. }
    destruct (ids !! g) as [k0|] eqn:Hk; [|auto].
    destruct (decide (name' = name)) as [->|Hne].
    + rewrite lookup_insert_eq in Hl. inversion Hl; subst k0.
      exists i, g. split; [apply elem_of_app; right; now apply list_elem_of_singleton|done].
    + rewrite lookup_insert_ne in Hl by done. auto.
  - intros (j & g' & Hj & Hsz & Hn & Hg' & Hk).
    apply elem_of_app in Hj as [Hj|Hj].
    + assert (j <> i) by (intros ->; done).
      assert (Hm : m !! name' = Some k).
      { apply H. exists j, g'. rewrite <- Hs by done. done. }
      destruct (ids !! g) as [k0|]; [|done].
      rewrite lookup_insert_ne; [done|].
      intros ->. apply H0. apply (Hnm_inj j i name'); done.
    + apply list_elem_of_singleton in Hj. subst j.
      assert (name' = name) by congruence. assert (g' = g) by congruence. subst.
      rewrite Hk. apply lookup_insert_eq.
Qed.

Lemma insert_new_is_Some name name' (m : gmap string bool) :
  is_Some (insert_new name m !! name') <-> name' = name \/ is_Some (m !! name').
Proof.
  unfold insert_new. destruct (m !! name) as [b|] eqn:E.
  - split; [auto|]. intros [->|H]; [eauto|done].
  - destruct (decide (name' = name)) as [->|Hne].
    + rewrite lookup_insert_eq. split; eauto.
    + rewrite lookup_insert_ne by done. split; [auto|]. intros [?|?]; done.
Qed.
Lemma placed_weight_le done ns p : placed_weight done ns p <= Nsum w0 (seq 0 n).
Proof. apply Nsum_le. intros j _. case_bool_decide; lia. Qed.

(** Placing a node that is not a root leaves the weights as they are. *)
Lemma placed_weight_child done ns ns' i q :
  forest rk rep ns -> length ns = n ->
  (forall j, j <> i -> size_of ns' j = size_of ns j) ->
  rep i <> i ->
  placed_weight (done ++ [i]) ns' q = placed_weight done ns q.
Proof.
  intros Hf Hl Hs Hri. apply Nsum_ext. intros j Hj.
  apply elem_of_seq in Hj.
  assert (Hne : rep j <> i).
  { intros E. apply Hri. rewrite <- E. apply (f_rep_idem _ _ _ Hf). lia. }
  rewrite Hs by done.
  erewrite bool_decide_ext; [reflexivity|].
  rewrite elem_of_app, list_elem_of_singleton. tauto.
Qed.

(** Placing a root adds the weight of its class to its partition. *)
Lemma placed_weight_root done ns ns' i p q :
  (forall j, j <> i -> size_of ns' j = size_of ns j) ->
  size_of ns' i = p -> i ∉ done ->
  placed_weight (done ++ [i]) ns' q
  = placed_weight done ns q + (if decide (q = p) then class_weight w0 rep n i else 0).
Proof.
  intros Hs Hi Hnd. unfold placed_weight, class_weight.
  destruct (decide (q = p)) as [->|Hq].
  - rewrite <- Nsum_add. apply Nsum_ext. intros j _.
    destruct (decide (rep j = i)) as [E|E].
    + rewrite E, Hi.
      rewrite (bool_decide_eq_true_2 (i ∈ done ++ [i] /\ p = p)).
      2:{ split; [|done]. apply elem_of_app. right. now apply list_elem_of_singleton. }
      rewrite (bool_decide_eq_false_2 (i ∈ done /\ _)) by tauto.
      rewrite bool_decide_eq_true_2 by done. lia.
    + rewrite Hs by done. rewrite (bool_decide_eq_false_2 (rep j = i)) by done.
      rewrite N.add_0_r.
      erewrite bool_decide_ext; [reflexivity|].
      rewrite elem_of_app, list_elem_of_singleton. tauto.
  - rewrite N.add_0_r. apply Nsum_ext. intros j _.
    destruct (decide (rep j = i)) as [E|E].
    + rewrite E, Hi.
      rewrite (bool_decide_eq_false_2 (_ /\ p = q)) by (intros [_ ?]; congruence).
      rewrite (bool_decide_eq_false_2 (i ∈ done /\ _)) by tauto. done.
    + rewrite Hs by done.
      erewrite bool_decide_ext; [reflexivity|].
      rewrite elem_of_app, list_elem_of_singleton. tauto.
Qed.

Lemma size_of_data (ns ns' : list Node) j :
  node_data <$> ns' !! j = node_data <$> ns !! j -> size_of ns' j = size_of ns j.
Proof.
  unfold size_of. intros H.
  destruct (ns' !! j) as [a|], (ns !! j) as [b|]; simpl in *; try done.
  unfold node_data in H. f_equal. congruence.
Qed.

Lemma ainv_place done ns ps ns' i p P name g w :
  ainv done (ns, ps) ->
  (i < n)%nat -> i ∉ done ->
  forest rk rep ns' ->
  Partitioner.GV <$> ns' = G0 ->
  (forall j, j <> i -> node_data <$> ns' !! j = node_data <$> ns !! j) ->
  (exists ni', ns' !! i = Some ni' /\ Partitioner.weight ni' = 0 /\
               N.to_nat (Partitioner.size ni') = p) ->
  (p < T)%nat ->
  (rep i <> i -> rep i ∈ done /\ size_of ns (rep i) = p) ->
  ps !! p = Some P -> nm i = Some name -> G0 !! i = Some g ->
  w = placed_weight (done ++ [i]) ns' p ->
  ainv (done ++ [i]) (ns', <[p := placed name g w P]> ps).
Proof.
  intros [I1 I2 I3 I4 I5 I6 I7] Hi Hnd Hf' HG' Hoth (ni' & Hni' & Hw0 & Hsz) Hp Hhome
         HP Hname Hg Hw. simpl in *.
  assert (Hs : forall j, j <> i -> size_of ns' j = size_of ns j).
  { intros j Hj. apply size_of_data. auto. }
  assert (Hsi : size_of ns' i = p).
  { unfold size_of. rewrite Hni'. done. }
  assert (Hlen : length ns = n).
  { rewrite <- I2. now rewrite length_fmap. }
  assert (Hin : forall j, j ∈ done ++ [i] <-> j ∈ done \/ j = i).
  { intros j. rewrite elem_of_app, list_elem_of_singleton. tauto. }
  split; simpl.
  - done.
  - done.
  - now rewrite length_insert.
  - intros j nj Hnj. rewrite Hin. destruct (decide (j = i)) as [->|Hne].
    + assert (nj = ni') by congruence. subst. tauto.
    + specialize (Hoth j Hne). rewrite Hnj in Hoth.
      destruct (ns !! j) as [mj|] eqn:Hmj; [|done].
      specialize (I4 j mj Hmj). simpl in Hoth.
      assert (Partitioner.weight nj = Partitioner.weight mj)
        by (unfold node_data in Hoth; congruence).
      rewrite H. tauto.
  - intros r nr Hnr Hrep Hrd. rewrite Hin in Hrd.
    assert (Hne : r <> i) by tauto.
    specialize (Hoth r Hne). rewrite Hnr in Hoth.
    destruct (ns !! r) as [mr|] eqn:Hmr; [|done].
    assert (Partitioner.weight nr = Partitioner.weight mr)
      by (unfold node_data in Hoth; simpl in Hoth; congruence).
    rewrite H. apply (I5 r mr); [done|done|tauto].
  - intros j Hj. apply Hin in Hj as [Hj| ->].
    + destruct (I6 j Hj) as (H1 & H2 & H3).
      assert (j <> i) by (intros ->; done).
      assert (rep j <> i) by (intros E; rewrite E in H1; done).
      rewrite Hin, !Hs by done. tauto.
    + rewrite Hin, Hsi. destruct (decide (rep i = i)) as [E|E].
      * rewrite E, Hsi. tauto.
      * destruct (Hhome E) as [H1 H2]. rewrite Hs by done. split_and!; [tauto|congruence|done].
  - intros q Q HQ. destruct (decide (q = p)) as [->|Hq].
    + rewrite list_lookup_insert_eq in HQ by (apply lookup_lt_Some in HP; done).
      inversion HQ; subst Q. clear HQ.
      destruct (I7 p P HP) as [J1 J2 J3 J4].
      split; simpl.
      * intros name'. rewrite insert_new_is_Some, J1. split.
        -- intros [->|(j & Hj & Hjs & Hjn)].
           ++ exists i. rewrite Hin. tauto.
           ++ exists j. assert (j <> i) by (intros ->; done).
              rewrite Hin, Hs by done. tauto.
        -- intros (j & Hj & Hjs & Hjn). apply Hin in Hj as [Hj| ->].
           ++ right. exists j. assert (j <> i) by (intros ->; done).
              rewrite <- Hs by done. tauto.
           ++ left. congruence.
      * now apply (entries_ok_placed _ done ns).
      * now apply (entries_ok_placed _ done ns).
      * done.
    + rewrite list_lookup_insert_ne in HQ by done.
      destruct (I7 q Q HQ) as [J1 J2 J3 J4].
      split; simpl.
      * intros name'. rewrite J1. split.
        -- intros (j & Hj & Hjs & Hjn).
           exists j. assert (j <> i) by (intros ->; done).
           rewrite Hin, Hs by done. tauto.
        -- intros (j & Hj & Hjs & Hjn). apply Hin in Hj as [Hj| ->].
           ++ exists j. assert (j <> i) by (intros ->; done).
              rewrite <- Hs by done. tauto.
           ++ congruence.
      * now apply (entries_ok_other _ done ns ns' i p).
      * now apply (entries_ok_other _ done ns ns' i p).
      * rewrite J4. destruct (decide (rep i = i)) as [E|E].
        -- rewrite (placed_weight_root done ns ns' i p q) by done.
           rewrite decide_False by done. lia.
        -- now rewrite (placed_weight_child done ns ns' i q).
Qed.

Lemma name_of_Some i name :
  nm i = Some name ->
  exists g G, G0 !! i = Some g /\ gvs !! g = Some G /\ gv_name G = name.
Proof.
  unfold name_of. intros H.
  destruct (G0 !! i) as [g|] eqn:Eg; [|done]. simpl in H.
  destruct (gvs !! g) as [G|] eqn:EG; [|done]. simpl in H.
  exists g, G. split_and!; congruence.
Qed.

Lemma record_global_placed (nd : Node) p ps P name g G :
  Partitioner.GV nd = g -> gvs !! g = Some G -> gv_name G = name ->
  ps !! p = Some P ->
  record_global gvs fvar_ids gvar_ids nd p ps
  = Some (<[p := placed name g (weight P) P]> ps).
Proof.
  intros <- HG <- HP. unfold record_global. rewrite HG. simpl.
  rewrite HP. simpl. reflexivity.
Qed.

Lemma wrap32_of_nat p : (p < T)%nat -> N.to_nat (wrap32 (N.of_nat p)) = p.
Proof.
  intros Hp. unfold wrap32. rewrite N.mod_small by lia. lia.
Qed.

Lemma assign_step_spec done ns ps i :
  ainv done (ns, ps) -> (i < n)%nat -> i ∉ done ->
  (rep i <> i -> rep i ∈ done) -> (1 <= T)%nat ->
  exists ns' p P name g,
    assign_step pq_top gvs fvar_ids gvar_ids (ns, ps) i
    = Some (ns', <[p := placed name g
                          (if decide (rep i = i)
                           then weight P + class_weight w0 rep n i
                           else weight P) P]> ps) /\
    ainv (done ++ [i])
      (ns', <[p := placed name g
                     (if decide (rep i = i)
                      then weight P + class_weight w0 rep n i
                      else weight P) P]> ps) /\
    ps !! p = Some P /\ nm i = Some name /\ G0 !! i = Some g /\
    p = (if decide (rep i = i) then pq_top ps else size_of ns (rep i)) /\
    size_of ns' i = p /\
    (forall j, j <> i -> size_of ns' j = size_of ns j).
Proof.
  intros Hinv Hi Hnd Hroot HT1.
  pose proof Hinv as [I1 I2 I3 I4 I5 I6 I7]. simpl in *.
  assert (Hlen : length ns = n) by (rewrite <- I2; now rewrite length_fmap).
  destruct (find_spec rk rep ns i I1 ltac:(lia)) as (ns1 & Hfind & Hf1 & Hd1).
  pose proof (node_data_length _ _ Hd1) as Hl1.
  assert (Hd1' : node_data <$> ns = node_data <$> ns1) by done.
  destruct (Hnm_def i Hi) as [name Hname].
  destruct (name_of_Some i name Hname) as (g & G & Hg & HG & HGn).
  assert (Hlk1 : forall j mj, ns1 !! j = Some mj ->
            exists nj, ns !! j = Some nj /\ node_data mj = node_data nj).
  { intros j mj Hmj. destruct (node_data_lookup _ _ _ _ Hd1' Hmj) as (nj & ? & ?).
    exists nj. done. }
  assert (HGV1 : Partitioner.GV <$> ns1 = G0).
  { rewrite <- I2. now apply node_data_GV. }
  unfold assign_step. simpl. rewrite Hfind. simpl.
  assert (Hrl : (rep i < length ns1)%nat).
  { rewrite Hl1. apply (f_rep_lt _ _ _ I1). lia. }
  destruct (lookup_lt_is_Some_2 _ _ Hrl) as [nroot Hnroot]. rewrite Hnroot. simpl.
  destruct (Hlk1 _ _ Hnroot) as (nroot0 & Hnroot0 & Hdr).
  assert (Hil : (i < length ns1)%nat) by lia.
  destruct (lookup_lt_is_Some_2 _ _ Hil) as [ni Hni].
  destruct (Hlk1 _ _ Hni) as (ni0 & Hni0 & Hdi).
  assert (Hwi : Partitioner.weight ni <> 0).
  { intros E. apply Hnd. apply (I4 i ni0 Hni0).
    unfold node_data in Hdi. congruence. }
  assert (HGi : Partitioner.GV ni = g).
  { assert (H : (Partitioner.GV <$> ns1) !! i = Some g) by (rewrite HGV1; done).
    rewrite list_lookup_fmap, Hni in H. simpl in H. congruence. }
  destruct (decide (rep i = i)) as [E|E].
  - (* a root: it goes to the lightest partition *)
    rewrite E in *. assert (nroot = ni) by congruence. subst nroot.
    rewrite (bool_decide_eq_true_2 (i = i)) by done. simpl.
    rewrite (proj2 (N.eqb_neq _ _) Hwi). simpl.
    assert (Hps : ps <> []) by (intros ->; simpl in I3; lia).
    destruct (Htop ps Hps) as [Hpl Hmin].
    destruct (lookup_lt_is_Some_2 _ _ Hpl) as [P HP].
    rewrite (record_global_placed ni (pq_top ps) ps P name g G) by done.
    simpl. rewrite list_lookup_insert_eq by done. simpl.
    rewrite list_insert_insert_eq.
    set (ns2 := <[i := _]> ns1).
    assert (Hwr : Partitioner.weight ni = class_weight w0 rep n i).
    { replace (Partitioner.weight ni) with (Partitioner.weight ni0)
        by (unfold node_data in Hdi; congruence).
      apply (I5 i ni0); done. }
    assert (Hs2 : forall j, j <> i -> node_data <$> ns2 !! j = node_data <$> ns !! j).
    { intros j Hj. unfold ns2. rewrite list_lookup_insert_ne by done.
      rewrite <- !list_lookup_fmap. now rewrite Hd1. }
    assert (Hsz : size_of ns2 i = pq_top ps).
    { unfold size_of, ns2. rewrite list_lookup_insert_eq by done. simpl.
      apply wrap32_of_nat. lia. }
    assert (Hpw : placed_weight (done ++ [i]) ns2 (pq_top ps)
                  = weight P + class_weight w0 rep n i).
    { rewrite (placed_weight_root done ns ns2 i (pq_top ps)); try done.
      - rewrite decide_True by done. f_equal. symmetry. apply (I7 _ _ HP).
      - intros j Hj. apply size_of_data. auto. }
    assert (Hnow : wrap64 (weight P + Partitioner.weight ni)
                   = weight P + class_weight w0 rep n i).
    { rewrite Hwr. apply wrap64_small. rewrite <- Hpw.
      eapply N.le_lt_trans; [apply placed_weight_le|done]. }
    exists ns2, (pq_top ps), P, name, g.
    unfold add_weight, placed. simpl. rewrite Hnow.
    split_and!; try done; [|intros j Hj; apply size_of_data; auto].
    apply (ainv_place done ns ps ns2 i (pq_top ps) P name g); try done.
    + apply (forest_parents _ _ ns1); [|done]. unfold ns2.
      rewrite list_fmap_insert. simpl. apply list_insert_id.
      rewrite list_lookup_fmap, Hni. done.
    + unfold ns2. rewrite list_fmap_insert. simpl. rewrite <- HGV1.
      apply list_insert_id. rewrite list_lookup_fmap, Hni. done.
    + eexists. split; [unfold ns2; apply list_lookup_insert_eq; done|].
      simpl. split; [done|]. apply wrap32_of_nat. lia.
    + lia.
  - (* not a root: it joins the partition of its root *)
    specialize (Hroot E).
    rewrite (bool_decide_eq_false_2 (rep i = i)) by done. simpl.
    assert (Hwr : Partitioner.weight nroot = 0).
    { replace (Partitioner.weight nroot) with (Partitioner.weight nroot0)
        by (unfold node_data in Hdr; congruence).
      now apply (I4 (rep i) nroot0). }
    rewrite Hwr. simpl. rewrite Hni. simpl.
    rewrite (proj2 (N.eqb_neq _ _) Hwi). rewrite Hnroot. simpl.
    destruct (I6 _ Hroot) as (_ & _ & Hhome).
    assert (Hpr : N.to_nat (Partitioner.size nroot) = size_of ns (rep i)).
    { unfold size_of. rewrite Hnroot0. simpl.
      unfold node_data in Hdr. f_equal. congruence. }
    rewrite Hpr.
    assert (Hpl : (size_of ns (rep i) < length ps)%nat) by lia.
    destruct (lookup_lt_is_Some_2 _ _ Hpl) as [P HP].
    rewrite (record_global_placed ni (size_of ns (rep i)) ps P name g G) by done.
    simpl.
    set (ns2 := <[i := _]> ns1).
    assert (Hs2 : forall j, j <> i -> node_data <$> ns2 !! j = node_data <$> ns !! j).
    { intros j Hj. unfold ns2. rewrite list_lookup_insert_ne by done.
      rewrite <- !list_lookup_fmap. now rewrite Hd1. }
    assert (Hsz : size_of ns2 i = size_of ns (rep i)).
    { unfold size_of at 1, ns2. rewrite list_lookup_insert_eq by done. simpl. done. }
    exists ns2, (size_of ns (rep i)), P, name, g.
    split_and!; try done; [|intros j Hj; apply size_of_data; auto].
    apply (ainv_place done ns ps ns2 i (size_of ns (rep i)) P name g); try done.
    + apply (forest_parents _ _ ns1); [|done]. unfold ns2.
      rewrite list_fmap_insert. simpl. apply list_insert_id.
      rewrite list_lookup_fmap, Hni. done.
    + unfold ns2. rewrite list_fmap_insert. simpl. rewrite <- HGV1.
      apply list_insert_id. rewrite list_lookup_fmap, Hni. done.
    + eexists. split; [unfold ns2; apply list_lookup_insert_eq; done|].
      simpl. done.
    + rewrite (placed_weight_child done ns ns2 i); try done.
      * apply (I7 _ _ HP).
      * intros j Hj. apply size_of_data. auto.
Qed.

Lemma assign_all_spec : forall l done st,
  ainv done st -> NoDup (done ++ l) -> (forall i, i ∈ l -> (i < n)%nat) ->
  (forall l1 i l2, l = l1 ++ i :: l2 -> rep i <> i -> rep i ∈ done ++ l1) ->
  (1 <= T)%nat ->
  exists st', assign_all pq_top gvs fvar_ids gvar_ids l st = Some st' /\
              ainv (done ++ l) st' /\
              (forall j, j ∈ done -> size_of st'.1 j = size_of st.1 j).
Proof.
  induction l as [|i l IH]; intros done [ns ps] Hinv Hnd Hlt Hrf HT1.
  - exists (ns, ps). simpl. rewrite app_nil_r. done.
  - apply NoDup_app in Hnd as Hnd'. destruct Hnd' as (Hd1 & Hd2 & Hd3).
    assert (Hi : i ∉ done).
    { intros Hin. apply (Hd2 i Hin). apply elem_of_cons. now left. }
    destruct (assign_step_spec done ns ps i Hinv) as
        (ns' & p & P & name & g & Hstep & Hinv' & _ & _ & _ & _ & _ & Hstab);
      try done.
    { apply Hlt. apply elem_of_cons. now left. }
    { intros E. specialize (Hrf [] i l eq_refl E). now rewrite app_nil_r in Hrf. }
    simpl. rewrite Hstep. simpl.
    destruct (IH (done ++ [i]) _ Hinv') as (st' & Hall & Hinv'' & Hstab'); try done.
    { now rewrite <- app_assoc. }
    { intros j Hj. apply Hlt. apply elem_of_cons. now right. }
    { intros l1 j l2 -> Hj. rewrite <- app_assoc. simpl.
      apply (Hrf (i :: l1) j l2); done. }
    exists st'. split; [done|]. split.
    + rewrite <- app_assoc in Hinv''. done.
    + intros j Hj. rewrite Hstab'.
      * simpl. apply Hstab. intros ->. done.
      * apply elem_of_app. now left.
Qed.

Lemma ainv_init ns :
  forest rk rep ns -> weights_ok w0 rep ns -> Partitioner.GV <$> ns = G0 ->
  ainv [] (ns, replicate T empty_partition).
Proof.
  intros Hf Hw HG.
  assert (Hlen : length ns = n) by (rewrite <- HG; now rewrite length_fmap).
  split; simpl; try done.
  - now rewrite length_replicate.
  - intros i ni Hni. rewrite elem_of_nil. split; [|done]. intros E.
    apply lookup_lt_Some in Hni as Hil.
    destruct (decide (rep i = i)) as [Hr|Hr].
    + pose proof (w_root _ _ _ Hw i ni Hni Hr) as H1.
      pose proof (class_weight_self w0 rep (length ns) i Hil Hr) as H2.
      pose proof (w_pos _ _ _ Hw i Hil). lia.
    + pose proof (f_rep_lt _ _ _ Hf i Hil) as Hrl.
      destruct (lookup_lt_is_Some_2 _ _ Hrl) as [nr Hnr].
      pose proof (w_child _ _ _ Hw i ni nr Hni Hr Hnr). lia.
  - intros r nr Hnr Hr _. rewrite <- Hlen. now apply (w_root _ _ _ Hw).
  - intros i Hi. now apply elem_of_nil in Hi.
  - intros p P HP. apply lookup_replicate in HP as [-> _].
    split; simpl.
    + intros name. rewrite lookup_empty. split; [intros [? ?]; done|].
      intros (i & Hi & _). now apply elem_of_nil in Hi.
    + intros name k. rewrite lookup_empty. split; [done|].
      intros (i & g & Hi & _). now apply elem_of_nil in Hi.
    + intros name k. rewrite lookup_empty. split; [done|].
      intros (i & g & Hi & _). now apply elem_of_nil in Hi.
    + unfold placed_weight. symmetry.
      transitivity (Nsum (fun _ => 0) (seq 0 n)).
      * apply Nsum_ext. intros j _. rewrite bool_decide_eq_false_2; [done|].
        intros [Hj _]. now apply elem_of_nil in Hj.
      * clear. induction (seq 0 n) as [|a l IH]; simpl; [done|]. rewrite IH. done.
Qed.

End assignment.

(** ** Well-formed modules, spelled out *)

Lemma wf_table_sound gvs t :
  wf_table gvs t = true -> exists init, t = Some init /\ wf_table_spec gvs init.
Proof.
  unfold wf_table. destruct t as [init|]; [|done].
  rewrite !andb_true_iff, bool_decide_eq_true, N.ltb_lt, forallb_forall.
  intros [[H1 H2] H3]. exists init. split; [done|]. split; try done.
  intros g Hg. apply list_elem_of_In in Hg. specialize (H3 g Hg).
  destruct (gvs !! g) as [G|]; [|done].
  apply andb_true_iff in H3 as [H3 H4]. exists G. split_and!; try done.
  apply negb_true_iff, bool_decide_eq_false in H4. done.
Qed.

Lemma wf_module_sound M : wf_module M = true -> wf_spec M.
Proof.
  unfold wf_module. rewrite !andb_true_iff, bool_decide_eq_true, N.ltb_lt, forallb_forall.
  intros [[[[[[H1 H2] H3] H4] H5] H6] H7].
  assert (HG : forall G, G ∈ global_values M -> partitionable G = true ->
             match node_weight G with Some w => 1 <=? w | None => false end = true /\
             forall u, u ∈ gv_constant_users G ->
               exists U, global_values M !! u = Some U /\ partitionable U = true).
  { intros G HG Hp. apply list_elem_of_In in HG. specialize (H2 G HG).
    unfold wf_global in H2. rewrite Hp in H2. simpl in H2.
    apply andb_true_iff in H2 as [Ha Hb]. split; [done|].
    rewrite forallb_forall in Hb. intros u Hu. apply list_elem_of_In in Hu.
    specialize (Hb u Hu). destruct (global_values M !! u) as [U|]; [|done].
    exists U. done. }
  split; try done.
  - intros G HG' Hp. destruct (HG G HG' Hp) as [Ha _].
    destruct (node_weight G) as [w|]; [|done]. exists w. split; [done|].
    now apply N.leb_le.
  - intros G u HG' Hp Hu. destruct (HG G HG' Hp) as [_ Hb]. auto.
  - now apply wf_table_sound.
  - now apply wf_table_sound.
Qed.

(** ** The index tables read by [get_fvars_gvars] *)

Lemma index_table_spec names : forall init i acc,
  NoDup init ->
  (forall g, g ∈ init -> acc !! g = None /\
     exists name, names g = Some name /\ name <> EmptyString) ->
  i + N.of_nat (length init) < 2 ^ 32 ->
  exists m, index_table i init names acc = Some m /\
    size m = (size acc + length init)%nat /\
    forall g k, m !! g = Some k <->
      (acc !! g = Some k \/ exists j, init !! j = Some g /\ k = i + N.of_nat j).
Proof.
  induction init as [|g0 init IH]; intros i acc Hnd Hacc Hlen.
  - exists acc. simpl. split; [done|]. split; [lia|].
    intros g k. split; [auto|]. intros [?|(j & Hj & _)]; done.
  - apply NoDup_cons in Hnd as [Hg0 Hnd].
    destruct (Hacc g0 ltac:(apply elem_of_cons; now left)) as (Hnone & name & Hname & Hne).
    simpl. rewrite Hname. simpl.
    rewrite bool_decide_eq_false_2 by done.
    rewrite bool_decide_eq_false_2 by (rewrite Hnone; intros [? ?]; done).
    simpl in Hlen.
    assert (Hw : wrap32 (i + 1) = i + 1).
    { unfold wrap32. apply N.mod_small. lia. }
    rewrite Hw.
    destruct (IH (i + 1) (<[g0 := i]> acc) Hnd) as (m & Hm & Hsz & Hchar).
    { intros g Hg. split.
      - rewrite lookup_insert_ne by (intros ->; done).
        apply Hacc. apply elem_of_cons. now right.
      - apply Hacc. apply elem_of_cons. now right. }
    { lia. }
    exists m. split; [done|]. split.
    { rewrite Hsz. rewrite map_size_insert_None by done. simpl. lia. }
    intros g k. rewrite Hchar. split.
    + intros [Hl|(j & Hj & ->)].
      * destruct (decide (g = g0)) as [->|Hgne].
        -- rewrite lookup_insert_eq in Hl. inversion Hl; subst k.
           right. exists 0%nat. simpl. split; [done|lia].
        -- rewrite lookup_insert_ne in Hl by done. now left.
      * right. exists (S j). simpl. split; [done|lia].
    + intros [Hl|(j & Hj & ->)].
      * left. rewrite lookup_insert_ne; [done|]. intros ->. congruence.
      * destruct j as [|j]; simpl in Hj.
        -- inversion Hj; subst g. left. rewrite lookup_insert_eq. f_equal. lia.
        -- right. exists j. split; [done|lia].
Qed.

(** ** The run of [partitionModule] up to the debug check *)

Lemma get_fvars_gvars_spec M :
  wf_spec M ->
  exists fi gi fvar_ids gvar_ids,
    jl_fvars M = Some fi /\ jl_gvars M = Some gi /\
    wf_table_spec (global_values M) fi /\ wf_table_spec (global_values M) gi /\
    get_fvars_gvars M = Some (erased M (global_values M), fvar_ids, gvar_ids) /\
    table_ids fi fvar_ids /\ table_ids gi gvar_ids.
Proof.
  intros [_ _ _ _ (fi & Hfi & Wf) (gi & Hgi & Wg) [Hx Hy]].
  assert (Htab : forall init, wf_table_spec (global_values M) init ->
            exists ids, index_table 0 init
                          (fun gv => gv_name <$> global_values M !! gv) ∅ = Some ids /\
                        table_ids init ids).
  { intros init [H1 H2 H3].
    destruct (index_table_spec (fun gv => gv_name <$> global_values M !! gv) init 0 ∅ H1)
      as (m & Hm & Hsz & Hchar).
    - intros g Hg. split; [apply lookup_empty|].
      destruct (H3 g Hg) as (G & HG & _ & Hn). exists (gv_name G).
      rewrite HG. done.
    - lia.
    - exists m. split; [done|]. split.
      + rewrite Hsz, map_size_empty. done.
      + intros g k. rewrite Hchar. rewrite lookup_empty. split.
        * intros [?|(j & ? & ->)]; [done|]. exists j. split; [done|lia].
        * intros (j & ? & ->). right. exists j. split; [done|lia]. }
  destruct (Htab fi Wf) as (fids & Hf1 & Hf2).
  destruct (Htab gi Wg) as (gids & Hg1 & Hg2).
  exists fi, gi, fids, gids. split_and!; try done.
  unfold get_fvars_gvars. rewrite Hfi, Hgi. simpl. rewrite Hx, Hy. simpl.
  rewrite Hf1. simpl. rewrite Hg1. simpl. reflexivity.
Qed.

Lemma Nsum_single_from (f : nat -> N) r : forall n s,
  Nsum (fun i => if bool_decide (i = r) then f i else 0) (seq s n)
  = if bool_decide (s <= r < s + n)%nat then f r else 0.
Proof.
  induction n as [|n IH]; intros s; simpl.
  - rewrite bool_decide_eq_false_2 by lia. done.
  - rewrite IH. repeat case_bool_decide; subst; lia.
Qed.

Lemma Nsum_single (f : nat -> N) n r :
  (r < n)%nat ->
  Nsum (fun i => if bool_decide (i = r) then f i else 0) (seq 0 n) = f r.
Proof.
  intros Hr. rewrite Nsum_single_from. rewrite bool_decide_eq_true_2 by lia. done.
Qed.

Lemma upd_global_name G : gv_name (upd_global G) = gv_name G.
Proof. unfold upd_global. destruct (partitionable G); done. Qed.

Lemma upd_global_users G : gv_constant_users (upd_global G) = gv_constant_users G.
Proof. unfold upd_global. destruct (partitionable G); done. Qed.

Lemma upd_global_partitionable G : partitionable (upd_global G) = partitionable G.
Proof. unfold upd_global. destruct (partitionable G) eqn:E; done. Qed.

Lemma upd_global_declaration G : gv_is_declaration (upd_global G) = gv_is_declaration G.
Proof. unfold upd_global. destruct (partitionable G); done. Qed.

Lemma upd_global_canPartition G : canPartition (upd_global G) = canPartition G.
Proof. unfold upd_global. destruct (partitionable G); done. Qed.

Record core_run (sort_idxs : (nat -> N) -> list nat -> list nat)
    (pq_top : list Partition -> nat) (M : Module) (T : nat)
    (fi gi : list nat) (fvar_ids gvar_ids : gmap nat N) (P : Partitioner.t)
    (ns : list Node) (rk rep : nat -> nat) (ns_f : list Node) (ps : list Partition)
    : Prop := {
  cr_fi : jl_fvars M = Some fi;
  cr_gi : jl_gvars M = Some gi;
  cr_wfi : wf_table_spec (global_values M) fi;
  cr_wgi : wf_table_spec (global_values M) gi;
  cr_tables : get_fvars_gvars M
              = Some (erased M (global_values M), fvar_ids, gvar_ids);
  cr_fids : table_ids fi fvar_ids;
  cr_gids : table_ids gi gvar_ids;
  cr_make : make_nodes 0 (global_values M)
              {| Partitioner.nodes := []; Partitioner.node_map := ∅ |}
            = Some (upd_global <$> global_values M, P);
  cr_nodes : nodes_ok (global_values M) P (length (global_values M));
  cr_merge : merge_all (upd_global <$> global_values M) (Partitioner.node_map P)
               (seq 0 (length (Partitioner.nodes P))) (Partitioner.nodes P) = Some ns;
  cr_forest : forest rk rep ns;
  cr_weights : weights_ok (weight_at (Partitioner.nodes P)) rep ns;
  cr_GV : Partitioner.GV <$> ns = Partitioner.GV <$> Partitioner.nodes P;
  cr_linked : forall i g G val, (i < length ns)%nat ->
      (Partitioner.GV <$> ns) !! i = Some g -> global_values M !! g = Some G ->
      val ∈ gv_constant_users G ->
      exists j, Partitioner.node_map P !! val = Some j /\ rep i = rep j;
  cr_nm_def : forall i, (i < length (Partitioner.GV <$> Partitioner.nodes P))%nat ->
      is_Some (name_of (upd_global <$> global_values M)
                 (Partitioner.GV <$> Partitioner.nodes P) i);
  cr_nm_inj : forall i j name,
      name_of (upd_global <$> global_values M)
        (Partitioner.GV <$> Partitioner.nodes P) i = Some name ->
      name_of (upd_global <$> global_values M)
        (Partitioner.GV <$> Partitioner.nodes P) j = Some name -> i = j;
  cr_total : Nsum (weight_at (Partitioner.nodes P))
               (seq 0 (length (Partitioner.GV <$> Partitioner.nodes P))) < 2 ^ 64;
  cr_perm : sort_idxs (weight_at ns) (seq 0 (length ns)) ≡ₚ seq 0 (length ns);
  cr_roots_first : forall l1 i l2,
      sort_idxs (weight_at ns) (seq 0 (length ns)) = l1 ++ i :: l2 ->
      rep i <> i -> rep i ∈ l1;
  cr_assign : assign_all pq_top (upd_global <$> global_values M) fvar_ids gvar_ids
                (sort_idxs (weight_at ns) (seq 0 (length ns)))
                (ns, replicate T empty_partition) = Some (ns_f, ps);
  cr_inv : ainv (upd_global <$> global_values M) fvar_ids gvar_ids T rk rep
             (weight_at (Partitioner.nodes P))
             (Partitioner.GV <$> Partitioner.nodes P)
             (sort_idxs (weight_at ns) (seq 0 (length ns))) (ns_f, ps)
}.

Lemma name_of_upd gvs G0 i :
  name_of (upd_global <$> gvs) G0 i = name_of gvs G0 i.
Proof.
  unfold name_of. destruct (G0 !! i) as [g|]; [|done]. simpl.
  rewrite list_lookup_fmap. destruct (gvs !! g) as [G|]; [|done]. simpl.
  now rewrite upd_global_name.
Qed.

Lemma partition_core sort_idxs pq_top M T :
  sort_spec sort_idxs -> top_spec pq_top -> wf_spec M ->
  (1 <= T)%nat -> N.of_nat T < 2 ^ 32 ->
  exists fi gi fvar_ids gvar_ids P ns rk rep ns_f ps,
    core_run sort_idxs pq_top M T fi gi fvar_ids gvar_ids P ns rk rep ns_f ps.
Proof.
  intros Hsort Htop Hwf HT1 HT.
  destruct (get_fvars_gvars_spec M Hwf)
    as (fi & gi & fvar_ids & gvar_ids & Hfi & Hgi & Wfi & Wgi & Hget & Hfids & Hgids).
  set (all := global_values M).
  destruct (make_nodes_spec all all 0
              {| Partitioner.nodes := []; Partitioner.node_map := ∅ |})
    as (P & Hmake & Hok).
  { done. }
  { split; simpl; try done. intros; lia. }
  { intros G HG Hp. destruct (wf_weight _ Hwf G HG Hp) as (w & -> & _). done. }
  simpl in Hok.
  pose proof (no_node _ _ _ Hok) as Hnode.
  set (ns0 := Partitioner.nodes P) in *.
  set (w0 := weight_at ns0).
  assert (Htot : Nsum w0 (seq 0 (length ns0)) < 2 ^ 64).
  { pose proof (no_total _ _ _ Hok) as Ht. simpl in Ht. fold ns0 in Ht.
    unfold w0. rewrite Ht. unfold all. rewrite firstn_all.
    apply (wf_total _ Hwf). }
  assert (Hpos : forall i, (i < length ns0)%nat -> 1 <= w0 i).
  { intros i Hi. destruct (lookup_lt_is_Some_2 _ _ Hi) as [nd Hnd].
    destruct (Hnode i nd Hnd) as (_ & _ & _ & G & HG & Hp & Hw).
    destruct (wf_weight _ Hwf G (list_elem_of_lookup_2 _ _ _ HG) Hp) as (w & Hw' & Hle).
    unfold w0, weight_at. rewrite Hnd. simpl. congruence. }
  assert (Hf0 : forest (fun _ => 0%nat) (fun i => i) ns0).
  { split; try done.
    - intros i nd Hnd. destruct (Hnode i nd Hnd) as (-> & _). split; [|done].
      now apply lookup_lt_Some in Hnd.
    - intros i nd Hnd. destruct (Hnode i nd Hnd) as (-> & _). done.
    - intros i nd Hnd. destruct (Hnode i nd Hnd) as (-> & _). done. }
  assert (Hw0 : weights_ok w0 (fun i => i) ns0).
  { split; try done.
    intros r nd Hnd _. unfold class_weight.
    rewrite (Nsum_single w0) by (now apply lookup_lt_Some in Hnd).
    unfold w0, weight_at. now rewrite Hnd. }
  destruct (merge_all_spec w0 (Partitioner.node_map P) (upd_global <$> all)
              (seq 0 (length ns0)) _ _ ns0 Hf0 Hw0)
    as (ns & rk & rep & Hmerge & Hf & Hw & HGV & _ & Hlinked).
  { intros i Hi. apply elem_of_seq in Hi. lia. }
  { intros i g Hg. rewrite list_lookup_fmap in Hg.
    destruct (ns0 !! i) as [nd|] eqn:Hnd; [|done]. simpl in Hg.
    destruct (Hnode i nd Hnd) as (_ & _ & _ & G & HG & Hp & _).
    assert (g = Partitioner.GV nd) by congruence. subst g.
    exists (upd_global G). split; [rewrite list_lookup_fmap, HG; done|].
    rewrite upd_global_users. intros val Hval.
    destruct (wf_users _ Hwf G val (list_elem_of_lookup_2 _ _ _ HG) Hp Hval)
      as (U & HU & HpU).
    destruct (no_all _ _ _ Hok val U) as [j Hj]; try done.
    { now apply lookup_lt_Some in HU. }
    exists j. split; [done|].
    destruct (no_map _ _ _ Hok val j Hj) as (nj & Hnj & _).
    now apply lookup_lt_Some in Hnj. }
  assert (Hlen : length ns = length ns0).
  { apply (f_equal length) in HGV. now rewrite !length_fmap in HGV. }
  set (G0 := Partitioner.GV <$> ns0).
  assert (HlG : length G0 = length ns0) by (unfold G0; now rewrite length_fmap).
  set (idxs := sort_idxs (weight_at ns) (seq 0 (length ns))).
  destruct (Hsort (weight_at ns) (seq 0 (length ns))) as [Hperm Hsorted].
  fold idxs in Hperm, Hsorted.
  assert (Hrf : forall l1 i l2, idxs = l1 ++ i :: l2 -> rep i <> i -> rep i ∈ l1).
  { intros l1 i l2 E Hri.
    assert (Hi : (i < length ns)%nat).
    { assert (i ∈ idxs) by (rewrite E; apply elem_of_app; right; apply elem_of_cons; now left).
      rewrite Hperm in H. apply elem_of_seq in H. lia. }
    pose proof (f_rep_lt _ _ _ Hf i Hi) as Hrl.
    assert (Hr : rep i ∈ idxs) by (rewrite Hperm; apply elem_of_seq; lia).
    rewrite E in Hr. apply elem_of_app in Hr as [Hr|Hr]; [done|].
    apply elem_of_cons in Hr as [Hr|Hr]; [done|]. exfalso.
    apply list_elem_of_split in Hr as (l3 & l4 & ->).
    pose proof (sorted_split _ _ l1 i l3 (rep i) l4 Hsorted E) as Hsorted'.
    clear Hsorted. rename Hsorted' into Hsorted.
    destruct (lookup_lt_is_Some_2 _ _ Hi) as [ni Hni].
    destruct (lookup_lt_is_Some_2 _ _ Hrl) as [nr Hnr].
    pose proof (w_child _ _ _ Hw i ni nr Hni Hri Hnr) as Hc.
    unfold weight_at in Hsorted. rewrite Hni, Hnr in Hsorted. simpl in Hsorted. lia. }
  assert (Hnm_def : forall i, (i < length G0)%nat ->
            is_Some (name_of (upd_global <$> all) G0 i)).
  { intros i Hi. rewrite name_of_upd. unfold name_of, G0.
    rewrite list_lookup_fmap. rewrite HlG in Hi.
    destruct (lookup_lt_is_Some_2 _ _ Hi) as [nd Hnd]. rewrite Hnd. simpl.
    destruct (Hnode i nd Hnd) as (_ & _ & _ & G & HG & _). rewrite HG. done. }
  assert (Hnm_inj : forall i j name,
            name_of (upd_global <$> all) G0 i = Some name ->
            name_of (upd_global <$> all) G0 j = Some name -> i = j).
  { intros i j name. rewrite !name_of_upd. unfold name_of, G0.
    rewrite !list_lookup_fmap.
    destruct (ns0 !! i) as [ni|] eqn:Hni; [|done].
    destruct (ns0 !! j) as [nj|] eqn:Hnj; [|done]. simpl.
    destruct (all !! Partitioner.GV ni) as [Gi|] eqn:HGi; [|done].
    destruct (all !! Partitioner.GV nj) as [Gj|] eqn:HGj; [|done]. simpl.
    intros Ei Ej.
    assert (Eg : Partitioner.GV ni = Partitioner.GV nj).
    { apply (proj1 (NoDup_alt _) (wf_names _ Hwf) _ _ name).
      - rewrite list_lookup_fmap. fold all. rewrite HGi. simpl. congruence.
      - rewrite list_lookup_fmap. fold all. rewrite HGj. simpl. congruence. }
    destruct (Hnode i ni Hni) as (_ & _ & Hmi & _).
    destruct (Hnode j nj Hnj) as (_ & _ & Hmj & _).
    rewrite Eg in Hmi. congruence. }
  assert (Htot' : Nsum w0 (seq 0 (length G0)) < 2 ^ 64) by (rewrite HlG; done).
  pose proof (ainv_init (upd_global <$> all) fvar_ids gvar_ids T rk rep w0 G0 HT Htot'
                ns Hf Hw HGV) as Hinit.
  destruct (assign_all_spec pq_top (upd_global <$> all) fvar_ids gvar_ids T rk rep w0 G0
              Htop HT Hnm_def Hnm_inj Htot' idxs [] _ Hinit)
    as ([ns_f ps] & Hassign & Hinv & _).
  { simpl. rewrite Hperm. apply NoDup_seq. }
  { intros i Hi. rewrite Hperm in Hi. apply elem_of_seq in Hi. lia. }
  { intros l1 i l2 E Hri. simpl. now apply (Hrf l1 i l2). }
  { done. }
  exists fi, gi, fvar_ids, gvar_ids, P, ns, rk, rep, ns_f, ps.
  split; try done.
  intros i g G val Hi Hg HG Hval.
  apply (Hlinked i g (upd_global G) val).
  - apply elem_of_seq. lia.
  - now rewrite <- HGV.
  - rewrite list_lookup_fmap. fold all in HG. rewrite HG. done.
  - now rewrite upd_global_users.
Qed.

(** ** What the partitions hold when the loop is over *)

Section final.
Variable sort_idxs : (nat -> N) -> list nat -> list nat.
Variable pq_top : list Partition -> nat.
Variable M : Module.
Variable T : nat.
Variables fi gi : list nat.
Variables fvar_ids gvar_ids : gmap nat N.
Variable P : Partitioner.t.
Variable ns : list Node.
Variables rk rep : nat -> nat.
Variable ns_f : list Node.
Variable ps : list Partition.
Hypothesis Hwf : wf_spec M.
Hypothesis Hrun :
  core_run sort_idxs pq_top M T fi gi fvar_ids gvar_ids P ns rk rep ns_f ps.

Abbreviation gvs := (global_values M).
Abbreviation ns0 := (Partitioner.nodes P).
Abbreviation G0 := (Partitioner.GV <$> Partitioner.nodes P).
Abbreviation nodes_n := (length (Partitioner.nodes P)).
Abbreviation home := (size_of ns_f).
Abbreviation nm := (name_of (global_values M)
                      (Partitioner.GV <$> Partitioner.nodes P)).

Lemma core_len_ns : length ns = nodes_n.
Proof.
  pose proof (cr_GV _ _ _ _ _ _ _ _ _ _ _ _ _ _ Hrun) as H.
  apply (f_equal length) in H. now rewrite !length_fmap in H.
Qed.

Lemma core_done i :
  i ∈ sort_idxs (weight_at ns) (seq 0 (length ns)) <-> (i < nodes_n)%nat.
Proof.
  rewrite (cr_perm _ _ _ _ _ _ _ _ _ _ _ _ _ _ Hrun), elem_of_seq, core_len_ns. lia.
Qed.

Lemma core_length : length ps = T.
Proof. apply (a_len _ _ _ _ _ _ _ _ _ _ (cr_inv _ _ _ _ _ _ _ _ _ _ _ _ _ _ Hrun)). Qed.

Lemma core_home i :
  (i < nodes_n)%nat ->
  (rep i < nodes_n)%nat /\ home i = home (rep i) /\ (home i < T)%nat.
Proof.
  intros Hi. apply core_done in Hi.
  destruct (a_home _ _ _ _ _ _ _ _ _ _ (cr_inv _ _ _ _ _ _ _ _ _ _ _ _ _ _ Hrun) i Hi)
    as (H1 & H2 & H3).
  apply core_done in H1. done.
Qed.

Lemma core_globals p Q name :
  ps !! p = Some Q ->
  is_Some (globals Q !! name) <->
  exists i, (i < nodes_n)%nat /\ home i = p /\ nm i = Some name.
Proof.
  intros HQ.
  pose proof (a_parts _ _ _ _ _ _ _ _ _ _ (cr_inv _ _ _ _ _ _ _ _ _ _ _ _ _ _ Hrun) p Q HQ)
    as [H _ _ _].
  rewrite H. split; intros (i & Hi & Hh & Hn); exists i.
  - rewrite name_of_upd in Hn. apply core_done in Hi. done.
  - rewrite name_of_upd. apply core_done in Hi. done.
Qed.

Lemma core_fvars p Q name k :
  ps !! p = Some Q ->
  fvars Q !! name = Some k <->
  exists i g, (i < nodes_n)%nat /\ home i = p /\ nm i = Some name /\
              G0 !! i = Some g /\ fvar_ids !! g = Some k.
Proof.
  intros HQ.
  pose proof (a_parts _ _ _ _ _ _ _ _ _ _ (cr_inv _ _ _ _ _ _ _ _ _ _ _ _ _ _ Hrun) p Q HQ)
    as [_ H _ _].
  etransitivity; [apply H|]. split; intros (i & g & Hi & Hh & Hn & Hrest); exists i, g.
  - rewrite name_of_upd in Hn. apply core_done in Hi. done.
  - rewrite name_of_upd. apply core_done in Hi. done.
Qed.

Lemma core_gvars p Q name k :
  ps !! p = Some Q ->
  gvars Q !! name = Some k <->
  exists i g, (i < nodes_n)%nat /\ home i = p /\ nm i = Some name /\
              G0 !! i = Some g /\ gvar_ids !! g = Some k.
Proof.
  intros HQ.
  pose proof (a_parts _ _ _ _ _ _ _ _ _ _ (cr_inv _ _ _ _ _ _ _ _ _ _ _ _ _ _ Hrun) p Q HQ)
    as [_ _ H _].
  etransitivity; [apply H|]. split; intros (i & g & Hi & Hh & Hn & Hrest); exists i, g.
  - rewrite name_of_upd in Hn. apply core_done in Hi. done.
  - rewrite name_of_upd. apply core_done in Hi. done.
Qed.

Lemma core_nm_inj i j name : nm i = Some name -> nm j = Some name -> i = j.
Proof.
  intros Hi Hj.
  apply (cr_nm_inj _ _ _ _ _ _ _ _ _ _ _ _ _ _ Hrun i j name); now rewrite name_of_upd.
Qed.

(** nodes and partitionable definitions correspond *)
Lemma node_of_global g G :
  gvs !! g = Some G -> partitionable G = true ->
  exists i, (i < nodes_n)%nat /\ G0 !! i = Some g /\
            Partitioner.node_map P !! g = Some i /\ nm i = Some (gv_name G).
Proof.
  intros HG Hp.
  pose proof (cr_nodes _ _ _ _ _ _ _ _ _ _ _ _ _ _ Hrun) as Hok.
  destruct (no_all _ _ _ Hok g G) as [i Hi]; try done.
  { now apply lookup_lt_Some in HG. }
  destruct (no_map _ _ _ Hok g i Hi) as (nd & Hnd & HGV).
  exists i. split_and!; try done.
  - now apply lookup_lt_Some in Hnd.
  - rewrite list_lookup_fmap, Hnd. simpl. congruence.
  - unfold name_of. rewrite list_lookup_fmap, Hnd. simpl. rewrite HGV, HG. done.
Qed.

Lemma global_of_node i :
  (i < nodes_n)%nat ->
  exists g G, G0 !! i = Some g /\ gvs !! g = Some G /\ partitionable G = true /\
              Partitioner.node_map P !! g = Some i /\ nm i = Some (gv_name G).
Proof.
  intros Hi.
  pose proof (cr_nodes _ _ _ _ _ _ _ _ _ _ _ _ _ _ Hrun) as Hok.
  destruct (lookup_lt_is_Some_2 _ _ Hi) as [nd Hnd].
  destruct (no_node _ _ _ Hok i nd Hnd) as (_ & _ & Hm & G & HG & Hp & _).
  exists (Partitioner.GV nd), G. split_and!; try done.
  - rewrite list_lookup_fmap, Hnd. done.
  - unfold name_of. rewrite list_lookup_fmap, Hnd. simpl. rewrite HG. done.
Qed.

(** every partitionable definition lies in the partition of its node *)
Lemma placed_global g G :
  gvs !! g = Some G -> partitionable G = true ->
  exists i p Q, (i < nodes_n)%nat /\ G0 !! i = Some g /\ home i = p /\
                ps !! p = Some Q /\ is_Some (globals Q !! gv_name G).
Proof.
  intros HG Hp. destruct (node_of_global g G HG Hp) as (i & Hi & Hg & _ & Hn).
  destruct (core_home i Hi) as (_ & _ & Hh).
  rewrite <- core_length in Hh.
  destruct (lookup_lt_is_Some_2 _ _ Hh) as [Q HQ].
  exists i, (home i), Q. split_and!; try done.
  apply (core_globals _ _ _ HQ). exists i. done.
Qed.

Lemma globals_unique p q Q1 Q2 name :
  ps !! p = Some Q1 -> ps !! q = Some Q2 ->
  is_Some (globals Q1 !! name) -> is_Some (globals Q2 !! name) -> p = q.
Proof.
  intros H1 H2 Hn1 Hn2.
  apply (core_globals _ _ _ H1) in Hn1 as (i & _ & Hi & Hni).
  apply (core_globals _ _ _ H2) in Hn2 as (j & _ & Hj & Hnj).
  assert (i = j) by (eapply core_nm_inj; done). congruence.
Qed.

(** a definition and its users lie together *)
Lemma users_together b B a A :
  gvs !! b = Some B -> partitionable B = true -> a ∈ gv_constant_users B ->
  gvs !! a = Some A ->
  exists p Q, ps !! p = Some Q /\ is_Some (globals Q !! gv_name A) /\
              is_Some (globals Q !! gv_name B).
Proof.
  intros HB HpB Ha HA.
  destruct (wf_users _ Hwf B a (list_elem_of_lookup_2 _ _ _ HB) HpB Ha) as (A' & HA' & HpA).
  assert (A' = A) by congruence. subst A'.
  destruct (node_of_global b B HB HpB) as (i & Hi & Hgi & Hmi & Hni).
  destruct (node_of_global a A HA HpA) as (j & Hj & Hgj & Hmj & Hnj).
  destruct (cr_linked _ _ _ _ _ _ _ _ _ _ _ _ _ _ Hrun i b B a) as (j' & Hj' & Hrep); try done.
  { now rewrite core_len_ns. }
  { now rewrite (cr_GV _ _ _ _ _ _ _ _ _ _ _ _ _ _ Hrun). }
  assert (j' = j) by congruence. subst j'.
  destruct (core_home i Hi) as (_ & Hhi & Hlt).
  destruct (core_home j Hj) as (_ & Hhj & _).
  rewrite <- core_length in Hlt.
  destruct (lookup_lt_is_Some_2 _ _ Hlt) as [Q HQ].
  exists (home i), Q. split; [done|]. split.
  - apply (core_globals _ _ _ HQ). exists j. split_and!; try done. congruence.
  - apply (core_globals _ _ _ HQ). exists i. done.
Qed.
(** the flat ids in the sub-tables, for either table *)
Section table.
Variable init : list nat.
Variable ids : gmap nat N.
Variable proj : Partition -> gmap string N.
Hypothesis Htable : wf_table_spec gvs init.
Hypothesis Hids : table_ids init ids.
Hypothesis Hchar : forall p Q name k, ps !! p = Some Q ->
  (proj Q !! name = Some k <->
   exists i g, (i < nodes_n)%nat /\ home i = p /\ nm i = Some name /\
               G0 !! i = Some g /\ ids !! g = Some k).

Lemma table_entry p Q name k :
  ps !! p = Some Q -> proj Q !! name = Some k ->
  exists j g G, k = N.of_nat j /\ init !! j = Some g /\ gvs !! g = Some G /\
                gv_name G = name.
Proof.
  intros HQ Hk. apply (Hchar _ _ _ _ HQ) in Hk as (i & g & Hi & Hh & Hn & Hg & Hid).
  apply (proj2 Hids) in Hid as (j & Hj & ->).
  destruct (global_of_node i Hi) as (g' & G & Hg' & HG & _ & _ & Hn').
  assert (g' = g) by congruence. subst g'.
  exists j, g, G. split_and!; try done. congruence.
Qed.

Lemma table_cover j g :
  init !! j = Some g ->
  exists G p Q, gvs !! g = Some G /\ ps !! p = Some Q /\
                proj Q !! gv_name G = Some (N.of_nat j).
Proof.
  intros Hj.
  destruct (wt_entry _ _ Htable g (list_elem_of_lookup_2 _ _ _ Hj)) as (G & HG & Hp & _).
  destruct (node_of_global g G HG Hp) as (i & Hi & Hg & _ & Hn).
  destruct (core_home i Hi) as (_ & _ & Hh).
  rewrite <- core_length in Hh.
  destruct (lookup_lt_is_Some_2 _ _ Hh) as [Q HQ].
  exists G, (home i), Q. split_and!; try done.
  apply (Hchar _ _ _ _ HQ). exists i, g. split_and!; try done.
  apply (proj2 Hids). exists j. done.
Qed.

Lemma table_unique p q Q1 Q2 n1 n2 k :
  ps !! p = Some Q1 -> ps !! q = Some Q2 ->
  proj Q1 !! n1 = Some k -> proj Q2 !! n2 = Some k -> p = q /\ n1 = n2.
Proof.
  intros H1 H2 Hk1 Hk2.
  apply (Hchar _ _ _ _ H1) in Hk1 as (i1 & g1 & Hi1 & Hh1 & Hn1 & Hg1 & Hid1).
  apply (Hchar _ _ _ _ H2) in Hk2 as (i2 & g2 & Hi2 & Hh2 & Hn2 & Hg2 & Hid2).
  apply (proj2 Hids) in Hid1 as (j1 & Hj1 & E1).
  apply (proj2 Hids) in Hid2 as (j2 & Hj2 & E2).
  assert (j1 = j2) by lia. subst j2.
  assert (g1 = g2) by congruence. subst g2.
  destruct (global_of_node i1 Hi1) as (g1' & G1 & Hg1' & _ & _ & Hm1 & _).
  destruct (global_of_node i2 Hi2) as (g2' & G2 & Hg2' & _ & _ & Hm2 & _).
  assert (i1 = i2) by congruence. subst i2.
  split; congruence.
Qed.
End table.

End final.

(** ** The debug check accepts a correct partitioning *)

Lemma verify_names_ok i : forall names (m : gmap string N),
  NoDup names -> (forall x, x ∈ names -> m !! x = None) ->
  exists m', verify_names i names (m, false) = (m', false) /\
    forall x, m' !! x = if bool_decide (x ∈ names) then Some i else m !! x.
Proof.
  unfold verify_names.
  induction names as [|a names IH]; intros m Hnd Hnone; simpl.
  - exists m. split; [done|]. intros x. done.
  - apply NoDup_cons in Hnd as [Ha Hnd].
    rewrite (Hnone a) by (apply elem_of_cons; now left).
    rewrite bool_decide_eq_false_2 by (intros [? ?]; done). simpl.
    destruct (IH (<[a := i]> m) Hnd) as (m' & Hm' & Hchar).
    { intros x Hx. rewrite lookup_insert_ne by (intros ->; done).
      apply Hnone. apply elem_of_cons. now right. }
    exists m'. split; [done|]. intros x. rewrite Hchar.
    destruct (decide (x = a)) as [->|Hne].
    + rewrite (bool_decide_eq_false_2 (a ∈ names)) by done.
      rewrite bool_decide_eq_true_2 by (apply elem_of_cons; now left).
      apply lookup_insert_eq.
    + rewrite lookup_insert_ne by done.
      erewrite bool_decide_ext; [reflexivity|]. rewrite elem_of_cons. tauto.
Qed.

Lemma bump_all_ok i : forall ids (slots : list N),
  NoDup ids -> (forall id, id ∈ ids -> slots !! N.to_nat id = Some 0) ->
  exists slots', bump_all i ids (slots, false) = Some (slots', false) /\
    length slots' = length slots /\
    forall k, slots' !! k = if bool_decide (N.of_nat k ∈ ids)
                            then Some (wrap32 (i + 1)) else slots !! k.
Proof.
  induction ids as [|a ids IH]; intros slots Hnd Hz; simpl.
  - exists slots. split; [done|]. split; [done|]. intros k. done.
  - apply NoDup_cons in Hnd as [Ha Hnd].
    unfold bump. rewrite (Hz a) by (apply elem_of_cons; now left). simpl.
    destruct (IH (<[N.to_nat a := wrap32 (i + 1)]> slots) Hnd) as (s' & Hs' & Hl & Hchar).
    { intros id Hid. rewrite list_lookup_insert_ne.
      - apply Hz. apply elem_of_cons. now right.
      - intros E. apply N2Nat.inj in E. subst. done. }
    exists s'. split; [done|]. split; [now rewrite Hl, length_insert|].
    intros k. rewrite Hchar.
    destruct (decide (N.of_nat k = a)) as [E|Hne].
    + subst a. rewrite (bool_decide_eq_false_2 (N.of_nat k ∈ ids)) by done.
      rewrite bool_decide_eq_true_2 by (apply elem_of_cons; now left).
      rewrite Nat2N.id. apply list_lookup_insert_eq.
      specialize (Hz (N.of_nat k) ltac:(apply elem_of_cons; now left)).
      rewrite Nat2N.id in Hz. now apply lookup_lt_Some in Hz.
    + rewrite list_lookup_insert_ne by (intros E; apply Hne; lia).
      erewrite bool_decide_ext; [reflexivity|]. rewrite elem_of_cons. tauto.
Qed.

Lemma NoDup_map_values (m : gmap string N) :
  (forall n1 n2 k, m !! n1 = Some k -> m !! n2 = Some k -> n1 = n2) ->
  NoDup (map_to_list m).*2.
Proof.
  intros Hinj. apply NoDup_fmap_2_strong; [|apply NoDup_map_to_list].
  intros [n1 k1] [n2 k2] H1 H2 E. simpl in E. subst k2.
  apply elem_of_map_to_list in H1, H2. f_equal. eauto.
Qed.

Lemma elem_of_map_values (m : gmap string N) k :
  k ∈ (map_to_list m).*2 <-> exists name, m !! name = Some k.
Proof.
  rewrite list_elem_of_fmap. split.
  - intros ([name k'] & -> & H). apply elem_of_map_to_list in H. eauto.
  - intros (name & H). exists (name, k). split; [done|]. now apply elem_of_map_to_list.
Qed.

Lemma elem_of_map_keys (m : gmap string bool) name :
  name ∈ (map_to_list m).*1 <-> is_Some (m !! name).
Proof.
  rewrite list_elem_of_fmap. split.
  - intros ([name' b] & -> & H). apply elem_of_map_to_list in H. eauto.
  - intros (b & H). exists (name, b). split; [done|]. now apply elem_of_map_to_list.
Qed.

Lemma slots_ok_step ps proj nf p Q slots :
  table_ok ps proj nf -> N.of_nat (length ps) < 2 ^ 32 ->
  ps !! p = Some Q -> slots_ok ps proj nf p slots ->
  exists slots', bump_all (N.of_nat p) (map_to_list (proj Q)).*2 (slots, false)
                 = Some (slots', false) /\
                 slots_ok ps proj nf (S p) slots'.
Proof.
  intros [Hr Hu Hc] Hlen HQ [Hl Hs].
  apply lookup_lt_Some in HQ as Hp.
  destruct (bump_all_ok (N.of_nat p) (map_to_list (proj Q)).*2 slots)
    as (slots' & Hb & Hl' & Hchar).
  - apply NoDup_map_values. intros n1 n2 k H1 H2.
    now destruct (Hu p p Q Q n1 n2 k HQ HQ H1 H2).
  - intros id Hid. apply elem_of_map_values in Hid as (name & Hname).
    pose proof (Hr p Q name id HQ Hname) as Hlt.
    rewrite <- Hl in Hlt. destruct (lookup_lt_is_Some_2 _ _ Hlt) as [s Hsl].
    rewrite Hsl. f_equal. apply (Hs _ _ Hsl).
    intros (p' & Q' & name' & Hp' & HQ' & Hn').
    rewrite N2Nat.id in Hn'.
    destruct (Hu p' p Q' Q name' name id HQ' HQ Hn' Hname). lia.
  - exists slots'. split; [done|]. split; [congruence|].
    assert (Hne : wrap32 (N.of_nat p + 1) <> 0).
    { unfold wrap32. rewrite N.mod_small by lia. lia. }
    intros k s Hk. rewrite Hchar in Hk. case_bool_decide as Hin.
    + inversion Hk; subst s. split; [done|]. intros Hno. exfalso. apply Hno.
      apply elem_of_map_values in Hin as (name & Hname).
      exists p, Q, name. split; [lia|done].
    + rewrite (Hs k s Hk). split.
      * intros Hno (p' & Q' & name & Hp' & HQ' & Hn'). apply Hno.
        destruct (decide (p' = p)) as [->|Hne'].
        -- exfalso. apply Hin. apply elem_of_map_values.
           assert (Q' = Q) by congruence. subst. eauto.
        -- exists p', Q', name. split; [lia|done].
      * intros Hno (p' & Q' & name & Hp' & HQ' & Hn'). apply Hno.
        exists p', Q', name. split; [lia|done].
Qed.

Section verify.
Variable gvs : list GlobalValue.
Variable ps : list Partition.
Variables nf ng : nat.

Hypothesis Hlen : N.of_nat (length ps) < 2 ^ 32.
Hypothesis Hdisjoint : forall p q Q1 Q2 name,
  ps !! p = Some Q1 -> ps !! q = Some Q2 ->
  is_Some (globals Q1 !! name) -> is_Some (globals Q2 !! name) -> p = q.
Hypothesis Hfvars : table_ok ps fvars nf.
Hypothesis Hgvars : table_ok ps gvars ng.

Definition names_ok (p : nat) (m : gmap string N) : Prop :=
  forall name q, m !! name = Some q <->
    exists p' Q, (p' < p)%nat /\ q = N.of_nat p' /\ ps !! p' = Some Q /\
                 is_Some (globals Q !! name).

Record vinv (p : nat) (st : verify_state) : Prop := {
  v_bad : vs_bad st = false;
  v_names : names_ok p (vs_GVNames st);
  v_fvars : slots_ok ps fvars nf p (vs_fvars st);
  v_gvars : slots_ok ps gvars ng p (vs_gvars st)
}.

Lemma verify_partitions_ok : forall rest p st,
  drop p ps = rest -> vinv p st ->
  exists st', verify_partitions (N.of_nat p) rest st = Some st' /\
              vinv (length ps) st'.
Proof.
  induction rest as [|Q rest IH]; intros p st Hdrop [Hb Hn Hf Hg].
  - simpl. exists st. split; [done|].
    assert (length ps <= p)%nat.
    { apply (f_equal length) in Hdrop. rewrite length_drop in Hdrop. simpl in Hdrop. lia. }
    split; try done.
    + intros name q. rewrite (Hn name q).
      split; intros (p' & Q' & Hp' & Hrest); exists p', Q'; (split; [|done]).
      * destruct Hrest as (_ & HQ' & _). now apply lookup_lt_Some in HQ'.
      * lia.
    + destruct Hf as [Hl Hs]. split; [done|]. intros k s Hk. rewrite (Hs k s Hk).
      split; intros Hno (p' & Q' & name & Hp' & HQ' & Hrest); apply Hno;
        exists p', Q', name; (split; [|done]).
      * lia.
      * now apply lookup_lt_Some in HQ'.
    + destruct Hg as [Hl Hs]. split; [done|]. intros k s Hk. rewrite (Hs k s Hk).
      split; intros Hno (p' & Q' & name & Hp' & HQ' & Hrest); apply Hno;
        exists p', Q', name; (split; [|done]).
      * lia.
      * now apply lookup_lt_Some in HQ'.
  - assert (HQ : ps !! p = Some Q).
    { rewrite <- (Nat.add_0_r p), <- lookup_drop, Hdrop. done. }
    apply lookup_lt_Some in HQ as Hp.
    simpl. rewrite Hb.
    destruct (verify_names_ok (N.of_nat p) (map_to_list (globals Q)).*1 (vs_GVNames st))
      as (m' & Hm' & Hchar).
    { apply NoDup_fst_map_to_list. }
    { intros x Hx. apply elem_of_map_keys in Hx.
      destruct (vs_GVNames st !! x) as [q|] eqn:E; [|done].
      apply Hn in E as (p' & Q' & Hp' & _ & HQ' & Hx').
      pose proof (Hdisjoint p' p Q' Q x HQ' HQ Hx' Hx). lia. }
    rewrite Hm'.
    destruct (slots_ok_step ps fvars nf p Q (vs_fvars st) Hfvars Hlen HQ Hf)
      as (fv & Hfv & Hf').
    rewrite Hfv. simpl.
    destruct (slots_ok_step ps gvars ng p Q (vs_gvars st) Hgvars Hlen HQ Hg)
      as (gv & Hgv & Hg').
    rewrite Hgv. simpl.
    assert (Hw : wrap32 (N.of_nat p + 1) = N.of_nat (S p)).
    { unfold wrap32. rewrite N.mod_small by lia. lia. }
    rewrite Hw. apply IH.
    + apply (f_equal (drop 1)) in Hdrop. rewrite drop_drop in Hdrop.
      simpl in Hdrop. rewrite Nat.add_1_r in Hdrop. exact Hdrop.
    + split; simpl; try done.
      intros name q. rewrite Hchar. case_bool_decide as Hin.
      * apply elem_of_map_keys in Hin. split.
        -- intros E. inversion E; subst q. exists p, Q. split; [lia|done].
        -- intros (p' & Q' & Hp' & -> & HQ' & Hx').
           pose proof (Hdisjoint p' p Q' Q name HQ' HQ Hx' Hin). congruence.
      * rewrite (Hn name q). split.
        -- intros (p' & Q' & Hp' & Hrest). exists p', Q'. split; [lia|done].
        -- intros (p' & Q' & Hp' & Hq & HQ' & Hx').
           destruct (decide (p' = p)) as [->|Hne].
           ++ exfalso. apply Hin. apply elem_of_map_keys. congruence.
           ++ exists p', Q'. split; [lia|done].
Qed.
Hypothesis Hnon : forall G, G ∈ gvs -> partitionable G = false ->
  forall p Q, ps !! p = Some Q -> globals Q !! gv_name G = None.
Hypothesis Hdef : forall G, G ∈ gvs -> partitionable G = true ->
  exists p Q, ps !! p = Some Q /\ is_Some (globals Q !! gv_name G) /\
    forall u, u ∈ gv_constant_users G ->
      exists U, gvs !! u = Some U /\ is_Some (globals Q !! gv_name U).

Lemma verify_global_ok m G :
  names_ok (length ps) m -> G ∈ gvs -> verify_global gvs m G = Some false.
Proof.
  intros Hm HG. unfold verify_global.
  assert (Hout : partitionable G = false ->
            bool_decide (is_Some (m !! gv_name G)) = false).
  { intros Hp. apply bool_decide_eq_false. intros [q Hq].
    apply Hm in Hq as (p' & Q' & _ & _ & HQ' & [b Hb]).
    rewrite (Hnon G HG Hp p' Q' HQ') in Hb. done. }
  destruct (gv_is_declaration G) eqn:Hd.
  { rewrite Hout; [done|]. unfold partitionable. now rewrite Hd. }
  destruct (canPartition G) eqn:Hc; simpl.
  2:{ rewrite Hout; [done|]. unfold partitionable. now rewrite Hd, Hc. }
  assert (Hp : partitionable G = true) by (unfold partitionable; now rewrite Hd, Hc).
  destruct (Hdef G HG Hp) as (p & Q & HQ & HGin & Hus).
  apply lookup_lt_Some in HQ as Hpl.
  assert (Hin : forall name, is_Some (globals Q !! name) -> m !! name = Some (N.of_nat p)).
  { intros name Hname. apply Hm. exists p, Q. done. }
  destruct (mapM (fun val => gvs !! val) (gv_constant_users G)) as [Us|] eqn:HUs.
  2:{ exfalso. assert (H : is_Some (mapM (fun val => gvs !! val) (gv_constant_users G))).
      { apply mapM_is_Some_2. apply Forall_forall. intros u Hu.
        destruct (Hus u Hu) as (U & HU & _). simpl. rewrite HU. done. }
      rewrite HUs in H. destruct H; done. }
  simpl. rewrite (Hin _ HGin).
  rewrite bool_decide_eq_true_2 by done. simpl. f_equal.
  apply mapM_Some in HUs.
  apply not_true_is_false. intros Hex. apply existsb_exists in Hex as (U & HU & Hbad).
  apply list_elem_of_In, list_elem_of_lookup in HU as (k & Hk).
  destruct (Forall2_lookup_r _ _ _ _ _ HUs Hk) as (u & Hu & HuU).
  destruct (Hus u (list_elem_of_lookup_2 _ _ _ Hu)) as (U' & HU' & HUin).
  assert (U' = U) by congruence. subst U'.
  rewrite (Hin _ HUin) in Hbad.
  rewrite bool_decide_eq_true_2 in Hbad by done. done.
Qed.

Lemma slots_ok_full proj n slots :
  table_ok ps proj n -> slots_ok ps proj n (length ps) slots ->
  existsb (fun s => s =? 0) slots = false.
Proof.
  intros [_ _ Hc] [Hl Hs]. apply not_true_is_false. intros Hex.
  apply existsb_exists in Hex as (s & Hin & Hz). apply N.eqb_eq in Hz. subst s.
  apply list_elem_of_In, list_elem_of_lookup in Hin as (k & Hk).
  apply lookup_lt_Some in Hk as Hkl. rewrite Hl in Hkl.
  apply (Hs k 0 Hk); [done|].
  destruct (Hc k Hkl) as (p & Q & name & HQ & Hn). exists p, Q, name.
  split; [now apply lookup_lt_Some in HQ|done].
Qed.

Lemma verify_partitioning_ok M :
  global_values M = gvs ->
  verify_partitioning ps M (N.of_nat nf) (N.of_nat ng) = Some true.
Proof.
  intros HM. unfold verify_partitioning. rewrite !Nat2N.id, HM.
  destruct (verify_partitions_ok ps 0
              {| vs_fvars := replicate nf 0; vs_gvars := replicate ng 0;
                 vs_GVNames := ∅; vs_bad := false |})
    as (st & Hst & [Hb Hn Hf Hg]).
  { done. }
  { split; simpl; try done.
    - intros name q. rewrite lookup_empty. split; [done|].
      intros (p' & _ & Hp' & _). lia.
    - split; [apply length_replicate|]. intros k s Hk.
      apply lookup_replicate in Hk as [-> _]. split; [|done].
      intros _ (p' & _ & _ & Hp' & _). lia.
    - split; [apply length_replicate|]. intros k s Hk.
      apply lookup_replicate in Hk as [-> _]. split; [|done].
      intros _ (p' & _ & _ & Hp' & _). lia. }
  change (N.of_nat 0) with 0 in Hst. rewrite Hst. simpl.
  assert (Hmap : mapM (verify_global gvs (vs_GVNames st)) gvs
                 = Some (replicate (length gvs) false)).
  { apply mapM_Some_2. apply Forall2_same_length_lookup_2.
    - now rewrite length_replicate.
    - intros i G b HG Hb'. apply lookup_replicate in Hb' as [-> _].
      apply verify_global_ok; [done|]. now apply list_elem_of_lookup_2 in HG. }
  rewrite Hmap. simpl. rewrite Hb. simpl.
  rewrite (slots_ok_full fvars nf) by done.
  rewrite (slots_ok_full gvars ng) by done.
  assert (Hex : existsb id (replicate (length gvs) false) = false).
  { generalize (length gvs) as k. intros k. induction k as [|k IH]; simpl; done. }
  rewrite Hex. done.
Qed.

End verify.

(** ** [partitionModule] as a whole *)

Lemma same_name_same_global (gvs : list GlobalValue) a b A B :
  NoDup (gv_name <$> gvs) -> gvs !! a = Some A -> gvs !! b = Some B ->
  gv_name A = gv_name B -> a = b.
Proof.
  intros Hnd HA HB E.
  apply (proj1 (NoDup_alt _) Hnd a b (gv_name A)).
  - rewrite list_lookup_fmap, HA. done.
  - rewrite list_lookup_fmap, HB. simpl. congruence.
Qed.

Section whole.
Variable sort_idxs : (nat -> N) -> list nat -> list nat.
Variable pq_top : list Partition -> nat.
Variable M : Module.
Variable T : nat.
Variables fi gi : list nat.
Variables fvar_ids gvar_ids : gmap nat N.
Variable P : Partitioner.t.
Variable ns : list Node.
Variables rk rep : nat -> nat.
Variable ns_f : list Node.
Variable ps : list Partition.
Hypothesis Hwf : wf_spec M.
Hypothesis HT : N.of_nat T < 2 ^ 32.
Hypothesis Hrun :
  core_run sort_idxs pq_top M T fi gi fvar_ids gvar_ids P ns rk rep ns_f ps.

Abbreviation run_facts := (fun X => X sort_idxs pq_top M T fi gi fvar_ids gvar_ids
                                      P ns rk rep ns_f ps Hrun).

Lemma fvars_table_ok : table_ok ps fvars (length fi).
Proof.
  pose proof (cr_wfi _ _ _ _ _ _ _ _ _ _ _ _ _ _ Hrun) as Hw.
  pose proof (cr_fids _ _ _ _ _ _ _ _ _ _ _ _ _ _ Hrun) as Hi.
  pose proof (core_fvars _ _ _ _ _ _ _ _ _ _ _ _ _ _ Hrun) as Hc.
  split.
  - intros p Q name k HQ Hk.
    destruct (table_entry _ _ _ _ _ _ _ _ _ _ _ _ _ _ Hrun fi fvar_ids fvars Hi Hc
                p Q name k HQ Hk) as (j & g & G & -> & Hj & _).
    rewrite Nat2N.id. now apply lookup_lt_Some in Hj.
  - apply (table_unique _ _ _ _ _ _ _ _ _ _ _ _ _ _ Hrun fi fvar_ids fvars Hi Hc).
  - intros k Hk. destruct (lookup_lt_is_Some_2 _ _ Hk) as [g Hg].
    destruct (table_cover _ _ _ _ _ _ _ _ _ _ _ _ _ _ Hrun fi fvar_ids fvars Hw Hi Hc
                k g Hg) as (G & p & Q & _ & HQ & Hn).
    eauto.
Qed.

Lemma gvars_table_ok : table_ok ps gvars (length gi).
Proof.
  pose proof (cr_wgi _ _ _ _ _ _ _ _ _ _ _ _ _ _ Hrun) as Hw.
  pose proof (cr_gids _ _ _ _ _ _ _ _ _ _ _ _ _ _ Hrun) as Hi.
  pose proof (core_gvars _ _ _ _ _ _ _ _ _ _ _ _ _ _ Hrun) as Hc.
  split.
  - intros p Q name k HQ Hk.
    destruct (table_entry _ _ _ _ _ _ _ _ _ _ _ _ _ _ Hrun gi gvar_ids gvars Hi Hc
                p Q name k HQ Hk) as (j & g & G & -> & Hj & _).
    rewrite Nat2N.id. now apply lookup_lt_Some in Hj.
  - apply (table_unique _ _ _ _ _ _ _ _ _ _ _ _ _ _ Hrun gi gvar_ids gvars Hi Hc).
  - intros k Hk. destruct (lookup_lt_is_Some_2 _ _ Hk) as [g Hg].
    destruct (table_cover _ _ _ _ _ _ _ _ _ _ _ _ _ _ Hrun gi gvar_ids gvars Hw Hi Hc
                k g Hg) as (G & p & Q & _ & HQ & Hn).
    eauto.
Qed.

(** only partitionable definitions are placed *)
Lemma placed_only p Q name :
  ps !! p = Some Q -> is_Some (globals Q !! name) ->
  exists g G, global_values M !! g = Some G /\ partitionable G = true /\
              gv_name G = name.
Proof.
  intros HQ Hn.
  apply (core_globals _ _ _ _ _ _ _ _ _ _ _ _ _ _ Hrun _ _ _ HQ) in Hn
    as (i & Hi & _ & Hni).
  destruct (global_of_node _ _ _ _ _ _ _ _ _ _ _ _ _ _ Hrun i Hi)
    as (g & G & _ & HG & Hp & _ & Hn').
  exists g, G. split_and!; try done. congruence.
Qed.

Lemma verified :
  verify_partitioning ps (erased M (upd_global <$> global_values M))
    (N.of_nat (size fvar_ids)) (N.of_nat (size gvar_ids)) = Some true.
Proof.
  rewrite (proj1 (cr_fids _ _ _ _ _ _ _ _ _ _ _ _ _ _ Hrun)).
  rewrite (proj1 (cr_gids _ _ _ _ _ _ _ _ _ _ _ _ _ _ Hrun)).
  apply (verify_partitioning_ok (upd_global <$> global_values M)); try done.
  - now rewrite (core_length _ _ _ _ _ _ _ _ _ _ _ _ _ _ Hrun).
  - apply (globals_unique _ _ _ _ _ _ _ _ _ _ _ _ _ _ Hrun).
  - apply fvars_table_ok.
  - apply gvars_table_ok.
  - intros G' HG' Hp' p Q HQ.
    apply list_elem_of_fmap in HG' as (G & -> & HG).
    rewrite upd_global_partitionable in Hp'. rewrite upd_global_name.
    destruct (globals Q !! gv_name G) as [b|] eqn:E; [|done]. exfalso.
    destruct (placed_only p Q (gv_name G) HQ ltac:(eauto)) as (g' & G' & HG'' & Hp'' & En).
    apply list_elem_of_lookup in HG as (g & HG).
    assert (g' = g) by (eapply same_name_same_global; [apply Hwf|done..]).
    congruence.
  - intros G' HG' Hp'.
    apply list_elem_of_fmap in HG' as (G & -> & HG).
    rewrite upd_global_partitionable in Hp'.
    rewrite upd_global_name, upd_global_users.
    apply list_elem_of_lookup in HG as (g & HG).
    destruct (placed_global _ _ _ _ _ _ _ _ _ _ _ _ _ _ Hrun g G HG Hp')
      as (i & p & Q & _ & _ & _ & HQ & Hin).
    exists p, Q. split_and!; try done.
    intros u Hu.
    destruct (wf_users _ Hwf G u (list_elem_of_lookup_2 _ _ _ HG) Hp' Hu) as (U & HU & HpU).
    exists (upd_global U). rewrite list_lookup_fmap, HU. split; [done|].
    rewrite upd_global_name.
    destruct (users_together _ _ _ _ _ _ _ _ _ _ _ _ _ _ Hwf Hrun g G u U HG Hp' Hu HU)
      as (p' & Q' & HQ' & HinU & HinG).
    assert (p' = p).
    { apply (globals_unique _ _ _ _ _ _ _ _ _ _ _ _ _ _ Hrun p' p Q' Q (gv_name G)); done. }
    subst p'. congruence.
Qed.

Lemma build_classes_run :
  build_classes M
  = Some (erased M (upd_global <$> global_values M), fvar_ids, gvar_ids, ns).
Proof.
  unfold build_classes.
  rewrite (cr_tables _ _ _ _ _ _ _ _ _ _ _ _ _ _ Hrun). simpl.
  rewrite (cr_make _ _ _ _ _ _ _ _ _ _ _ _ _ _ Hrun). simpl.
  rewrite (cr_merge _ _ _ _ _ _ _ _ _ _ _ _ _ _ Hrun). simpl. reflexivity.
Qed.

Lemma partitionModule_run :
  partitionModule sort_idxs pq_top M T
  = Some (erased M (upd_global <$> global_values M), ps).
Proof.
  unfold partitionModule. rewrite build_classes_run. simpl.
  rewrite (cr_assign _ _ _ _ _ _ _ _ _ _ _ _ _ _ Hrun). simpl.
  rewrite verified. reflexivity.
Qed.
End whole.

(** ** The deterministic instance meets the requirements *)

Lemma insert_desc_perm key a l : insert_desc key a l ≡ₚ a :: l.
Proof.
  induction l as [|b l IH]; simpl; [done|].
  destruct (key b <? key a); [done|]. rewrite IH. apply perm_swap.
Qed.

Lemma insert_desc_sorted key a l :
  StronglySorted (fun a b => key b <= key a) l ->
  StronglySorted (fun a b => key b <= key a) (insert_desc key a l).
Proof.
  induction l as [|b l IH]; intros Hs; simpl.
  - constructor; [constructor|constructor].
  - apply StronglySorted_inv in Hs as [Hs Hall].
    destruct (N.ltb_spec (key b) (key a)) as [Hlt|Hge].
    + constructor; [constructor; done|].
      constructor; [lia|]. eapply Forall_impl; [exact Hall|]. simpl. intros; lia.
    + constructor; [auto|].
      rewrite insert_desc_perm. constructor; [lia|done].
Qed.

Lemma insertion_sort_spec : sort_spec insertion_sort.
Proof.
  intros key l. unfold insertion_sort. induction l as [|a l [IH1 IH2]]; simpl.
  - split; [done|constructor].
  - split.
    + rewrite insert_desc_perm. now constructor.
    + now apply insert_desc_sorted.
Qed.

Lemma first_min_from_spec : forall rest pre best B,
  (best < length pre)%nat -> pre !! best = Some B ->
  (forall Q, Q ∈ pre -> weight B <= weight Q) ->
  let r := first_min_from (length pre) best (weight B) rest in
  (r < length (pre ++ rest))%nat /\
  exists R, (pre ++ rest) !! r = Some R /\
            forall Q, Q ∈ pre ++ rest -> weight R <= weight Q.
Proof.
  induction rest as [|Q0 rest IH]; intros pre best B Hb HB Hmin; simpl.
  - rewrite app_nil_r. split; [done|]. exists B. done.
  - replace (pre ++ Q0 :: rest) with ((pre ++ [Q0]) ++ rest)
      by (now rewrite <- app_assoc).
    replace (S (length pre)) with (length (pre ++ [Q0]))
      by (rewrite length_app; simpl; lia).
    destruct (N.ltb_spec (weight Q0) (weight B)) as [Hlt|Hge].
    + apply (IH (pre ++ [Q0]) (length pre) Q0).
      * rewrite length_app. simpl. lia.
      * rewrite lookup_app_r by done. now rewrite Nat.sub_diag.
      * intros Q HQ. apply elem_of_app in HQ as [HQ|HQ].
        -- specialize (Hmin Q HQ). lia.
        -- apply list_elem_of_singleton in HQ. subst. lia.
    + apply (IH (pre ++ [Q0]) best B).
      * rewrite length_app. simpl. lia.
      * now apply lookup_app_l_Some.
      * intros Q HQ. apply elem_of_app in HQ as [HQ|HQ]; [auto|].
        apply list_elem_of_singleton in HQ. subst. lia.
Qed.

Lemma first_lightest_spec : top_spec first_lightest.
Proof.
  intros ps Hne. destruct ps as [|Q0 ps]; [done|]. unfold first_lightest.
  destruct (first_min_from_spec ps [Q0] 0 Q0) as (Hr & R & HR & Hmin).
  - simpl. lia.
  - done.
  - intros Q HQ. apply list_elem_of_singleton in HQ. subst. lia.
  - simpl in *. split; [done|]. intros Q' Q HQ' HQ.
    assert (Q' = R) by congruence. subst. auto.
Qed.

(** ** The partitioning invariants *)

Lemma elem_of_partitionable_names M name :
  name ∈ partitionable_names M <->
  exists g G, global_values M !! g = Some G /\ partitionable G = true /\ gv_name G = name.
Proof.
  unfold partitionable_names. rewrite list_elem_of_fmap. split.
  - intros (G & -> & HG). apply list_elem_of_filter in HG as [Hp HG].
    apply list_elem_of_lookup in HG as (g & HG). eauto.
  - intros (g & G & HG & Hp & <-). exists G. split; [done|].
    apply list_elem_of_filter. split; [done|]. now apply list_elem_of_lookup_2 in HG.
Qed.

(** C1: every partitionable definition is in exactly one of the [T]
    partitions: the union of the partitions' name sets is the set of names
    of the partitionable definitions, and two different partitions share
    no name. *)
Theorem partition_exactly_once sort_idxs pq_top M T :
  sort_spec sort_idxs -> top_spec pq_top -> wf_module M = true ->
  (1 <= T)%nat -> N.of_nat T < 2 ^ 32 ->
  exists M' ps,
    partitionModule sort_idxs pq_top M T = Some (M', ps) /\
    length ps = T /\
    ⋃ ((fun Q => dom (globals Q)) <$> ps)
      = (list_to_set (partitionable_names M) : gset string) /\
    forall p q Q1 Q2, ps !! p = Some Q1 -> ps !! q = Some Q2 -> p <> q ->
      dom (globals Q1) ## dom (globals Q2).
Proof.
  intros Hsort Htop Hwf HT1 HT. apply wf_module_sound in Hwf.
  destruct (partition_core sort_idxs pq_top M T Hsort Htop Hwf HT1 HT)
    as (fi & gi & fvar_ids & gvar_ids & P & ns & rk & rep & ns_f & ps & Hrun).
  exists (erased M (upd_global <$> global_values M)), ps.
  split; [now apply (partitionModule_run _ _ _ _ _ _ _ _ _ _ _ _ _ _ Hwf HT Hrun)|].
  split; [apply (core_length _ _ _ _ _ _ _ _ _ _ _ _ _ _ Hrun)|].
  split.
  - apply set_eq. intros name.
    rewrite elem_of_union_list, elem_of_list_to_set, elem_of_partitionable_names.
    split.
    + intros (X & HX & Hname). apply list_elem_of_fmap in HX as (Q & -> & HQ).
      apply list_elem_of_lookup in HQ as (p & HQ). apply elem_of_dom in Hname.
      apply (placed_only _ _ _ _ _ _ _ _ _ _ _ _ _ _ Hrun p Q name HQ Hname).
    + intros (g & G & HG & Hp & <-).
      destruct (placed_global _ _ _ _ _ _ _ _ _ _ _ _ _ _ Hrun g G HG Hp)
        as (i & p & Q & _ & _ & _ & HQ & Hin).
      exists (dom (globals Q)). split; [|now apply elem_of_dom].
      apply list_elem_of_fmap. exists Q. split; [done|].
      now apply list_elem_of_lookup_2 in HQ.
  - intros p q Q1 Q2 H1 H2 Hne. apply elem_of_disjoint. intros name Hn1 Hn2.
    apply elem_of_dom in Hn1, Hn2. apply Hne.
    apply (globals_unique _ _ _ _ _ _ _ _ _ _ _ _ _ _ Hrun p q Q1 Q2 name); done.
Qed.

(** C2: a partitionable definition and every partitionable definition
    that uses it in a constant, as [ConstantUses<GlobalValue>] reports (in
    its initializer or as its aliasee, directly or through constant
    expressions and aggregates), are placed in the same partition, for
    every [T].  The uses in instructions are not among them. *)
Theorem users_share_partition sort_idxs pq_top M T :
  sort_spec sort_idxs -> top_spec pq_top -> wf_module M = true ->
  (1 <= T)%nat -> N.of_nat T < 2 ^ 32 ->
  exists M' ps,
    partitionModule sort_idxs pq_top M T = Some (M', ps) /\
    forall a b A B,
      global_values M !! a = Some A -> global_values M !! b = Some B ->
      partitionable A = true -> partitionable B = true ->
      a ∈ gv_constant_users B ->
      exists p Q, ps !! p = Some Q /\
                  gv_name A ∈ dom (globals Q) /\ gv_name B ∈ dom (globals Q).
Proof.
  intros Hsort Htop Hwf HT1 HT. apply wf_module_sound in Hwf.
  destruct (partition_core sort_idxs pq_top M T Hsort Htop Hwf HT1 HT)
    as (fi & gi & fvar_ids & gvar_ids & P & ns & rk & rep & ns_f & ps & Hrun).
  exists (erased M (upd_global <$> global_values M)), ps.
  split; [now apply (partitionModule_run _ _ _ _ _ _ _ _ _ _ _ _ _ _ Hwf HT Hrun)|].
  intros a b A B HA HB HpA HpB Hab.
  destruct (users_together _ _ _ _ _ _ _ _ _ _ _ _ _ _ Hwf Hrun b B a A HB HpB Hab HA)
    as (p & Q & HQ & H1 & H2).
  exists p, Q. rewrite !elem_of_dom. done.
Qed.

Lemma NoDup_mjoin_indexed {A} (ls : list (list A)) :
  (forall i l, ls !! i = Some l -> NoDup l) ->
  (forall i j l1 l2 x, ls !! i = Some l1 -> ls !! j = Some l2 ->
     x ∈ l1 -> x ∈ l2 -> i = j) ->
  NoDup (mjoin ls).
Proof.
  induction ls as [|l ls IH]; intros Hnd Hdis; simpl; [constructor|].
  apply NoDup_app. split_and!.
  - apply (Hnd 0%nat). done.
  - intros x Hx Hin. apply list_elem_of_join in Hin as (l' & Hx' & Hl').
    apply list_elem_of_lookup in Hl' as (j & Hj).
    specialize (Hdis 0%nat (S j) l l' x eq_refl Hj Hx Hx'). done.
  - apply IH.
    + intros i l' Hi. apply (Hnd (S i)). done.
    + intros i j l1 l2 x Hi Hj H1 H2.
      specialize (Hdis (S i) (S j) l1 l2 x Hi Hj H1 H2). lia.
Qed.

Lemma flat_ids_perm ps proj nf :
  table_ok ps proj nf -> flat_ids proj ps ≡ₚ N.of_nat <$> seq 0 nf.
Proof.
  intros [Hr Hu Hc]. apply NoDup_Permutation.
  - apply NoDup_mjoin_indexed.
    + intros i l Hl. rewrite list_lookup_fmap in Hl.
      destruct (ps !! i) as [Q|] eqn:HQ; [|done]. inversion Hl; subst l.
      apply NoDup_map_values. intros n1 n2 k H1 H2.
      now destruct (Hu i i Q Q n1 n2 k HQ HQ H1 H2).
    + intros i j l1 l2 x Hi Hj H1 H2. rewrite list_lookup_fmap in Hi, Hj.
      destruct (ps !! i) as [Q1|] eqn:HQ1; [|done]. inversion Hi; subst l1.
      destruct (ps !! j) as [Q2|] eqn:HQ2; [|done]. inversion Hj; subst l2.
      apply elem_of_map_values in H1 as (n1 & H1), H2 as (n2 & H2).
      now destruct (Hu i j Q1 Q2 n1 n2 x HQ1 HQ2 H1 H2).
  - apply NoDup_fmap_2; [apply _|apply NoDup_seq].
  - intros x. unfold flat_ids. rewrite list_elem_of_join. split.
    + intros (l & Hx & Hl). apply list_elem_of_fmap in Hl as (Q & -> & HQ).
      apply list_elem_of_lookup in HQ as (p & HQ).
      apply elem_of_map_values in Hx as (name & Hname).
      pose proof (Hr p Q name x HQ Hname).
      apply list_elem_of_fmap. exists (N.to_nat x). split; [lia|].
      apply elem_of_seq. lia.
    + intros Hx. apply list_elem_of_fmap in Hx as (k & -> & Hk).
      apply elem_of_seq in Hk.
      destruct (Hc k ltac:(lia)) as (p & Q & name & HQ & Hname).
      exists (map_to_list (proj Q)).*2. split.
      * apply elem_of_map_values. eauto.
      * apply list_elem_of_fmap. exists Q. split; [done|].
        now apply list_elem_of_lookup_2 in HQ.
Qed.

(** C3: for each of the two index tables, the flat ids held by the
    sub-tables of all partitions are the ids 0 .. N-1, each exactly once,
    and every id is recorded under the name of the symbol that the table
    holds at that position. *)
Theorem flat_ids_exactly_once sort_idxs pq_top M T :
  sort_spec sort_idxs -> top_spec pq_top -> wf_module M = true ->
  (1 <= T)%nat -> N.of_nat T < 2 ^ 32 ->
  exists M' ps fi gi,
    partitionModule sort_idxs pq_top M T = Some (M', ps) /\
    jl_fvars M = Some fi /\ jl_gvars M = Some gi /\
    flat_ids fvars ps ≡ₚ N.of_nat <$> seq 0 (length fi) /\
    flat_ids gvars ps ≡ₚ N.of_nat <$> seq 0 (length gi) /\
    (forall p Q name k, ps !! p = Some Q -> fvars Q !! name = Some k ->
       exists g G, fi !! N.to_nat k = Some g /\
                   global_values M !! g = Some G /\ gv_name G = name) /\
    (forall p Q name k, ps !! p = Some Q -> gvars Q !! name = Some k ->
       exists g G, gi !! N.to_nat k = Some g /\
                   global_values M !! g = Some G /\ gv_name G = name).
Proof.
  intros Hsort Htop Hwf HT1 HT. apply wf_module_sound in Hwf.
  destruct (partition_core sort_idxs pq_top M T Hsort Htop Hwf HT1 HT)
    as (fi & gi & fvar_ids & gvar_ids & P & ns & rk & rep & ns_f & ps & Hrun).
  exists (erased M (upd_global <$> global_values M)), ps, fi, gi.
  split; [now apply (partitionModule_run _ _ _ _ _ _ _ _ _ _ _ _ _ _ Hwf HT Hrun)|].
  split; [apply (cr_fi _ _ _ _ _ _ _ _ _ _ _ _ _ _ Hrun)|].
  split; [apply (cr_gi _ _ _ _ _ _ _ _ _ _ _ _ _ _ Hrun)|].
  split; [apply flat_ids_perm, (fvars_table_ok _ _ _ _ _ _ _ _ _ _ _ _ _ _ Hrun)|].
  split; [apply flat_ids_perm, (gvars_table_ok _ _ _ _ _ _ _ _ _ _ _ _ _ _ Hrun)|].
  split.
  - intros p Q name k HQ Hk.
    destruct (table_entry _ _ _ _ _ _ _ _ _ _ _ _ _ _ Hrun fi fvar_ids fvars
                (cr_fids _ _ _ _ _ _ _ _ _ _ _ _ _ _ Hrun)
                (core_fvars _ _ _ _ _ _ _ _ _ _ _ _ _ _ Hrun) p Q name k HQ Hk)
      as (j & g & G & -> & Hj & HG & Hn).
    exists g, G. rewrite Nat2N.id. done.
  - intros p Q name k HQ Hk.
    destruct (table_entry _ _ _ _ _ _ _ _ _ _ _ _ _ _ Hrun gi gvar_ids gvars
                (cr_gids _ _ _ _ _ _ _ _ _ _ _ _ _ _ Hrun)
                (core_gvars _ _ _ _ _ _ _ _ _ _ _ _ _ _ Hrun) p Q name k HQ Hk)
      as (j & g & G & -> & Hj & HG & Hn).
    exists g, G. rewrite Nat2N.id. done.
Qed.

(** ** The greedy assignment, root by root *)

Lemma assign_all_app pq_top gvs fvar_ids gvar_ids l1 l2 st :
  assign_all pq_top gvs fvar_ids gvar_ids (l1 ++ l2) st
  = assign_all pq_top gvs fvar_ids gvar_ids l1 st
      ≫= assign_all pq_top gvs fvar_ids gvar_ids l2.
Proof.
  revert st. induction l1 as [|i l1 IH]; intros st; simpl; [done|].
  destruct (assign_step pq_top gvs fvar_ids gvar_ids st i) as [st'|]; simpl; [|done].
  apply IH.
Qed.

Lemma upd_global_weight G : node_weight (upd_global G) = node_weight G.
Proof. unfold upd_global. destruct (partitionable G); done. Qed.

Section turns.
Variable sort_idxs : (nat -> N) -> list nat -> list nat.
Variable pq_top : list Partition -> nat.
Variable M : Module.
Variable T : nat.
Variables fi gi : list nat.
Variables fvar_ids gvar_ids : gmap nat N.
Variable P : Partitioner.t.
Variable ns : list Node.
Variables rk rep : nat -> nat.
Variable ns_f : list Node.
Variable ps : list Partition.
Hypothesis Hwf : wf_spec M.
Hypothesis Htop : top_spec pq_top.
Hypothesis HT1 : (1 <= T)%nat.
Hypothesis HT : N.of_nat T < 2 ^ 32.
Hypothesis Hrun :
  core_run sort_idxs pq_top M T fi gi fvar_ids gvar_ids P ns rk rep ns_f ps.

Abbreviation gvs' := (upd_global <$> global_values M).
Abbreviation G0 := (Partitioner.GV <$> Partitioner.nodes P).
Abbreviation w0 := (weight_at (Partitioner.nodes P)).
Abbreviation idxs := (sort_idxs (weight_at ns) (seq 0 (length ns))).
Abbreviation n := (length (Partitioner.nodes P)).

Lemma root_of_rep i : (i < n)%nat -> root_of ns i = Some (rep i).
Proof.
  intros Hi. unfold root_of.
  destruct (find_spec rk rep ns i (cr_forest _ _ _ _ _ _ _ _ _ _ _ _ _ _ Hrun))
    as (ns' & -> & _).
  - now rewrite (core_len_ns _ _ _ _ _ _ _ _ _ _ _ _ _ _ Hrun).
  - done.
Qed.

Lemma root_of_lt i r : root_of ns i = Some r -> (i < n)%nat.
Proof.
  unfold root_of, Partitioner.find. intros H.
  rewrite <- (core_len_ns _ _ _ _ _ _ _ _ _ _ _ _ _ _ Hrun).
  destruct (length ns) as [|k] eqn:E; [done|].
  simpl in H. destruct (ns !! i) as [nd|] eqn:Hnd; [|done].
  apply lookup_lt_Some in Hnd. lia.
Qed.

Lemma initial_weight_w0 i : (i < n)%nat -> initial_weight gvs' ns i = w0 i.
Proof.
  intros Hi. unfold initial_weight, weight_at.
  pose proof (cr_GV _ _ _ _ _ _ _ _ _ _ _ _ _ _ Hrun) as HGV.
  destruct (lookup_lt_is_Some_2 _ _ Hi) as [nd0 Hnd0].
  assert (Hi' : (i < length ns)%nat)
    by now rewrite (core_len_ns _ _ _ _ _ _ _ _ _ _ _ _ _ _ Hrun).
  destruct (lookup_lt_is_Some_2 _ _ Hi') as [nd Hnd].
  assert (HG : Partitioner.GV nd = Partitioner.GV nd0).
  { assert (H : (Partitioner.GV <$> ns) !! i = Some (Partitioner.GV nd0)).
    { rewrite HGV, list_lookup_fmap, Hnd0. done. }
    rewrite list_lookup_fmap, Hnd in H. simpl in H. congruence. }
  rewrite Hnd, Hnd0. simpl. rewrite HG.
  destruct (no_node _ _ _ (cr_nodes _ _ _ _ _ _ _ _ _ _ _ _ _ _ Hrun) i nd0 Hnd0)
    as (_ & _ & _ & G & HG' & _ & Hw).
  rewrite list_lookup_fmap, HG'. simpl. rewrite upd_global_weight, Hw. done.
Qed.

Lemma component_weight_class r :
  component_weight gvs' ns r = class_weight w0 rep n r.
Proof.
  unfold component_weight, class_weight.
  rewrite (core_len_ns _ _ _ _ _ _ _ _ _ _ _ _ _ _ Hrun).
  apply Nsum_ext. intros i Hi. apply elem_of_seq in Hi.
  rewrite root_of_rep by lia. rewrite initial_weight_w0 by lia.
  erewrite bool_decide_ext; [reflexivity|]. split; congruence.
Qed.

Lemma node_name_nm i :
  node_name gvs' ns i = name_of gvs' G0 i.
Proof.
  unfold node_name, name_of.
  rewrite <- (cr_GV _ _ _ _ _ _ _ _ _ _ _ _ _ _ Hrun), list_lookup_fmap.
  destruct (ns !! i); done.
Qed.

Lemma root_weight r :
  root_of ns r = Some r -> weight_at ns r = component_weight gvs' ns r.
Proof.
  intros Hr. pose proof (root_of_lt _ _ Hr) as Hlt.
  rewrite root_of_rep in Hr by done.
  assert (Hrep : rep r = r) by congruence. clear Hr.
  rewrite component_weight_class. unfold weight_at at 1.
  assert (Hi' : (r < length ns)%nat)
    by now rewrite (core_len_ns _ _ _ _ _ _ _ _ _ _ _ _ _ _ Hrun).
  destruct (lookup_lt_is_Some_2 _ _ Hi') as [nd Hnd]. rewrite Hnd. simpl.
  rewrite (w_root _ _ _ (cr_weights _ _ _ _ _ _ _ _ _ _ _ _ _ _ Hrun) r nd Hnd);
    [|congruence].
  now rewrite (core_len_ns _ _ _ _ _ _ _ _ _ _ _ _ _ _ Hrun).
Qed.
(** the turn of a root: what has happened before, what the step does,
    and where the root stays *)
Lemma root_turn pre r post :
  idxs = pre ++ r :: post -> rep r = r ->
  exists ns_s ps_s ns_t Q name g,
    assign_all pq_top gvs' fvar_ids gvar_ids pre (ns, replicate T empty_partition)
      = Some (ns_s, ps_s) /\
    ainv gvs' fvar_ids gvar_ids T rk rep w0 G0 pre (ns_s, ps_s) /\
    ps_s !! pq_top ps_s = Some Q /\
    name_of gvs' G0 r = Some name /\
    assign_step pq_top gvs' fvar_ids gvar_ids (ns_s, ps_s) r
      = Some (ns_t, <[pq_top ps_s :=
                        placed fvar_ids gvar_ids name g
                          (weight Q + class_weight w0 rep (length G0) r) Q]> ps_s) /\
    size_of ns_f r = pq_top ps_s.
Proof.
  intros Hsplit Hrep.
  pose proof (cr_perm _ _ _ _ _ _ _ _ _ _ _ _ _ _ Hrun) as Hperm.
  pose proof (cr_nm_def _ _ _ _ _ _ _ _ _ _ _ _ _ _ Hrun) as Hdef.
  pose proof (cr_nm_inj _ _ _ _ _ _ _ _ _ _ _ _ _ _ Hrun) as Hinj.
  pose proof (cr_total _ _ _ _ _ _ _ _ _ _ _ _ _ _ Hrun) as Htot.
  pose proof (cr_roots_first _ _ _ _ _ _ _ _ _ _ _ _ _ _ Hrun) as Hrf.
  pose proof (core_len_ns _ _ _ _ _ _ _ _ _ _ _ _ _ _ Hrun) as Hlen.
  assert (HlG : length G0 = n) by now rewrite length_fmap.
  assert (Hnd : NoDup (pre ++ r :: post)).
  { rewrite <- Hsplit, Hperm. apply NoDup_seq. }
  assert (Hin : forall i, i ∈ pre ++ r :: post -> (i < length G0)%nat).
  { intros i Hi. rewrite <- Hsplit, Hperm in Hi. apply elem_of_seq in Hi. lia. }
  pose proof (ainv_init gvs' fvar_ids gvar_ids T rk rep w0 G0 HT Htot ns
                (cr_forest _ _ _ _ _ _ _ _ _ _ _ _ _ _ Hrun)
                (cr_weights _ _ _ _ _ _ _ _ _ _ _ _ _ _ Hrun)
                (cr_GV _ _ _ _ _ _ _ _ _ _ _ _ _ _ Hrun)) as Hinit.
  destruct (assign_all_spec pq_top gvs' fvar_ids gvar_ids T rk rep w0 G0
              Htop HT Hdef Hinj Htot pre [] _ Hinit)
    as ([ns_s ps_s] & Hpre & Hinv_s & _); try done.
  { simpl. apply NoDup_app in Hnd. tauto. }
  { intros i Hi. apply Hin. apply elem_of_app. now left. }
  { intros l1 i l2 E Hri. simpl.
    apply (Hrf l1 i (l2 ++ r :: post)); [|done].
    rewrite Hsplit, E, <- app_assoc. done. }
  simpl in Hinv_s.
  destruct (assign_step_spec pq_top gvs' fvar_ids gvar_ids T rk rep w0 G0
              Htop HT Hdef Hinj Htot pre ns_s ps_s r Hinv_s)
    as (ns_t & p & Q & name & g & Hstep & Hinv_t & HQ & Hname & Hg & Hp & Hsz & _);
    try done.
  { apply Hin. apply elem_of_app. right. apply elem_of_cons. now left. }
  { apply NoDup_app in Hnd as (_ & Hd & _). intros Hr. apply (Hd r Hr).
    apply elem_of_cons. now left. }
  rewrite decide_True in Hp by done. rewrite decide_True in Hstep by done.
  rewrite decide_True in Hinv_t by done. subst p.
  destruct (assign_all_spec pq_top gvs' fvar_ids gvar_ids T rk rep w0 G0
              Htop HT Hdef Hinj Htot post (pre ++ [r]) _ Hinv_t)
    as (st_f & Hpost & _ & Hstab); try done.
  { rewrite <- app_assoc. done. }
  { intros i Hi. apply Hin. apply elem_of_app. right. apply elem_of_cons. now right. }
  { intros l1 i l2 E Hri. rewrite <- app_assoc. simpl.
    pose proof (Hrf (pre ++ r :: l1) i l2) as H.
    rewrite <- app_assoc in H. simpl in H. apply H; [|done].
    rewrite Hsplit, E. done. }
  assert (Hfinal : st_f = (ns_f, ps)).
  { pose proof (cr_assign _ _ _ _ _ _ _ _ _ _ _ _ _ _ Hrun) as Hall.
    rewrite Hsplit in Hall.
    replace (pre ++ r :: post) with (pre ++ [r] ++ post) in Hall by done.
    rewrite assign_all_app, Hpre in Hall. simpl in Hall.
    rewrite Hstep in Hall. simpl in Hall. congruence. }
  subst st_f. simpl in Hstab.
  exists ns_s, ps_s, ns_t, Q, name, g. split_and!; try done.
  rewrite Hstab; [done|]. apply elem_of_app. right. now apply list_elem_of_singleton.
Qed.

End turns.

(** C4: the roots are taken in the order of descending accumulated
    weight of their components; at its turn a root, none of whose
    component has been placed yet, goes to a partition that is the lightest
    at that moment, the weight of the component is added to that
    partition, and the whole component ends up there. *)
Theorem greedy_lightest_first sort_idxs pq_top M T :
  sort_spec sort_idxs -> top_spec pq_top -> wf_module M = true ->
  (1 <= T)%nat -> N.of_nat T < 2 ^ 32 ->
  exists M' fvar_ids gvar_ids ns ps,
    build_classes M = Some (M', fvar_ids, gvar_ids, ns) /\
    partitionModule sort_idxs pq_top M T = Some (M', ps) /\
    (forall r, root_of ns r = Some r ->
       weight_at ns r = component_weight (global_values M') ns r) /\
    forall pre r post,
      sort_idxs (weight_at ns) (seq 0 (length ns)) = pre ++ r :: post ->
      root_of ns r = Some r ->
      (forall r', r' ∈ pre -> root_of ns r' = Some r' ->
         component_weight (global_values M') ns r
         <= component_weight (global_values M') ns r') /\
      exists ns_s ps_s ns_t Q Q',
        assign_all pq_top (global_values M') fvar_ids gvar_ids pre
          (ns, replicate T empty_partition) = Some (ns_s, ps_s) /\
        (forall i name Q0, root_of ns i = Some r ->
           node_name (global_values M') ns i = Some name ->
           Q0 ∈ ps_s -> name ∉ dom (globals Q0)) /\
        ps_s !! pq_top ps_s = Some Q /\
        (forall Q0, Q0 ∈ ps_s -> weight Q <= weight Q0) /\
        assign_step pq_top (global_values M') fvar_ids gvar_ids (ns_s, ps_s) r
          = Some (ns_t, <[pq_top ps_s := Q']> ps_s) /\
        weight Q' = weight Q + component_weight (global_values M') ns r /\
        (forall i name, root_of ns i = Some r ->
           node_name (global_values M') ns i = Some name ->
           exists Qf, ps !! pq_top ps_s = Some Qf /\ name ∈ dom (globals Qf)).
Proof.
  intros Hsort Htop Hwfb HT1 HT. pose proof (wf_module_sound _ Hwfb) as Hwf.
  destruct (partition_core sort_idxs pq_top M T Hsort Htop Hwf HT1 HT)
    as (fi & gi & fvar_ids & gvar_ids & P & ns & rk & rep & ns_f & ps & Hrun).
  exists (erased M (upd_global <$> global_values M)), fvar_ids, gvar_ids, ns, ps.
  split; [apply (build_classes_run _ _ _ _ _ _ _ _ _ _ _ _ _ _ Hrun)|].
  split; [now apply (partitionModule_run _ _ _ _ _ _ _ _ _ _ _ _ _ _ Hwf HT Hrun)|].
  simpl.
  pose proof (root_weight _ _ _ _ _ _ _ _ _ _ _ _ _ _ HT1 HT Hrun) as Hrw.
  split; [exact Hrw|].
  intros pre r post Hsplit Hr.
  pose proof (root_of_lt _ _ _ _ _ _ _ _ _ _ _ _ _ _ HT1 HT Hrun _ _ Hr) as Hrlt.
  pose proof Hr as Hrep.
  rewrite (root_of_rep _ _ _ _ _ _ _ _ _ _ _ _ _ _ Hrun) in Hrep by done.
  assert (Hrr : rep r = r) by congruence. clear Hrep.
  pose proof (cr_perm _ _ _ _ _ _ _ _ _ _ _ _ _ _ Hrun) as Hperm.
  assert (Hnd : NoDup (pre ++ r :: post)).
  { rewrite <- Hsplit, Hperm. apply NoDup_seq. }
  assert (Hrpre : r ∉ pre).
  { apply NoDup_app in Hnd as (_ & Hd & _). intros Hin. apply (Hd r Hin).
    apply elem_of_cons. now left. }
  split.
  { intros r' Hr' Hroot'.
    apply list_elem_of_split in Hr' as (l1 & l2 & ->).
    rewrite <- !Hrw by done.
    destruct (Hsort (weight_at ns) (seq 0 (length ns))) as [_ Hsorted].
    apply (sorted_split _ _ l1 r' l2 r post Hsorted).
    rewrite Hsplit, <- app_assoc. done. }
  destruct (root_turn _ _ _ _ _ _ _ _ _ _ _ _ _ _ Htop HT1 HT Hrun pre r post Hsplit Hrr)
    as (ns_s & ps_s & ns_t & Q & name_r & g & Hpre & Hinv & HQ & Hname & Hstep & Hhome).
  exists ns_s, ps_s, ns_t, Q,
    (placed fvar_ids gvar_ids name_r g
       (weight Q + class_weight (weight_at (Partitioner.nodes P)) rep
                     (length (Partitioner.GV <$> Partitioner.nodes P)) r) Q).
  assert (Hmember : forall i, root_of ns i = Some r ->
            (i < length (Partitioner.nodes P))%nat /\ rep i = r).
  { intros i Hi. pose proof (root_of_lt _ _ _ _ _ _ _ _ _ _ _ _ _ _ HT1 HT Hrun _ _ Hi) as Hlt.
    rewrite (root_of_rep _ _ _ _ _ _ _ _ _ _ _ _ _ _ Hrun) in Hi by done.
    split; [done|congruence]. }
  split_and!; try done.
  - intros i name Q0 Hi Hn HQ0 Hin.
    destruct (Hmember i Hi) as [Hlt Hri].
    rewrite (node_name_nm _ _ _ _ _ _ _ _ _ _ _ _ _ _ Hrun) in Hn.
    apply list_elem_of_lookup in HQ0 as (q & HQ0). apply elem_of_dom in Hin.
    pose proof (a_parts _ _ _ _ _ _ _ _ _ _ Hinv q Q0 HQ0) as [Hpg _ _ _].
    apply Hpg in Hin as (j & Hj & _ & Hnj).
    assert (j = i) by (apply (cr_nm_inj _ _ _ _ _ _ _ _ _ _ _ _ _ _ Hrun j i name); done).
    subst j. destruct (decide (i = r)) as [->|Hne]; [done|].
    apply list_elem_of_split in Hj as (a & b & ->).
    pose proof (cr_roots_first _ _ _ _ _ _ _ _ _ _ _ _ _ _ Hrun a i (b ++ r :: post)) as Hrf.
    rewrite Hsplit, <- app_assoc in Hrf. specialize (Hrf eq_refl ltac:(congruence)).
    rewrite Hri in Hrf. apply Hrpre. apply elem_of_app. now left.
  - intros Q0 HQ0.
    assert (Hne : ps_s <> []).
    { pose proof (a_len _ _ _ _ _ _ _ _ _ _ Hinv) as Hl. simpl in Hl.
      intros ->. simpl in Hl. lia. }
    destruct (Htop ps_s Hne) as [_ Hmin]. now apply (Hmin Q Q0).
  - simpl. rewrite length_fmap.
    now rewrite (component_weight_class _ _ _ _ _ _ _ _ _ _ _ _ _ _ HT1 HT Hrun).
  - intros i name Hi Hn. destruct (Hmember i Hi) as [Hlt Hri].
    rewrite (node_name_nm _ _ _ _ _ _ _ _ _ _ _ _ _ _ Hrun), name_of_upd in Hn.
    destruct (core_home _ _ _ _ _ _ _ _ _ _ _ _ _ _ Hrun i Hlt) as (_ & Hh & HhT).
    rewrite Hri, Hhome in Hh.
    rewrite <- (core_length _ _ _ _ _ _ _ _ _ _ _ _ _ _ Hrun) in HhT.
    destruct (lookup_lt_is_Some_2 _ _ HhT) as [Qf HQf].
    exists Qf. rewrite <- Hh. split; [done|]. apply elem_of_dom.
    apply (core_globals _ _ _ _ _ _ _ _ _ _ _ _ _ _ Hrun _ _ _ HQf). exists i. done.
Qed.

(** ** The module that [partitionModule] leaves, and a sample run *)

Lemma make_nodes_globals : forall gvs i P gvs' P',
  make_nodes i gvs P = Some (gvs', P') -> gvs' = upd_global <$> gvs.
Proof.
  induction gvs as [|G gvs IH]; intros i P gvs' P' H; simpl in H.
  - now inversion H.
  - unfold upd_global at 1. unfold partitionable. simpl.
    destruct (gv_is_declaration G); simpl.
    { destruct (make_nodes (S i) gvs P) as [[r Pr]|] eqn:E; [|done]. simpl in H.
      inversion H; subst. f_equal. eapply IH, E. }
    destruct (canPartition G); simpl in *.
    2:{ destruct (make_nodes (S i) gvs P) as [[r Pr]|] eqn:E; [|done]. simpl in H.
        inversion H; subst. f_equal. eapply IH, E. }
    destruct (node_weight G) as [w|]; [|done]. simpl in H.
    destruct (make_nodes (S i) gvs _) as [[r Pr]|] eqn:E; [|done]. simpl in H.
    inversion H; subst. f_equal. eapply IH, E.
Qed.

(** Whenever [partitionModule] returns, the module it leaves is the given
    one with every partitionable definition external and hidden. *)
Lemma partitionModule_globals sort_idxs pq_top M T M' ps :
  partitionModule sort_idxs pq_top M T = Some (M', ps) ->
  global_values M' = upd_global <$> global_values M.
Proof.
  unfold partitionModule. intros H.
  destruct (build_classes M) as [[[[M1 f] g] ns]|] eqn:Hb; [|done]. simpl in H.
  destruct (assign_all _ _ _ _ _ _) as [[? ps']|]; [|done]. simpl in H.
  destruct (verify_partitioning _ _ _ _) as [[|]|]; try done.
  inversion H; subst M1 ps'. clear H.
  unfold build_classes in Hb.
  destruct (get_fvars_gvars M) as [[[M2 f2] g2]|] eqn:Hg; [|done]. simpl in Hb.
  destruct (make_nodes _ _ _) as [[gvs P]|] eqn:Hm; [|done]. simpl in Hb.
  destruct (merge_all _ _ _ _); [|done]. simpl in Hb. inversion Hb; subst. simpl.
  apply make_nodes_globals in Hm. rewrite Hm. f_equal.
  unfold get_fvars_gvars in Hg.
  destruct (jl_fvars M); [|done]. destruct (jl_gvars M); [|done]. simpl in Hg.
  destruct (negb _); [done|].
  destruct (index_table 0 l0 _ _); [|done]. simpl in Hg.
  destruct (index_table 0 l1 _ _); [|done]. simpl in Hg.
  now inversion Hg.
Qed.

Lemma partitionModule_alias_external sort_idxs pq_top M T M' ps g G :
  partitionModule sort_idxs pq_top M T = Some (M', ps) ->
  global_values M' !! g = Some G ->
  gv_kind G = KGlobalAlias -> gv_is_declaration G = false ->
  gv_linkage G = ExternalLinkage /\ gv_visibility G = HiddenVisibility.
Proof.
  intros H HG Hk Hd. rewrite (partitionModule_globals _ _ _ _ _ _ H) in HG.
  rewrite list_lookup_fmap in HG.
  destruct (global_values M !! g) as [G0|]; [|done]. simpl in HG.
  inversion HG; subst G. clear HG. unfold upd_global in *.
  assert (Hp : partitionable G0 = true).
  { unfold partitionable, canPartition.
    destruct (partitionable G0); simpl in Hk, Hd; rewrite Hk, Hd; done. }
  rewrite Hp. done.
Qed.

Lemma sample_module_wf : wf_module sample_module = true.
Proof. vm_compute. reflexivity. Qed.

Lemma partition_exactly_once_witness :
  wf_module sample_module = true /\
  exists M' ps,
    partitionModule insertion_sort first_lightest sample_module 2 = Some (M', ps) /\
    length ps = 2%nat.
Proof.
  split; [vm_compute; reflexivity|].
  destruct (partition_exactly_once insertion_sort first_lightest sample_module 2
              insertion_sort_spec first_lightest_spec
              ltac:(vm_compute; reflexivity) ltac:(lia) ltac:(vm_compute; reflexivity))
    as (M' & ps & Hrun & Hlen & _).
  exists M', ps. split; [exact Hrun|exact Hlen].
Defined.

Lemma users_share_partition_witness :
  exists M' ps,
    partitionModule insertion_sort first_lightest users_module 2 = Some (M', ps) /\
    exists p Q, ps !! p = Some Q /\
      "t"%string ∈ dom (globals Q) /\ "f"%string ∈ dom (globals Q).
Proof.
  destruct (users_share_partition insertion_sort first_lightest users_module 2
              insertion_sort_spec first_lightest_spec
              ltac:(vm_compute; reflexivity) ltac:(lia) ltac:(vm_compute; reflexivity))
    as (M' & ps & Hrun & Hsame).
  exists M', ps. split; [exact Hrun|].
  apply (Hsame 1%nat 0%nat
           (sample_global "t" KGlobalVariable false false [] None [])
           (sample_global "f" KFunction false false [9] None [1%nat]));
    [reflexivity|reflexivity|reflexivity|reflexivity|].
  apply elem_of_cons. left. reflexivity.
Defined.

(** C2, as worded for every reference: a call is a reference that the
    partitioner does not follow.  With two partitions, the caller and the
    function it calls are both partitionable and no partition holds the
    two. *)
Lemma callee_placed_apart :
  wf_module callers_module = true /\
  exists A B M' ps,
    global_values callers_module !! 0%nat = Some A /\
    global_values callers_module !! 1%nat = Some B /\
    partitionable A = true /\ partitionable B = true /\
    definition_references (global_values callers_module) 0 1 /\
    partitionModule insertion_sort first_lightest callers_module 2 = Some (M', ps) /\
    forall p Q, ps !! p = Some Q ->
      ~ (gv_name A ∈ dom (globals Q) /\ gv_name B ∈ dom (globals Q)).
Proof.
  split; [vm_compute; reflexivity|].
  destruct (partitionModule insertion_sort first_lightest callers_module 2)
    as [[M' ps]|] eqn:Hrun; [|vm_compute in Hrun; discriminate].
  eexists _, _, M', ps. split_and!; try reflexivity.
  - eexists. split; [reflexivity|]. right. simpl. apply elem_of_cons. now left.
  - vm_compute in Hrun. injection Hrun as _ <-.
    intros [|[|p]] Q HQ [H1 H2]; simpl in HQ; [| |done];
      injection HQ as <-; apply elem_of_dom in H1, H2;
      destruct H1 as [x1 H1]; destruct H2 as [x2 H2];
      vm_compute in H1, H2; discriminate.
Qed.

Lemma flat_ids_exactly_once_witness :
  exists M' ps,
    partitionModule insertion_sort first_lightest sample_module 2 = Some (M', ps) /\
    flat_ids fvars ps ≡ₚ [0; 1] /\ flat_ids gvars ps ≡ₚ [0].
Proof.
  destruct (flat_ids_exactly_once insertion_sort first_lightest sample_module 2
              insertion_sort_spec first_lightest_spec
              ltac:(vm_compute; reflexivity) ltac:(lia) ltac:(vm_compute; reflexivity))
    as (M' & ps & fi & gi & Hrun & Hfi & Hgi & Hf & Hg & _).
  exists M', ps. split; [exact Hrun|].
  injection Hfi as <-. injection Hgi as <-. split; [exact Hf|exact Hg].
Defined.

Lemma greedy_lightest_first_witness :
  exists M' fvar_ids gvar_ids ns ps,
    build_classes sample_module = Some (M', fvar_ids, gvar_ids, ns) /\
    partitionModule insertion_sort first_lightest sample_module 2 = Some (M', ps).
Proof.
  destruct (greedy_lightest_first insertion_sort first_lightest sample_module 2
              insertion_sort_spec first_lightest_spec
              ltac:(vm_compute; reflexivity) ltac:(lia) ltac:(vm_compute; reflexivity))
    as (M' & fvar_ids & gvar_ids & ns & ps & Hb & Hrun & _).
  exists M', fvar_ids, gvar_ids, ns, ps. split; [exact Hb|exact Hrun].
Defined.

Lemma weight_of_global_witness :
  node_weight (sample_global "f2" KFunction false false [10] (Some "7"%string) [])
  = Some 48.
Proof.
  destruct (weight_of_global
              (sample_global "f2" KFunction false false [10] (Some "7"%string) []))
    as (_ & _ & Hw).
  rewrite (Hw "7"%string 7); [reflexivity|reflexivity|reflexivity|reflexivity| |];
    vm_compute; reflexivity.
Defined.

(** ** The weights of the partitions *)

Lemma Nsum_zero (l : list nat) : Nsum (fun _ => 0) l = 0.
Proof. unfold Nsum. induction l as [|i l IH]; simpl; [done|]. exact IH. Qed.

Lemma Nsum_fmap (f : nat -> N) (g : nat -> nat) l :
  Nsum f (g <$> l) = Nsum (fun i => f (g i)) l.
Proof.
  unfold Nsum. induction l as [|i l IH]; simpl; [done|]. f_equal. exact IH.
Qed.

Lemma partitions_weight_Nsum ps :
  partitions_weight ps
  = Nsum (fun p => default 0 (weight <$> ps !! p)) (seq 0 (length ps)).
Proof.
  induction ps as [|Q ps IH]; [done|].
  cbn [length seq]. rewrite <- fmap_S_seq.
  assert (Hc : forall f i l, Nsum f (i :: l) = f i + Nsum f l) by done.
  rewrite Hc, Nsum_fmap. simpl. f_equal. exact IH.
Qed.

Lemma Nsum_by_home (h : nat -> nat) (w : nat -> N) T l :
  (forall j, j ∈ l -> (h j < T)%nat) ->
  Nsum (fun p => Nsum (fun j => if bool_decide (h j = p) then w j else 0) l) (seq 0 T)
  = Nsum w l.
Proof.
  induction l as [|j l IH]; intros Hh.
  - simpl. apply Nsum_zero.
  - assert (Hc : forall f i l, Nsum f (i :: l) = f i + Nsum f l) by done.
    rewrite Hc.
    rewrite (Nsum_ext _ (fun p => (if bool_decide (p = h j) then (fun _ => w j) p else 0)
                                  + Nsum (fun k => if bool_decide (h k = p) then w k else 0) l)).
    + rewrite Nsum_add.
      rewrite IH by (intros k Hk; apply Hh, elem_of_cons; now right).
      f_equal. apply (Nsum_single (fun _ => w j)). apply Hh, elem_of_cons. now left.
    + intros p _. rewrite Hc. f_equal.
      erewrite (bool_decide_ext (h j = p) (p = h j)); [reflexivity|].
      split; congruence.
Qed.

Lemma core_weights sort_idxs pq_top M T fi gi fvar_ids gvar_ids P ns rk rep ns_f ps :
  core_run sort_idxs pq_top M T fi gi fvar_ids gvar_ids P ns rk rep ns_f ps ->
  partitions_weight ps = total_weight (global_values M).
Proof.
  intros Hrun.
  pose proof (cr_inv _ _ _ _ _ _ _ _ _ _ _ _ _ _ Hrun) as Hinv.
  pose proof (cr_forest _ _ _ _ _ _ _ _ _ _ _ _ _ _ Hrun) as Hf.
  pose proof (cr_perm _ _ _ _ _ _ _ _ _ _ _ _ _ _ Hrun) as Hperm.
  pose proof (cr_GV _ _ _ _ _ _ _ _ _ _ _ _ _ _ Hrun) as HGV.
  pose proof (cr_nodes _ _ _ _ _ _ _ _ _ _ _ _ _ _ Hrun) as Hnodes.
  assert (Hlen : length ns = length (Partitioner.nodes P)).
  { apply (f_equal length) in HGV. now rewrite !length_fmap in HGV. }
  set (n := length (Partitioner.nodes P)) in *.
  set (w0 := weight_at (Partitioner.nodes P)) in *.
  set (idxs := sort_idxs (weight_at ns) (seq 0 (length ns))) in *.
  pose proof (a_len _ _ _ _ _ _ _ _ _ _ Hinv) as HT. simpl in HT.
  rewrite partitions_weight_Nsum, HT.
  assert (Hall : forall j, (j < n)%nat -> rep j ∈ idxs).
  { intros j Hj. rewrite Hperm. apply elem_of_seq.
    pose proof (f_rep_lt _ _ _ Hf j ltac:(lia)). lia. }
  rewrite (Nsum_ext _ (fun p => Nsum (fun j => if bool_decide (size_of ns_f (rep j) = p)
                                               then w0 j else 0) (seq 0 n))).
  - rewrite Nsum_by_home.
    + pose proof (no_total _ _ _ Hnodes) as Htot.
      rewrite firstn_all in Htot. exact Htot.
    + intros j Hj. apply elem_of_seq in Hj.
      pose proof (a_home _ _ _ _ _ _ _ _ _ _ Hinv (rep j) (Hall j ltac:(lia)))
        as (_ & _ & Hlt).
      simpl in Hlt. exact Hlt.
  - intros p Hp. apply elem_of_seq in Hp.
    destruct (lookup_lt_is_Some_2 ps p ltac:(lia)) as [Q HQ]. rewrite HQ. simpl.
    pose proof (a_parts _ _ _ _ _ _ _ _ _ _ Hinv p Q HQ) as HQok.
    rewrite (p_weight _ _ _ _ _ _ _ _ _ _ HQok). unfold placed_weight.
    rewrite length_fmap. apply Nsum_ext. intros j Hj. apply elem_of_seq in Hj. simpl.
    erewrite bool_decide_ext; [reflexivity|].
    split; [tauto|]. intros E. split; [|done]. apply Hall. lia.
Qed.

(** The weights of the partitions add up to the weight of the
    partitionable definitions of the module: no weight is lost and none is
    counted twice. *)
Theorem partition_weights_conserved sort_idxs pq_top M T :
  sort_spec sort_idxs -> top_spec pq_top -> wf_module M = true ->
  (1 <= T)%nat -> N.of_nat T < 2 ^ 32 ->
  exists M' ps,
    partitionModule sort_idxs pq_top M T = Some (M', ps) /\
    partitions_weight ps = total_weight (global_values M).
Proof.
  intros Hsort Htop Hwf HT1 HT. apply wf_module_sound in Hwf.
  destruct (partition_core sort_idxs pq_top M T Hsort Htop Hwf HT1 HT)
    as (fi & gi & fvar_ids & gvar_ids & P & ns & rk & rep & ns_f & ps & Hrun).
  exists (erased M (upd_global <$> global_values M)), ps.
  split; [now apply (partitionModule_run _ _ _ _ _ _ _ _ _ _ _ _ _ _ Hwf HT Hrun)|].
  now apply (core_weights _ _ _ _ _ _ _ _ _ _ _ _ _ _ Hrun).
Qed.

Section balance.
Variable pq_top : list Partition -> nat.
Variable gvs : list GlobalValue.
Variable fvar_ids gvar_ids : gmap nat N.
Variable T : nat.
Variables rk rep : nat -> nat.
Variable w0 : nat -> N.
Variable G0 : list nat.
Variable B : N.

Hypothesis Htop : top_spec pq_top.
Hypothesis HT : N.of_nat T < 2 ^ 32.
Hypothesis Hnm_def : forall i, (i < length G0)%nat -> is_Some (name_of gvs G0 i).
Hypothesis Hnm_inj : forall i j name,
  name_of gvs G0 i = Some name -> name_of gvs G0 j = Some name -> i = j.
Hypothesis Htotal : Nsum w0 (seq 0 (length G0)) < 2 ^ 64.
Hypothesis HB : forall r, (r < length G0)%nat -> rep r = r ->
  class_weight w0 rep (length G0) r <= B.

Lemma balanced_insert ps p P Q' :
  balanced B ps -> ps !! p = Some P ->
  (weight Q' = weight P \/
   ((forall Q, Q ∈ ps -> weight P <= weight Q) /\
    weight P <= weight Q' <= weight P + B)) ->
  balanced B (<[p := Q']> ps).
Proof.
  intros Hb HP Hw.
  assert (Hin : forall Q, Q ∈ <[p := Q']> ps -> Q = Q' \/ Q ∈ ps).
  { intros Q HQ. apply list_elem_of_lookup in HQ as (k & Hk).
    destruct (decide (k = p)) as [->|Hne].
    - rewrite list_lookup_insert_eq in Hk by (apply lookup_lt_is_Some; eauto).
      left. congruence.
    - rewrite list_lookup_insert_ne in Hk by done. right.
      now apply list_elem_of_lookup_2 in Hk. }
  assert (HPin : P ∈ ps) by now apply list_elem_of_lookup_2 in HP.
  intros Q1 Q2 H1 H2. apply Hin in H1, H2.
  destruct Hw as [Hw|[Hmin Hw]].
  - destruct H1 as [->|H1], H2 as [->|H2]; rewrite ?Hw; try lia.
    + apply Hb; done.
    + apply Hb; done.
    + apply Hb; done.
  - destruct H1 as [->|H1], H2 as [->|H2]; try lia.
    + pose proof (Hmin Q2 H2). lia.
    + pose proof (Hb Q1 P H1 HPin). lia.
    + apply Hb; done.
Qed.

Lemma assign_all_balanced : forall l done st,
  ainv gvs fvar_ids gvar_ids T rk rep w0 G0 done st -> balanced B st.2 ->
  NoDup (done ++ l) -> (forall i, i ∈ l -> (i < length G0)%nat) ->
  (forall l1 i l2, l = l1 ++ i :: l2 -> rep i <> i -> rep i ∈ done ++ l1) ->
  (1 <= T)%nat ->
  exists st', assign_all pq_top gvs fvar_ids gvar_ids l st = Some st' /\
              balanced B st'.2.
Proof.
  induction l as [|i l IH]; intros done [ns ps] Hinv Hbal Hnd Hlt Hrf HT1.
  - exists (ns, ps). done.
  - apply NoDup_app in Hnd as Hnd'. destruct Hnd' as (Hd1 & Hd2 & Hd3).
    assert (Hi : i ∉ done).
    { intros Hin. apply (Hd2 i Hin). apply elem_of_cons. now left. }
    assert (Hil : (i < length G0)%nat) by (apply Hlt, elem_of_cons; now left).
    destruct (assign_step_spec pq_top gvs fvar_ids gvar_ids T rk rep w0 G0
                Htop HT Hnm_def Hnm_inj Htotal done ns ps i Hinv Hil Hi)
      as (ns' & p & P & name & g & Hstep & Hinv' & HP & _ & _ & Hp & _ & _);
      try done.
    { intros E. specialize (Hrf [] i l eq_refl E). now rewrite app_nil_r in Hrf. }
    cbn [assign_all]. rewrite Hstep. simpl.
    apply (IH (done ++ [i])); try done.
    + simpl in *. apply (balanced_insert ps p P); [done|done|].
      destruct (decide (rep i = i)) as [Hr|Hr]; simpl; [right|now left].
      split.
      * subst p. intros Q HQ.
        assert (Hne : ps <> []) by (intros ->; now apply elem_of_nil in HQ).
        destruct (Htop ps Hne) as [_ Hmin]. now apply Hmin.
      * pose proof (HB i Hil Hr). lia.
    + now rewrite <- app_assoc.
    + intros j Hj. apply Hlt. apply elem_of_cons. now right.
    + intros l1 j l2 -> Hj. rewrite <- app_assoc. simpl.
      apply (Hrf (i :: l1) j l2); done.
Qed.
End balance.

Lemma balanced_replicate B T : balanced B (replicate T empty_partition).
Proof.
  intros Q1 Q2 H1 H2. apply elem_of_replicate in H1 as [-> _].
  apply elem_of_replicate in H2 as [-> _]. simpl. lia.
Qed.

Lemma core_balanced sort_idxs pq_top M T fi gi fvar_ids gvar_ids P ns rk rep ns_f ps B :
  top_spec pq_top -> (1 <= T)%nat -> N.of_nat T < 2 ^ 32 ->
  core_run sort_idxs pq_top M T fi gi fvar_ids gvar_ids P ns rk rep ns_f ps ->
  (forall r, root_of ns r = Some r ->
     component_weight (upd_global <$> global_values M) ns r <= B) ->
  balanced B ps.
Proof.
  intros Htop HT1 HT Hrun HB.
  pose proof (cr_forest _ _ _ _ _ _ _ _ _ _ _ _ _ _ Hrun) as Hf.
  pose proof (cr_weights _ _ _ _ _ _ _ _ _ _ _ _ _ _ Hrun) as Hw.
  pose proof (cr_perm _ _ _ _ _ _ _ _ _ _ _ _ _ _ Hrun) as Hperm.
  pose proof (cr_GV _ _ _ _ _ _ _ _ _ _ _ _ _ _ Hrun) as HGV.
  pose proof (cr_assign _ _ _ _ _ _ _ _ _ _ _ _ _ _ Hrun) as Hassign.
  assert (Hlen : length ns = length (Partitioner.nodes P)).
  { apply (f_equal length) in HGV. now rewrite !length_fmap in HGV. }
  pose proof (ainv_init (upd_global <$> global_values M) fvar_ids gvar_ids T rk rep
                (weight_at (Partitioner.nodes P))
                (Partitioner.GV <$> Partitioner.nodes P) HT
                (cr_total _ _ _ _ _ _ _ _ _ _ _ _ _ _ Hrun) ns Hf Hw HGV) as Hinit.
  destruct (assign_all_balanced pq_top (upd_global <$> global_values M)
              fvar_ids gvar_ids T rk rep (weight_at (Partitioner.nodes P))
              (Partitioner.GV <$> Partitioner.nodes P) B Htop HT
              (cr_nm_def _ _ _ _ _ _ _ _ _ _ _ _ _ _ Hrun)
              (cr_nm_inj _ _ _ _ _ _ _ _ _ _ _ _ _ _ Hrun)
              (cr_total _ _ _ _ _ _ _ _ _ _ _ _ _ _ Hrun))
    with (l := sort_idxs (weight_at ns) (seq 0 (length ns))) (done := @nil nat)
         (st := (ns, replicate T empty_partition))
    as (st' & Hall & Hbal); try done.
  - intros r Hr Hrr. rewrite length_fmap in Hr |- *.
    rewrite <- (component_weight_class _ _ _ _ _ _ _ _ _ _ _ _ _ _ HT1 HT Hrun).
    apply HB. rewrite (root_of_rep _ _ _ _ _ _ _ _ _ _ _ _ _ _ Hrun) by done.
    now rewrite Hrr.
  - apply balanced_replicate.
  - simpl. rewrite Hperm. apply NoDup_seq.
  - intros i Hi. rewrite Hperm in Hi. apply elem_of_seq in Hi.
    rewrite length_fmap. lia.
  - intros l1 i l2 Hl Hr. simpl.
    apply (cr_roots_first _ _ _ _ _ _ _ _ _ _ _ _ _ _ Hrun l1 i l2 Hl Hr).
  - rewrite Hassign in Hall. inversion Hall; subst st'. exact Hbal.
Qed.

(** The greedy assignment keeps the partitions within one component of
    each other: no partition is heavier than another by more than the
    weight of the heaviest component. *)
Theorem partitions_balanced sort_idxs pq_top M T :
  sort_spec sort_idxs -> top_spec pq_top -> wf_module M = true ->
  (1 <= T)%nat -> N.of_nat T < 2 ^ 32 ->
  exists M' fvar_ids gvar_ids ns ps,
    build_classes M = Some (M', fvar_ids, gvar_ids, ns) /\
    partitionModule sort_idxs pq_top M T = Some (M', ps) /\
    forall B,
      (forall r, root_of ns r = Some r ->
         component_weight (global_values M') ns r <= B) ->
      forall Q1 Q2, Q1 ∈ ps -> Q2 ∈ ps -> weight Q1 <= weight Q2 + B.
Proof.
  intros Hsort Htop Hwfb HT1 HT. pose proof (wf_module_sound _ Hwfb) as Hwf.
  destruct (partition_core sort_idxs pq_top M T Hsort Htop Hwf HT1 HT)
    as (fi & gi & fvar_ids & gvar_ids & P & ns & rk & rep & ns_f & ps & Hrun).
  exists (erased M (upd_global <$> global_values M)), fvar_ids, gvar_ids, ns, ps.
  split; [apply (build_classes_run _ _ _ _ _ _ _ _ _ _ _ _ _ _ Hrun)|].
  split; [now apply (partitionModule_run _ _ _ _ _ _ _ _ _ _ _ _ _ _ Hwf HT Hrun)|].
  simpl. intros B HB.
  apply (core_balanced _ _ _ _ _ _ _ _ _ _ _ _ _ _ B Htop HT1 HT Hrun HB).
Qed.

(** ** The classes are the connected components *)

Lemma forest_root_of rk rep ns i :
  forest rk rep ns -> (i < length ns)%nat -> root_of ns i = Some (rep i).
Proof.
  intros Hf Hi. unfold root_of.
  destruct (find_spec rk rep ns i Hf Hi) as (ns' & -> & _). done.
Qed.

Section exact.
Variable C : relation nat.
Hypothesis HC : Equivalence C.

Lemma merged_rep_exact rep a b x y :
  (forall i j, rep i = rep j -> C i j) ->
  rep x = a -> rep y = b -> C x y ->
  forall i j, merged_rep rep a b i = merged_rep rep a b j -> C i j.
Proof.
  intros Hrep Hx Hy Hxy i j. unfold merged_rep.
  repeat case_bool_decide; intros E.
  - apply Hrep. congruence.
  - transitivity y; [apply Hrep; congruence|].
    transitivity x; [now symmetry|]. apply Hrep. congruence.
  - transitivity x; [apply Hrep; congruence|].
    transitivity y; [done|]. apply Hrep. congruence.
  - now apply Hrep.
Qed.

Lemma merge_exact rk rep w0 ns x y :
  forest rk rep ns -> weights_ok w0 rep ns ->
  (x < length ns)%nat -> (y < length ns)%nat ->
  (forall i j, rep i = rep j -> C i j) -> C x y ->
  exists ns' r rk' rep',
    Partitioner.merge ns x y = Some (ns', r) /\
    forest rk' rep' ns' /\ weights_ok w0 rep' ns' /\
    (forall i j, rep' i = rep' j -> C i j) /\
    Partitioner.GV <$> ns' = Partitioner.GV <$> ns.
Proof.
  intros Hf Hw Hx Hy Hrep Hxy. unfold Partitioner.merge.
  destruct (find_spec rk rep ns x Hf Hx) as (ns1 & Hfx & Hf1 & Hd1).
  rewrite Hfx. simpl.
  pose proof (node_data_length _ _ Hd1) as Hl1.
  destruct (find_spec rk rep ns1 y Hf1 ltac:(lia)) as (ns2 & Hfy & Hf2 & Hd2).
  rewrite Hfy. simpl.
  pose proof (node_data_length _ _ Hd2) as Hl2.
  assert (Hd : node_data <$> ns2 = node_data <$> ns) by congruence.
  pose proof (weights_ok_data _ _ _ _ Hd Hw) as Hw2.
  pose proof (node_data_GV _ _ Hd) as HG.
  case_bool_decide as Hne.
  - exists ns2, (rep x), rk, rep. done.
  - assert (Hrx : (rep x < length ns2)%nat)
      by (rewrite Hl2, Hl1; now apply (f_rep_lt _ _ _ Hf)).
    assert (Hry : (rep y < length ns2)%nat)
      by (rewrite Hl2, Hl1; now apply (f_rep_lt _ _ _ Hf)).
    destruct (lookup_lt_is_Some_2 _ _ Hrx) as [nx Hnx].
    destruct (lookup_lt_is_Some_2 _ _ Hry) as [ny Hny].
    rewrite Hnx, Hny. simpl.
    pose proof (f_rep_idem _ _ _ Hf x Hx) as Hix.
    pose proof (f_rep_idem _ _ _ Hf y Hy) as Hiy.
    destruct (Partitioner.size nx <? Partitioner.size ny).
    + destruct (link_spec rk rep w0 ns2 (rep y) (rep x) ny nx Hf2 Hw2 Hny Hnx Hiy Hix)
        as (rk' & Hf' & Hw'); [congruence|].
      exists (link ns2 (rep y) (rep x) ny nx), (rep y), rk',
             (merged_rep rep (rep y) (rep x)).
      split_and!; try done.
      * apply (merged_rep_exact rep (rep y) (rep x) y x); try done; now symmetry.
      * rewrite link_GV by done. done.
    + destruct (link_spec rk rep w0 ns2 (rep x) (rep y) nx ny Hf2 Hw2 Hnx Hny Hix Hiy)
        as (rk' & Hf' & Hw'); [congruence|].
      exists (link ns2 (rep x) (rep y) nx ny), (rep x), rk',
             (merged_rep rep (rep x) (rep y)).
      split_and!; try done.
      * apply (merged_rep_exact rep (rep x) (rep y) x y); done.
      * rewrite link_GV by done. done.
Qed.

Variable node_map : gmap nat nat.

Lemma merge_uses_exact w0 i : forall uses rk rep ns,
  forest rk rep ns -> weights_ok w0 rep ns -> (i < length ns)%nat ->
  (forall val, val ∈ uses ->
     exists j, node_map !! val = Some j /\ (j < length ns)%nat /\ C i j) ->
  (forall a b, rep a = rep b -> C a b) ->
  exists ns' rk' rep',
    merge_uses node_map i uses ns = Some ns' /\
    forest rk' rep' ns' /\ weights_ok w0 rep' ns' /\
    Partitioner.GV <$> ns' = Partitioner.GV <$> ns /\
    (forall a b, rep' a = rep' b -> C a b).
Proof.
  induction uses as [|val uses IH]; intros rk rep ns Hf Hw Hi Hu Hrep.
  - exists ns, rk, rep. done.
  - simpl. destruct (Hu val ltac:(apply elem_of_cons; now left)) as (j & Hj & Hjl & Hij).
    rewrite Hj. simpl.
    destruct (merge_exact rk rep w0 ns i j Hf Hw Hi Hjl Hrep Hij)
      as (ns1 & r & rk1 & rep1 & Hm & Hf1 & Hw1 & Hrep1 & HG).
    rewrite Hm. simpl.
    assert (Hl : length ns1 = length ns).
    { apply (f_equal length) in HG. now rewrite !length_fmap in HG. }
    destruct (IH rk1 rep1 ns1 Hf1 Hw1) as (ns' & rk' & rep' & Hmu & Hf' & Hw' & HG' & Hrep');
      try done.
    { lia. }
    { intros v Hv. rewrite Hl. apply Hu. apply elem_of_cons; now right. }
    exists ns', rk', rep'. split_and!; try done. congruence.
Qed.

Variable gvs : list GlobalValue.

Lemma merge_all_exact w0 : forall idxs rk rep ns,
  forest rk rep ns -> weights_ok w0 rep ns ->
  (forall i, i ∈ idxs -> (i < length ns)%nat) ->
  (forall i g, (Partitioner.GV <$> ns) !! i = Some g ->
     exists G, gvs !! g = Some G /\
       forall val, val ∈ gv_constant_users G ->
         exists j, node_map !! val = Some j /\ (j < length ns)%nat /\ C i j) ->
  (forall a b, rep a = rep b -> C a b) ->
  exists ns' rk' rep',
    merge_all gvs node_map idxs ns = Some ns' /\
    forest rk' rep' ns' /\ weights_ok w0 rep' ns' /\
    Partitioner.GV <$> ns' = Partitioner.GV <$> ns /\
    (forall a b, rep' a = rep' b -> C a b).
Proof.
  induction idxs as [|i idxs IH]; intros rk rep ns Hf Hw Hi Hu Hrep.
  - exists ns, rk, rep. done.
  - simpl. assert (Hil : (i < length ns)%nat) by (apply Hi; apply elem_of_cons; now left).
    destruct (lookup_lt_is_Some_2 _ _ Hil) as [n Hn]. rewrite Hn. simpl.
    destruct (Hu i (Partitioner.GV n)) as (G & HG & HuG).
    { rewrite list_lookup_fmap, Hn. done. }
    rewrite HG. simpl.
    destruct (merge_uses_exact w0 i (gv_constant_users G) rk rep ns Hf Hw Hil HuG Hrep)
      as (ns1 & rk1 & rep1 & Hm & Hf1 & Hw1 & HG1 & Hrep1).
    rewrite Hm. simpl.
    assert (Hl : length ns1 = length ns).
    { apply (f_equal length) in HG1. now rewrite !length_fmap in HG1. }
    destruct (IH rk1 rep1 ns1 Hf1 Hw1) as (ns' & rk' & rep' & Hmu & Hf' & Hw' & HG' & Hrep');
      try done.
    { intros k Hk. rewrite Hl. apply Hi. apply elem_of_cons; now right. }
    { intros k g. rewrite HG1, Hl. apply Hu. }
    exists ns', rk', rep'. split_and!; try done. congruence.
Qed.
End exact.

Lemma core_initial_forest sort_idxs pq_top M T fi gi fvar_ids gvar_ids P ns rk rep ns_f ps :
  wf_spec M ->
  core_run sort_idxs pq_top M T fi gi fvar_ids gvar_ids P ns rk rep ns_f ps ->
  forest (fun _ => 0%nat) (fun i => i) (Partitioner.nodes P) /\
  weights_ok (weight_at (Partitioner.nodes P)) (fun i => i) (Partitioner.nodes P).
Proof.
  intros Hwf Hrun.
  pose proof (cr_nodes _ _ _ _ _ _ _ _ _ _ _ _ _ _ Hrun) as Hok.
  pose proof (no_node _ _ _ Hok) as Hnode.
  set (ns0 := Partitioner.nodes P) in *.
  split.
  - split; try done.
    + intros i nd Hnd. destruct (Hnode i nd Hnd) as (-> & _). split; [|done].
      now apply lookup_lt_Some in Hnd.
    + intros i nd Hnd. destruct (Hnode i nd Hnd) as (-> & _). done.
    + intros i nd Hnd. destruct (Hnode i nd Hnd) as (-> & _). done.
  - split.
    + pose proof (cr_total _ _ _ _ _ _ _ _ _ _ _ _ _ _ Hrun) as Ht.
      now rewrite length_fmap in Ht.
    + intros i Hi. destruct (lookup_lt_is_Some_2 _ _ Hi) as [nd Hnd].
      destruct (Hnode i nd Hnd) as (_ & _ & _ & G & HG & Hp & Hw).
      destruct (wf_weight _ Hwf G (list_elem_of_lookup_2 _ _ _ HG) Hp) as (w & Hw' & Hle).
      unfold weight_at. fold ns0. rewrite Hnd. simpl. congruence.
    + intros r nd Hnd _. unfold class_weight.
      rewrite (Nsum_single (weight_at ns0)) by (now apply lookup_lt_Some in Hnd).
      unfold weight_at. now rewrite Hnd.
    + intros i n nr Hn Hne. done.
Qed.

Lemma core_classes sort_idxs pq_top M T fi gi fvar_ids gvar_ids P ns rk rep ns_f ps :
  wf_spec M ->
  core_run sort_idxs pq_top M T fi gi fvar_ids gvar_ids P ns rk rep ns_f ps ->
  forall i j ni nj, ns !! i = Some ni -> ns !! j = Some nj ->
    (root_of ns i = root_of ns j <->
     connected M (Partitioner.GV ni) (Partitioner.GV nj)).
Proof.
  intros Hwf Hrun i j ni nj Hni Hnj.
  pose proof (cr_nodes _ _ _ _ _ _ _ _ _ _ _ _ _ _ Hrun) as Hok.
  pose proof (no_node _ _ _ Hok) as Hnode.
  pose proof (cr_GV _ _ _ _ _ _ _ _ _ _ _ _ _ _ Hrun) as HGV.
  pose proof (cr_forest _ _ _ _ _ _ _ _ _ _ _ _ _ _ Hrun) as Hf.
  pose proof (cr_merge _ _ _ _ _ _ _ _ _ _ _ _ _ _ Hrun) as Hmerge.
  set (ns0 := Partitioner.nodes P) in *.
  set (all := global_values M) in *.
  assert (Hlen : length ns = length ns0).
  { apply (f_equal length) in HGV. now rewrite !length_fmap in HGV. }
  assert (Hnode0 : forall k nk, ns !! k = Some nk ->
            exists n0, ns0 !! k = Some n0 /\ Partitioner.GV n0 = Partitioner.GV nk).
  { intros k nk Hk. apply (f_equal (fun l => l !! k)) in HGV.
    rewrite !list_lookup_fmap, Hk in HGV. simpl in HGV.
    destruct (ns0 !! k) as [n0|]; [|done]. exists n0. split; [done|].
    simpl in HGV. congruence. }
  assert (Hil : (i < length ns)%nat) by now apply lookup_lt_Some in Hni.
  assert (Hjl : (j < length ns)%nat) by now apply lookup_lt_Some in Hnj.
  split.
  - (* nodes with one root are connected *)
    intros Hroot.
    set (g := fun k => default 0%nat (Partitioner.GV <$> ns0 !! k)).
    set (C := fun a b => connected M (g a) (g b)).
    assert (HC : Equivalence C).
    { split.
      - intros a. unfold C, connected. reflexivity.
      - intros a b H. unfold C, connected in *. now symmetry.
      - intros a b c H1 H2. unfold C, connected in *. now transitivity (g b). }
    destruct (core_initial_forest _ _ _ _ _ _ _ _ _ _ _ _ _ _ Hwf Hrun) as [Hf0 Hw0].
    fold ns0 in Hf0, Hw0.
    destruct (merge_all_exact C HC (Partitioner.node_map P) (upd_global <$> all)
                (weight_at ns0) (seq 0 (length ns0)) _ _ ns0 Hf0 Hw0)
      as (ns' & rk' & rep' & Hmerge' & Hf' & _ & _ & Hexact).
    + intros k Hk. apply elem_of_seq in Hk. lia.
    + intros k gk Hgk. rewrite list_lookup_fmap in Hgk.
      destruct (ns0 !! k) as [nd|] eqn:Hnd; [|done]. simpl in Hgk.
      destruct (Hnode k nd Hnd) as (_ & _ & _ & G & HG & Hp & _).
      assert (gk = Partitioner.GV nd) by congruence. subst gk.
      exists (upd_global G). split; [rewrite list_lookup_fmap; fold all; rewrite HG; done|].
      rewrite upd_global_users. intros val Hval.
      destruct (wf_users _ Hwf G val (list_elem_of_lookup_2 _ _ _ HG) Hp Hval)
        as (U & HU & HpU).
      destruct (no_all _ _ _ Hok val U) as [m Hm]; try done.
      { now apply lookup_lt_Some in HU. }
      exists m. split; [done|].
      destruct (no_map _ _ _ Hok val m Hm) as (nm & Hnm & Hgm).
      split; [now apply lookup_lt_Some in Hnm|].
      unfold C, g. fold ns0 in Hnm. rewrite Hnd, Hnm. simpl. rewrite Hgm.
      apply rtsc_rl. exists G. done.
    + intros a b ->. reflexivity.
    + fold ns0 all in Hmerge. rewrite Hmerge in Hmerge'. inversion Hmerge'; subst ns'.
      rewrite (forest_root_of rk' rep' ns i Hf' Hil) in Hroot.
      rewrite (forest_root_of rk' rep' ns j Hf' Hjl) in Hroot.
      inversion Hroot as [Hr]. apply Hexact in Hr. unfold C, g in Hr.
      destruct (Hnode0 i ni Hni) as (n0i & H0i & Hgi).
      destruct (Hnode0 j nj Hnj) as (n0j & H0j & Hgj).
      rewrite H0i, H0j in Hr. simpl in Hr. now rewrite Hgi, Hgj in Hr.
  - (* connected nodes have one root *)
    intros Hconn.
    rewrite (forest_root_of rk rep ns i Hf Hil), (forest_root_of rk rep ns j Hf Hjl).
    f_equal.
    destruct (Hnode0 i ni Hni) as (n0i & H0i & Hgi).
    destruct (Hnode0 j nj Hnj) as (n0j & H0j & Hgj).
    destruct (Hnode i n0i H0i) as (_ & _ & Hmi & _).
    destruct (Hnode j n0j H0j) as (_ & _ & Hmj & _).
    rewrite Hgi in Hmi. rewrite Hgj in Hmj.
    assert (Hstep : forall x y, sc (references M) x y ->
              forall k, Partitioner.node_map P !! x = Some k ->
              exists k', Partitioner.node_map P !! y = Some k' /\ rep k = rep k').
    { intros x y Hxy k Hk.
      assert (Hlink : forall a b ka, references M a b ->
                Partitioner.node_map P !! b = Some ka ->
                exists kb, Partitioner.node_map P !! a = Some kb /\ rep ka = rep kb).
      { intros a b ka (B & HB & HpB & Hab) Hka.
        destruct (no_map _ _ _ Hok b ka Hka) as (nb & Hnb & Hgb).
        fold ns0 in Hnb.
        assert (Hkal : (ka < length ns)%nat) by (rewrite Hlen; now apply lookup_lt_Some in Hnb).
        apply (cr_linked _ _ _ _ _ _ _ _ _ _ _ _ _ _ Hrun ka b B a Hkal); try done.
        rewrite HGV, list_lookup_fmap. fold ns0. rewrite Hnb. simpl. congruence. }
      destruct Hxy as [Hxy|Hxy].
      - (* x refers to y: y is a node *)
        destruct Hxy as (B & HB & HpB & Hab).
        destruct (no_all _ _ _ Hok y B) as [ky Hky]; try done.
        { now apply lookup_lt_Some in HB. }
        destruct (Hlink x y ky) as (kx & Hkx & E); [exists B; done|done|].
        exists ky. split; [done|]. congruence.
      - destruct (Hlink y x k Hxy Hk) as (ky & Hky & E).
        exists ky. done. }
    unfold connected, rtsc in Hconn.
    assert (Hgen : forall x y, rtc (sc (references M)) x y ->
              forall k, Partitioner.node_map P !! x = Some k ->
              exists k', Partitioner.node_map P !! y = Some k' /\ rep k = rep k').
    { intros x y Hxy. induction Hxy as [x|x y z Hxy _ IH]; intros k Hk.
      - exists k. done.
      - destruct (Hstep x y Hxy k Hk) as (k1 & Hk1 & E1).
        destruct (IH k1 Hk1) as (k2 & Hk2 & E2). exists k2. split; [done|]. congruence. }
    destruct (Hgen _ _ Hconn i Hmi) as (k' & Hk' & E).
    assert (k' = j) by congruence. subst k'. exact E.
Qed.

(** The union-find classes are the connected components of the reference
    graph over the partitionable definitions: two nodes have the same root
    exactly when their global values are joined by a chain of references,
    so that nothing is kept together without need. *)
Theorem classes_are_components M :
  wf_module M = true ->
  exists M' fvar_ids gvar_ids ns,
    build_classes M = Some (M', fvar_ids, gvar_ids, ns) /\
    forall i j ni nj, ns !! i = Some ni -> ns !! j = Some nj ->
      (root_of ns i = root_of ns j <->
       connected M (Partitioner.GV ni) (Partitioner.GV nj)).
Proof.
  intros Hwfb. pose proof (wf_module_sound _ Hwfb) as Hwf.
  destruct (partition_core insertion_sort first_lightest M 1
              insertion_sort_spec first_lightest_spec Hwf ltac:(lia) ltac:(done))
    as (fi & gi & fvar_ids & gvar_ids & P & ns & rk & rep & ns_f & ps & Hrun).
  exists (erased M (upd_global <$> global_values M)), fvar_ids, gvar_ids, ns.
  split; [apply (build_classes_run _ _ _ _ _ _ _ _ _ _ _ _ _ _ Hrun)|].
  apply (core_classes _ _ _ _ _ _ _ _ _ _ _ _ _ _ Hwf Hrun).
Qed.

(** ** [find] on a forest *)

Lemma find_root ns r n :
  ns !! r = Some n -> Partitioner.parent n = r ->
  Partitioner.find ns r = Some (ns, r).
Proof.
  intros Hn Hp. unfold Partitioner.find.
  assert (Hl : (r < length ns)%nat) by (apply lookup_lt_is_Some; eauto).
  destruct (length ns) as [|fuel]; [lia|].
  simpl. rewrite Hn. simpl. now rewrite bool_decide_eq_true_2.
Qed.

(** On a forest, [find] returns within its bound of one round per node.
    The node it returns is a root, a second [find] for it changes
    nothing, and the path halving moves no node to another class and
    touches no size, weight or global value. *)
Theorem find_keeps_classes rk rep ns idx :
  forest rk rep ns -> (idx < length ns)%nat ->
  exists ns' r,
    Partitioner.find ns idx = Some (ns', r) /\
    Partitioner.find ns' r = Some (ns', r) /\
    (forall i, (i < length ns)%nat -> root_of ns' i = root_of ns i) /\
    node_data <$> ns' = node_data <$> ns.
Proof.
  intros Hf Hidx.
  destruct (find_spec rk rep ns idx Hf Hidx) as (ns' & Hfind & Hf' & Hd).
  pose proof (node_data_length _ _ Hd) as Hlen.
  exists ns', (rep idx). split_and!; try done.
  - pose proof (f_rep_lt _ _ _ Hf' idx ltac:(lia)) as Hr.
    destruct (lookup_lt_is_Some_2 _ _ Hr) as [n Hn].
    apply (find_root ns' (rep idx) n Hn).
    apply (f_root _ _ _ Hf' (rep idx) n Hn).
    apply (f_rep_idem _ _ _ Hf' idx). lia.
  - intros i Hi.
    rewrite (forest_root_of rk rep ns' i Hf') by lia.
    now rewrite (forest_root_of rk rep ns i Hf).
Qed.

Lemma find_keeps_classes_witness :
  exists ns',
    Partitioner.find sample_nodes 0 = Some (ns', 1%nat) /\
    root_of ns' 0 = root_of sample_nodes 0.
Proof.
  assert (Hf : forest (fun i => if decide (i = 1%nat) then 1%nat else 0%nat)
                      (fun _ => 1%nat) sample_nodes).
  { split.
    - intros i _. simpl. lia.
    - done.
    - intros [|[|i]] n Hn; simpl in Hn; inversion Hn; subst n; simpl; split; (lia || done).
    - intros [|[|i]] n Hn; simpl in Hn; inversion Hn; subst n; simpl; split; (lia || done).
    - intros [|[|i]] n Hn Hp; simpl in Hn; inversion Hn; subst n; simpl in *;
        (done || (repeat case_decide; lia)). }
  destruct (find_keeps_classes _ _ sample_nodes 0%nat Hf ltac:(simpl; lia))
    as (ns' & r & Hfind & _ & Hroot & _).
  exists ns'. split.
  - rewrite Hfind. vm_compute in Hfind. injection Hfind as _ <-. reflexivity.
  - apply Hroot. simpl. lia.
Defined.

Record sinv (ps : list Partition) (nf ng p : nat) (st : verify_state) : Prop := {
  s_names : names_ok ps p (vs_GVNames st);
  s_fvars : slots_rec ps fvars nf p (vs_fvars st);
  s_gvars : slots_rec ps gvars ng p (vs_gvars st);
  s_disjoint : prefix_disjoint ps p;
  s_funique : prefix_unique ps fvars nf p;
  s_gunique : prefix_unique ps gvars ng p
}.

(** ** What the debug check accepts *)

Lemma verify_names_bad i : forall names st,
  (verify_names i names st).2 = false -> st.2 = false.
Proof.
  unfold verify_names. induction names as [|a names IH]; intros st H; [done|].
  simpl in H. apply IH in H. simpl in H. now apply orb_false_iff in H as [H _].
Qed.

Lemma verify_names_sound i : forall names (m m' : gmap string N),
  verify_names i names (m, false) = (m', false) ->
  NoDup names -> forall x, x ∈ names -> m !! x = None.
Proof.
  induction names as [|a names IH]; intros m m' H Hnd x Hx.
  - now apply elem_of_nil in Hx.
  - apply NoDup_cons in Hnd as [Ha Hnd].
    unfold verify_names in H. simpl in H.
    fold (verify_names i names (<[a:=i]> m, bool_decide (is_Some (m !! a)))) in H.
    pose proof (verify_names_bad i names _ ltac:(rewrite H; done)) as Hb.
    simpl in Hb. apply bool_decide_eq_false in Hb.
    assert (Hma : m !! a = None).
    { destruct (m !! a); [exfalso; apply Hb; eauto|done]. }
    apply elem_of_cons in Hx as [->|Hx]; [done|].
    rewrite (bool_decide_eq_false_2 _ Hb) in H.
    pose proof (IH _ _ H Hnd x Hx) as Hx'.
    rewrite lookup_insert_ne in Hx'; [done|]. intros ->. done.
Qed.

Lemma bump_all_bad i : forall ids st st',
  bump_all i ids st = Some st' -> st'.2 = false -> st.2 = false.
Proof.
  induction ids as [|a ids IH]; intros st st' H Hb; simpl in H.
  - inversion H; subst. done.
  - unfold bump in H. destruct (st.1 !! N.to_nat a) as [old|]; [|done]. simpl in H.
    apply IH in H; [|done]. simpl in H. now apply orb_false_iff in H as [H _].
Qed.

Lemma bump_all_sound i : wrap32 (i + 1) <> 0 ->
  forall ids (slots slots' : list N),
  bump_all i ids (slots, false) = Some (slots', false) ->
  NoDup ids /\ forall id, id ∈ ids -> slots !! N.to_nat id = Some 0.
Proof.
  intros Hw. induction ids as [|a ids IH]; intros slots slots' H.
  - split; [constructor|]. intros id Hid. now apply elem_of_nil in Hid.
  - simpl in H. unfold bump in H. simpl in H.
    destruct (slots !! N.to_nat a) as [old|] eqn:Hold; [|done]. simpl in H.
    pose proof (bump_all_bad i ids _ _ H eq_refl) as Hb. simpl in Hb.
    apply negb_false_iff, N.eqb_eq in Hb. subst old.
    simpl in H. destruct (IH _ _ H) as [Hnd Hz].
    assert (Ha : a ∉ ids).
    { intros Hin. specialize (Hz a Hin).
      rewrite list_lookup_insert_eq in Hz by (apply lookup_lt_is_Some; eauto).
      congruence. }
    split; [now constructor|].
    intros id Hid. apply elem_of_cons in Hid as [->|Hid]; [done|].
    specialize (Hz id Hid). rewrite list_lookup_insert_ne in Hz; [done|].
    intros E. apply N2Nat.inj in E. congruence.
Qed.

Lemma map_values_inj (m : gmap string N) n1 n2 k :
  NoDup (map_to_list m).*2 -> m !! n1 = Some k -> m !! n2 = Some k -> n1 = n2.
Proof.
  intros Hnd H1 H2. apply elem_of_map_to_list in H1, H2.
  apply list_elem_of_lookup in H1 as (i1 & H1), H2 as (i2 & H2).
  assert (i1 = i2).
  { apply (NoDup_lookup _ i1 i2 k Hnd); rewrite list_lookup_fmap.
    - now rewrite H1. - now rewrite H2. }
  subst. congruence.
Qed.

Lemma slots_rec_step ps proj nf p Q slots slots' :
  N.of_nat (length ps) < 2 ^ 32 -> ps !! p = Some Q ->
  slots_rec ps proj nf p slots -> prefix_unique ps proj nf p ->
  bump_all (N.of_nat p) (map_to_list (proj Q)).*2 (slots, false) = Some (slots', false) ->
  slots_rec ps proj nf (S p) slots' /\ prefix_unique ps proj nf (S p).
Proof.
  intros Hlen HQ [Hl Hs] [Hr Hu] Hrun.
  apply lookup_lt_Some in HQ as Hp.
  assert (Hne : wrap32 (N.of_nat p + 1) <> 0).
  { unfold wrap32. rewrite N.mod_small by lia. lia. }
  destruct (bump_all_sound _ Hne _ _ _ Hrun) as [Hnd Hz].
  destruct (bump_all_ok (N.of_nat p) (map_to_list (proj Q)).*2 slots Hnd Hz)
    as (slots2 & Hb & Hl' & Hchar).
  assert (slots2 = slots') by congruence. subst slots2.
  assert (Hfresh : forall name k, proj Q !! name = Some k ->
            (N.to_nat k < nf)%nat /\
            ~ exists p' Q' name', (p' < p)%nat /\ ps !! p' = Some Q' /\
                                  proj Q' !! name' = Some k).
  { intros name k Hk.
    assert (Hin : k ∈ (map_to_list (proj Q)).*2) by (apply elem_of_map_values; eauto).
    specialize (Hz k Hin). split.
    - rewrite <- Hl. now apply lookup_lt_Some in Hz.
    - intros (p' & Q' & name' & Hp' & HQ' & Hk').
      destruct (Hs _ _ Hz) as [Hno _]. apply (Hno eq_refl).
      exists p', Q', name'. rewrite N2Nat.id. done. }
  split.
  - split; [congruence|]. intros k s Hk. rewrite Hchar in Hk.
    case_bool_decide as Hin.
    + inversion Hk; subst s. split; [done|]. intros _.
      apply elem_of_map_values in Hin as (name & Hname).
      exists p, Q, name. split; [lia|done].
    + destruct (Hs k s Hk) as [H0 H1]. split.
      * intros E (p' & Q' & name & Hp' & HQ' & Hn').
        destruct (decide (p' = p)) as [->|Hne'].
        -- apply Hin. apply elem_of_map_values.
           assert (Q' = Q) by congruence. subst. eauto.
        -- apply (H0 E). exists p', Q', name. split; [lia|done].
      * intros E. destruct (H1 E) as (p' & Q' & name & Hp' & Hrest).
        exists p', Q', name. split; [lia|done].
  - split.
    + intros p1 Q1 n1 k Hp1 HQ1 Hk.
      destruct (decide (p1 = p)) as [->|Hne'].
      * assert (Q1 = Q) by congruence. subst. now apply (Hfresh n1 k).
      * apply (Hr p1 Q1 n1 k); [lia|done..].
    + intros p1 p2 Q1 Q2 n1 n2 k Hp1 Hp2 HQ1 HQ2 H1 H2.
      destruct (decide (p1 = p)) as [->|Hn1], (decide (p2 = p)) as [->|Hn2].
      * assert (Q1 = Q) by congruence. assert (Q2 = Q) by congruence. subst.
        split; [done|]. now apply (map_values_inj (proj Q) n1 n2 k).
      * exfalso. assert (Q1 = Q) by congruence. subst.
        destruct (Hfresh n1 k H1) as [_ Hno]. apply Hno.
        exists p2, Q2, n2. split; [lia|done].
      * exfalso. assert (Q2 = Q) by congruence. subst.
        destruct (Hfresh n2 k H2) as [_ Hno]. apply Hno.
        exists p1, Q1, n1. split; [lia|done].
      * apply (Hu p1 p2 Q1 Q2 n1 n2 k); try done; lia.
Qed.

Lemma verify_partitions_bad : forall rest i st st',
  verify_partitions i rest st = Some st' -> vs_bad st' = false -> vs_bad st = false.
Proof.
  induction rest as [|Q rest IH]; intros i st st' H Hb; simpl in H.
  - inversion H; subst. done.
  - destruct (verify_names i (map_to_list (globals Q)).*1 (vs_GVNames st, vs_bad st))
      as [names bad] eqn:En.
    destruct (bump_all i (map_to_list (fvars Q)).*2 (vs_fvars st, bad))
      as [[fv bad1]|] eqn:Ef; [|done]. simpl in H.
    destruct (bump_all i (map_to_list (gvars Q)).*2 (vs_gvars st, bad1))
      as [[gv bad2]|] eqn:Eg; [|done]. simpl in H.
    apply IH in H; [|done]. simpl in H. subst bad2.
    pose proof (bump_all_bad _ _ _ _ Eg eq_refl) as H1. simpl in H1. subst bad1.
    pose proof (bump_all_bad _ _ _ _ Ef eq_refl) as H1. simpl in H1. subst bad.
    apply (verify_names_bad i (map_to_list (globals Q)).*1 (vs_GVNames st, vs_bad st)).
    now rewrite En.
Qed.

Lemma sinv_past ps nf ng p st :
  (length ps <= p)%nat -> sinv ps nf ng p st -> sinv ps nf ng (length ps) st.
Proof.
  intros Hp [Hn Hf Hg Hd Hfu Hgu].
  assert (Hlt : forall p' (Q : Partition), ps !! p' = Some Q -> (p' < length ps)%nat).
  { intros p' Q HQ. now apply lookup_lt_Some in HQ. }
  assert (Hslots : forall proj n slots,
            slots_rec ps proj n p slots -> slots_rec ps proj n (length ps) slots).
  { intros proj n slots [Hl Hs]. split; [done|]. intros k s Hk.
    destruct (Hs k s Hk) as [H0 H1]. split.
    - intros E (p' & Q' & name & Hp' & HQ' & Hrest). apply (H0 E).
      exists p', Q', name. split; [lia|done].
    - intros E. destruct (H1 E) as (p' & Q' & name & Hp' & HQ' & Hrest).
      exists p', Q', name. split; [eauto|done]. }
  assert (Huniq : forall proj n,
            prefix_unique ps proj n p -> prefix_unique ps proj n (length ps)).
  { intros proj n [Hr Hu]. split.
    - intros p1 Q1 n1 k _ HQ1. apply (Hr p1 Q1 n1 k); [|done].
      pose proof (Hlt _ _ HQ1). lia.
    - intros p1 p2 Q1 Q2 n1 n2 k _ _ HQ1 HQ2. apply (Hu p1 p2 Q1 Q2 n1 n2 k); try done.
      + pose proof (Hlt _ _ HQ1). lia.
      + pose proof (Hlt _ _ HQ2). lia. }
  split; auto.
  - intros name q. rewrite (Hn name q).
    split; intros (p' & Q' & Hp' & Hq & HQ' & Hx); exists p', Q'; (split; [|done]).
    + eauto.
    + pose proof (Hlt _ _ HQ'). lia.
  - intros p1 p2 Q1 Q2 name _ _ HQ1 HQ2. apply (Hd p1 p2 Q1 Q2 name); try done.
    + pose proof (Hlt _ _ HQ1). lia.
    + pose proof (Hlt _ _ HQ2). lia.
Qed.

Lemma verify_partitions_sound ps nf ng :
  N.of_nat (length ps) < 2 ^ 32 ->
  forall rest p st st',
    drop p ps = rest -> sinv ps nf ng p st ->
    verify_partitions (N.of_nat p) rest st = Some st' -> vs_bad st' = false ->
    sinv ps nf ng (length ps) st'.
Proof.
  intros Hlen.
  induction rest as [|Q rest IH]; intros p st st' Hdrop Hinv Hrun Hbad.
  - simpl in Hrun. inversion Hrun; subst st'. apply (sinv_past ps nf ng p); [|done].
    apply (f_equal length) in Hdrop. rewrite length_drop in Hdrop. simpl in Hdrop. lia.
  - assert (HQ : ps !! p = Some Q).
    { rewrite <- (Nat.add_0_r p), <- lookup_drop, Hdrop. done. }
    apply lookup_lt_Some in HQ as Hp.
    pose proof (verify_partitions_bad _ _ _ _ Hrun Hbad) as Hb0.
    simpl in Hrun. rewrite Hb0 in Hrun.
    destruct (verify_names (N.of_nat p) (map_to_list (globals Q)).*1 (vs_GVNames st, false))
      as [names bad] eqn:En.
    destruct (bump_all (N.of_nat p) (map_to_list (fvars Q)).*2 (vs_fvars st, bad))
      as [[fv bad1]|] eqn:Ef; [|done]. simpl in Hrun.
    destruct (bump_all (N.of_nat p) (map_to_list (gvars Q)).*2 (vs_gvars st, bad1))
      as [[gv bad2]|] eqn:Eg; [|done]. simpl in Hrun.
    pose proof (verify_partitions_bad _ _ _ _ Hrun Hbad) as Hb2. simpl in Hb2. subst bad2.
    pose proof (bump_all_bad _ _ _ _ Eg eq_refl) as Hb1. simpl in Hb1. subst bad1.
    pose proof (bump_all_bad _ _ _ _ Ef eq_refl) as Hb. simpl in Hb. subst bad.
    destruct Hinv as [Hn Hf Hg Hd Hfu Hgu].
    pose proof (verify_names_sound _ _ _ _ En (NoDup_fst_map_to_list _)) as Hnone.
    destruct (verify_names_ok (N.of_nat p) (map_to_list (globals Q)).*1 (vs_GVNames st)
                (NoDup_fst_map_to_list _) Hnone) as (m' & Hm' & Hchar).
    assert (m' = names) by congruence. subst m'.
    destruct (slots_rec_step ps fvars nf p Q _ _ Hlen HQ Hf Hfu Ef) as [Hf' Hfu'].
    destruct (slots_rec_step ps gvars ng p Q _ _ Hlen HQ Hg Hgu Eg) as [Hg' Hgu'].
    assert (Hw : wrap32 (N.of_nat p + 1) = N.of_nat (S p)).
    { unfold wrap32. rewrite N.mod_small by lia. lia. }
    rewrite Hw in Hrun.
    assert (Hnew : forall name, is_Some (globals Q !! name) ->
              forall p' Q', (p' < p)%nat -> ps !! p' = Some Q' ->
                            ~ is_Some (globals Q' !! name)).
    { intros name Hx p' Q' Hp' HQ' Hx'.
      assert (Hin : name ∈ (map_to_list (globals Q)).*1) by now apply elem_of_map_keys.
      pose proof (Hnone name Hin) as E.
      assert (Hsome : vs_GVNames st !! name = Some (N.of_nat p')).
      { apply Hn. exists p', Q'. done. }
      congruence. }
    eapply (IH (S p)); [ | |exact Hrun|exact Hbad].
    + apply (f_equal (drop 1)) in Hdrop. rewrite drop_drop in Hdrop.
      simpl in Hdrop. rewrite Nat.add_1_r in Hdrop. exact Hdrop.
    + split; simpl; try done.
      * intros name q. rewrite Hchar. case_bool_decide as Hin.
        -- apply elem_of_map_keys in Hin. split.
           ++ intros E. inversion E; subst q. exists p, Q. split; [lia|done].
           ++ intros (p' & Q' & Hp' & -> & HQ' & Hx').
              destruct (decide (p' = p)) as [->|Hne]; [done|].
              exfalso. apply (Hnew name Hin p' Q'); [lia|done..].
        -- rewrite (Hn name q). split.
           ++ intros (p' & Q' & Hp' & Hrest). exists p', Q'. split; [lia|done].
           ++ intros (p' & Q' & Hp' & Hq & HQ' & Hx').
              destruct (decide (p' = p)) as [->|Hne].
              ** exfalso. apply Hin. apply elem_of_map_keys. congruence.
              ** exists p', Q'. split; [lia|done].
      * intros p1 p2 Q1 Q2 name Hp1 Hp2 HQ1 HQ2 H1 H2.
        destruct (decide (p1 = p)) as [->|Hn1], (decide (p2 = p)) as [->|Hn2]; [done| | |].
        -- exfalso. assert (Q1 = Q) by congruence. subst.
           apply (Hnew name H1 p2 Q2); [lia|done..].
        -- exfalso. assert (Q2 = Q) by congruence. subst.
           apply (Hnew name H2 p1 Q1); [lia|done..].
        -- apply (Hd p1 p2 Q1 Q2 name); try done; lia.
Qed.

Lemma verify_global_sound ps gvs m G :
  names_ok ps (length ps) m -> verify_global gvs m G = Some false ->
  if partitionable G then
    exists p Q, ps !! p = Some Q /\ is_Some (globals Q !! gv_name G) /\
      forall u, u ∈ gv_constant_users G ->
        exists U, gvs !! u = Some U /\ is_Some (globals Q !! gv_name U)
  else forall p Q, ps !! p = Some Q -> globals Q !! gv_name G = None.
Proof.
  intros Hm H. unfold verify_global in H. unfold partitionable.
  assert (Hout : bool_decide (is_Some (m !! gv_name G)) = false ->
            forall p Q, ps !! p = Some Q -> globals Q !! gv_name G = None).
  { intros Hb p Q HQ. apply bool_decide_eq_false in Hb.
    destruct (globals Q !! gv_name G) as [b|] eqn:E; [|done].
    exfalso. apply Hb. exists (N.of_nat p). apply Hm. exists p, Q.
    split; [now apply lookup_lt_Some in HQ|]. split; [done|]. split; [done|]. eauto. }
  destruct (gv_is_declaration G); simpl.
  { inversion H as [Hb]. now apply Hout. }
  destruct (canPartition G); simpl in *.
  2:{ inversion H as [Hb]. now apply Hout. }
  destruct (mapM (fun val => gvs !! val) (gv_constant_users G)) as [users|] eqn:Eu;
    [|done]. simpl in H. inversion H as [Hb]. clear H.
  apply orb_false_iff in Hb as [Hplaced Hex].
  apply negb_false_iff, bool_decide_eq_true in Hplaced as [q Hq].
  pose proof Hq as Hq'. apply Hm in Hq' as (p & Q & Hp & -> & HQ & Hin).
  exists p, Q. split; [done|]. split; [done|].
  intros u Hu. apply mapM_Some_1 in Eu.
  apply list_elem_of_lookup in Hu as (k & Hk).
  destruct (Forall2_lookup_l _ _ _ _ _ Eu Hk) as (U & HU & HgU).
  exists U. split; [done|].
  assert (HUin : U ∈ users) by now apply list_elem_of_lookup_2 in HU.
  assert (Hfalse : forall x, In x users ->
            match m !! gv_name x with
            | Some q' => negb (bool_decide (Some q' = m !! gv_name G))
            | None => true
            end = false).
  { intros x Hx. destruct (existsb_exists
      (fun val => match m !! gv_name val with
                  | Some q' => negb (bool_decide (Some q' = m !! gv_name G))
                  | None => true
                  end) users) as [H1 _].
    destruct (match m !! gv_name x with
              | Some q' => negb (bool_decide (Some q' = m !! gv_name G))
              | None => true
              end) eqn:E; [|done].
    rewrite <- Hex. symmetry. apply existsb_exists. exists x. done. }
  specialize (Hfalse U ltac:(now apply list_elem_of_In)).
  destruct (m !! gv_name U) as [q'|] eqn:EU; [|done].
  apply negb_false_iff, bool_decide_eq_true in Hfalse.
  rewrite Hq in Hfalse. inversion Hfalse; subst q'.
  apply Hm in EU as (p2 & Q2 & _ & Hpp & HQ2 & HinU).
  apply Nat2N.inj in Hpp. subst p2. assert (Q2 = Q) by congruence. subst. done.
Qed.

Lemma sinv_init ps nf ng :
  sinv ps nf ng 0 {| vs_fvars := replicate nf 0; vs_gvars := replicate ng 0;
                     vs_GVNames := ∅; vs_bad := false |}.
Proof.
  split; simpl.
  - intros name q. rewrite lookup_empty. split; [done|].
    intros (p' & _ & Hp' & _). lia.
  - split; [apply length_replicate|]. intros k s Hk.
    apply lookup_replicate in Hk as [-> _]. split; [|done].
    intros _ (p' & _ & _ & Hp' & _). lia.
  - split; [apply length_replicate|]. intros k s Hk.
    apply lookup_replicate in Hk as [-> _]. split; [|done].
    intros _ (p' & _ & _ & Hp' & _). lia.
  - intros p1 p2 Q1 Q2 name Hp1. lia.
  - split; [intros p1 Q1 n1 k Hp1; lia|intros p1 p2 Q1 Q2 n1 n2 k Hp1; lia].
  - split; [intros p1 Q1 n1 k Hp1; lia|intros p1 p2 Q1 Q2 n1 n2 k Hp1; lia].
Qed.

Lemma slots_rec_table ps proj n slots :
  slots_rec ps proj n (length ps) slots -> prefix_unique ps proj n (length ps) ->
  existsb (fun s => s =? 0) slots = false ->
  table_ok ps proj n.
Proof.
  intros [Hl Hs] [Hr Hu] Hex.
  assert (Hlt : forall p' (Q : Partition), ps !! p' = Some Q -> (p' < length ps)%nat).
  { intros p' Q HQ. now apply lookup_lt_Some in HQ. }
  split.
  - intros p Q name k HQ Hk. apply (Hr p Q name k); eauto.
  - intros p q Q1 Q2 n1 n2 k HQ1 HQ2 H1 H2.
    apply (Hu p q Q1 Q2 n1 n2 k); eauto.
  - intros k Hk. rewrite <- Hl in Hk.
    destruct (lookup_lt_is_Some_2 _ _ Hk) as [s Hsk].
    destruct (Hs k s Hsk) as [_ H1].
    destruct (H1) as (p' & Q & name & _ & HQ & Hn).
    + intros ->. assert (Hin : existsb (fun s => s =? 0) slots = true).
      { apply existsb_exists. exists 0. split; [|done].
        apply list_elem_of_In. now apply list_elem_of_lookup_2 in Hsk. }
      congruence.
    + exists p', Q, name. done.
Qed.

Lemma verify_partitioning_sound ps M nf ng :
  N.of_nat (length ps) < 2 ^ 32 ->
  verify_partitioning ps M (N.of_nat nf) (N.of_nat ng) = Some true ->
  partitioning_ok (global_values M) ps nf ng.
Proof.
  intros Hlen H. unfold verify_partitioning in H. rewrite !Nat2N.id in H.
  destruct (verify_partitions 0 ps _) as [st|] eqn:Est; [|done]. simpl in H.
  destruct (mapM _ (global_values M)) as [misplaced|] eqn:Emis; [|done]. simpl in H.
  inversion H as [Hb]. clear H. apply negb_true_iff in Hb.
  apply orb_false_iff in Hb as [Hb Hg]. apply orb_false_iff in Hb as [Hb Hf].
  apply orb_false_iff in Hb as [Hb Hmis].
  pose proof (verify_partitions_sound ps nf ng Hlen ps 0 _ st eq_refl
                (sinv_init ps nf ng) Est Hb) as [Hn Hsf Hsg Hd Hfu Hgu].
  assert (Hlt : forall p' (Q : Partition), ps !! p' = Some Q -> (p' < length ps)%nat).
  { intros p' Q HQ. now apply lookup_lt_Some in HQ. }
  assert (Hglob : forall G, G ∈ global_values M ->
            verify_global (global_values M) (vs_GVNames st) G = Some false).
  { intros G HG. apply mapM_Some_1 in Emis.
    apply list_elem_of_lookup in HG as (k & Hk).
    destruct (Forall2_lookup_l _ _ _ _ _ Emis Hk) as (b & Hbk & Hv).
    rewrite Hv. f_equal. destruct b; [|done].
    assert (Hin : existsb id misplaced = true).
    { apply existsb_exists. exists true. split; [|done].
      apply list_elem_of_In. now apply list_elem_of_lookup_2 in Hbk. }
    congruence. }
  split.
  - intros p q Q1 Q2 name HQ1 HQ2. apply (Hd p q Q1 Q2 name); eauto.
  - now apply (slots_rec_table ps fvars nf (vs_fvars st)).
  - now apply (slots_rec_table ps gvars ng (vs_gvars st)).
  - intros G HG Hp.
    pose proof (verify_global_sound ps _ _ G Hn (Hglob G HG)) as Hs.
    now rewrite Hp in Hs.
  - intros G HG Hp.
    pose proof (verify_global_sound ps _ _ G Hn (Hglob G HG)) as Hs.
    now rewrite Hp in Hs.
Qed.

(** The debug check of [partitionModule] accepts a list of partitions
    exactly when it is a correct partitioning of the module. *)
Theorem verify_partitioning_exact ps M nf ng :
  N.of_nat (length ps) < 2 ^ 32 ->
  verify_partitioning ps M (N.of_nat nf) (N.of_nat ng) = Some true <->
  partitioning_ok (global_values M) ps nf ng.
Proof.
  intros Hlen. split.
  - now apply verify_partitioning_sound.
  - intros [H1 H2 H3 H4 H5].
    apply (verify_partitioning_ok (global_values M) ps nf ng Hlen H1 H2 H3 H4 H5).
    done.
Qed.

(** ** [get_fvars_gvars] on any module *)





(** ** The summary of a module and the weight that is distributed *)

Lemma defined_weight_split gvs :
  defined_weight gvs = total_weight gvs + inline_weight gvs.
Proof.
  induction gvs as [|G gvs IH]; [done|].
  cbn [defined_weight inline_weight total_weight foldr].
  fold (defined_weight gvs) (inline_weight gvs) (total_weight gvs).
  rewrite IH. unfold partitionable.
  destruct (gv_is_declaration G), (canPartition G); simpl; lia.
Qed.

Lemma module_info_fail gvs :
  foldl (fun acc G => info ← acc; module_info_step info G) None gvs = None.
Proof. induction gvs as [|G gvs IH]; [done|]. simpl. exact IH. Qed.

Lemma module_info_weight : forall gvs info0 info,
  foldl (fun acc G => info ← acc; module_info_step info G) (Some info0) gvs = Some info ->
  Threads.weight info0 + defined_weight gvs < 2 ^ 64 ->
  Threads.weight info = Threads.weight info0 + defined_weight gvs /\
  Threads.triple_isOSBinFormatCOFF info = Threads.triple_isOSBinFormatCOFF info0.
Proof.
  induction gvs as [|G gvs IH]; intros info0 info H Hfit.
  - simpl in H. inversion H; subst. simpl. split; [lia|done].
  - cbn [foldl] in H. cbn [defined_weight foldr] in Hfit |- *.
    fold (defined_weight gvs) in Hfit |- *. simpl in H.
    unfold module_info_step in H.
    destruct (gv_is_declaration G).
    { apply IH in H; [done|lia]. }
    unfold node_weight in Hfit |- *.
    destruct (gv_kind G).
    + destruct (Weight.getFunctionWeight G) as [fi|]; simpl in H.
      2:{ now rewrite module_info_fail in H. }
      simpl in Hfit |- *. apply IH in H as [H1 H2]; simpl in *.
      * rewrite H1, H2. unfold wrap64. rewrite N.mod_small by lia. split; [lia|done].
      * unfold wrap64. rewrite N.mod_small by lia. lia.
    + simpl in Hfit |- *. apply IH in H as [H1 H2]; simpl in *.
      * rewrite H1, H2. unfold wrap64. rewrite N.mod_small by lia. split; [lia|done].
      * unfold wrap64. rewrite N.mod_small by lia. lia.
    + simpl in Hfit |- *. apply IH in H as [H1 H2]; simpl in *.
      * rewrite H1, H2. unfold wrap64. rewrite N.mod_small by lia. split; [lia|done].
      * unfold wrap64. rewrite N.mod_small by lia. lia.
    + simpl in Hfit |- *. apply IH in H as [H1 H2]; simpl in *.
      * rewrite H1, H2. unfold wrap64. rewrite N.mod_small by lia. split; [lia|done].
      * unfold wrap64. rewrite N.mod_small by lia. lia.
Qed.

Lemma compute_module_info_weight coff gvs info :
  compute_module_info coff gvs = Some info -> defined_weight gvs < 2 ^ 64 ->
  Threads.weight info = defined_weight gvs /\
  Threads.triple_isOSBinFormatCOFF info = coff.
Proof.
  intros H Hfit. unfold compute_module_info in H.
  apply module_info_weight in H; [|simpl; lia]. simpl in H. done.
Qed.

(** The weight [compute_module_info] reports for a module is the weight
    [partitionModule] puts into the partitions, plus the weight of the
    definitions it leaves out (the always-inline functions). *)
Theorem module_weight_distributed sort_idxs pq_top coff M T info :
  sort_spec sort_idxs -> top_spec pq_top -> wf_module M = true ->
  (1 <= T)%nat -> N.of_nat T < 2 ^ 32 ->
  compute_module_info coff (global_values M) = Some info ->
  defined_weight (global_values M) < 2 ^ 64 ->
  exists M' ps,
    partitionModule sort_idxs pq_top M T = Some (M', ps) /\
    Threads.weight info = partitions_weight ps + inline_weight (global_values M).
Proof.
  intros Hsort Htop Hwf HT1 HT Hinfo Hfit. apply wf_module_sound in Hwf.
  destruct (partition_core sort_idxs pq_top M T Hsort Htop Hwf HT1 HT)
    as (fi & gi & fvar_ids & gvar_ids & P & ns & rk & rep & ns_f & ps & Hrun).
  exists (erased M (upd_global <$> global_values M)), ps.
  split; [now apply (partitionModule_run _ _ _ _ _ _ _ _ _ _ _ _ _ _ Hwf HT Hrun)|].
  rewrite (core_weights _ _ _ _ _ _ _ _ _ _ _ _ _ _ Hrun).
  destruct (compute_module_info_weight coff _ info Hinfo Hfit) as [-> _].
  apply defined_weight_split.
Qed.

(** ** The properties on the sample module *)

Lemma partition_weights_conserved_witness :
  wf_module sample_module = true /\
  exists M' ps,
    partitionModule insertion_sort first_lightest sample_module 2 = Some (M', ps) /\
    partitions_weight ps = 58.
Proof.
  split; [vm_compute; reflexivity|].
  destruct (partition_weights_conserved insertion_sort first_lightest sample_module 2
              insertion_sort_spec first_lightest_spec
              ltac:(vm_compute; reflexivity) ltac:(lia) ltac:(vm_compute; reflexivity))
    as (M' & ps & Hrun & Hw).
  exists M', ps. split; [exact Hrun|]. rewrite Hw. vm_compute. reflexivity.
Defined.

Lemma partitions_balanced_witness :
  exists M' fvar_ids gvar_ids ns ps,
    build_classes sample_module = Some (M', fvar_ids, gvar_ids, ns) /\
    partitionModule insertion_sort first_lightest sample_module 2 = Some (M', ps) /\
    forall B,
      (forall r, root_of ns r = Some r ->
         component_weight (global_values M') ns r <= B) ->
      forall Q1 Q2, Q1 ∈ ps -> Q2 ∈ ps -> weight Q1 <= weight Q2 + B.
Proof.
  exact (partitions_balanced insertion_sort first_lightest sample_module 2
           insertion_sort_spec first_lightest_spec
           ltac:(vm_compute; reflexivity) ltac:(lia) ltac:(vm_compute; reflexivity)).
Defined.

Lemma classes_are_components_witness :
  wf_module sample_module = true /\ connected sample_module 0%nat 5%nat.
Proof.
  split; [vm_compute; reflexivity|].
  destruct (classes_are_components sample_module ltac:(vm_compute; reflexivity))
    as (M' & fvar_ids & gvar_ids & ns & Hb & Hchar).
  vm_compute in Hb. injection Hb as _ _ _ <-.
  apply (Hchar 0%nat 3%nat _ _ eq_refl eq_refl). vm_compute. reflexivity.
Defined.

Lemma verify_partitioning_exact_witness :
  N.of_nat (length sample_partitions) < 2 ^ 32 /\
  partitioning_ok (global_values sample_module) sample_partitions 2 1.
Proof.
  assert (H : N.of_nat (length sample_partitions) < 2 ^ 32) by (vm_compute; reflexivity).
  split; [exact H|].
  destruct (verify_partitioning_exact sample_partitions sample_module 2 1 H) as [Hok _].
  apply Hok. vm_compute. reflexivity.
Defined.


Lemma module_weight_distributed_witness :
  exists M' ps,
    partitionModule insertion_sort first_lightest sample_module 2 = Some (M', ps) /\
    61 = partitions_weight ps + 3.
Proof.
  destruct (module_weight_distributed insertion_sort first_lightest false sample_module 2
              {| Threads.triple_isOSBinFormatCOFF := false; Threads.globals := 5;
                 Threads.funcs := 3; Threads.bbs := 4; Threads.insts := 16;
                 Threads.clones := 6; Threads.weight := 61 |}
              insertion_sort_spec first_lightest_spec
              ltac:(vm_compute; reflexivity) ltac:(lia) ltac:(vm_compute; reflexivity)
              ltac:(vm_compute; reflexivity) ltac:(vm_compute; reflexivity))
    as (M' & ps & Hrun & Hw).
  exists M', ps. split; [exact Hrun|exact Hw].
Defined.

(** ** Materialization: the preserved set and the stripping *)

Lemma getNamedValue_Some M name id :
  getNamedValue M name = Some id ->
  exists G, M !! id = Some (Some G) /\ g_name G = name.
Proof.
  unfold getNamedValue. intros H.
  destruct (bool_decide (name = EmptyString)); [done|].
  destruct (list_find _ M) as [[i og]|] eqn:E; [|done]. simpl in H.
  inversion H; subst i. apply list_find_Some in E as (Hl & Hp & _).
  destruct og as [G|]; [|done]. exists G. split; [done|]. simpl in Hp. congruence.
Qed.

Lemma mark_preserved_spec M : forall entries S,
  Forall (resolves M) entries ->
  exists S', mark_preserved entries (M, S) = Some (M, S') /\
    forall id, id ∈ S' <->
      id ∈ S \/ exists name, (name, true) ∈ entries /\ getNamedValue M name = Some id.
Proof.
  induction entries as [|[name keep] entries IH]; intros S Hall.
  - exists S. split; [done|]. intros id. split; [auto|].
    intros [?|(name & Hn & _)]; [done|]. now apply elem_of_nil in Hn.
  - apply Forall_cons in Hall as [(Hk & id & G & Hid & HG & Hd & Hl) Hall].
    simpl in Hk, Hid. subst keep. simpl. rewrite Hid. simpl. rewrite HG. simpl.
    rewrite Hd, Hl. simpl.
    destruct (IH ({[id]} ∪ S) Hall) as (S' & HS' & Hchar).
    exists S'. split; [done|]. intros id'. rewrite Hchar, elem_of_union, elem_of_singleton.
    split.
    + intros [[->|?]|(name' & Hn & Hg)]; [right|now left|right].
      * exists name. split; [apply elem_of_cons; now left|done].
      * exists name'. split; [apply elem_of_cons; now right|done].
    + intros [?|(name' & Hn & Hg)]; [left; now right|].
      apply elem_of_cons in Hn as [Hn|Hn].
      * inversion Hn; subst name'. left. left. congruence.
      * right. eauto.
Qed.

Lemma strip_kind_lookup kind Preserve M id :
  strip_kind kind Preserve M !! id =
    match M !! id with
    | Some (Some G) =>
        Some (Some (if bool_decide (g_kind G = kind) then
                      if isDeclaration G then G
                      else if hasLocalLinkage G then G
                      else if bool_decide (id ∈ Preserve) then G
                      else make_external_declaration G
                    else G))
    | Some None => Some None
    | None => None
    end.
Proof.
  unfold strip_kind. rewrite list_lookup_imap.
  destruct (M !! id) as [[G|]|]; simpl; try done.
  destruct (bool_decide (g_kind G = kind)); [|done].
  destruct (isDeclaration G); [done|].
  destruct (hasLocalLinkage G); [done|].
  destruct (bool_decide (id ∈ Preserve)); done.
Qed.

Lemma strip_both_lookup Preserve M id :
  match M !! id with
  | Some (Some G) =>
      exists G1, strip_kind KGlobalVariable Preserve (strip_kind KFunction Preserve M) !! id
                 = Some (Some G1) /\ stripped Preserve id G G1
  | Some None =>
      strip_kind KGlobalVariable Preserve (strip_kind KFunction Preserve M) !! id
      = Some None
  | None =>
      strip_kind KGlobalVariable Preserve (strip_kind KFunction Preserve M) !! id = None
  end.
Proof.
  rewrite strip_kind_lookup. rewrite strip_kind_lookup.
  destruct (M !! id) as [[G|]|]; try done.
  eexists. split; [reflexivity|].
  assert (Hsame : stripped Preserve id G G) by (unfold stripped; split_and!; auto).
  assert (Hext : g_kind G <> KGlobalAlias ->
                 stripped Preserve id G (make_external_declaration G)).
  { intros Hk. unfold stripped. simpl. split_and!; try done. now right. }
  destruct (decide (g_kind G = KFunction)) as [Hf|Hf].
  - rewrite (bool_decide_eq_true_2 _ Hf).
    assert (Hna : g_kind G <> KGlobalAlias) by (rewrite Hf; done).
    destruct (isDeclaration G) eqn:E1.
    { rewrite bool_decide_eq_false_2 by (rewrite Hf; done). done. }
    destruct (hasLocalLinkage G) eqn:E2.
    { rewrite bool_decide_eq_false_2 by (rewrite Hf; done). done. }
    destruct (bool_decide (id ∈ Preserve)) eqn:E3.
    { rewrite bool_decide_eq_false_2 by (rewrite Hf; done). done. }
    rewrite bool_decide_eq_false_2 by (simpl; rewrite Hf; done). auto.
  - rewrite (bool_decide_eq_false_2 _ Hf).
    destruct (decide (g_kind G = KGlobalVariable)) as [Hv|Hv].
    + rewrite (bool_decide_eq_true_2 _ Hv).
      assert (Hna : g_kind G <> KGlobalAlias) by (rewrite Hv; done).
      destruct (isDeclaration G); [done|].
      destruct (hasLocalLinkage G); [done|].
      destruct (bool_decide (id ∈ Preserve)); [done|]. auto.
    + rewrite (bool_decide_eq_false_2 _ Hv). done.
Qed.

(** ** Materialization: the placeholders *)

Section redirect.
Variable Preserve : gset nat.
Variable M1 : list (option Global).

Hypothesis Halias : forall a A, M1 !! a = Some (Some A) ->
  g_kind A = KGlobalAlias -> isDeclaration A = false.

Definition deletable (a : nat) : Prop :=
  exists A, M1 !! a = Some (Some A) /\ g_kind A = KGlobalAlias /\
            (a ∉ Preserve) /\ hasLocalLinkage A = false.

Record cinv (i : nat) (st : list (option Global) * list (nat * nat)) : Prop := {
  c_len : length st.1 = (length M1 + length st.2)%nat;
  c_old : forall id G, M1 !! id = Some (Some G) ->
      exists G', st.1 !! id = Some (Some G') /\ g_name G' = g_name G /\
                 g_kind G' = g_kind G /\ (id ∉ (st.2).*1 -> G' = G);
  c_gone : forall id, M1 !! id = Some None -> st.1 !! id = Some None;
  c_new : forall k a r, st.2 !! k = Some (a, r) ->
      r = (length M1 + k)%nat /\ (a < i)%nat /\ deletable a /\
      exists R, st.1 !! r = Some (Some R) /\ g_name R = EmptyString /\
                g_definition R = Some [];
  c_all : forall a, (a < i)%nat -> deletable a -> a ∈ (st.2).*1;
  c_nodup : NoDup (st.2).*1
}.

Lemma cinv_skip i st : cinv i st -> ~ deletable i -> cinv (S i) st.
Proof.
  intros [H1 H2 H3 H4 H5 H6] Hn. split; try done.
  - intros k a r Hk. destruct (H4 k a r Hk) as (? & ? & ? & ?).
    split_and!; try done. lia.
  - intros a Ha Hd. destruct (decide (a = i)) as [->|Hne]; [done|].
    apply H5; [lia|done].
Qed.

Lemma cinv_redirect i M2 D G (upd : Global -> Global) kind ft :
  cinv i (M2, D) -> (i < length M1)%nat -> M1 !! i = Some (Some G) -> deletable i ->
  (forall G, g_name (upd G) = g_name G /\ g_kind (upd G) = g_kind G) ->
  cinv (S i) (<[i := Some (upd G)]> (M2 ++ [Some (placeholder kind ft)]),
              D ++ [(i, length M2)]).
Proof.
  intros [H1 H2 H3 H4 H5 H6] Hi HG Hd Hupd. simpl in *.
  assert (Hfresh : i ∉ D.*1).
  { intros Hin. apply list_elem_of_fmap in Hin as ([a r] & -> & Hin).
    apply list_elem_of_lookup in Hin as (k & Hk).
    destruct (H4 k a r Hk) as (_ & Hlt & _). simpl in Hlt. lia. }
  split; simpl.
  - rewrite length_insert, !length_app. simpl. lia.
  - intros id G0 HG0. destruct (decide (id = i)) as [->|Hne].
    + assert (G0 = G) by congruence. subst G0.
      exists (upd G). rewrite list_lookup_insert_eq by (rewrite length_app; lia).
      destruct (Hupd G) as [? ?]. split_and!; try done.
      intros Hn. exfalso. apply Hn. rewrite fmap_app. apply elem_of_app. right.
      simpl. apply elem_of_cons. now left.
    + destruct (H2 id G0 HG0) as (G' & HG' & Hn & Hk & He).
      exists G'. rewrite list_lookup_insert_ne by done.
      rewrite (lookup_app_l_Some _ _ _ _ HG'). split_and!; try done.
      intros Hnot. apply He. intros Hin. apply Hnot.
      rewrite fmap_app. apply elem_of_app. now left.
  - intros id Hid. rewrite list_lookup_insert_ne by (intros ->; congruence).
    now apply lookup_app_l_Some, H3.
  - intros k a r Hk. apply lookup_app_Some in Hk as [Hk|[Hlen Hk]].
    + destruct (H4 k a r Hk) as (Hr & Hlt & Hdel & R & HR & Hrest).
      split_and!; try done; [lia|].
      exists R. split; [|done].
      rewrite list_lookup_insert_ne by lia.
      now apply lookup_app_l_Some.
    + apply list_lookup_singleton_Some in Hk as [Hk0 Hk]. inversion Hk; subst a r.
      split_and!; try done; [lia|lia|].
      exists (placeholder kind ft).
      rewrite list_lookup_insert_ne by lia.
      rewrite lookup_app_r by lia.
      replace (length M2 - length M2)%nat with 0%nat by lia. done.
  - intros a Ha Hdel. rewrite fmap_app. apply elem_of_app.
    destruct (decide (a = i)) as [->|Hne].
    + right. simpl. apply elem_of_cons. now left.
    + left. apply H5; [lia|done].
  - rewrite fmap_app. simpl. apply NoDup_app. split_and!; [done| |apply NoDup_singleton].
    intros x Hx Hx'. apply list_elem_of_singleton in Hx'. congruence.
Qed.

Lemma redirect_alias_spec i st :
  cinv i st -> (i < length M1)%nat ->
  exists st', redirect_alias Preserve st i = Some st' /\ cinv (S i) st'.
Proof.
  intros Hinv Hi. destruct st as [M2 D].
  destruct (lookup_lt_is_Some_2 _ _ Hi) as [og Hog].
  unfold redirect_alias. simpl.
  assert (Hfresh : i ∉ D.*1).
  { intros Hin. apply list_elem_of_fmap in Hin as ([a r] & -> & Hin).
    apply list_elem_of_lookup in Hin as (k & Hk).
    destruct (c_new _ _ Hinv k a r Hk) as (_ & Hlt & _). simpl in Hlt. lia. }
  destruct og as [G|].
  2:{ pose proof (c_gone _ _ Hinv i Hog) as Hg. simpl in Hg. rewrite Hg.
      exists (M2, D). split; [done|].
      apply cinv_skip; [done|]. intros (A & HA & _). congruence. }
  destruct (c_old _ _ Hinv i G Hog) as (G' & HG' & _ & _ & He).
  simpl in HG', He. specialize (He Hfresh). subst G'. rewrite HG'.
  destruct (decide (g_kind G = KGlobalAlias)) as [Hk|Hk].
  2:{ rewrite bool_decide_eq_false_2 by done. simpl. exists (M2, D). split; [done|].
      apply cinv_skip; [done|]. intros (A & HA & HkA & _). congruence. }
  rewrite bool_decide_eq_true_2 by done. simpl.
  rewrite (Halias i G Hog Hk).
  destruct (decide (i ∈ Preserve)) as [Hp|Hp].
  { rewrite bool_decide_eq_true_2 by done. exists (M2, D). split; [done|].
    apply cinv_skip; [done|]. intros (A & HA & _ & Hn & _). done. }
  rewrite bool_decide_eq_false_2 by done.
  destruct (hasLocalLinkage G) eqn:Hl.
  { exists (M2, D). split; [done|].
    apply cinv_skip; [done|]. intros (A & HA & _ & _ & HlA). congruence. }
  assert (Hdel : deletable i) by (exists G; done).
  destruct (g_function_type G).
  - eexists. split; [reflexivity|].
    apply (cinv_redirect i M2 D G (setDefinition (Some [length M2]))); try done.
  - eexists. split; [reflexivity|].
    pose proof (cinv_redirect i M2 D G (fun G => G) KGlobalVariable false Hinv Hi Hog Hdel)
      as H.
    rewrite list_insert_id in H; [apply H; done|].
    now apply lookup_app_l_Some.
Qed.

Lemma redirect_aliases_spec : forall m i st,
  cinv i st -> (i + m = length M1)%nat ->
  exists st', redirect_aliases Preserve (seq i m) st = Some st' /\
              cinv (length M1) st'.
Proof.
  induction m as [|m IH]; intros i st Hinv Him; simpl.
  - exists st. split; [done|]. replace (length M1) with i by lia. done.
  - destruct (redirect_alias_spec i st Hinv ltac:(lia)) as (st1 & -> & Hinv1). simpl.
    apply IH; [done|lia].
Qed.

Lemma cinv_init : cinv 0 (M1, []).
Proof.
  split; simpl.
  - lia.
  - intros id G HG. exists G. done.
  - done.
  - intros k a r Hk. done.
  - intros a Ha. lia.
  - constructor.
Qed.
End redirect.

(** ** Materialization: committing the deletions *)

Lemma retarget_snoc D d x :
  retarget (D ++ [d]) x =
    if bool_decide (retarget D x = d.1) then d.2 else retarget D x.
Proof. unfold retarget. now rewrite foldl_app. Qed.

Section retargeting.
Variable n : nat.
Variable D : list (nat * nat).
Hypothesis Hsides : forall a r, (a, r) ∈ D -> (a < n <= r)%nat.

Lemma retarget_notin_aux : forall D' x,
  x ∉ D'.*1 -> retarget D' x = x.
Proof.
  induction D' as [|[a r] D' IH]; intros x Hx; [done|].
  unfold retarget. simpl. rewrite bool_decide_eq_false_2.
  - apply IH. intros Hin. apply Hx. simpl. apply elem_of_cons. now right.
  - intros ->. apply Hx. simpl. apply elem_of_cons. now left.
Qed.

Lemma retarget_ge x : (n <= x)%nat -> retarget D x = x.
Proof.
  intros Hx. apply retarget_notin_aux. intros Hin.
  apply list_elem_of_fmap in Hin as ([a r] & -> & Hin).
  apply Hsides in Hin. simpl in Hx. lia.
Qed.
End retargeting.

Lemma retarget_in n : forall D a r,
  (forall a r, (a, r) ∈ D -> (a < n <= r)%nat) ->
  NoDup D.*1 -> (a, r) ∈ D -> retarget D a = r.
Proof.
  induction D as [|[a0 r0] D IH]; intros a r Hs Hnd Hin.
  - now apply elem_of_nil in Hin.
  - simpl in Hnd. apply NoDup_cons in Hnd as [Hfresh Hnd].
    assert (Hs' : forall a r, (a, r) ∈ D -> (a < n <= r)%nat).
    { intros a1 r1 H1. apply Hs. apply elem_of_cons. now right. }
    unfold retarget. simpl. apply elem_of_cons in Hin as [Heq|Hin].
    + inversion Heq; subst a0 r0. rewrite bool_decide_eq_true_2 by done.
      apply (retarget_ge n D Hs'). apply (Hs a r). apply elem_of_cons. now left.
    + rewrite bool_decide_eq_false_2.
      * now apply IH.
      * intros ->. apply Hfresh. apply list_elem_of_fmap. now exists (a0, r).
  Qed.

Lemma retarget_avoids n D a x :
  (forall a r, (a, r) ∈ D -> (a < n <= r)%nat) ->
  NoDup D.*1 -> a ∈ D.*1 -> retarget D x <> a.
Proof.
  intros Hs Hnd Ha Heq.
  destruct (decide (x ∈ D.*1)) as [Hx|Hx].
  - apply list_elem_of_fmap in Hx as ([x' r] & -> & Hx). simpl in Heq.
    rewrite (retarget_in n D x' r Hs Hnd Hx) in Heq. subst r.
    apply list_elem_of_fmap in Ha as ([a' r'] & -> & Ha). simpl in Hx.
    apply Hs in Hx. apply Hs in Ha. lia.
  - rewrite retarget_notin_aux in Heq by done. congruence.
Qed.

Lemma replace_use_name a r G : g_name (replace_use a r G) = g_name G.
Proof. done. Qed.

Lemma commit_delete_lookup Mc a r A R :
  a <> r -> Mc !! a = Some (Some A) -> Mc !! r = Some (Some R) ->
  exists Mh, commit_delete Mc (a, r) = Some Mh /\ length Mh = length Mc /\
    Mh !! a = Some None /\
    (exists R', Mh !! r = Some (Some R') /\ g_name R' = g_name A /\
                g_definition R' = None /\ g_kind R' = g_kind R) /\
    forall u, u <> a -> u <> r ->
      Mh !! u = (fun og : option Global => replace_use a r <$> og) <$> (Mc !! u).
Proof.
  intros Har HA HR.
  assert (Hla : (a < length Mc)%nat) by (apply lookup_lt_is_Some; eauto).
  assert (Hlr : (r < length Mc)%nat) by (apply lookup_lt_is_Some; eauto).
  unfold commit_delete. rewrite HA, HR. simpl.
  rewrite list_lookup_insert_ne by done.
  rewrite list_lookup_fmap.
  rewrite list_lookup_insert_eq by (rewrite length_insert; lia). simpl.
  eexists. split; [reflexivity|]. split_and!.
  - rewrite !length_insert, length_fmap, !length_insert. done.
  - rewrite list_lookup_insert_ne by done.
    rewrite list_lookup_insert_eq by (rewrite length_fmap, !length_insert; lia). done.
  - eexists. split.
    + rewrite list_lookup_insert_eq
        by (rewrite length_insert, length_fmap, !length_insert; lia). reflexivity.
    + now destruct (bool_decide (g_kind R = KFunction)).
  - intros u Hua Hur.
    rewrite !list_lookup_insert_ne by done.
    rewrite list_lookup_fmap. now rewrite !list_lookup_insert_ne by done.
Qed.

Lemma replace_in_retarget D a r ops :
  replace_in a r (retarget D <$> ops) = retarget (D ++ [(a, r)]) <$> ops.
Proof.
  unfold replace_in. rewrite <- list_fmap_compose. apply list_fmap_ext.
  intros i x _. simpl. now rewrite retarget_snoc.
Qed.

Section committing.
Variable n : nat.
Variable M2 : list (option Global).
Variable D : list (nat * nat).

Hypothesis Hpair : forall k a r, D !! k = Some (a, r) ->
  r = (n + k)%nat /\ (a < n)%nat /\
  (exists A, M2 !! a = Some (Some A)) /\ (exists R, M2 !! r = Some (Some R)).
Hypothesis Hnodup : NoDup D.*1.

Record dinv (j : nat) (Mc : list (option Global)) : Prop := {
  d_len : length Mc = length M2;
  d_done : forall k a r, (k < j)%nat -> D !! k = Some (a, r) ->
      Mc !! a = Some None /\
      exists A R, M2 !! a = Some (Some A) /\ Mc !! r = Some (Some R) /\
                  g_name R = g_name A /\ g_definition R = None;
  d_keep : forall u G, M2 !! u = Some (Some G) ->
      (forall k a r, (k < j)%nat -> D !! k = Some (a, r) -> u <> a /\ u <> r) ->
      exists G', Mc !! u = Some (Some G') /\ g_name G' = g_name G /\
                 g_kind G' = g_kind G /\
                 g_definition G' = (fun ops : list nat => retarget (take j D) <$> ops) <$> g_definition G;
  d_none : forall u, M2 !! u = Some None -> Mc !! u = Some None
}.

Lemma dinv_init : dinv 0 M2.
Proof.
  split; try done.
  - intros k a r Hk. lia.
  - intros u G HG _. exists G. split_and!; try done. simpl.
    destruct (g_definition G) as [ops|]; [|done]. simpl. f_equal.
    symmetry. transitivity (id <$> ops); [|apply list_fmap_id].
    apply list_fmap_ext. done.
Qed.

Lemma pairs_apart k1 a1 r1 k2 a2 r2 :
  D !! k1 = Some (a1, r1) -> D !! k2 = Some (a2, r2) -> k1 <> k2 ->
  a1 <> a2 /\ a1 <> r2 /\ r1 <> a2 /\ r1 <> r2.
Proof.
  intros H1 H2 Hne.
  destruct (Hpair _ _ _ H1) as (-> & Ha1 & _).
  destruct (Hpair _ _ _ H2) as (-> & Ha2 & _).
  split_and!; try lia.
  intros ->. apply Hne.
  apply (NoDup_lookup D.*1 k1 k2 a2); [done| |];
    rewrite list_lookup_fmap; [rewrite H1|rewrite H2]; done.
Qed.

Lemma dinv_step j Mc a r :
  dinv j Mc -> D !! j = Some (a, r) ->
  exists Mh, commit_delete Mc (a, r) = Some Mh /\ dinv (S j) Mh.
Proof.
  intros [H1 H2 H3 H4] Hj.
  destruct (Hpair _ _ _ Hj) as (Hr & Ha & (A & HA) & (R & HR)).
  assert (Hother : forall k a' r', (k < j)%nat -> D !! k = Some (a', r') ->
             a <> a' /\ a <> r' /\ r <> a' /\ r <> r').
  { intros k a' r' Hk Hk'. apply (pairs_apart j a r k a' r'); [done|done|lia]. }
  destruct (H3 a A HA) as (A' & HA' & HnA & _).
  { intros k a' r' Hk Hk'. destruct (Hother k a' r' Hk Hk') as (? & ? & ? & ?). done. }
  destruct (H3 r R HR) as (R' & HR' & _).
  { intros k a' r' Hk Hk'. destruct (Hother k a' r' Hk Hk') as (? & ? & ? & ?). done. }
  destruct (commit_delete_lookup Mc a r A' R' ltac:(lia) HA' HR')
    as (Mh & -> & Hlen & Hga & (R'' & HR'' & HnR & HdR & _) & Hrest).
  exists Mh. split; [done|]. split.
  - congruence.
  - intros k a' r' Hk Hk'. destruct (decide (k = j)) as [->|Hne].
    + assert (a' = a /\ r' = r) as [-> ->] by (split; congruence).
      split; [done|]. exists A, R''. split_and!; try done. congruence.
    + destruct (Hother k a' r' ltac:(lia) Hk') as (? & ? & ? & ?).
      destruct (H2 k a' r' ltac:(lia) Hk') as (Hgone & A0 & R0 & HA0 & HR0 & Hn0 & Hd0).
      rewrite !Hrest by done. rewrite Hgone, HR0. simpl. split; [done|].
      exists A0, (replace_use a r R0). split_and!; try done.
      simpl. now rewrite Hd0.
  - intros u G HG Hu.
    destruct (Hu j a r ltac:(lia) Hj) as [Hua Hur].
    destruct (H3 u G HG) as (G' & HG' & HnG & HkG & HdG).
    { intros k a' r' Hk Hk'. apply (Hu k a' r'); [lia|done]. }
    exists (replace_use a r G'). rewrite Hrest by done. rewrite HG'. simpl.
    split_and!; try done.
    rewrite HdG, (take_S_r D j (a, r)) by done.
    destruct (g_definition G) as [ops|]; [|done]. simpl. f_equal.
    apply replace_in_retarget.
  - intros u Hu.
    assert (u <> a) by (intros ->; congruence).
    assert (u <> r) by (intros ->; congruence).
    rewrite Hrest by done. now rewrite (H4 u Hu).
Qed.

Lemma commit_deletes_spec : forall m j Mc,
  dinv j Mc -> (j + m = length D)%nat ->
  exists Mh, commit_deletes (drop j D) Mc = Some Mh /\ dinv (length D) Mh.
Proof.
  induction m as [|m IH]; intros j Mc Hinv Hjm.
  - rewrite drop_ge by lia. exists Mc. split; [done|].
    replace (length D) with j by lia. done.
  - destruct (lookup_lt_is_Some_2 D j ltac:(lia)) as [[a r] Hj].
    rewrite (drop_S D (a, r) j Hj). cbn [commit_deletes].
    destruct (dinv_step j Mc a r Hinv Hj) as (Mh & -> & Hinv'). simpl.
    apply IH; [done|lia].
Qed.
End committing.

(** ** Materialization as a whole *)

Lemma wf_shard_entries M P :
  wf_shard M P = true -> Forall (resolves M) (map_to_list (globals P)).
Proof.
  unfold wf_shard. intros H. apply andb_prop in H as [H _].
  rewrite forallb_forall in H. apply Forall_forall. intros [name keep] Hin.
  apply list_elem_of_In in Hin. specialize (H _ Hin). unfold entry_ok in H. simpl in H.
  apply andb_prop in H as [Hk H]. split; [done|]. simpl.
  destruct (getNamedValue M name) as [id|] eqn:E; [|done].
  destruct (M !! id) as [[G|]|] eqn:E2; try done. simpl in H.
  apply andb_prop in H as [H1 H2].
  exists id, G. split_and!; try done.
  - now destruct (isDeclaration G).
  - now destruct (hasLocalLinkage G).
Qed.

Lemma wf_shard_alias M P a A :
  wf_shard M P = true -> M !! a = Some (Some A) -> g_kind A = KGlobalAlias ->
  isDeclaration A = false /\ hasLocalLinkage A = false.
Proof.
  unfold wf_shard. intros H HA Hk. apply andb_prop in H as [_ H].
  rewrite forallb_forall in H.
  specialize (H (Some A)). simpl in H.
  rewrite bool_decide_eq_true_2 in H by done.
  assert (Hin : In (Some A) M).
  { apply list_elem_of_In. eapply list_elem_of_lookup_2. exact HA. }
  apply H in Hin. apply andb_prop in Hin as [H1 H2].
  split; [now destruct (isDeclaration A)|now destruct (hasLocalLinkage A)].
Qed.

Lemma Preserve_ids_spec M P id :
  Forall (resolves M) (map_to_list (globals P)) ->
  id ∈ Preserve_ids M P <->
  exists name, (name, true) ∈ map_to_list (globals P) /\ getNamedValue M name = Some id.
Proof.
  intros Hall. unfold Preserve_ids. rewrite list_elem_of_omap. split.
  - intros ([name keep] & Hin & He). simpl in He. destruct keep; [|done].
    exists name. done.
  - intros (name & Hin & He). exists (name, true). done.
Qed.

Lemma strip_length kind S M : length (strip_kind kind S M) = length M.
Proof. unfold strip_kind. apply length_imap. Qed.

(** The whole run of [materializePreserved], stage by stage. *)
Lemma materialize_run M P :
  wf_shard M P = true ->
  exists (S : gset nat) M2 D Mh,
    let M1 := strip_kind KGlobalVariable S (strip_kind KFunction S M) in
    materializePreserved M P = Some Mh /\
    (forall id, id ∈ S <-> id ∈ Preserve_ids M P) /\
    length M1 = length M /\
    (forall a A, M1 !! a = Some (Some A) -> g_kind A = KGlobalAlias ->
                 M !! a = Some (Some A)) /\
    cinv S M1 (length M1) (M2, D) /\
    dinv M2 D (length D) Mh.
Proof.
  intros Hwf.
  pose proof (wf_shard_entries M P Hwf) as Hres.
  destruct (mark_preserved_spec M _ ∅ Hres) as (S & Hmark & HS).
  set (M1 := strip_kind KGlobalVariable S (strip_kind KFunction S M)).
  assert (Hlen : length M1 = length M).
  { unfold M1. now rewrite !strip_length. }
  assert (Hback : forall a A, M1 !! a = Some (Some A) -> g_kind A = KGlobalAlias ->
                    M !! a = Some (Some A)).
  { intros a A HA Hk. pose proof (strip_both_lookup S M a) as Hl. fold M1 in Hl.
    destruct (M !! a) as [[G|]|]; [|congruence|congruence].
    destruct Hl as (G1 & HG1 & Hn & Hkk & _ & Hal & _).
    assert (G1 = A) by congruence. subst G1.
    rewrite Hal; [done|congruence]. }
  assert (Halias : forall a A, M1 !! a = Some (Some A) -> g_kind A = KGlobalAlias ->
                     isDeclaration A = false).
  { intros a A HA Hk. apply (wf_shard_alias M P a A Hwf); [|done]. now apply Hback. }
  destruct (redirect_aliases_spec S M1 Halias (length M1) 0 (M1, []) (cinv_init S M1) eq_refl)
    as ([M2 D] & Hred & Hc).
  assert (Hpair : forall k a r, D !! k = Some (a, r) ->
            r = (length M1 + k)%nat /\ (a < length M1)%nat /\
            (exists A, M2 !! a = Some (Some A)) /\ (exists R, M2 !! r = Some (Some R))).
  { intros k a r Hk. destruct (c_new _ _ _ _ Hc k a r Hk) as (Hr & Ha & (A & HA & _) & R & HR & _).
    split_and!; try done.
    - destruct (c_old _ _ _ _ Hc a A HA) as (G' & HG' & _). eauto.
    - eauto. }
  destruct (commit_deletes_spec (length M1) M2 D Hpair (c_nodup _ _ _ _ Hc) (length D) 0 M2
              (dinv_init M2 D) eq_refl) as (Mh & Hcom & Hd).
  rewrite drop_0 in Hcom.
  exists S, M2, D, Mh. cbn zeta. fold M1. split_and!; try done.
  - unfold materializePreserved. rewrite Hmark. simpl. fold M1. rewrite Hred. simpl. done.
  - intros id. rewrite HS, Preserve_ids_spec by done. rewrite elem_of_empty. tauto.
Qed.

(** [C7] Materialization of a well-formed shard succeeds.  Afterwards every
    alias of the module that is not in the preserve set is erased, and
    there is one global added by the run, named as the alias was and
    without body or initializer, to which every surviving operand that
    referred to the alias now refers; no operand of the resulting module
    refers to the erased alias. *)
Theorem deleted_aliases_replaced M P :
  wf_shard M P = true ->
  exists M', materializePreserved M P = Some M' /\
    forall a A, M !! a = Some (Some A) -> g_kind A = KGlobalAlias ->
      preserved M P a = false ->
      M' !! a = Some None /\
      (exists r R, (length M <= r)%nat /\ M' !! r = Some (Some R) /\
         g_name R = g_name A /\ g_definition R = None /\ isDeclaration R = true /\
         forall u k U', uses_at M u k a -> M' !! u = Some (Some U') ->
           isDeclaration U' = false -> uses_at M' u k r) /\
      forall u k, ~ uses_at M' u k a.
Proof.
  intros Hwf.
  destruct (materialize_run M P Hwf) as (S & M2 & D & Mh & Hrun).
  cbn zeta in Hrun. destruct Hrun as (Hrun & HS & Hlen & Hback & Hc & Hd).
  set (M1 := strip_kind KGlobalVariable S (strip_kind KFunction S M)) in *.
  exists Mh. split; [done|]. intros a A HA Hk Hnp.
  assert (Hsides : forall a r, (a, r) ∈ D -> (a < length M1 <= r)%nat).
  { intros a0 r0 Hin. apply list_elem_of_lookup in Hin as (k & Hk0).
    destruct (c_new _ _ _ _ Hc k a0 r0 Hk0) as (-> & ? & _). lia. }
  pose proof (c_nodup _ _ _ _ Hc) as Hnd. simpl in Hnd.
  (* the alias is among the deleted ones *)
  assert (HA1 : M1 !! a = Some (Some A)).
  { pose proof (strip_both_lookup S M a) as Hl. fold M1 in Hl. rewrite HA in Hl.
    destruct Hl as (G1 & HG1 & _ & _ & _ & Hal & _). rewrite HG1, (Hal Hk). done. }
  assert (Hdel : deletable S M1 a).
  { exists A. split_and!; try done.
    - rewrite HS. unfold preserved in Hnp. now apply bool_decide_eq_false in Hnp.
    - now apply (wf_shard_alias M P a A Hwf). }
  assert (Hlt : (a < length M1)%nat) by (apply lookup_lt_is_Some; eauto).
  pose proof (c_all _ _ _ _ Hc a Hlt Hdel) as Hin. simpl in Hin.
  assert (HinD := Hin).
  apply list_elem_of_fmap in Hin as ([a' r] & Ha' & Hin). simpl in Ha'. subst a'.
  assert (Hin' := Hin).
  apply list_elem_of_lookup in Hin as (j & Hj).
  assert (Hjl : (j < length D)%nat) by (apply lookup_lt_is_Some; eauto).
  destruct (d_done _ _ _ _ Hd j a r Hjl Hj) as (Hgone & A2 & R & HA2 & HR & HnR & HdR).
  destruct (c_old _ _ _ _ Hc a A HA1) as (A2' & HA2' & HnA & _). simpl in HA2'.
  assert (A2' = A2) by congruence. subst A2'.
  (* what survives of a global of the stripped module *)
  assert (Hsurv : forall u U', (u < length M1)%nat -> Mh !! u = Some (Some U') ->
            exists U1, M1 !! u = Some (Some U1) /\
              g_definition U' = (fun ops : list nat => retarget D <$> ops) <$> g_definition U1).
  { intros u U' Hu HU'.
    destruct (lookup_lt_is_Some_2 _ _ Hu) as [[U1|] HU1].
    2:{ pose proof (c_gone _ _ _ _ Hc u HU1) as Hg. simpl in Hg.
        rewrite (d_none _ _ _ _ Hd u Hg) in HU'. congruence. }
    destruct (c_old _ _ _ _ Hc u U1 HU1) as (U2 & HU2 & _ & _ & Hsame). simpl in HU2, Hsame.
    destruct (decide (u ∈ D.*1)) as [HuD|HuD].
    { apply list_elem_of_fmap in HuD as ([u' ru] & Hu' & HuD). simpl in Hu'. subst u'.
      apply list_elem_of_lookup in HuD as (ju & Hju).
      assert (Hjul : (ju < length D)%nat) by (apply lookup_lt_is_Some; eauto).
      destruct (d_done _ _ _ _ Hd ju u ru Hjul Hju) as (Hgu & _). congruence. }
    specialize (Hsame HuD). subst U2.
    destruct (d_keep _ _ _ _ Hd u U1 HU2) as (G' & HG' & _ & _ & HdG).
    { intros k0 a0 r0 Hk0 Hk0'. split.
      - intros ->. apply HuD. apply list_elem_of_fmap. exists (a0, r0). split; [done|].
        eapply list_elem_of_lookup_2. exact Hk0'.
      - intros ->. destruct (c_new _ _ _ _ Hc k0 a0 r0 Hk0') as (Hr0 & _). lia. }
    rewrite firstn_all in HdG.
    exists U1. split; [done|]. congruence. }
  split; [done|]. split.
  - exists r, R.
    assert (Hr : (length M <= r)%nat).
    { destruct (c_new _ _ _ _ Hc j a r Hj) as (-> & _). lia. }
    split_and!; try done.
    + congruence.
    + unfold isDeclaration. now rewrite HdR.
    + intros u k U' (U & ops & HU & HdU & Hops) HU' Hdef.
      assert (Hu : (u < length M1)%nat).
      { rewrite Hlen. apply lookup_lt_is_Some. eauto. }
      destruct (Hsurv u U' Hu HU') as (U1 & HU1 & HdU').
      pose proof (strip_both_lookup S M u) as Hl. fold M1 in Hl. rewrite HU in Hl.
      destruct Hl as (G1 & HG1 & _ & _ & _ & _ & Hdd).
      assert (G1 = U1) by congruence. subst G1.
      destruct Hdd as [Hdd|Hdd].
      2:{ rewrite Hdd in HdU'. simpl in HdU'. unfold isDeclaration in Hdef.
          rewrite HdU' in Hdef. now rewrite bool_decide_eq_true_2 in Hdef. }
      rewrite Hdd, HdU in HdU'. simpl in HdU'.
      exists U', (retarget D <$> ops). split_and!; try done.
      rewrite list_lookup_fmap, Hops. simpl. f_equal.
      now apply (retarget_in (length M1)).
  - intros u k (U' & ops' & HU' & HdU' & Hops').
    assert (Hul : (u < length Mh)%nat) by (apply lookup_lt_is_Some; eauto).
    rewrite (d_len _ _ _ _ Hd) in Hul. pose proof (c_len _ _ _ _ Hc) as Hl2. simpl in Hl2.
    destruct (decide (u < length M1)%nat) as [Hu|Hu].
    + destruct (Hsurv u U' Hu HU') as (U1 & HU1 & Hdd).
      rewrite HdU' in Hdd. destruct (g_definition U1) as [ops1|]; [|done].
      simpl in Hdd. inversion Hdd; subst ops'.
      rewrite list_lookup_fmap in Hops'.
      destruct (ops1 !! k) as [x|]; [|done]. simpl in Hops'.
      inversion Hops' as [Heq].
      now apply (retarget_avoids (length M1) D a x Hsides Hnd HinD).
    + destruct (lookup_lt_is_Some_2 D (u - length M1)%nat ltac:(lia)) as [[a0 r0] Hk0].
      assert (Hkl : (u - length M1 < length D)%nat) by lia.
      destruct (d_done _ _ _ _ Hd _ a0 r0 Hkl Hk0) as (_ & A0 & R0 & _ & HR0 & _ & HdR0).
      destruct (c_new _ _ _ _ Hc _ a0 r0 Hk0) as (Hr0 & _).
      assert (r0 = u) by lia. subst r0. congruence.
Qed.

Lemma deleted_aliases_replaced_witness :
  wf_shard sample_shard_module sample_shard = true /\
  exists M', materializePreserved sample_shard_module sample_shard = Some M' /\
    M' !! 2%nat = Some None /\
    exists r R, (6 <= r)%nat /\ M' !! r = Some (Some R) /\
                g_name R = "a"%string /\ g_definition R = None /\
                uses_at M' 0 0 r /\ uses_at M' 0 2 r.
Proof.
  split; [vm_compute; reflexivity|].
  destruct (deleted_aliases_replaced sample_shard_module sample_shard
              ltac:(vm_compute; reflexivity)) as (M' & Hrun & Hall).
  exists M'. split; [exact Hrun|].
  assert (Hf : M' !! 0%nat
               = Some (sample_shard_global "f" KFunction true (Some [6; 7; 6]%nat))).
  { vm_compute in Hrun. injection Hrun as <-. reflexivity. }
  destruct (Hall 2%nat
              {| g_name := "a"; g_kind := KGlobalAlias; g_function_type := true;
                 g_linkage := ExternalLinkage; g_visibility := HiddenVisibility;
                 g_dso_local := false; g_definition := Some [1%nat] |}
              eq_refl eq_refl ltac:(vm_compute; reflexivity))
    as (Hgone & (r & R & Hr & HR & Hn & Hd & _ & Huse) & _).
  split; [exact Hgone|].
  exists r, R. split_and!; try done.
  - eapply (Huse 0%nat 0%nat); [|exact Hf|reflexivity].
    eexists _, _. split_and!; reflexivity.
  - eapply (Huse 0%nat 2%nat); [|exact Hf|reflexivity].
    eexists _, _. split_and!; reflexivity.
Defined.

(** ** Materialization: what becomes of every global value *)

Lemma strip_both_exact S M id :
  strip_kind KGlobalVariable S (strip_kind KFunction S M) !! id
  = (fun og : option Global => strip_global S id <$> og) <$> M !! id.
Proof.
  rewrite !strip_kind_lookup.
  destruct (M !! id) as [[G|]|]; try done. simpl.
  unfold strip_global.
  destruct (decide (g_kind G = KFunction)) as [Hf|Hf].
  - rewrite (bool_decide_eq_true_2 (g_kind G = KFunction)) by done.
    rewrite (bool_decide_eq_true_2 (_ \/ _)) by now left.
    destruct (isDeclaration G) eqn:E1; simpl.
    { rewrite bool_decide_eq_false_2 by (rewrite Hf; done). done. }
    destruct (hasLocalLinkage G) eqn:E2; simpl.
    { rewrite bool_decide_eq_false_2 by (rewrite Hf; done). done. }
    destruct (bool_decide (id ∈ S)) eqn:E3; simpl.
    { rewrite bool_decide_eq_false_2 by (rewrite Hf; done). done. }
    rewrite bool_decide_eq_false_2 by (simpl; rewrite Hf; done). done.
  - rewrite (bool_decide_eq_false_2 (g_kind G = KFunction)) by done.
    destruct (decide (g_kind G = KGlobalVariable)) as [Hv|Hv].
    + rewrite (bool_decide_eq_true_2 (g_kind G = KGlobalVariable)) by done.
      rewrite (bool_decide_eq_true_2 (_ \/ _)) by now right.
      destruct (isDeclaration G); simpl; [done|].
      destruct (hasLocalLinkage G); simpl; [done|].
      destruct (bool_decide (id ∈ S)); done.
    + rewrite (bool_decide_eq_false_2 (g_kind G = KGlobalVariable)) by done.
      rewrite (bool_decide_eq_false_2 (_ \/ _)) by tauto. done.
Qed.

Lemma commit_delete_other M a r Mh u :
  commit_delete M (a, r) = Some Mh -> u <> a -> u <> r ->
  Mh !! u = (fun og : option Global => replace_use a r <$> og) <$> M !! u.
Proof.
  unfold commit_delete. intros H Hua Hur.
  destruct (mjoin (M !! a)) as [A|]; [|done]. simpl in H.
  destruct (mjoin (M !! r)) as [R|]; [|done]. simpl in H.
  match type of H with
  | (mjoin ?x) ≫= _ = _ => destruct (mjoin x) as [R'|]; [|done]
  end.
  simpl in H. inversion H; subst Mh.
  rewrite !list_lookup_insert_ne by done.
  rewrite list_lookup_fmap. now rewrite !list_lookup_insert_ne by done.
Qed.

Lemma retarget_global_nil G : retarget_global [] G = G.
Proof.
  unfold retarget_global. destruct G as [n k ft l v d [ops|]]; simpl; [|done].
  unfold setDefinition. simpl. do 2 f_equal.
  transitivity (id <$> ops); [|apply list_fmap_id]. now apply list_fmap_ext.
Qed.

Lemma retarget_global_cons a r D G :
  retarget_global D (replace_use a r G) = retarget_global ((a, r) :: D) G.
Proof.
  unfold retarget_global, replace_use, setDefinition. simpl. f_equal.
  destruct (g_definition G) as [ops|]; [|done]. simpl. f_equal.
  unfold replace_in. rewrite <- list_fmap_compose. now apply list_fmap_ext.
Qed.

Lemma commit_deletes_other : forall D M Mh u,
  commit_deletes D M = Some Mh -> u ∉ D.*1 -> u ∉ D.*2 ->
  Mh !! u = (fun og : option Global => retarget_global D <$> og) <$> M !! u.
Proof.
  induction D as [|[a r] D IH]; intros M Mh u Hrun H1 H2.
  - simpl in Hrun. inversion Hrun; subst Mh.
    destruct (M !! u) as [[G|]|]; try done. simpl. now rewrite retarget_global_nil.
  - cbn [commit_deletes] in Hrun.
    destruct (commit_delete M (a, r)) as [M1|] eqn:E; [|done]. simpl in Hrun.
    simpl in H1, H2. rewrite not_elem_of_cons in H1, H2.
    destruct H1 as [Hua H1]. destruct H2 as [Hur H2].
    rewrite (IH M1 Mh u Hrun H1 H2), (commit_delete_other M a r M1 u E Hua Hur).
    destruct (M !! u) as [[G|]|]; try done. simpl.
    now rewrite retarget_global_cons.
Qed.

(** The result of [materializePreserved] on a well-formed shard, global
    by global. *)
Lemma materialize_globals M P :
  wf_shard M P = true ->
  exists (S : gset nat) D Mh,
    materializePreserved M P = Some Mh /\
    (forall id, id ∈ S <-> id ∈ Preserve_ids M P) /\
    length Mh = (length M + length D)%nat /\
    (forall a r, (a, r) ∈ D ->
       (a < length M <= r)%nat /\
       exists A, M !! a = Some (Some A) /\ g_kind A = KGlobalAlias /\ (a ∉ S)) /\
    (forall a A, M !! a = Some (Some A) -> g_kind A = KGlobalAlias -> (a ∉ S) ->
       a ∈ D.*1) /\
    (forall k, (k < length D)%nat ->
       exists R, Mh !! (length M + k)%nat = Some (Some R) /\ g_definition R = None) /\
    (forall u U, M !! u = Some (Some U) ->
       if bool_decide (u ∈ D.*1) then Mh !! u = Some None
       else Mh !! u = Some (Some (retarget_global D (strip_global S u U)))) /\
    (forall u, M !! u = Some None -> Mh !! u = Some None).
Proof.
  intros Hwf.
  pose proof (wf_shard_entries M P Hwf) as Hres.
  destruct (mark_preserved_spec M _ ∅ Hres) as (S & Hmark & HS).
  set (M1 := strip_kind KGlobalVariable S (strip_kind KFunction S M)).
  assert (Hlen : length M1 = length M).
  { unfold M1. now rewrite !strip_length. }
  assert (Hex : forall u, M1 !! u
                  = (fun og : option Global => strip_global S u <$> og) <$> M !! u).
  { intros u. apply strip_both_exact. }
  assert (Hal : forall a A, g_kind A = KGlobalAlias -> strip_global S a A = A).
  { intros a A Hk. unfold strip_global.
    rewrite (bool_decide_eq_false_2 (_ \/ _)); [done|]. rewrite Hk. intros [?|?]; done. }
  assert (Hkind : forall a A, g_kind (strip_global S a A) = g_kind A).
  { intros a A. unfold strip_global. now destruct (_ && _). }
  assert (Hback : forall a A, M1 !! a = Some (Some A) -> g_kind A = KGlobalAlias ->
                    M !! a = Some (Some A)).
  { intros a A HA Hk. rewrite Hex in HA.
    destruct (M !! a) as [[G|]|]; try done. simpl in HA. inversion HA as [HA'].
    rewrite Hal; [done|]. rewrite <- (Hkind a G), HA'. done. }
  assert (Halias : forall a A, M1 !! a = Some (Some A) -> g_kind A = KGlobalAlias ->
                     isDeclaration A = false).
  { intros a A HA Hk. apply (wf_shard_alias M P a A Hwf); [|done]. now apply Hback. }
  destruct (redirect_aliases_spec S M1 Halias (length M1) 0 (M1, []) (cinv_init S M1) eq_refl)
    as ([M2 D] & Hred & Hc).
  assert (Hpair : forall k a r, D !! k = Some (a, r) ->
            r = (length M1 + k)%nat /\ (a < length M1)%nat /\
            (exists A, M2 !! a = Some (Some A)) /\ (exists R, M2 !! r = Some (Some R))).
  { intros k a r Hk. destruct (c_new _ _ _ _ Hc k a r Hk) as (Hr & Ha & (A & HA & _) & R & HR & _).
    split_and!; try done.
    - destruct (c_old _ _ _ _ Hc a A HA) as (G' & HG' & _). eauto.
    - eauto. }
  destruct (commit_deletes_spec (length M1) M2 D Hpair (c_nodup _ _ _ _ Hc) (length D) 0 M2
              (dinv_init M2 D) eq_refl) as (Mh & Hcom & Hd).
  rewrite drop_0 in Hcom.
  pose proof (c_len _ _ _ _ Hc) as Hl2. simpl in Hl2.
  exists S, D, Mh. split_and!.
  - unfold materializePreserved. rewrite Hmark. simpl. fold M1. rewrite Hred. simpl. done.
  - intros id. rewrite HS, Preserve_ids_spec by done. rewrite elem_of_empty. tauto.
  - rewrite (d_len _ _ _ _ Hd). lia.
  - intros a r Hin. apply list_elem_of_lookup in Hin as (k & Hk).
    destruct (c_new _ _ _ _ Hc k a r Hk) as (-> & Ha & (A & HA & HkA & HnS & _) & _).
    split; [lia|]. exists A. split_and!; try done. now apply Hback.
  - intros a A HA Hk HnS.
    assert (HA1 : M1 !! a = Some (Some A)).
    { rewrite Hex, HA. simpl. now rewrite Hal. }
    apply (c_all _ _ _ _ Hc a).
    + apply lookup_lt_is_Some. eauto.
    + exists A. split_and!; try done. now apply (wf_shard_alias M P a A Hwf).
  - intros k Hk. destruct (lookup_lt_is_Some_2 D k Hk) as [[a r] Hkr].
    destruct (d_done _ _ _ _ Hd k a r Hk Hkr) as (_ & A & R & _ & HR & _ & HdR).
    destruct (c_new _ _ _ _ Hc k a r Hkr) as (Hr & _). subst r. rewrite Hlen in HR.
    eauto.
  - intros u U HU.
    assert (HU1 : M1 !! u = Some (Some (strip_global S u U))).
    { rewrite Hex, HU. done. }
    case_bool_decide as HuD.
    + apply list_elem_of_fmap in HuD as ([u' ru] & Hu' & HuD). simpl in Hu'. subst u'.
      apply list_elem_of_lookup in HuD as (ju & Hju).
      assert (Hjul : (ju < length D)%nat) by (apply lookup_lt_is_Some; eauto).
      now destruct (d_done _ _ _ _ Hd ju u ru Hjul Hju) as (Hgu & _).
    + destruct (c_old _ _ _ _ Hc u _ HU1) as (U2 & HU2 & _ & _ & Hsame).
      simpl in HU2, Hsame. specialize (Hsame HuD). subst U2.
      rewrite (commit_deletes_other D M2 Mh u Hcom HuD), HU2; [done|].
      intros Hin. apply list_elem_of_fmap in Hin as ([a r] & Hr & Hin). simpl in Hr. subst r.
      apply list_elem_of_lookup in Hin as (k & Hk).
      destruct (c_new _ _ _ _ Hc k a u Hk) as (Hr & _).
      assert ((u < length M)%nat) by (apply lookup_lt_is_Some; eauto). lia.
  - intros u Hu.
    assert (HU1 : M1 !! u = Some None) by (rewrite Hex, Hu; done).
    pose proof (c_gone _ _ _ _ Hc u HU1) as Hg. simpl in Hg.
    now apply (d_none _ _ _ _ Hd).
Qed.

Lemma retarget_global_declaration D G :
  g_definition G = None -> retarget_global D G = G.
Proof. destruct G; simpl. intros ->. done. Qed.

Lemma preserved_elem M P (S : gset nat) u :
  (forall id, id ∈ S <-> id ∈ Preserve_ids M P) ->
  preserved M P u = bool_decide (u ∈ S).
Proof.
  intros HS. unfold preserved. apply bool_decide_ext. now rewrite HS.
Qed.

(** Materialization of a well-formed shard turns every function and every
    global variable that has a body or an initializer, is not local and is
    not in the preserve set into a declaration with external linkage,
    hidden visibility and [dso_local]; its name and type stay. *)
Theorem others_become_declarations M P :
  wf_shard M P = true ->
  exists M', materializePreserved M P = Some M' /\
    forall u U, M !! u = Some (Some U) ->
      g_kind U = KFunction \/ g_kind U = KGlobalVariable ->
      isDeclaration U = false -> hasLocalLinkage U = false ->
      preserved M P u = false ->
      M' !! u = Some (Some (make_external_declaration U)).
Proof.
  intros Hwf.
  destruct (materialize_globals M P Hwf)
    as (S & D & Mh & Hrun & HS & Hlen & Hsides & Hall & Hnew & Hold & Hnone).
  exists Mh. split; [done|]. intros u U HU Hk Hd Hl Hp.
  specialize (Hold u U HU).
  rewrite (preserved_elem M P S u HS) in Hp.
  destruct (decide (u ∈ D.*1)) as [HuD|HuD];
    [rewrite bool_decide_eq_true_2 in Hold by done
    |rewrite bool_decide_eq_false_2 in Hold by done].
  { apply list_elem_of_fmap in HuD as ([u' r] & Hu' & Hin). simpl in Hu'. subst u'.
    destruct (Hsides u r Hin) as (_ & A & HA & HkA & _).
    assert (A = U) by congruence. subst A. rewrite HkA in Hk. destruct Hk; done. }
  rewrite Hold. do 2 f_equal. unfold strip_global.
  rewrite (bool_decide_eq_true_2 (_ \/ _)) by done. rewrite Hd, Hl, Hp. simpl.
  now apply retarget_global_declaration.
Qed.

Lemma others_become_declarations_witness :
  wf_shard sample_shard_module sample_shard = true /\
  exists M', materializePreserved sample_shard_module sample_shard = Some M' /\
    M' !! 1%nat =
      Some (Some {| g_name := "h"; g_kind := KFunction; g_function_type := true;
                    g_linkage := ExternalLinkage; g_visibility := HiddenVisibility;
                    g_dso_local := true; g_definition := None |}).
Proof.
  split; [vm_compute; reflexivity|].
  destruct (others_become_declarations sample_shard_module sample_shard
              ltac:(vm_compute; reflexivity)) as (M' & Hrun & Hall).
  exists M'. split; [exact Hrun|].
  apply (Hall 1%nat
           {| g_name := "h"; g_kind := KFunction; g_function_type := true;
              g_linkage := ExternalLinkage; g_visibility := HiddenVisibility;
              g_dso_local := false; g_definition := Some [2%nat] |});
    [reflexivity|now left|reflexivity|reflexivity|vm_compute; reflexivity].
Defined.

(** Materialization of a well-formed shard keeps every definition that is
    in the preserve set or local as it is, but for its operands: there
    are as many as before, and each one that did not refer to an alias
    outside the preserve set is unchanged. *)
Theorem kept_definitions_unchanged M P :
  wf_shard M P = true ->
  exists M', materializePreserved M P = Some M' /\
    forall u U ops, M !! u = Some (Some U) -> g_definition U = Some ops ->
      preserved M P u = true \/ hasLocalLinkage U = true ->
      exists ops', M' !! u = Some (Some (setDefinition (Some ops') U)) /\
        length ops' = length ops /\
        forall k x, ops !! k = Some x ->
          (forall A, M !! x = Some (Some A) -> g_kind A = KGlobalAlias ->
                     preserved M P x = true) ->
          ops' !! k = Some x.
Proof.
  intros Hwf.
  destruct (materialize_globals M P Hwf)
    as (S & D & Mh & Hrun & HS & Hlen & Hsides & Hall & Hnew & Hold & Hnone).
  exists Mh. split; [done|]. intros u U ops HU Hd Hkeep.
  specialize (Hold u U HU).
  rewrite (preserved_elem M P S u HS) in Hkeep.
  destruct (decide (u ∈ D.*1)) as [HuD|HuD];
    [rewrite bool_decide_eq_true_2 in Hold by done
    |rewrite bool_decide_eq_false_2 in Hold by done].
  { apply list_elem_of_fmap in HuD as ([u' r] & Hu' & Hin). simpl in Hu'. subst u'.
    destruct (Hsides u r Hin) as (_ & A & HA & HkA & HnS).
    assert (A = U) by congruence. subst A.
    destruct Hkeep as [Hp|Hl].
    - now apply bool_decide_eq_true in Hp.
    - destruct (wf_shard_alias M P u U Hwf HU HkA) as [_ Hl']. congruence. }
  exists (retarget D <$> ops). split_and!.
  - rewrite Hold. do 2 f_equal.
    assert (Hsame : strip_global S u U = U).
    { unfold strip_global. destruct Hkeep as [->| ->]; simpl.
      - now rewrite andb_false_r.
      - now rewrite andb_false_r. }
    rewrite Hsame. unfold retarget_global. now rewrite Hd.
  - apply length_fmap.
  - intros k x Hx Hnot. rewrite list_lookup_fmap, Hx. simpl. f_equal.
    apply retarget_notin_aux. intros Hin.
    apply list_elem_of_fmap in Hin as ([x' r] & Hx' & Hin). simpl in Hx'. subst x'.
    destruct (Hsides x r Hin) as (_ & A & HA & HkA & HnS).
    specialize (Hnot A HA HkA). rewrite (preserved_elem M P S x HS) in Hnot.
    now apply bool_decide_eq_true in Hnot.
Qed.

Lemma kept_definitions_unchanged_witness :
  wf_shard sample_shard_module sample_shard = true /\
  exists M' ops', materializePreserved sample_shard_module sample_shard = Some M' /\
    M' !! 0%nat = Some (sample_shard_global "f" KFunction true (Some ops')) /\
    length ops' = 3%nat.
Proof.
  split; [vm_compute; reflexivity|].
  destruct (kept_definitions_unchanged sample_shard_module sample_shard
              ltac:(vm_compute; reflexivity)) as (M' & Hrun & Hall).
  destruct (Hall 0%nat
              {| g_name := "f"; g_kind := KFunction; g_function_type := true;
                 g_linkage := ExternalLinkage; g_visibility := HiddenVisibility;
                 g_dso_local := false; g_definition := Some [2; 3; 2]%nat |}
              [2; 3; 2]%nat eq_refl eq_refl
              ltac:(left; vm_compute; reflexivity)) as (ops' & HU' & Hlen & _).
  exists M', ops'. split_and!; [exact Hrun|exact HU'|exact Hlen].
Defined.

(** After the materialization of a well-formed shard, a global value with
    a body, an initializer or an aliasee is a global value of the input
    that had one and is in the preserve set, local, or an ifunc: the run
    defines nothing of its own and nothing that belongs to another
    shard. *)
Theorem definitions_are_owned M P :
  wf_shard M P = true ->
  exists M', materializePreserved M P = Some M' /\
    forall u U', M' !! u = Some (Some U') -> isDeclaration U' = false ->
      exists U, M !! u = Some (Some U) /\ isDeclaration U = false /\
        (preserved M P u = true \/ hasLocalLinkage U = true \/
         g_kind U = KGlobalIFunc).
Proof.
  intros Hwf.
  destruct (materialize_globals M P Hwf)
    as (S & D & Mh & Hrun & HS & Hlen & Hsides & Hall & Hnew & Hold & Hnone).
  exists Mh. split; [done|]. intros u U' HU' Hdef.
  assert (Hu : (u < length M + length D)%nat).
  { rewrite <- Hlen. apply lookup_lt_is_Some. eauto. }
  destruct (decide (u < length M)%nat) as [Hlt|Hge].
  2:{ destruct (Hnew (u - length M)%nat ltac:(lia)) as (R & HR & HdR).
      replace (length M + (u - length M))%nat with u in HR by lia.
      assert (R = U') by congruence. subst R.
      unfold isDeclaration in Hdef. rewrite HdR in Hdef.
      now rewrite bool_decide_eq_true_2 in Hdef. }
  destruct (lookup_lt_is_Some_2 _ _ Hlt) as [[U|] HU].
  2:{ rewrite (Hnone u HU) in HU'. congruence. }
  specialize (Hold u U HU).
  destruct (decide (u ∈ D.*1)) as [HuD|HuD];
    [rewrite bool_decide_eq_true_2 in Hold by done; congruence
    |rewrite bool_decide_eq_false_2 in Hold by done].
  rewrite Hold in HU'. inversion HU' as [HU'']. clear HU'.
  exists U. split; [done|].
  rewrite (preserved_elem M P S u HS).
  unfold isDeclaration in Hdef. rewrite <- HU'' in Hdef.
  unfold strip_global in Hdef.
  destruct (decide (g_kind U = KFunction \/ g_kind U = KGlobalVariable)) as [Hk|Hk].
  - rewrite (bool_decide_eq_true_2 _ Hk) in Hdef. simpl in Hdef.
    destruct (isDeclaration U) eqn:E1; simpl in Hdef.
    { unfold isDeclaration in E1. apply bool_decide_eq_true in E1.
      rewrite E1 in Hdef. apply bool_decide_eq_false in Hdef. exfalso. now apply Hdef. }
    split; [done|].
    destruct (hasLocalLinkage U) eqn:E2; [tauto|]. simpl in Hdef.
    destruct (bool_decide (u ∈ S)) eqn:E3; [tauto|]. simpl in Hdef. done.
  - rewrite (bool_decide_eq_false_2 _ Hk) in Hdef. simpl in Hdef.
    split.
    { unfold isDeclaration. destruct (g_definition U); [|done].
      now rewrite bool_decide_eq_false_2. }
    destruct (g_kind U) eqn:Ek; try tauto.
    left. apply bool_decide_eq_true. destruct (decide (u ∈ S)) as [|HnS]; [done|].
    exfalso. apply HuD. now apply (Hall u U HU Ek).
Qed.

Lemma definitions_are_owned_witness :
  wf_shard sample_shard_module sample_shard = true /\
  exists M', materializePreserved sample_shard_module sample_shard = Some M' /\
    exists U, sample_shard_module !! 0%nat = Some (Some U) /\
              isDeclaration U = false.
Proof.
  split; [vm_compute; reflexivity|].
  destruct (definitions_are_owned sample_shard_module sample_shard
              ltac:(vm_compute; reflexivity)) as (M' & Hrun & Hall).
  exists M'. split; [exact Hrun|].
  assert (Hf : M' !! 0%nat
               = Some (sample_shard_global "f" KFunction true (Some [6; 7; 6]%nat))).
  { vm_compute in Hrun. injection Hrun as <-. reflexivity. }
  destruct (Hall 0%nat _ Hf eq_refl) as (U & HU & Hd & _).
  exists U. split; [exact HU|exact Hd].
Defined.

(** ** Materialization: entries that do not resolve *)

Lemma getNamedValue_names M M' name :
  (fun og : option Global => g_name <$> og) <$> M
  = (fun og : option Global => g_name <$> og) <$> M' ->
  getNamedValue M name = getNamedValue M' name.
Proof.
  intros H. unfold getNamedValue.
  destruct (bool_decide (name = EmptyString)); [done|].
  pose proof (list_find_fmap (fun og : option Global => g_name <$> og)
                (fun on : option string => on = Some name) M) as H1.
  pose proof (list_find_fmap (fun og : option Global => g_name <$> og)
                (fun on : option string => on = Some name) M') as H2.
  rewrite H in H1. rewrite H1 in H2. clear H1.
  unfold compose in H2.
  destruct (list_find _ M) as [[i og]|], (list_find _ M') as [[i' og']|];
    simpl in *; congruence.
Qed.

Lemma getNamedValue_setLinkage M id G l name :
  M !! id = Some (Some G) ->
  getNamedValue (<[id := Some (setLinkage l G)]> M) name = getNamedValue M name.
Proof.
  intros HG. apply getNamedValue_names.
  rewrite list_fmap_insert. simpl. apply list_insert_id.
  rewrite list_lookup_fmap, HG. done.
Qed.

Lemma unresolved_setLinkage M id G name :
  M !! id = Some (Some G) -> unresolved M name ->
  unresolved (<[id := Some (setLinkage InternalLinkage G)]> M) name.
Proof.
  intros HG Hbad id' G' Hn HG'.
  rewrite getNamedValue_setLinkage in Hn by done.
  destruct (decide (id' = id)) as [->|Hne].
  - rewrite list_lookup_insert_eq in HG' by (apply lookup_lt_is_Some; eauto).
    inversion HG'; subst G'. right. reflexivity.
  - rewrite list_lookup_insert_ne in HG' by done. now apply (Hbad id').
Qed.

Lemma mark_preserved_unresolved name : forall entries st keep,
  (name, keep) ∈ entries -> unresolved st.1 name ->
  mark_preserved entries st = None.
Proof.
  induction entries as [|[name' keep'] entries IH]; intros st keep Hin Hbad.
  - now apply elem_of_nil in Hin.
  - cbn [mark_preserved].
    destruct (getNamedValue st.1 name') as [id|] eqn:En; [|done]. simpl.
    destruct (st.1 !! id) as [[GV|]|] eqn:EG; try done. simpl.
    destruct (isDeclaration GV || hasLocalLinkage GV) eqn:Ebad; [done|].
    apply elem_of_cons in Hin as [Heq|Hin].
    { inversion Heq; subst name' keep'.
      destruct (Hbad id GV En EG) as [H|H]; rewrite H in Ebad; simpl in Ebad;
        [done|]. now rewrite orb_true_r in Ebad. }
    destruct keep'.
    + now apply (IH _ keep).
    + apply (IH _ keep); [done|]. now apply unresolved_setLinkage.
Qed.

(** [materializePreserved] fails an assertion when an entry of the shard
    names no global value of the module, a declaration, or a global value
    with local linkage. *)
Theorem unresolved_entry_fails M P name :
  is_Some (globals P !! name) -> unresolved M name ->
  materializePreserved M P = None.
Proof.
  intros [keep Hk] Hbad. unfold materializePreserved.
  rewrite (mark_preserved_unresolved name _ (M, ∅) keep); [done| |done].
  now apply elem_of_map_to_list.
Qed.

Lemma unresolved_entry_fails_witness :
  is_Some (globals sample_bad_shard !! "d"%string) /\
  unresolved sample_shard_module "d" /\
  materializePreserved sample_shard_module sample_bad_shard = None.
Proof.
  assert (H1 : is_Some (globals sample_bad_shard !! "d"%string)).
  { exists true. vm_compute. reflexivity. }
  assert (H2 : unresolved sample_shard_module "d").
  { intros id G Hn HG. vm_compute in Hn. injection Hn as <-.
    vm_compute in HG. injection HG as <-. left. reflexivity. }
  split; [exact H1|]. split; [exact H2|].
  exact (unresolved_entry_fails sample_shard_module sample_bad_shard "d" H1 H2).
Defined.

Module ThreadCount.
Import Threads.

(** ** The thread count *)

Lemma wrap32_small x : x < 2 ^ 32 -> wrap32 x = x.
Proof. intros; unfold wrap32; now apply N.mod_small. Qed.

Lemma wrap32_lt x : wrap32 x < 2 ^ 32.
Proof. unfold wrap32; apply N.mod_lt; discriminate. Qed.

Section unfolding.
Variable cpu : Z.
Variable getenv : string -> option string.
Variable info : ModuleInfo.

Lemma default_threads_lt : default_threads cpu info < 2 ^ 32.
Proof. unfold default_threads; simpl; destruct (_ <? _); apply wrap32_lt. Qed.

Lemma forced_single_unfold :
  compute_image_thread_count cpu getenv info =
    if forced_single info then (1, [])
    else
      let '(threads, env_threads_set, ev1) := env_override getenv (default_threads cpu info) in
      let '(threads, ev2) := fallback_override getenv env_threads_set threads in
      (N.max threads 1, ev1 ++ ev2).
Proof.
  unfold compute_image_thread_count, forced_single.
  destruct (triple_isOSBinFormatCOFF info && (64000 <? globals info)); [done|].
  destruct (weight info <? 1000); done.
Qed.
End unfolding.

(** [C6] With neither variable in the environment, the thread count is 1
    when the module is light (weight under 1000) or the target is COFF with
    more than 64000 globals; otherwise it is half the hardware threads, at
    least 1, capped by globals / 100, and the result is at least 1 in every
    case. *)
Theorem thread_count_without_overrides cpu getenv info :
  getenv "JULIA_IMAGE_THREADS"%string = None ->
  getenv "JULIA_CPU_THREADS"%string = None ->
  (- 2 ^ 31 <= cpu < 2 ^ 31)%Z ->
  let T := (compute_image_thread_count cpu getenv info).1 in
  T = (if forced_single info then 1
       else N.max (N.min (Z.to_N (Z.max (cpu ÷ 2) 1)) (globals info / 100)) 1)
  /\ 1 <= T.
Proof.
  intros He Hf Hcpu T. subst T. rewrite forced_single_unfold.
  destruct (forced_single info); [split; [done | simpl; lia]|].
  unfold env_override, fallback_override. rewrite He. simpl. rewrite Hf.
  change (2 ^ 31)%Z with 2147483648%Z in Hcpu.
  assert (Hq : (- 2147483648 <= cpu ÷ 2 < 2147483648)%Z).
  { pose proof (Z.quot_rem' cpu 2) as Hqr.
    pose proof (Z.rem_bound_abs cpu 2 ltac:(lia)) as Hrb. lia. }
  assert (Hs : wrap32 (Z.to_N (Z.max (cpu ÷ 2) 1)) = Z.to_N (Z.max (cpu ÷ 2) 1)).
  { apply wrap32_small. change (2 ^ 32) with 4294967296. lia. }
  assert (Hd : default_threads cpu info =
               N.min (Z.to_N (Z.max (cpu ÷ 2) 1)) (globals info / 100)).
  { unfold default_threads. simpl. rewrite Hs.
    destruct (N.ltb_spec (globals info / 100) (Z.to_N (Z.max (cpu ÷ 2) 1))).
    - rewrite wrap32_small by (change (2 ^ 32) with 4294967296; lia). lia.
    - lia. }
  rewrite Hd.
  destruct (1 <? _); simpl; split; lia.
Qed.

Lemma thread_count_without_overrides_witness :
  (compute_image_thread_count 16 (sample_env None None) (sample_info false 450 5000)).1 = 4.
Proof.
  pose proof (thread_count_without_overrides 16 (sample_env None None)
                (sample_info false 450 5000) eq_refl eq_refl ltac:(lia)) as [H _].
  exact H.
Defined.

(** [C9] Under a forced single-thread condition the function returns 1
    without having consulted the environment at all: no [getenv] call is
    made, so no value of JULIA_IMAGE_THREADS changes the result. *)
Theorem forced_single_thread_before_override cpu getenv info :
  forced_single info = true ->
  compute_image_thread_count cpu getenv info = (1, []).
Proof. intros H. rewrite forced_single_unfold, H. reflexivity. Qed.

Lemma forced_single_thread_before_override_witness :
  compute_image_thread_count 64 (sample_env (Some "8"%string) None)
    (sample_info false 100000 999) = (1, []).
Proof.
  apply (forced_single_thread_before_override 64 (sample_env (Some "8"%string) None)
           (sample_info false 100000 999)).
  reflexivity.
Defined.

Lemma fallback_override_le getenv set t :
  (fallback_override getenv set t).1 <= t.
Proof.
  unfold fallback_override.
  destruct (negb set && (1 <? t)); simpl; [|lia].
  destruct (getenv _); simpl; [|lia].
  destruct (rejected _); simpl; [lia|].
  destruct (N.ltb_spec (strtoul s).1 t); simpl; [|lia].
  unfold wrap32. etransitivity; [apply N.Div0.mod_le|lia].
Qed.

Lemma fallback_override_unset set t :
  fallback_override (unset "JULIA_CPU_THREADS" (fun _ => None)) set t = (t, if negb set && (1 <? t) then [Getenv "JULIA_CPU_THREADS"] else []).
Proof. unfold fallback_override. destruct (negb set && (1 <? t)); reflexivity. Qed.

Lemma unset_same name getenv : unset name getenv name = None.
Proof. unfold unset. now rewrite String.eqb_refl. Qed.

Lemma unset_other name getenv n : n <> name -> unset name getenv n = getenv n.
Proof. intros H. unfold unset. apply String.eqb_neq in H. now rewrite H. Qed.

Lemma rejected_false_nonzero r : rejected r = false -> r.1 <> 0.
Proof.
  unfold rejected. intros H. apply orb_false_iff in H as [_ H].
  now apply N.eqb_neq in H.
Qed.

(** [C8] Outside the forced single-thread cases: a malformed
    JULIA_IMAGE_THREADS (text after the number, or zero) is warned about and
    the result is what it would be with the variable unset; a well-formed
    one replaces the computed count; JULIA_CPU_THREADS is read only when
    JULIA_IMAGE_THREADS is absent or malformed, and it never raises the
    result: when the result differs from the one without it, it is the
    fallback's own well-formed value.  A well-formed JULIA_CPU_THREADS
    is applied whenever JULIA_IMAGE_THREADS is absent or malformed and the
    value is smaller: the result is then the smaller of the value and of
    the result without the variable. *)
Theorem thread_count_overrides cpu getenv info :
  forced_single info = false ->
  let res := compute_image_thread_count cpu getenv info in
  (forall v, getenv "JULIA_IMAGE_THREADS"%string = Some v ->
     rejected (strtoul v) = true ->
     Warning (invalid_value v "JULIA_IMAGE_THREADS") ∈ res.2 /\
     res.1 = (compute_image_thread_count cpu
                (unset "JULIA_IMAGE_THREADS" getenv) info).1)
  /\ (forall v, getenv "JULIA_IMAGE_THREADS"%string = Some v ->
     rejected (strtoul v) = false ->
     res = (N.max (wrap32 (strtoul v).1) 1, [Getenv "JULIA_IMAGE_THREADS"]) /\
     ((strtoul v).1 < 2 ^ 32 -> res.1 = (strtoul v).1))
  /\ (Getenv "JULIA_CPU_THREADS" ∈ res.2 ->
      match getenv "JULIA_IMAGE_THREADS"%string with
      | Some v => rejected (strtoul v) = true
      | None => True
      end)
  /\ (let res0 := compute_image_thread_count cpu
                    (unset "JULIA_CPU_THREADS" getenv) info in
      res.1 <= res0.1 /\
      (res.1 < res0.1 ->
       exists f, getenv "JULIA_CPU_THREADS"%string = Some f /\
                 rejected (strtoul f) = false /\ res.1 = (strtoul f).1))
  /\ (forall f, getenv "JULIA_CPU_THREADS"%string = Some f ->
     rejected (strtoul f) = false ->
     match getenv "JULIA_IMAGE_THREADS"%string with
     | Some v => rejected (strtoul v) = true
     | None => True
     end ->
     let res0 := compute_image_thread_count cpu
                   (unset "JULIA_CPU_THREADS" getenv) info in
     res.1 = N.min res0.1 (strtoul f).1 /\
     ((strtoul f).1 < res0.1 -> Getenv "JULIA_CPU_THREADS" ∈ res.2)).
Proof.
  intros Hf res. subst res. rewrite !forced_single_unfold, Hf.
  pose proof (default_threads_lt cpu info) as Hd.
  set (d := default_threads cpu info) in *.
  assert (He : env_override (unset "JULIA_CPU_THREADS" getenv) d = env_override getenv d).
  { unfold env_override. now rewrite unset_other. }
  split_and!.
  - intros v Hv Hrej. split.
    + unfold env_override. rewrite Hv, Hrej.
      destruct (fallback_override _ _ _). simpl.
      apply elem_of_cons. right. apply elem_of_cons. now left.
    + unfold env_override at 1. rewrite Hv, Hrej.
      unfold env_override. rewrite unset_same.
      assert (Hfb : forall s t, fallback_override (unset "JULIA_IMAGE_THREADS" getenv) s t
                    = fallback_override getenv s t).
      { intros. unfold fallback_override. now rewrite unset_other. }
      rewrite Hfb. destruct (fallback_override _ _ _). reflexivity.
  - intros v Hv Hok. split.
    + unfold env_override. rewrite Hv, Hok. reflexivity.
    + intros Hlt. unfold env_override. rewrite Hv, Hok. simpl.
      rewrite wrap32_small by done.
      apply rejected_false_nonzero in Hok. lia.
  - unfold env_override.
    destruct (getenv "JULIA_IMAGE_THREADS"%string) as [v|]; [|done].
    destruct (rejected (strtoul v)); [done|].
    simpl. intros Hin. apply elem_of_cons in Hin as [Hin|Hin]; [done|].
    now apply elem_of_nil in Hin.
  - cbn zeta. rewrite He.
    assert (Ht : (env_override getenv d).1.1 < 2 ^ 32).
    { unfold env_override. destruct (getenv _); [|done].
      destruct (rejected _); [done|]. simpl. apply wrap32_lt. }
    destruct (env_override getenv d) as [[t set] ev1]. simpl in Ht.
    unfold fallback_override. rewrite unset_same.
    destruct (negb set && (1 <? t)); simpl; [|lia].
    destruct (getenv "JULIA_CPU_THREADS"%string) as [f|]; simpl; [|lia].
    destruct (rejected (strtoul f)) eqn:Hr; simpl; [lia|].
    destruct (N.ltb_spec (strtoul f).1 t); simpl; [|lia].
    rewrite wrap32_small by lia.
    pose proof (rejected_false_nonzero _ Hr) as Hnz.
    split; [lia|]. intros _. exists f. split_and!; [done|done|lia].
  - intros f Hfe Hok Himg. cbn zeta. rewrite He.
    assert (Hset : env_override getenv d = (d, false, (env_override getenv d).2)).
    { unfold env_override.
      destruct (getenv "JULIA_IMAGE_THREADS"%string) as [v|]; [|done].
      now rewrite Himg. }
    rewrite Hset. unfold fallback_override. rewrite unset_same, Hfe, Hok.
    pose proof (rejected_false_nonzero _ Hok) as Hnz. simpl negb. rewrite andb_true_l.
    destruct (N.ltb_spec 1 d) as [Hd1|Hd1]; simpl.
    + destruct (N.ltb_spec (strtoul f).1 d) as [Hlt|Hge]; simpl.
      * rewrite wrap32_small by lia. split; [lia|]. intros _.
        apply elem_of_app. right. apply elem_of_cons. now left.
      * split; [lia|]. intros Hlt. lia.
    + split; [lia|]. intros Hlt. lia.
Qed.

Lemma thread_count_overrides_witness :
  (compute_image_thread_count 16 (sample_env (Some "6"%string) (Some "2"%string))
     (sample_info false 450 5000)) = (6, [Getenv "JULIA_IMAGE_THREADS"]) /\
  (compute_image_thread_count 16 (sample_env None (Some "2"%string))
     (sample_info false 450 5000)).1 = 2 /\
  (compute_image_thread_count 16 (sample_env (Some "x"%string) (Some "3"%string))
     (sample_info false 450 5000)).1 = 3.
Proof.
  pose proof (thread_count_overrides 16
                (sample_env (Some "6"%string) (Some "2"%string))
                (sample_info false 450 5000) eq_refl) as (_ & H & _).
  destruct (H "6"%string eq_refl eq_refl) as [H1 _].
  pose proof (thread_count_overrides 16 (sample_env None (Some "2"%string))
                (sample_info false 450 5000) eq_refl) as (_ & _ & _ & _ & H2).
  destruct (H2 "2"%string eq_refl eq_refl I) as [H2' _].
  pose proof (thread_count_overrides 16
                (sample_env (Some "x"%string) (Some "3"%string))
                (sample_info false 450 5000) eq_refl) as (_ & _ & _ & _ & H3).
  destruct (H3 "3"%string eq_refl eq_refl eq_refl) as [H3' _].
  split; [exact H1|]. split; [exact H2'|exact H3'].
Defined.

(** ** The thread count: range and fallbacks *)

Lemma default_threads_le_cap cpu info :
  default_threads cpu info <= globals info / 100.
Proof.
  unfold default_threads. cbn zeta.
  destruct (N.ltb_spec (globals info / 100) (wrap32 (Z.to_N (Z.max (cpu ÷ 2) 1)))) as [H|H].
  - unfold wrap32. apply N.Div0.mod_le.
  - exact H.
Qed.

Lemma env_override_lt getenv d :
  d < 2 ^ 32 -> (env_override getenv d).1.1 < 2 ^ 32.
Proof.
  intros Hd. unfold env_override. destruct (getenv _); [|done].
  destruct (rejected _); [done|]. simpl. apply wrap32_lt.
Qed.

(** Whatever the module, the hardware and the environment, the thread
    count returned is at least 1 and fits an unsigned. *)
Theorem thread_count_range cpu getenv info :
  1 <= (compute_image_thread_count cpu getenv info).1 < 2 ^ 32.
Proof.
  rewrite forced_single_unfold.
  destruct (forced_single info); [simpl; split; [lia|done]|].
  pose proof (env_override_lt getenv _ (default_threads_lt cpu info)) as Ht.
  destruct (env_override getenv (default_threads cpu info)) as [[t set] ev1].
  simpl in Ht.
  pose proof (fallback_override_le getenv set t) as Hle.
  destruct (fallback_override getenv set t) as [t1 ev2]. simpl in *.
  change (2 ^ 32) with 4294967296 in *. lia.
Qed.

(** A module with fewer than 200 definitions gets one thread unless
    JULIA_IMAGE_THREADS holds a well-formed value, and JULIA_CPU_THREADS is
    then not read. *)
Theorem small_module_single_thread cpu getenv info :
  globals info < 200 ->
  match getenv "JULIA_IMAGE_THREADS"%string with
  | Some v => rejected (strtoul v) = true
  | None => True
  end ->
  (compute_image_thread_count cpu getenv info).1 = 1 /\
  Getenv "JULIA_CPU_THREADS" ∉ (compute_image_thread_count cpu getenv info).2.
Proof.
  intros Hg He. rewrite forced_single_unfold.
  destruct (forced_single info).
  { split; [done|]. simpl. apply not_elem_of_nil. }
  pose proof (default_threads_le_cap cpu info) as Hcap.
  assert (Hq : globals info / 100 <= 1).
  { apply N.lt_succ_r. apply N.Div0.div_lt_upper_bound. exact Hg. }
  set (d := default_threads cpu info) in *.
  assert (Hov : env_override getenv d
                = (d, false, (env_override getenv d).2)).
  { unfold env_override.
    destruct (getenv "JULIA_IMAGE_THREADS"%string) as [v|]; [|done].
    now rewrite He. }
  rewrite Hov. unfold fallback_override.
  assert (Hd : (1 <? d) = false) by (apply N.ltb_ge; lia).
  rewrite Hd. simpl. split; [lia|].
  rewrite app_nil_r. unfold env_override.
  destruct (getenv "JULIA_IMAGE_THREADS"%string) as [v|].
  - rewrite He. simpl. intros Hin.
    apply elem_of_cons in Hin as [Hin|Hin]; [done|].
    apply elem_of_cons in Hin as [Hin|Hin]; [done|]. now apply elem_of_nil in Hin.
  - simpl. intros Hin.
    apply elem_of_cons in Hin as [Hin|Hin]; [done|]. now apply elem_of_nil in Hin.
Qed.

Lemma small_module_single_thread_witness :
  (compute_image_thread_count 64 (sample_env (Some "x"%string) (Some "8"%string))
     (sample_info false 150 5000)).1 = 1.
Proof.
  apply (small_module_single_thread 64
           (sample_env (Some "x"%string) (Some "8"%string))
           (sample_info false 150 5000)); vm_compute; reflexivity.
Defined.

(** A malformed JULIA_CPU_THREADS changes nothing but the output: the
    thread count is the one computed without the variable, and if it was
    read at all the warning about it was printed. *)
Theorem malformed_fallback_ignored cpu getenv info f :
  getenv "JULIA_CPU_THREADS"%string = Some f ->
  rejected (strtoul f) = true ->
  let res := compute_image_thread_count cpu getenv info in
  res.1 = (compute_image_thread_count cpu (unset "JULIA_CPU_THREADS" getenv) info).1 /\
  (Getenv "JULIA_CPU_THREADS" ∈ res.2 ->
   Warning (invalid_value f "JULIA_CPU_THREADS") ∈ res.2).
Proof.
  intros Hf Hrej res. subst res. rewrite !forced_single_unfold.
  destruct (forced_single info).
  { split; [done|]. simpl. intros Hin. now apply elem_of_nil in Hin. }
  set (d := default_threads cpu info).
  assert (He : env_override (unset "JULIA_CPU_THREADS" getenv) d = env_override getenv d).
  { unfold env_override. now rewrite unset_other. }
  rewrite He.
  assert (Hev : forall e, e ∈ (env_override getenv d).2 ->
                          e <> Getenv "JULIA_CPU_THREADS").
  { unfold env_override. intros e.
    destruct (getenv "JULIA_IMAGE_THREADS"%string) as [v|];
      [destruct (rejected (strtoul v))|];
      simpl; intros Hin;
      repeat (apply elem_of_cons in Hin as [->|Hin]; [done|]);
      now apply elem_of_nil in Hin. }
  destruct (env_override getenv d) as [[t set] ev1]. simpl in Hev.
  unfold fallback_override. rewrite unset_same, Hf, Hrej.
  destruct (negb set && (1 <? t)); simpl.
  - split; [done|]. intros _. apply elem_of_app. right.
    apply elem_of_cons. right. apply elem_of_cons. now left.
  - split; [done|]. rewrite app_nil_r. intros Hin. now apply Hev in Hin.
Qed.

Lemma malformed_fallback_ignored_witness :
  (compute_image_thread_count 16 (sample_env None (Some "2x"%string))
     (sample_info false 450 5000)).1 = 4.
Proof.
  destruct (malformed_fallback_ignored 16 (sample_env None (Some "2x"%string))
              (sample_info false 450 5000) "2x"%string eq_refl eq_refl) as [H _].
  rewrite H. vm_compute. reflexivity.
Defined.

(** ** The thread count of a light module *)

(** For the summary of a module whose definitions weigh less than 1000
    together, [compute_image_thread_count] returns 1, and it does so
    before it reads an environment variable or prints a warning. *)
Theorem light_module_single_thread cpu getenv coff gvs info :
  compute_module_info coff gvs = Some info ->
  defined_weight gvs < 1000 ->
  compute_image_thread_count cpu getenv info = (1, []).
Proof.
  intros Hinfo Hw.
  destruct (compute_module_info_weight coff gvs info Hinfo) as [Hwi _].
  { change (2 ^ 64) with 18446744073709551616. lia. }
  rewrite forced_single_unfold. unfold forced_single. rewrite Hwi.
  assert (Hlt : (defined_weight gvs <? 1000) = true) by now apply N.ltb_lt.
  rewrite Hlt. now rewrite orb_true_r.
Qed.

Lemma light_module_single_thread_witness :
  compute_image_thread_count 64 (sample_env (Some "8"%string) None)
    {| triple_isOSBinFormatCOFF := false; globals := 5; funcs := 3; bbs := 4;
       insts := 16; clones := 6; weight := 61 |} = (1, []).
Proof.
  apply (light_module_single_thread 64 (sample_env (Some "8"%string) None) false
           (global_values sample_module)); vm_compute; reflexivity.
Defined.

End ThreadCount.

(** ** Archive members *)

Lemma string_length_app s t :
  String.length (s +:+ t) = (String.length s + String.length t)%nat.
Proof.
  induction s as [|c s IH]; [done|].
  change (String c s +:+ t) with (String c (s +:+ t)). simpl. now rewrite IH.
Qed.

Lemma string_app_inv_tail t : forall s1 s2, s1 +:+ t = s2 +:+ t -> s1 = s2.
Proof.
  induction s1 as [|a s1 IH]; intros [|b s2] H; try done.
  - apply (f_equal String.length) in H.
    rewrite !string_length_app in H. simpl in H. lia.
  - apply (f_equal String.length) in H.
    rewrite !string_length_app in H. simpl in H. lia.
  - change (String a (s1 +:+ t) = String b (s2 +:+ t)) in H.
    inversion H as [[Hab Hs]]. f_equal. now apply IH.
Qed.

Lemma shard_name_inj prefix suffix : Inj (=) (=) (shard_name prefix suffix).
Proof.
  intros i j H. unfold shard_name in H.
  apply (inj (String.app "text")) in H.
  apply (inj (String.app prefix)) in H.
  apply (inj (String.app "#")) in H.
  apply string_app_inv_tail in H.
  apply (inj pretty) in H. lia.
Qed.

Lemma shard_members_run field prefix suffix data :
  mapM (shard_member data field prefix suffix) (seq 0 (length data)) =
    Some (imap (fun i out => {| filename := shard_name prefix suffix i;
                                buffer := field out |}) data).
Proof.
  apply mapM_Some_2. apply Forall2_same_length_lookup_2.
  - now rewrite length_seq, length_imap.
  - intros i x y Hx Hy. apply lookup_seq in Hx as [-> Hi]. simpl.
    rewrite list_lookup_imap in Hy. unfold shard_member.
    destruct (data !! i) as [out|]; [|done]. simpl in *. unfold shard_name in Hy. done.
Qed.

Lemma WRITE_ARCHIVE_run z data metadata sysimg fname field prefix suffix :
  length metadata = 1%nat -> length sysimg = (if z : bool then 1%nat else 0%nat) ->
  WRITE_ARCHIVE (length data) z data metadata sysimg fname field prefix suffix =
    Some (archive fname (listing field prefix suffix data metadata sysimg)).
Proof.
  intros Hm Hs. destruct fname as [f|]; [|done]. simpl.
  rewrite shard_members_run. simpl.
  destruct metadata as [|m [|? ?]]; try done. simpl.
  unfold listing. destruct z.
  - destruct sysimg as [|s [|? ?]]; try done.
  - destruct sysimg; done.
Qed.

Lemma listing_names z field prefix suffix data metadata sysimg :
  length metadata = 1%nat -> length sysimg = (if z : bool then 1%nat else 0%nat) ->
  filename <$> listing field prefix suffix data metadata sysimg =
    member_names prefix suffix (length data) z.
Proof.
  intros Hm Hs. unfold listing, member_names. rewrite !fmap_app. f_equal; [|f_equal].
  - apply list_eq. intros i.
    rewrite !list_lookup_fmap, list_lookup_imap.
    destruct (data !! i) as [out|] eqn:E; simpl.
    + rewrite (lookup_seq_lt 0 (length data) i); [done|].
      apply lookup_lt_is_Some. eauto.
    + rewrite lookup_seq_ge; [done|]. now apply lookup_ge_None.
  - destruct metadata as [|m [|? ?]]; done.
  - destruct z; [destruct sysimg as [|s [|? ?]]; done|destruct sysimg; done].
Qed.

(** [C10], as worded, fails: with one shard and only the object file
    requested, the archive is written, but its member names are not "text",
    a kind suffix, "#" and the index followed by "metadata", whatever the
    kind suffix: the first member is text#0.o. *)
Lemma member_names_not_as_claimed :
  exists members,
    write_archives 1 false [sample_output "0"] [sample_output "m"] []
      None None (Some "image.a"%string) None = Some [("image.a"%string, members)] /\
    forall kind_suffix, filename <$> members <> claimed_names kind_suffix 1 false.
Proof.
  eexists. split; [vm_compute; reflexivity|].
  intros ks H. apply (f_equal head) in H.
  destruct ks as [|c1 [|c2 [|c3 [|c4 [|c5 ks]]]]]; cbv in H; congruence.
Qed.

(** [C10], amended: for each kind with a file name one archive is written,
    in the order unopt, opt, obj, asm, and none for a kind without one.  Its
    members are the shard buffers in ascending index order, named "text",
    kind prefix, "#", the decimal index and the file extension, then the
    metadata buffer named "metadata", kind prefix and extension, then the
    system-image buffer named "sysimg", kind prefix and extension exactly
    when [z] is given.  The shard names of one archive are pairwise
    distinct. *)
Theorem archive_listing threads z data metadata sysimg fu fb fo fa :
  length data = threads -> length metadata = 1%nat ->
  length sysimg = (if z : bool then 1%nat else 0%nat) ->
  write_archives threads z data metadata sysimg fu fb fo fa =
    Some (archive fu (listing unopt "_unopt" ".bc" data metadata sysimg)
          ++ archive fb (listing opt "_opt" ".bc" data metadata sysimg)
          ++ archive fo (listing obj EmptyString ".o" data metadata sysimg)
          ++ archive fa (listing asm_ EmptyString ".s" data metadata sysimg)) /\
  forall field prefix suffix,
    let members := listing field prefix suffix data metadata sysimg in
    filename <$> members = member_names prefix suffix threads z /\
    length members = (threads + 1 + (if z then 1 else 0))%nat /\
    (forall i out, data !! i = Some out ->
       members !! i = Some {| filename := shard_name prefix suffix i;
                              buffer := field out |}) /\
    NoDup (shard_name prefix suffix <$> seq 0 threads).
Proof.
  intros <- Hm Hs. split.
  - unfold write_archives. rewrite !(WRITE_ARCHIVE_run z) by done. done.
  - intros field prefix suffix members. split_and!.
    + now apply listing_names.
    + unfold members, listing. rewrite !length_app, length_imap, !length_fmap, Hm, Hs. lia.
    + intros i out Hi. unfold members, listing.
      rewrite lookup_app_l by (rewrite length_imap; apply lookup_lt_is_Some; eauto).
      rewrite list_lookup_imap, Hi. done.
    + apply NoDup_fmap_2; [apply shard_name_inj|apply NoDup_seq].
Qed.

Lemma archive_listing_witness :
  exists members,
    write_archives 2 true [sample_output "0"; sample_output "1"] [sample_output "m"]
      [sample_output "z"] None None (Some "image.a"%string) None
    = Some [("image.a"%string, members)] /\
    filename <$> members =
      ["text#0.o"; "text#1.o"; "metadata.o"; "sysimg.o"]%string.
Proof.
  destruct (archive_listing 2 true [sample_output "0"; sample_output "1"]
              [sample_output "m"] [sample_output "z"]
              None None (Some "image.a"%string) None eq_refl eq_refl eq_refl)
    as [Hrun Hnames].
  eexists. split; [exact Hrun|].
  destruct (Hnames obj EmptyString ".o"%string) as [Hn _]. rewrite Hn.
  vm_compute. reflexivity.
Defined.

(** ** Safe names *)

Lemma all_ascii_complete c : c ∈ all_ascii.
Proof.
  unfold all_ascii. apply list_elem_of_fmap. exists (nat_of_ascii c). split.
  - symmetry. apply ascii_nat_embedding.
  - apply elem_of_seq. pose proof (nat_ascii_bounded c). lia.
Qed.

Lemma check_all_ascii (P : ascii -> bool) :
  forallb P all_ascii = true -> forall c, P c = true.
Proof.
  intros H c. rewrite forallb_forall in H. apply H.
  apply list_elem_of_In, all_ascii_complete.
Qed.

Lemma mangled_cons c l : mangled (c :: l) = pushed c ++ mangled l.
Proof. reflexivity. Qed.

Lemma foldl_pushed l acc :
  foldl (fun acc c => acc ++ pushed c) acc l = acc ++ mangled l.
Proof.
  revert acc. induction l as [|c l IH]; intros acc.
  - simpl. now rewrite app_nil_r.
  - cbn [foldl]. rewrite IH, mangled_cons. now rewrite app_assoc.
Qed.

Lemma pushed_safe c : is_safe_char c = true -> pushed c = [c].
Proof. intros H. unfold pushed. now rewrite H. Qed.

Lemma pushed_unsafe_length c :
  is_safe_char c = false -> (3 <= length (pushed c))%nat.
Proof.
  intros H. unfold pushed. rewrite H.
  destruct (common_name c); [|simpl; lia].
  rewrite !length_app. simpl. lia.
Qed.

Lemma pushed_nonempty c : pushed c <> [].
Proof.
  destruct (is_safe_char c) eqn:E.
  - now rewrite pushed_safe.
  - pose proof (pushed_unsafe_length c E). destruct (pushed c); simpl in *; [lia|done].
Qed.

Lemma mangled_length l : (length l <= length (mangled l))%nat.
Proof.
  induction l as [|c l IH]; [apply Nat.le_refl|].
  rewrite mangled_cons, length_app. cbn [length].
  destruct (is_safe_char c) eqn:E.
  - rewrite pushed_safe by done. cbn [length]. lia.
  - pose proof (pushed_unsafe_length c E). lia.
Qed.

Lemma mangled_same_length l :
  length (mangled l) = length l -> Forall (fun c => is_safe_char c = true) l.
Proof.
  induction l as [|c l IH]; intros H; [constructor|].
  rewrite mangled_cons, length_app in H. cbn [length] in H.
  pose proof (mangled_length l) as Hl.
  destruct (is_safe_char c) eqn:E.
  - rewrite pushed_safe in H by done. cbn [length] in H. constructor; [done|].
    apply IH. lia.
  - pose proof (pushed_unsafe_length c E). lia.
Qed.

Lemma mangled_all_safe l :
  Forall (fun c => is_safe_char c = true) l -> mangled l = l.
Proof.
  induction 1 as [|c l Hc _ IH]; [done|].
  rewrite mangled_cons, pushed_safe by done. simpl. now rewrite IH.
Qed.

Lemma string_length_list s :
  String.length s = length (String.list_ascii_of_string s).
Proof. induction s as [|c s IH]; simpl; [done|]. now rewrite IH. Qed.

(** Whatever the branch taken, the name is the mangled one. *)
Lemma makeSafeName_mangled Name :
  String.list_ascii_of_string (makeSafeName Name)
  = mangled (String.list_ascii_of_string Name).
Proof.
  unfold makeSafeName. rewrite foldl_pushed. simpl.
  case_bool_decide as Hlen.
  - apply String.list_ascii_of_string_of_list_ascii.
  - symmetry. apply mangled_all_safe, mangled_same_length.
    rewrite string_length_list in Hlen. exact Hlen.
Qed.

Lemma pushed_chars : forall c, forallb safe_or_dot (pushed c) = true.
Proof. apply check_all_ascii. vm_compute. reflexivity. Qed.

Lemma pushed_suffix_free_check :
  forallb (fun c1 => forallb (no_suffix_clash c1) all_ascii) all_ascii = true.
Proof. vm_compute. reflexivity. Qed.

Lemma pushed_suffix_free c1 c2 :
  pushed c1 `suffix_of` pushed c2 -> c1 = c2.
Proof.
  intros Hs.
  pose proof (check_all_ascii _ pushed_suffix_free_check c1) as H1. simpl in H1.
  pose proof (check_all_ascii _ H1 c2) as H2. unfold no_suffix_clash in H2.
  apply orb_prop in H2 as [H2|H2].
  - now apply bool_decide_eq_true in H2.
  - apply negb_true_iff, bool_decide_eq_false in H2. exfalso. apply H2.
    now apply suffix_prefix_reverse.
Qed.

Lemma mangled_snoc l c : mangled (l ++ [c]) = mangled l ++ pushed c.
Proof.
  unfold mangled. rewrite fmap_app, join_app. simpl. now rewrite app_nil_r.
Qed.

Lemma mangled_nil_inv l : mangled l = [] -> l = [].
Proof.
  destruct l as [|c l]; [done|]. rewrite mangled_cons. intros H.
  apply app_eq_nil in H as [H _]. now apply pushed_nonempty in H.
Qed.

Lemma mangled_inj : forall l1 l2, mangled l1 = mangled l2 -> l1 = l2.
Proof.
  induction l1 as [|c1 l1 IH] using rev_ind; intros l2 H.
  - symmetry. apply mangled_nil_inv. now rewrite <- H.
  - destruct l2 as [|c2 l2 _] using rev_ind.
    { apply mangled_nil_inv in H. done. }
    rewrite !mangled_snoc in H.
    assert (Hc : c1 = c2).
    { destruct (suffix_weak_total (pushed c1) (pushed c2) (mangled l1 ++ pushed c1))
        as [Hs|Hs].
      - apply suffix_app_r. done.
      - rewrite H. apply suffix_app_r. done.
      - now apply pushed_suffix_free.
      - symmetry. now apply pushed_suffix_free. }
    subst c2. apply app_inv_tail in H. f_equal. now apply IH.
Qed.

Lemma safe_or_dot_mangled l : Forall (fun c => safe_or_dot c = true) (mangled l).
Proof.
  induction l as [|c l IH]; [constructor|].
  rewrite mangled_cons. apply Forall_app. split; [|done].
  apply Forall_forall. intros x Hx.
  pose proof (pushed_chars c) as Hc. rewrite forallb_forall in Hc.
  apply Hc. now apply list_elem_of_In.
Qed.

(** Every byte of the name that [makeSafeName] leaves is a safe character
    or a dot: a digit, a letter, an underscore, a dollar sign or a byte
    from 128 to 254. *)
Theorem makeSafeName_bytes Name :
  Forall (fun c => safe_or_dot c = true)
         (String.list_ascii_of_string (makeSafeName Name)).
Proof. rewrite makeSafeName_mangled. apply safe_or_dot_mangled. Qed.

(** [makeSafeName] leaves a name as it is exactly when every byte of it is
    a safe character. *)
Theorem makeSafeName_unchanged Name :
  makeSafeName Name = Name <->
  Forall (fun c => is_safe_char c = true) (String.list_ascii_of_string Name).
Proof.
  split.
  - intros H. apply mangled_same_length.
    rewrite <- makeSafeName_mangled, H. done.
  - intros H. apply mangled_all_safe in H.
    rewrite <- makeSafeName_mangled in H.
    apply (f_equal String.string_of_list_ascii) in H.
    now rewrite !String.string_of_list_ascii_of_string in H.
Qed.

(** The renaming is reversible: two different names are never given the
    same safe name. *)
Theorem makeSafeName_inj Name1 Name2 :
  makeSafeName Name1 = makeSafeName Name2 -> Name1 = Name2.
Proof.
  intros H. apply (f_equal String.list_ascii_of_string) in H.
  rewrite !makeSafeName_mangled in H. apply mangled_inj in H.
  apply (f_equal String.string_of_list_ascii) in H.
  now rewrite !String.string_of_list_ascii_of_string in H.
Qed.

Lemma makeSafeName_inj_witness :
  makeSafeName "a.b" = "aDOT.b"%string /\ "a.b"%string = "a.b"%string.
Proof.
  split; [vm_compute; reflexivity|].
  apply (makeSafeName_inj "a.b" "a.b"). reflexivity.
Defined.
